(** * Local search core of the constraint solver: operators, filters, driver

    Shallow embedding of [constraint_solver/local_search.cc]: the delta
    protocol of [IntVarLocalSearchOperator], the chain check of
    [PathOperator], [MoveTowardTargetLS], [CompoundOperator], the
    aggregation operations and the objective filter, and the counters of
    [FindOneNeighbor::Next].  Definitions come first, one module per class of
    the source; the theorems about them follow. *)

From Stdlib Require Import ZArith Lia List Bool.
From stdpp Require Import base numbers option list gmap sorting.

(** ** 64-bit integers *)

Module Int64.
Local Open Scope Z_scope.

Definition kint64max : Z := 2 ^ 63 - 1.
Definition kint64min : Z := - 2 ^ 63.

(** Two's complement wrap-around of an [int64] result. *)
Definition wrap (z : Z) : Z := (z + 2 ^ 63) mod 2 ^ 64 - 2 ^ 63.
End Int64.

(** ** Variables and assignments *)

(** [IntVar*]: variables are compared by address only, so a handle is a
    number. *)
Definition IntVar : Type := nat.

Module IntVarElement.
(** Modelled from the spec: the element class is declared in
    constraint_solver.h, which is not among the sources; an element is a
    (variable, value, activated) triple, and a freshly added one is
    activated. *)
Record t : Type := Build { Var : IntVar; Value : Z; Activated : bool }.

Definition Reset (var : IntVar) : t := Build var 0%Z true.
Definition SetValue (v : Z) (e : t) : t := Build (Var e) v (Activated e).
Definition Deactivate (e : t) : t := Build (Var e) (Value e) false.
End IntVarElement.

Module Assignment.
(** Modelled from the spec: the assignment class is declared in
    constraint_solver.h; it is a container of elements kept in insertion
    order, with optional objective fields. *)
Record t : Type := Build {
  IntVarContainer : list IntVarElement.t;
  Objective : option IntVar;
  ObjectiveMin : Z;
  ObjectiveMax : Z
}.

Definition empty : t := Build [] None 0%Z 0%Z.

Definition with_container (c : list IntVarElement.t) (a : t) : t :=
  Build c (Objective a) (ObjectiveMin a) (ObjectiveMax a).

Definition Size (a : t) : nat := length (IntVarContainer a).
Definition Empty (a : t) : bool :=
  match IntVarContainer a with [] => true | _ => false end.
Definition Clear (a : t) : t := empty.

(** [container.Element(i)] *)
Definition Element (a : t) (i : nat) : option IntVarElement.t :=
  IntVarContainer a !! i.

(** [container.Contains(var)] and [container.Element(var)] *)
Definition Contains (a : t) (var : IntVar) : bool :=
  existsb (fun e => Nat.eqb (IntVarElement.Var e) var) (IntVarContainer a).
Definition ElementOf (a : t) (var : IntVar) : option IntVarElement.t :=
  find (fun e => Nat.eqb (IntVarElement.Var e) var) (IntVarContainer a).

(** [a->FastAdd(var).init()]: a slot is reserved at the end, without a
    duplicate check, and the returned element is set up by [init]. *)
Definition FastAdd (var : IntVar) (init : IntVarElement.t -> IntVarElement.t)
    (a : t) : t :=
  with_container (IntVarContainer a ++ [init (IntVarElement.Reset var)]) a.
End Assignment.

(** ** Bitmaps *)

Module Bitmap.
Definition Get (b : list bool) (i : nat) : bool := default false (b !! i).
Definition SetBit (b : list bool) (i : nat) (v : bool) : list bool :=
  <[i:=v]> b.
Definition SetAll (b : list bool) (v : bool) : list bool :=
  replicate (length b) v.
End Bitmap.

(** ** IntVarLocalSearchOperator *)

Module IntVarLocalSearchOperator.

(** The fields of the base class; [derived_] holds the fields a subclass
    adds. *)
Record t (X : Type) : Type := Build {
  vars_ : list IntVar;
  values_ : list Z;
  old_values_ : list Z;
  activated_ : list bool;
  was_activated_ : list bool;
  has_changed_ : list bool;
  has_delta_changed_ : list bool;
  changes_ : list nat;
  cleared_ : bool;
  derived_ : X
}.
Arguments Build {X}.
Arguments vars_ {X}.
Arguments values_ {X}.
Arguments old_values_ {X}.
Arguments activated_ {X}.
Arguments was_activated_ {X}.
Arguments has_changed_ {X}.
Arguments has_delta_changed_ {X}.
Arguments changes_ {X}.
Arguments cleared_ {X}.
Arguments derived_ {X}.

(** The virtual methods a subclass provides.  [IsIncremental] stands
    apart: [RevertChanges] asks it, and a subclass may call
    [RevertChanges] from its own [MakeOneNeighbor].  [MakeOneNeighbor] and
    [OnStart] answer [None] when they do not return: a loop that runs out
    of the fuel it is given, a failed CHECK. *)
Class Incremental (X : Type) : Type := IsIncremental : bool.

Class Virtual (X : Type) {Inc : Incremental X} : Type := {
  SkipUnchanged : t X -> nat -> bool;
  MakeOneNeighbor : nat -> t X -> option (bool * t X);
  OnStart : t X -> option (t X)
}.

Section Base.
Context {X : Type}.

(** The constructor followed by [AddVars(vars, size)]: the value arrays
    are allocated without being initialised, the bitmaps are all false. *)
Definition Create (vars : list IntVar) (uninit uninit_old : list Z)
    (d : X) : t X :=
  let n := length vars in
  Build vars (take n (uninit ++ replicate n 0%Z))
        (take n (uninit_old ++ replicate n 0%Z))
        (replicate n false) (replicate n false)
        (replicate n false) (replicate n false) [] true d.

Definition with_values (v : list Z) (op : t X) : t X :=
  Build (vars_ op) v (old_values_ op) (activated_ op) (was_activated_ op)
        (has_changed_ op) (has_delta_changed_ op) (changes_ op)
        (cleared_ op) (derived_ op).
Definition with_old_values (v : list Z) (op : t X) : t X :=
  Build (vars_ op) (values_ op) v (activated_ op) (was_activated_ op)
        (has_changed_ op) (has_delta_changed_ op) (changes_ op)
        (cleared_ op) (derived_ op).
Definition with_activated (b : list bool) (op : t X) : t X :=
  Build (vars_ op) (values_ op) (old_values_ op) b (was_activated_ op)
        (has_changed_ op) (has_delta_changed_ op) (changes_ op)
        (cleared_ op) (derived_ op).
Definition with_was_activated (b : list bool) (op : t X) : t X :=
  Build (vars_ op) (values_ op) (old_values_ op) (activated_ op) b
        (has_changed_ op) (has_delta_changed_ op) (changes_ op)
        (cleared_ op) (derived_ op).
Definition with_has_changed (b : list bool) (op : t X) : t X :=
  Build (vars_ op) (values_ op) (old_values_ op) (activated_ op)
        (was_activated_ op) b (has_delta_changed_ op) (changes_ op)
        (cleared_ op) (derived_ op).
Definition with_has_delta_changed (b : list bool) (op : t X) : t X :=
  Build (vars_ op) (values_ op) (old_values_ op) (activated_ op)
        (was_activated_ op) (has_changed_ op) b (changes_ op)
        (cleared_ op) (derived_ op).
Definition with_changes (c : list nat) (op : t X) : t X :=
  Build (vars_ op) (values_ op) (old_values_ op) (activated_ op)
        (was_activated_ op) (has_changed_ op) (has_delta_changed_ op) c
        (cleared_ op) (derived_ op).
Definition with_cleared (c : bool) (op : t X) : t X :=
  Build (vars_ op) (values_ op) (old_values_ op) (activated_ op)
        (was_activated_ op) (has_changed_ op) (has_delta_changed_ op)
        (changes_ op) c (derived_ op).
Definition with_derived (d : X) (op : t X) : t X :=
  Build (vars_ op) (values_ op) (old_values_ op) (activated_ op)
        (was_activated_ op) (has_changed_ op) (has_delta_changed_ op)
        (changes_ op) (cleared_ op) d.

(** Accessors of the header.  Reading past the end of an array is
    undefined in the source; here it yields 0 (or variable 0). *)
Definition Size (op : t X) : nat := length (vars_ op).
Definition Var (op : t X) (index : nat) : IntVar :=
  default 0 (vars_ op !! index).
Definition Value (op : t X) (index : nat) : Z :=
  default 0%Z (values_ op !! index).
Definition OldValue (op : t X) (index : nat) : Z :=
  default 0%Z (old_values_ op !! index).
Definition Activated (op : t X) (index : nat) : bool :=
  Bitmap.Get (activated_ op) index.

Definition MarkChange (index : nat) (op : t X) : t X :=
  let op :=
    if negb (Bitmap.Get (has_delta_changed_ op) index)
    then with_has_delta_changed
           (Bitmap.SetBit (has_delta_changed_ op) index true) op
    else op in
  if negb (Bitmap.Get (has_changed_ op) index)
  then with_has_changed (Bitmap.SetBit (has_changed_ op) index true)
         (with_changes (changes_ op ++ [index]) op)
  else op.

Definition SetValue (index : nat) (value : Z) (op : t X) : t X :=
  MarkChange index (with_values (<[index:=value]> (values_ op)) op).

Definition Activate (index : nat) (op : t X) : t X :=
  MarkChange index
    (with_activated (Bitmap.SetBit (activated_ op) index true) op).

Definition Deactivate (index : nat) (op : t X) : t X :=
  MarkChange index
    (with_activated (Bitmap.SetBit (activated_ op) index false) op).

Context {Inc : Incremental X} {V : Virtual X}.

(** One round of the loop of [Start]: [None] is a failed CHECK. *)
Definition Start_body (assignment : Assignment.t)
    (acc : option (t X)) (i : nat) : option (t X) :=
  op ← acc;
  element ← Assignment.Element assignment i;
  let var := Var op i in
  element ←
    (if decide (IntVarElement.Var element = var) then Some element
     else if Assignment.Contains assignment var
          then Assignment.ElementOf assignment var
          else None);
  let value := IntVarElement.Value element in
  let op := with_values (<[i:=value]> (values_ op)) op in
  let op := with_old_values (<[i:=value]> (old_values_ op)) op in
  let activated := IntVarElement.Activated element in
  let op := with_activated (Bitmap.SetBit (activated_ op) i activated) op in
  Some (with_was_activated
          (Bitmap.SetBit (was_activated_ op) i activated) op).

Definition Start (assignment : Assignment.t) (op : t X) : option (t X) :=
  let size := Size op in
  if decide (size <= Assignment.Size assignment)%nat
  then op ← foldl (Start_body assignment) (Some op) (seq 0 size);
       OnStart op
  else None.

Definition ApplyChanges_body (op : t X)
    (acc : Assignment.t * Assignment.t) (index : nat)
    : Assignment.t * Assignment.t :=
  let '(delta, deltadelta) := acc in
  let var := Var op index in
  let value := Value op index in
  let activated := Bitmap.Get (activated_ op) index in
  if negb activated then
    let deltadelta :=
      if negb (cleared_ op) && Bitmap.Get (has_delta_changed_ op) index
         && IsIncremental
      then Assignment.FastAdd var IntVarElement.Deactivate deltadelta
      else deltadelta in
    (Assignment.FastAdd var IntVarElement.Deactivate delta, deltadelta)
  else if negb (value =? OldValue op index)%Z
          || negb (SkipUnchanged op index) then
    let deltadelta :=
      if negb (cleared_ op) && Bitmap.Get (has_delta_changed_ op) index
         && IsIncremental
      then Assignment.FastAdd var (IntVarElement.SetValue value) deltadelta
      else deltadelta in
    (Assignment.FastAdd var (IntVarElement.SetValue value) delta,
     deltadelta)
  else (delta, deltadelta).

Definition ApplyChanges (op : t X) (delta deltadelta : Assignment.t)
    : bool * Assignment.t * Assignment.t :=
  let '(delta, deltadelta) :=
    foldl (ApplyChanges_body op) (delta, deltadelta) (changes_ op) in
  (true, delta, deltadelta).

Definition RevertChanges_body (op : t X) (index : nat) : t X :=
  let op :=
    with_values (<[index:=OldValue op index]> (values_ op)) op in
  let op :=
    with_activated
      (Bitmap.SetBit (activated_ op) index
         (Bitmap.Get (was_activated_ op) index)) op in
  with_has_changed (Bitmap.SetBit (has_changed_ op) index false) op.

Definition RevertChanges (incremental : bool) (op : t X) : t X :=
  let op := with_cleared false op in
  let op :=
    with_has_delta_changed
      (Bitmap.SetAll (has_delta_changed_ op) false) op in
  if incremental && IsIncremental then op
  else
    let op := with_cleared true op in
    let op := foldl RevertChanges_body op (changes_ op) in
    with_changes [] op.

(** [MakeNextNeighbor], with its [while (true)] loop run on fuel;
    [None] only when the fuel is used up, here or in [MakeOneNeighbor]. *)
Fixpoint MakeNextNeighbor (fuel : nat) (op : t X)
    (delta deltadelta : Assignment.t)
    : option (bool * t X * Assignment.t * Assignment.t) :=
  match fuel with
  | O => None
  | S fuel =>
      let op := RevertChanges true op in
      '(found, op) ← MakeOneNeighbor fuel op;
      if negb found then Some (false, op, delta, deltadelta)
      else
        let '(applied, delta, deltadelta) :=
          ApplyChanges op delta deltadelta in
        if applied then Some (true, op, delta, deltadelta)
        else MakeNextNeighbor fuel op delta deltadelta
  end.

End Base.
End IntVarLocalSearchOperator.

(** The contract of [ApplyChanges] as the specification words it: which
    element an index of the change list contributes to the delta, and when
    that element is mirrored into the delta of deltas. *)
Module DeltaContract.
Import IntVarLocalSearchOperator.

Section Contract.
Context {X : Type} {Inc : Incremental X} {V : Virtual X}.

(** A [Deactivate(var[i])] element, and a [SetValue(var[i], value[i])]
    element. *)
Definition DeactivateElement (op : t X) (i : nat) : IntVarElement.t :=
  IntVarElement.Build (Var op i) 0%Z false.
Definition SetValueElement (op : t X) (i : nat) : IntVarElement.t :=
  IntVarElement.Build (Var op i) (Value op i) true.

Definition delta_element (op : t X) (i : nat) : option IntVarElement.t :=
  if negb (Activated op i) then Some (DeactivateElement op i)
  else if decide (Value op i ≠ OldValue op i ∨ SkipUnchanged op i = false)
       then Some (SetValueElement op i)
       else None.

(** "incremental, not cleared, and has_delta_changed[i]" *)
Definition mirrored (op : t X) (i : nat) : bool :=
  IsIncremental && negb (cleared_ op)
  && Bitmap.Get (has_delta_changed_ op) i.

Definition deltadelta_element (op : t X) (i : nat)
    : option IntVarElement.t :=
  if mirrored op i then delta_element op i else None.

Definition delta_elements (op : t X) : list IntVarElement.t :=
  omap (delta_element op) (changes_ op).
Definition deltadelta_elements (op : t X) : list IntVarElement.t :=
  omap (deltadelta_element op) (changes_ op).

Definition append (l : list IntVarElement.t) (a : Assignment.t)
    : Assignment.t :=
  Assignment.with_container (Assignment.IntVarContainer a ++ l) a.

(** The operator is in the reference state. *)
Definition reference_state (op : t X) : Prop :=
  (∀ i, (i < Size op)%nat →
        Value op i = OldValue op i ∧
        Activated op i = Bitmap.Get (was_activated_ op) i)
  ∧ changes_ op = [].

(** Invariant of the staging arrays: they all have [Size] entries,
    [has_changed_] marks exactly the indices of the change list, and an
    index outside the list still has its reference value and
    activation. *)
Record staged (op : t X) : Prop := {
  staged_values : length (values_ op) = Size op;
  staged_old_values : length (old_values_ op) = Size op;
  staged_activated : length (activated_ op) = Size op;
  staged_was_activated : length (was_activated_ op) = Size op;
  staged_has_changed : length (has_changed_ op) = Size op;
  staged_marked :
    ∀ i, Bitmap.Get (has_changed_ op) i = true ↔ i ∈ changes_ op;
  staged_in_range : ∀ i, i ∈ changes_ op → (i < Size op)%nat;
  staged_unchanged :
    ∀ i, i ∉ changes_ op →
         Value op i = OldValue op i ∧
         Activated op i = Bitmap.Get (was_activated_ op) i
}.

(** The same invariant, stated over the tracked indices only, which
    makes it decidable. *)
Definition staged_on_range (op : t X) : Prop :=
  (length (values_ op) = Size op
   ∧ length (old_values_ op) = Size op
   ∧ length (activated_ op) = Size op
   ∧ length (was_activated_ op) = Size op
   ∧ length (has_changed_ op) = Size op)
  ∧ Forall (λ i, (i < Size op)%nat) (changes_ op)
  ∧ Forall (λ i, (Bitmap.Get (has_changed_ op) i = true
                  ↔ i ∈ changes_ op)
                 ∧ (i ∉ changes_ op →
                    Value op i = OldValue op i
                    ∧ Activated op i
                      = Bitmap.Get (was_activated_ op) i))
           (seq 0 (Size op)).

#[global] Instance staged_on_range_dec (op : t X) :
  Decision (staged_on_range op).
Proof. unfold staged_on_range. apply _. Defined.

(** Two states stage the same candidate over the same reference. *)
Definition same_staging (op1 op2 : t X) : Prop :=
  vars_ op1 = vars_ op2
  ∧ values_ op1 = values_ op2
  ∧ old_values_ op1 = old_values_ op2
  ∧ activated_ op1 = activated_ op2
  ∧ was_activated_ op1 = was_activated_ op2
  ∧ changes_ op1 = changes_ op2.

(** The mutators an operator stages its changes with. *)
Inductive Mutation : Type :=
| DoSetValue (index : nat) (value : Z)
| DoActivate (index : nat)
| DoDeactivate (index : nat).

Definition mutate (op : t X) (m : Mutation) : t X :=
  match m with
  | DoSetValue index value => SetValue index value op
  | DoActivate index => Activate index op
  | DoDeactivate index => Deactivate index op
  end.

Definition stage (ms : list Mutation) (op : t X) : t X :=
  foldl mutate op ms.

(** The index a mutator stages at. *)
Definition mutation_index (m : Mutation) : nat :=
  match m with
  | DoSetValue index _ => index
  | DoActivate index => index
  | DoDeactivate index => index
  end.

(** What [MarkChange] does to the change list: an index that is marked
    as changed is in the list already. *)
Definition add_change (c : list nat) (i : nat) : list nat :=
  if decide (i ∈ c) then c else c ++ [i].

(** The arrays have one entry per variable, as [AddVars] allocates
    them. *)
Definition in_shape (op : t X) : Prop :=
  length (values_ op) = Size op
  ∧ length (old_values_ op) = Size op
  ∧ length (activated_ op) = Size op
  ∧ length (was_activated_ op) = Size op.

(** The element [Start] loads index [i] of [op'] from: an element of the
    assignment about the variable of the operator, the one in slot [i]
    when that one is about the variable. *)
Definition loaded_from (a : Assignment.t) (op op' : t X) (i : nat)
    (e : IntVarElement.t) : Prop :=
  e ∈ Assignment.IntVarContainer a
  ∧ IntVarElement.Var e = Var op i
  ∧ (∀ e0, Assignment.Element a i = Some e0 →
           IntVarElement.Var e0 = Var op i → e = e0)
  ∧ Value op' i = IntVarElement.Value e
  ∧ OldValue op' i = IntVarElement.Value e
  ∧ Activated op' i = IntVarElement.Activated e
  ∧ Bitmap.Get (was_activated_ op') i = IntVarElement.Activated e.

(** The element that says what the staged candidate holds at index
    [i]: its value when the variable is activated, a deactivation
    otherwise. *)
Definition candidate_element (op : t X) (i : nat) : IntVarElement.t :=
  if Activated op i then SetValueElement op i else DeactivateElement op i.

(** The staged candidate is not the reference at index [i]. *)
Definition off_reference (op : t X) (i : nat) : Prop :=
  Value op i ≠ OldValue op i
  ∨ Activated op i ≠ Bitmap.Get (was_activated_ op) i.

(** The elements [l] describe the staged candidate: each of them says
    what the candidate holds at an index of the change list, and there is
    one for every tracked index at which the candidate is not the
    reference, but for a variable that is activated at its reference
    value and that [SkipUnchanged] lets out. *)
Definition describes_candidate (op : t X) (l : list IntVarElement.t)
    : Prop :=
  (∀ e, e ∈ l →
        ∃ i, (i < Size op)%nat ∧ i ∈ changes_ op
             ∧ e = candidate_element op i)
  ∧ ∀ i, (i < Size op)%nat → off_reference op i →
         (Activated op i = true → Value op i = OldValue op i →
          SkipUnchanged op i = false) →
         candidate_element op i ∈ l.

(** What a subclass can do to the state of the base class: stage with a
    mutator at a tracked index, call [RevertChanges], or write its own
    fields. *)
Inductive staging_step (op : t X) : t X → Prop :=
| step_mutate (m : Mutation) :
    (mutation_index m < Size op)%nat → staging_step op (mutate op m)
| step_revert (incremental : bool) :
    staging_step op (RevertChanges incremental op)
| step_fields (d : X) : staging_step op (with_derived d op).
End Contract.
End DeltaContract.

(** ** MoveTowardTargetLS *)

Module MoveTowardTargetLS.
Import IntVarLocalSearchOperator.
Local Open Scope Z_scope.

Record fields : Type := Fields {
  target_ : list Z;
  variable_index_ : Z;
  num_var_since_last_start_ : Z
}.

Definition with_variable_index (i : Z) (op : t fields) : t fields :=
  with_derived (Fields (target_ (derived_ op)) i
                  (num_var_since_last_start_ (derived_ op))) op.
Definition with_num_var (n : Z) (op : t fields) : t fields :=
  with_derived (Fields (target_ (derived_ op))
                  (variable_index_ (derived_ op)) n) op.

(** The constructor: [variable_index_] starts at [Size() - 1], the
    counter is not initialised ([garbage]), and the CHECK_EQ on the sizes
    can fail.  [uninit] and [uninit_old] are what the freshly allocated
    value arrays hold. *)
Definition Create (variables : list IntVar) (target_values : list Z)
    (uninit uninit_old : list Z) (garbage : Z) : option (t fields) :=
  if decide (length target_values = length variables)
  then Some (IntVarLocalSearchOperator.Create variables uninit uninit_old
               (Fields target_values (Z.of_nat (length variables) - 1)
                  garbage))
  else None.

(** [MakeOneNeighbor], with its [while] loop run on fuel; [None] only
    when the fuel is used up.  Every round increments the counter, so
    [Size() - num_var_since_last_start_] rounds are enough; [target_.at]
    cannot throw, the sizes being equal. *)
Fixpoint MakeOneNeighbor (fuel : nat) (op : t fields)
    : option (bool * t fields) :=
  if num_var_since_last_start_ (derived_ op) <? Z.of_nat (Size op) then
    match fuel with
    | O => None
    | S fuel =>
        let op := with_num_var
                    (num_var_since_last_start_ (derived_ op) + 1) op in
        let op := with_variable_index
                    (Z.rem (variable_index_ (derived_ op) + 1)
                       (Z.of_nat (Size op))) op in
        let index := Z.to_nat (variable_index_ (derived_ op)) in
        let target_value := default 0 (target_ (derived_ op) !! index) in
        let current_value := OldValue op index in
        if negb (current_value =? target_value)
        then Some (true, SetValue index target_value op)
        else MakeOneNeighbor fuel op
    end
  else Some (false, op).

Definition OnStart (op : t fields) : option (t fields) :=
  if decide (0 <= variable_index_ (derived_ op)
             ∧ variable_index_ (derived_ op) < Z.of_nat (Size op))
  then Some (with_num_var 0 op)
  else None.

(** [IsIncremental] and [SkipUnchanged] are not overridden: the defaults
    of constraint_solveri.h answer false. *)
#[global] Instance incremental : Incremental fields := false.

#[global] Instance virtual : Virtual fields := {
  SkipUnchanged := fun _ _ => false;
  IntVarLocalSearchOperator.MakeOneNeighbor := MakeOneNeighbor;
  IntVarLocalSearchOperator.OnStart := OnStart
}.

(** The index the scan looks at in its [j]-th round from where the
    cursor stands. *)
Definition scan (op : t fields) (j : Z) : nat :=
  Z.to_nat ((variable_index_ (derived_ op) + j) mod Z.of_nat (Size op)).

(** The variable of an index has its target value in the reference. *)
Definition at_target (op : t fields) (index : nat) : Prop :=
  OldValue op index = default 0 (target_ (derived_ op) !! index).

(** The rounds that are left in the episode. *)
Definition rounds_left (op : t fields) : Z :=
  Z.of_nat (Size op) - num_var_since_last_start_ (derived_ op).
End MoveTowardTargetLS.

(** ** PathOperator *)

Module PathOperator.
Import IntVarLocalSearchOperator.
Local Open Scope Z_scope.

(** The fields of [PathOperator]; [sub_] holds those of the subclass. *)
Record fields (Y : Type) : Type := Fields {
  number_of_nexts_ : Z;
  ignore_path_vars_ : bool;
  base_nodes_ : list Z;
  end_nodes_ : list Z;
  base_paths_ : list nat;
  path_starts_ : list Z;
  inactives_ : list bool;
  just_started_ : bool;
  first_start_ : bool;
  sub_ : Y
}.
Arguments Fields {Y}.
Arguments number_of_nexts_ {Y}.
Arguments ignore_path_vars_ {Y}.
Arguments base_nodes_ {Y}.
Arguments end_nodes_ {Y}.
Arguments base_paths_ {Y}.
Arguments path_starts_ {Y}.
Arguments inactives_ {Y}.
Arguments just_started_ {Y}.
Arguments first_start_ {Y}.
Arguments sub_ {Y}.

(** The virtual methods of a path operator. *)
Class PathVirtual (Y : Type) : Type := {
  MakeNeighbor : t (fields Y) -> option (bool * t (fields Y));
  OnNodeInitialization : t (fields Y) -> t (fields Y);
  OnSamePathAsPreviousBase : t (fields Y) -> nat -> bool;
  GetBaseNodeRestartPosition : t (fields Y) -> nat -> Z;
  InitPosition : t (fields Y) -> bool;
  RestartAtPathStartOnSynchronize : t (fields Y) -> bool
}.

Section Path.
Context {Y : Type}.

Definition with_base_nodes (v : list Z) (op : t (fields Y)) : t (fields Y) :=
  let p := derived_ op in
  with_derived
    (Fields (number_of_nexts_ p) (ignore_path_vars_ p) v (end_nodes_ p)
       (base_paths_ p) (path_starts_ p) (inactives_ p) (just_started_ p)
       (first_start_ p) (sub_ p)) op.
Definition with_end_nodes (v : list Z) (op : t (fields Y)) : t (fields Y) :=
  let p := derived_ op in
  with_derived
    (Fields (number_of_nexts_ p) (ignore_path_vars_ p) (base_nodes_ p) v
       (base_paths_ p) (path_starts_ p) (inactives_ p) (just_started_ p)
       (first_start_ p) (sub_ p)) op.
Definition with_base_paths (v : list nat) (op : t (fields Y))
    : t (fields Y) :=
  let p := derived_ op in
  with_derived
    (Fields (number_of_nexts_ p) (ignore_path_vars_ p) (base_nodes_ p)
       (end_nodes_ p) v (path_starts_ p) (inactives_ p) (just_started_ p)
       (first_start_ p) (sub_ p)) op.
Definition with_path_starts (v : list Z) (op : t (fields Y))
    : t (fields Y) :=
  let p := derived_ op in
  with_derived
    (Fields (number_of_nexts_ p) (ignore_path_vars_ p) (base_nodes_ p)
       (end_nodes_ p) (base_paths_ p) v (inactives_ p) (just_started_ p)
       (first_start_ p) (sub_ p)) op.
Definition with_inactives (v : list bool) (op : t (fields Y))
    : t (fields Y) :=
  let p := derived_ op in
  with_derived
    (Fields (number_of_nexts_ p) (ignore_path_vars_ p) (base_nodes_ p)
       (end_nodes_ p) (base_paths_ p) (path_starts_ p) v (just_started_ p)
       (first_start_ p) (sub_ p)) op.
Definition with_just_started (v : bool) (op : t (fields Y))
    : t (fields Y) :=
  let p := derived_ op in
  with_derived
    (Fields (number_of_nexts_ p) (ignore_path_vars_ p) (base_nodes_ p)
       (end_nodes_ p) (base_paths_ p) (path_starts_ p) (inactives_ p) v
       (first_start_ p) (sub_ p)) op.
Definition with_first_start (v : bool) (op : t (fields Y))
    : t (fields Y) :=
  let p := derived_ op in
  with_derived
    (Fields (number_of_nexts_ p) (ignore_path_vars_ p) (base_nodes_ p)
       (end_nodes_ p) (base_paths_ p) (path_starts_ p) (inactives_ p)
       (just_started_ p) v (sub_ p)) op.
Definition with_sub (v : Y) (op : t (fields Y)) : t (fields Y) :=
  let p := derived_ op in
  with_derived
    (Fields (number_of_nexts_ p) (ignore_path_vars_ p) (base_nodes_ p)
       (end_nodes_ p) (base_paths_ p) (path_starts_ p) (inactives_ p)
       (just_started_ p) (first_start_ p) v) op.

(** The constructor: the next variables, then the path variables if
    any; the cursors are zeroed vectors. *)
Definition Create (next_vars : list IntVar)
    (path_vars : option (list IntVar)) (number_of_base_nodes : nat)
    (uninit uninit_old : list Z) (y : Y) : t (fields Y) :=
  IntVarLocalSearchOperator.Create
    (next_vars ++ default [] path_vars) uninit uninit_old
    (Fields (Z.of_nat (length next_vars))
       (match path_vars with None => true | Some _ => false end)
       (replicate number_of_base_nodes 0)
       (replicate number_of_base_nodes 0)
       (replicate number_of_base_nodes 0%nat)
       [] [] false true y).

Definition number_of_nexts (op : t (fields Y)) : Z :=
  number_of_nexts_ (derived_ op).
Definition ignore_path_vars (op : t (fields Y)) : bool :=
  ignore_path_vars_ (derived_ op).

(** Modelled from the spec: the accessors below are inline members of
    constraint_solveri.h, which is not among the sources.  A node falls off
    the end of its path when it is [>= n_next]; [Next(i)] and [OldNext(i)]
    are the staged and the reference value of variable [i], [Path(i)] the
    staged value of variable [n_next + i] (0 without path variables); a
    node is inactive when it is its own reference successor; [SetNext]
    stages the successor of a node, and its path when there are path
    variables. *)
Definition IsPathEnd (op : t (fields Y)) (i : Z) : bool :=
  number_of_nexts op <=? i.
Definition Next (op : t (fields Y)) (node_index : Z) : Z :=
  Value op (Z.to_nat node_index).
Definition OldNext (op : t (fields Y)) (node_index : Z) : Z :=
  OldValue op (Z.to_nat node_index).
Definition Path (op : t (fields Y)) (node_index : Z) : Z :=
  if ignore_path_vars op then 0
  else Value op (Z.to_nat (node_index + number_of_nexts op)).
Definition BaseNode (op : t (fields Y)) (i : nat) : Z :=
  default 0 (base_nodes_ (derived_ op) !! i).
Definition StartNode (op : t (fields Y)) (i : nat) : Z :=
  default 0 (path_starts_ (derived_ op)
             !! default 0%nat (base_paths_ (derived_ op) !! i)).
Definition IsInactive (op : t (fields Y)) (i : Z) : bool :=
  negb (IsPathEnd op i)
  && default false (inactives_ (derived_ op) !! Z.to_nat i).
Definition SetNext (from to path : Z) (op : t (fields Y)) : t (fields Y) :=
  let op := SetValue (Z.to_nat from) to op in
  if negb (ignore_path_vars op)
  then SetValue (Z.to_nat (from + number_of_nexts op)) path op
  else op.

(** [SkipUnchanged] of the path operators. *)
Definition SkipUnchanged (op : t (fields Y)) (index : nat) : bool :=
  if ignore_path_vars op then true
  else if Z.of_nat index <? number_of_nexts op then
    let path_index := (index + Z.to_nat (number_of_nexts op))%nat in
    Value op path_index =? OldValue op path_index
  else
    let next_index := (index - Z.to_nat (number_of_nexts op))%nat in
    Value op next_index =? OldValue op next_index.

(** The [while] loop of [CheckChainValidity]; [None] only when the fuel
    is used up. *)
Fixpoint CheckChainValidity_loop (fuel : nat) (op : t (fields Y))
    (chain_end exclude current chain_size : Z) : option bool :=
  if current =? chain_end then Some true
  else
    match fuel with
    | O => None
    | S fuel =>
        if number_of_nexts op <? chain_size then Some false
        else if IsPathEnd op current then Some false
        else
          let current := Next op current in
          let chain_size := chain_size + 1 in
          if current =? exclude then Some false
          else CheckChainValidity_loop fuel op chain_end exclude
                 current chain_size
    end.

Definition CheckChainValidity (fuel : nat) (op : t (fields Y))
    (before_chain chain_end exclude : Z) : option bool :=
  if (before_chain =? chain_end) || (before_chain =? exclude)
  then Some false
  else CheckChainValidity_loop fuel op chain_end exclude before_chain 0.

(** The fuel the chain check is run on by the edits below: the watchdog
    stops its loop within [n_next + 2] rounds. *)
Definition chain_fuel (op : t (fields Y)) : nat :=
  (Z.to_nat (number_of_nexts op) + 2)%nat.

(** The [while] loop of [MoveChain], which re-stamps the path of the
    moved nodes. *)
Fixpoint MoveChain_loop (fuel : nat) (op : t (fields Y))
    (chain_end destination_path current next : Z)
    : option (t (fields Y)) :=
  if current =? chain_end then Some op
  else
    match fuel with
    | O => None
    | S fuel =>
        let op := SetNext current next destination_path op in
        MoveChain_loop fuel op chain_end destination_path next
          (Next op next)
    end.

Definition MoveChain (op : t (fields Y))
    (before_chain chain_end destination : Z)
    : option (bool * t (fields Y)) :=
  chain_ok ← CheckChainValidity (chain_fuel op) op before_chain chain_end
            destination;
  if chain_ok && negb (IsPathEnd op chain_end)
     && negb (IsPathEnd op destination) then
    let destination_path := Path op destination in
    let after_chain := Next op chain_end in
    let op := SetNext chain_end (Next op destination) destination_path op in
    op ← (if negb (ignore_path_vars op) then
            MoveChain_loop (chain_fuel op) op chain_end destination_path
              destination (Next op before_chain)
          else
            Some (SetNext destination (Next op before_chain)
                    destination_path op));
    Some (true, SetNext before_chain after_chain (Path op before_chain) op)
  else Some (false, op).

(** The [while] loop of [ReverseChain]; it answers the operator and the
    last node of the reversed chain. *)
Fixpoint ReverseChain_loop (fuel : nat) (op : t (fields Y))
    (after_chain path current current_next : Z)
    : option (t (fields Y) * Z) :=
  if current_next =? after_chain then Some (op, current)
  else
    match fuel with
    | O => None
    | S fuel =>
        let next := Next op current_next in
        let op := SetNext current_next current path op in
        ReverseChain_loop fuel op after_chain path current_next next
    end.

(** [ReverseChain]; the third component is [*chain_last], which is set
    on success only. *)
Definition ReverseChain (op : t (fields Y)) (before_chain after_chain : Z)
    : option (bool * t (fields Y) * option Z) :=
  match CheckChainValidity (chain_fuel op) op before_chain after_chain (-1)
  with
  | None => None
  | Some true =>
      let path := Path op before_chain in
      let current := Next op before_chain in
      if current =? after_chain then Some (false, op, None)
      else
        let current_next := Next op current in
        let op := SetNext current after_chain path op in
        '(op, current) ← ReverseChain_loop (chain_fuel op) op after_chain
                           path current current_next;
        let op := SetNext before_chain current path op in
        Some (true, op, Some current)
  | Some false => Some (false, op, None)
  end.

(** [MakeActive]: [node] is linked in after [destination]. *)
Definition MakeActive (op : t (fields Y)) (node destination : Z)
    : bool * t (fields Y) :=
  if negb (IsPathEnd op destination) then
    let destination_path := Path op destination in
    let op := SetNext node (Next op destination) destination_path op in
    (true, SetNext destination node destination_path op)
  else (false, op).

(** The [while] loop of [MakeChainInactive]: every node of the chain
    becomes its own successor, on the path [kNoPath]. *)
Fixpoint MakeChainInactive_loop (fuel : nat) (op : t (fields Y))
    (after_chain current : Z) : option (t (fields Y)) :=
  if current =? after_chain then Some op
  else
    match fuel with
    | O => None
    | S fuel =>
        let next := Next op current in
        let op := SetNext current current (-1) op in
        MakeChainInactive_loop fuel op after_chain next
    end.

Definition MakeChainInactive (op : t (fields Y)) (before_chain chain_end : Z)
    : option (bool * t (fields Y)) :=
  match CheckChainValidity (chain_fuel op) op before_chain chain_end (-1)
  with
  | None => None
  | Some chain_ok =>
      if chain_ok && negb (IsPathEnd op chain_end) then
        let after_chain := Next op chain_end in
        let current := Next op before_chain in
        match MakeChainInactive_loop (chain_fuel op) op after_chain current
        with
        | None => None
        | Some op =>
            Some (true,
                  SetNext before_chain after_chain (Path op before_chain) op)
        end
      else Some (false, op)
  end.

Definition CheckEnds (op : t (fields Y)) : bool :=
  existsb
    (λ i, negb (BaseNode op i
                =? default 0 (end_nodes_ (derived_ op) !! i)))
    (seq 0 (length (base_nodes_ (derived_ op)))).

Definition set_base_node (i : nat) (node : Z) (op : t (fields Y))
    : t (fields Y) :=
  with_base_nodes (<[i:=node]> (base_nodes_ (derived_ op))) op.

Context {PV : PathVirtual Y}.

(** The first loop of [IncrementPosition], from cursor [i - 1] down:
    a cursor that can move along its path moves, and the loop breaks;
    one at the end of its path goes back to the path start.  It answers
    [last_restarted] too. *)
Fixpoint IncrementPosition_advance (i : nat) (last_restarted : nat)
    (op : t (fields Y)) : t (fields Y) * nat :=
  match i with
  | O => (op, last_restarted)
  | S i =>
      if BaseNode op i <? number_of_nexts op
      then (set_base_node i (OldNext op (BaseNode op i)) op, last_restarted)
      else IncrementPosition_advance i i
             (set_base_node i (StartNode op i) op)
  end.

(** The last loop of [IncrementPosition], from cursor [i - 1] down: the
    cursors move to the next path; [Some b] is a [return b] from inside
    the loop. *)
Fixpoint IncrementPosition_paths (i : nat) (op : t (fields Y))
    : option bool * t (fields Y) :=
  match i with
  | O => (None, op)
  | S i =>
      let number_of_paths := length (path_starts_ (derived_ op)) in
      let next_path_index :=
        S (default 0%nat (base_paths_ (derived_ op) !! i)) in
      if (next_path_index <? number_of_paths)%nat then
        let op := with_base_paths
                    (<[i:=next_path_index]> (base_paths_ (derived_ op)))
                    op in
        let op := set_base_node i
                    (default 0 (path_starts_ (derived_ op)
                                !! next_path_index)) op in
        if (i =? 0)%nat || negb (OnSamePathAsPreviousBase op i)
        then (Some (CheckEnds op), op)
        else IncrementPosition_paths i op
      else
        let op := with_base_paths
                    (<[i:=0%nat]> (base_paths_ (derived_ op))) op in
        let op := set_base_node i
                    (default 0 (path_starts_ (derived_ op) !! 0%nat)) op in
        IncrementPosition_paths i op
  end.

Definition IncrementPosition (op : t (fields Y)) : bool * t (fields Y) :=
  let base_node_size := length (base_nodes_ (derived_ op)) in
  if negb (just_started_ (derived_ op)) then
    let '(op, last_restarted) :=
      IncrementPosition_advance base_node_size base_node_size op in
    let op :=
      foldl (λ op i, set_base_node i (GetBaseNodeRestartPosition op i) op)
            op (seq last_restarted (base_node_size - last_restarted)) in
    if (0 <? last_restarted)%nat then (CheckEnds op, op)
    else
      let '(returned, op) := IncrementPosition_paths base_node_size op in
      match returned with
      | Some b => (b, op)
      | None => (CheckEnds op, op)
      end
  else (true, with_just_started false op).

Definition InitializePathStarts (op : t (fields Y)) : t (fields Y) :=
  let n := Z.to_nat (number_of_nexts op) in
  let has_prevs :=
    foldl (λ has_prevs i,
             let next := OldNext op (Z.of_nat i) in
             if next <? number_of_nexts op
             then Bitmap.SetBit has_prevs (Z.to_nat next) true
             else has_prevs)
          (replicate n false) (seq 0 n) in
  with_path_starts
    (Z.of_nat <$> filter (λ i, Bitmap.Get has_prevs i = false) (seq 0 n))
    op.

Definition InitializeInactives (op : t (fields Y)) : t (fields Y) :=
  with_inactives
    ((λ i, OldNext op (Z.of_nat i) =? Z.of_nat i)
       <$> seq 0 (Z.to_nat (number_of_nexts op))) op.

(** One [for] loop of [OnSamePath]: does the walk from [node] along the
    reference successors come to [target] before the end of the path?
    A walk of more than [n_next] steps is on a cycle, and the loop of the
    source does not end. *)
Fixpoint reaches (fuel : nat) (op : t (fields Y)) (node target : Z)
    : option bool :=
  if IsPathEnd op node then Some false
  else if node =? target then Some true
  else
    match fuel with
    | O => None
    | S fuel => reaches fuel op (OldNext op node) target
    end.

Definition OnSamePath (op : t (fields Y)) (node1 node2 : Z) : option bool :=
  if negb (eqb (IsInactive op node1) (IsInactive op node2)) then Some false
  else
    match reaches (chain_fuel op) op node1 node2 with
    | None => None
    | Some true => Some true
    | Some false => reaches (chain_fuel op) op node2 node1
    end.

Definition InitializeBaseNodes (op : t (fields Y))
    : option (t (fields Y)) :=
  let op := InitializePathStarts op in
  let op := InitializeInactives op in
  let size := length (base_nodes_ (derived_ op)) in
  let op :=
    if first_start_ (derived_ op) || InitPosition op then
      let op :=
        foldl (λ op i,
                 let op := with_base_paths
                             (<[i:=0%nat]> (base_paths_ (derived_ op)))
                             op in
                 set_base_node i
                   (default 0 (path_starts_ (derived_ op) !! 0%nat)) op)
              op (seq 0 size) in
      with_first_start false op
    else op in
  let op :=
    foldl (λ op i,
             let base_node := BaseNode op i in
             let '(base_node, op) :=
               if RestartAtPathStartOnSynchronize op
                  || IsInactive op base_node
               then let base_node := StartNode op i in
                    (base_node, set_base_node i base_node op)
               else (base_node, op) in
             with_end_nodes (<[i:=base_node]> (end_nodes_ (derived_ op)))
               op)
          op (seq 0 size) in
  op ← foldl (λ acc i,
                op ← acc;
                if OnSamePathAsPreviousBase op i then
                  same ← OnSamePath op (BaseNode op (i - 1)) (BaseNode op i);
                  if negb same then
                    let base_node := BaseNode op (i - 1) in
                    let op := set_base_node i base_node op in
                    Some (with_end_nodes
                            (<[i:=base_node]> (end_nodes_ (derived_ op)))
                            op)
                  else Some op
                else Some op)
             (Some op) (seq 1 (size - 1));
  Some (with_just_started true op).

Definition OnStart (op : t (fields Y)) : option (t (fields Y)) :=
  op ← InitializeBaseNodes op;
  Some (OnNodeInitialization op).

Context {Inc : Incremental (fields Y)}.

(** [MakeOneNeighbor]: [None] when the loop over the positions runs out
    of fuel. *)
Fixpoint MakeOneNeighbor (fuel : nat) (op : t (fields Y))
    : option (bool * t (fields Y)) :=
  match fuel with
  | O => None
  | S fuel =>
      let '(more, op) := IncrementPosition op in
      if more then
        let op := RevertChanges true op in
        match MakeNeighbor op with
        | None => None
        | Some (true, op) => Some (true, op)
        | Some (false, op) => MakeOneNeighbor fuel op
        end
      else Some (false, op)
  end.

#[global] Instance virtual : Virtual (fields Y) := {
  IntVarLocalSearchOperator.SkipUnchanged := SkipUnchanged;
  IntVarLocalSearchOperator.MakeOneNeighbor := MakeOneNeighbor;
  IntVarLocalSearchOperator.OnStart := OnStart
}.

(** *** The chain check in the words of its contract *)

(** The node reached after [k] steps along [Next]. *)
Definition walk (op : t (fields Y)) (before_chain : Z) (k : nat) : Z :=
  Nat.iter k (Next op) before_chain.

(** The walk is still under way after [k] steps: [chain_end] has not
    been met on the way. *)
Definition under_way (op : t (fields Y)) (before_chain chain_end : Z)
    (k : nat) : Prop :=
  ∀ j, (j < k)%nat → walk op before_chain j ≠ chain_end.

Definition empty_chain (before_chain chain_end : Z) : Prop :=
  before_chain = chain_end.

(** [exclude] is the node before the chain or a node of the chain,
    [chain_end] included. *)
Definition touches_exclude (op : t (fields Y))
    (before_chain chain_end exclude : Z) : Prop :=
  before_chain = exclude ∨
  ∃ k, (1 <= k)%nat ∧ under_way op before_chain chain_end k ∧
       walk op before_chain k = exclude.

(** A path end is met before [chain_end]. *)
Definition meets_path_end (op : t (fields Y)) (before_chain chain_end : Z)
    : Prop :=
  ∃ k, under_way op before_chain chain_end (S k) ∧
       IsPathEnd op (walk op before_chain k) = true.

(** [chain_end] is not met within [n_next] steps. *)
Definition exceeds_watchdog (op : t (fields Y)) (before_chain chain_end : Z)
    : Prop :=
  under_way op before_chain chain_end (S (Z.to_nat (number_of_nexts op))).

Definition rejected (op : t (fields Y)) (before_chain chain_end exclude : Z)
    : Prop :=
  empty_chain before_chain chain_end
  ∨ touches_exclude op before_chain chain_end exclude
  ∨ meets_path_end op before_chain chain_end
  ∨ exceeds_watchdog op before_chain chain_end.

(** [exclude] is the node before the chain or a node that the walk
    reaches before [chain_end]: when it is reached, [chain_end] has not
    been met yet. *)
Definition reaches_exclude_before_end (op : t (fields Y))
    (before_chain chain_end exclude : Z) : Prop :=
  before_chain = exclude ∨
  ∃ k, (1 <= k)%nat ∧ under_way op before_chain chain_end (S k) ∧
       walk op before_chain k = exclude.

(** The cases of rejection with [exclude] reached before [chain_end]
    only. *)
Definition rejected_before_end (op : t (fields Y))
    (before_chain chain_end exclude : Z) : Prop :=
  empty_chain before_chain chain_end
  ∨ reaches_exclude_before_end op before_chain chain_end exclude
  ∨ meets_path_end op before_chain chain_end
  ∨ exceeds_watchdog op before_chain chain_end.

(** The chain is accepted: [chain_end] is met after at least one step,
    no path end comes before it, and [exclude] is neither the node
    before the chain nor a node of it. *)
Definition valid_chain (op : t (fields Y))
    (before_chain chain_end exclude : Z) : Prop :=
  before_chain ≠ exclude
  ∧ ∃ m, (1 <= m)%nat
         ∧ walk op before_chain m = chain_end
         ∧ under_way op before_chain chain_end m
         ∧ (∀ j, (1 <= j <= m)%nat → walk op before_chain j ≠ exclude)
         ∧ (∀ j, (j < m)%nat →
                 IsPathEnd op (walk op before_chain j) = false).

(** A next-vector: the first [n_next] values are node numbers. *)
Definition next_vector (op : t (fields Y)) : Prop :=
  0 <= number_of_nexts op
  ∧ ∀ i, 0 <= i < number_of_nexts op → 0 <= Next op i.

(** A chain: the walk from [b] comes to [e] after [m] steps, for the
    first time, and to no path end before. *)
Definition chain (op : t (fields Y)) (b e : Z) (m : nat) : Prop :=
  walk op b m = e ∧ under_way op b e m
  ∧ ∀ j, (j < m)%nat → IsPathEnd op (walk op b j) = false.

(** The value array holds the next variables. *)
Definition holds_nexts (op : t (fields Y)) : Prop :=
  (Z.to_nat (number_of_nexts op) <= length (values_ op))%nat.

(** [o] has the next-vector of [op0], with the same successors but on the
    nodes [skip] lets out. *)
Definition same_nexts_but (skip : Z → Prop) (op0 o : t (fields Y)) : Prop :=
  number_of_nexts o = number_of_nexts op0
  ∧ length (values_ o) = length (values_ op0)
  ∧ ∀ i, 0 <= i < number_of_nexts op0 → ¬ skip i → Next o i = Next op0 i.

(** What the loop of [ReverseChain] has done once it stands on the
    [k]-th node of the chain: the first node points at the node after the
    chain, the next ones up to the [k]-th point backwards, and no other
    successor has moved. *)
Definition reversed_up_to (op0 o : t (fields Y)) (b a : Z) (k : nat)
    : Prop :=
  same_nexts_but (λ i, ∃ j, (1 <= j <= k)%nat ∧ i = walk op0 b j) op0 o
  ∧ Next o (walk op0 b 1) = a
  ∧ ∀ j, (2 <= j <= k)%nat → Next o (walk op0 b j) = walk op0 b (j - 1).

(** What the loop of [MakeChainInactive] has done once it stands on the
    [k]-th node of the chain: the nodes before it are their own
    successors, and no other successor has moved. *)
Definition inactive_up_to (op0 o : t (fields Y)) (b : Z) (k : nat) : Prop :=
  same_nexts_but (λ i, ∃ j, (1 <= j < k)%nat ∧ i = walk op0 b j) op0 o
  ∧ ∀ j, (1 <= j < k)%nat → Next o (walk op0 b j) = walk op0 b j.
End Path.
End PathOperator.

(** ** TwoOpt *)

Module TwoOpt.
Import IntVarLocalSearchOperator PathOperator.
Local Open Scope Z_scope.

Record fields : Type := Fields { last_base_ : Z; last_ : Z }.

Definition with_last_base (v : Z) (op : t (PathOperator.fields fields))
    : t (PathOperator.fields fields) :=
  with_sub (Fields v (last_ (sub_ (derived_ op)))) op.
Definition with_last (v : Z) (op : t (PathOperator.fields fields))
    : t (PathOperator.fields fields) :=
  with_sub (Fields (last_base_ (sub_ (derived_ op))) v) op.

#[global] Instance incremental : Incremental (PathOperator.fields fields) :=
  true.

Definition MakeNeighbor (op : t (PathOperator.fields fields))
    : option (bool * t (PathOperator.fields fields)) :=
  if negb (last_base_ (sub_ (derived_ op)) =? BaseNode op 0)
     || (last_ (sub_ (derived_ op)) =? -1) then
    let op := RevertChanges false op in
    if IsPathEnd op (BaseNode op 0) then Some (false, with_last (-1) op)
    else
      let op := with_last_base (BaseNode op 0) op in
      let op := with_last (Next op (BaseNode op 0)) op in
      match ReverseChain op (BaseNode op 0) (BaseNode op 1) with
      | None => None
      | Some (true, op, chain_last) => Some (true, op)
      | Some (false, op, chain_last) => Some (false, with_last (-1) op)
      end
  else
    let to_move := Next op (last_ (sub_ (derived_ op))) in
    MoveChain op (last_ (sub_ (derived_ op))) to_move (BaseNode op 0).

(** The other virtual methods keep the defaults of constraint_solveri.h,
    but for [OnSamePathAsPreviousBase]: both cursors are on one path. *)
#[global] Instance path_virtual : PathVirtual fields := {
  PathOperator.MakeNeighbor := MakeNeighbor;
  OnNodeInitialization := with_last (-1);
  OnSamePathAsPreviousBase := λ _ _, true;
  GetBaseNodeRestartPosition := StartNode;
  InitPosition := λ _, false;
  RestartAtPathStartOnSynchronize := λ _, false
}.

Definition Create (vars : list IntVar) (secondary_vars : option (list IntVar))
    (uninit uninit_old : list Z) : t (PathOperator.fields fields) :=
  PathOperator.Create vars secondary_vars 2 uninit uninit_old
    (Fields (-1) (-1)).
End TwoOpt.

(** ** Relocate *)

Module Relocate.
Import IntVarLocalSearchOperator PathOperator.
Local Open Scope Z_scope.

Record fields : Type := Fields { chain_length_ : Z; single_path_ : bool }.

(** The constructor; [None] is the failure of its [CHECK_GT]. *)
Definition Create (vars : list IntVar) (secondary_vars : option (list IntVar))
    (uninit uninit_old : list Z) (chain_length : Z) (single_path : bool)
    : option (t (PathOperator.fields fields)) :=
  if decide (0 < chain_length)
  then Some (PathOperator.Create vars secondary_vars 2 uninit uninit_old
               (Fields chain_length single_path))
  else None.

Definition OnSamePathAsPreviousBase (op : t (PathOperator.fields fields))
    (base_index : nat) : bool :=
  single_path_ (sub_ (derived_ op)).

(** The [for] loop of [MakeNeighbor]: the node [steps] steps after
    [chain_end]; [None] is the [return false] on a path end. *)
Fixpoint chain_end_after (steps : nat) (op : t (PathOperator.fields fields))
    (chain_end : Z) : option Z :=
  match steps with
  | O => Some chain_end
  | S steps =>
      if IsPathEnd op chain_end then None
      else chain_end_after steps op (Next op chain_end)
  end.

(** [MakeNeighbor]; [None] is the failure of its [DCHECK], or of the
    fuel of [MoveChain]. *)
Definition MakeNeighbor (op : t (PathOperator.fields fields))
    : option (bool * t (PathOperator.fields fields)) :=
  if negb (single_path_ (sub_ (derived_ op)))
     || (StartNode op 0 =? StartNode op 1) then
    let before_chain := BaseNode op 0 in
    match chain_end_after (Z.to_nat (chain_length_ (sub_ (derived_ op))))
            op before_chain
    with
    | None => Some (false, op)
    | Some chain_end =>
        let destination := BaseNode op 1 in
        MoveChain op before_chain chain_end destination
    end
  else None.
End Relocate.

(** ** Exchange *)

Module Exchange.
Import IntVarLocalSearchOperator PathOperator.
Local Open Scope Z_scope.

Definition Create (vars : list IntVar) (secondary_vars : option (list IntVar))
    (uninit uninit_old : list Z) : t (PathOperator.fields unit) :=
  PathOperator.Create vars secondary_vars 2 uninit uninit_old tt.

(** [MakeNeighbor]; in the last branch the second [MoveChain] is called
    only when the first one has answered true. *)
Definition MakeNeighbor (op : t (PathOperator.fields unit))
    : option (bool * t (PathOperator.fields unit)) :=
  let prev_node0 := BaseNode op 0 in
  if IsPathEnd op prev_node0 then Some (false, op)
  else
    let node0 := Next op prev_node0 in
    let prev_node1 := BaseNode op 1 in
    if IsPathEnd op prev_node1 then Some (false, op)
    else
      let node1 := Next op prev_node1 in
      if node0 =? prev_node1 then MoveChain op prev_node1 node1 prev_node0
      else if node1 =? prev_node0
      then MoveChain op prev_node0 node0 prev_node1
      else
        match MoveChain op prev_node0 node0 prev_node1 with
        | None => None
        | Some (true, op) => MoveChain op node0 (Next op node0) prev_node0
        | Some (false, op) => Some (false, op)
        end.
End Exchange.

(** ** SwapActiveOperator *)

Module SwapActiveOperator.
Import IntVarLocalSearchOperator PathOperator.
Local Open Scope Z_scope.

(** The field of [BaseInactiveNodeToPathOperator]. *)
Record fields : Type := Fields { inactive_node_ : Z }.

Definition GetInactiveNode (op : t (PathOperator.fields fields)) : Z :=
  inactive_node_ (sub_ (derived_ op)).

Definition Create (vars : list IntVar) (secondary_vars : option (list IntVar))
    (uninit uninit_old : list Z) : t (PathOperator.fields fields) :=
  PathOperator.Create vars secondary_vars 1 uninit uninit_old (Fields 0).

(** [MakeNeighbor]; [MakeActive] is called only when
    [MakeChainInactive] has answered true. *)
Definition MakeNeighbor (op : t (PathOperator.fields fields))
    : option (bool * t (PathOperator.fields fields)) :=
  let base := BaseNode op 0 in
  if IsPathEnd op base then Some (false, op)
  else
    match MakeChainInactive op base (Next op base) with
    | None => None
    | Some (true, op) => Some (MakeActive op (GetInactiveNode op) base)
    | Some (false, op) => Some (false, op)
    end.
End SwapActiveOperator.

(** ** LocalSearchOperator, the interface of the combinators *)

Class LocalSearchOperator (Op : Type) : Type := {
  Start : Assignment.t -> Op -> option Op;
  MakeNextNeighbor :
    Op -> Assignment.t -> Assignment.t ->
    bool * Op * Assignment.t * Assignment.t
}.

(** A run of [MakeNextNeighbor] calls, one for each pair of assignments
    handed in: the operator it leaves, and what each call answered. *)
Fixpoint call_all {Op : Type}
    (call : Op -> Assignment.t -> Assignment.t ->
            bool * Op * Assignment.t * Assignment.t)
    (inputs : list (Assignment.t * Assignment.t)) (op : Op)
    : Op * list (bool * Assignment.t * Assignment.t) :=
  match inputs with
  | [] => (op, [])
  | (delta, deltadelta) :: inputs =>
      let '(found, op, delta, deltadelta) := call op delta deltadelta in
      let '(op, answers) := call_all call inputs op in
      (op, (found, delta, deltadelta) :: answers)
  end.

(** ** CompoundOperator *)

Module CompoundOperator.
Local Open Scope Z_scope.

(** [std::sort] under a comparator that orders the indices strictly and
    totally: the outcome is the sorted arrangement, whichever algorithm
    produces it; here by insertion. *)
Fixpoint sort_insert {A : Type} (less : A -> A -> bool) (x : A)
    (l : list A) : list A :=
  match l with
  | [] => [x]
  | y :: l' => if less x y then x :: l else y :: sort_insert less x l'
  end.
Definition std_sort {A : Type} (less : A -> A -> bool) (l : list A)
    : list A :=
  foldr (sort_insert less) [] l.

(** [OperatorComparator::operator()] *)
Definition OperatorComparator (evaluator : Z -> Z -> Z)
    (active_operator : nat) (lhs rhs : nat) : bool :=
  let Evaluate operator_index :=
    evaluator (Z.of_nat active_operator) (Z.of_nat operator_index) in
  let lhs_value := Evaluate lhs in
  let rhs_value := Evaluate rhs in
  (lhs_value <? rhs_value)
  || ((lhs_value =? rhs_value) && (lhs <? rhs)%nat).

(** The order the comparator puts on the operator indices. *)
Definition ranked_before (evaluator : Z -> Z -> Z) (active : nat)
    : relation nat :=
  fun lhs rhs => OperatorComparator evaluator active lhs rhs = true.

Definition CompoundOperatorNoRestart (size active_index operator_index : Z)
    : Z :=
  if operator_index <? active_index
  then size + operator_index - active_index
  else operator_index - active_index.

Definition CompoundOperatorRestart (active_index operator_index : Z) : Z :=
  0.

Section Compound.
Context {Op : Type} {I : LocalSearchOperator Op}.

Record t : Type := Build {
  index_ : nat;
  size_ : nat;
  operators_ : list Op;
  operator_indices_ : list nat;
  evaluator_ : Z -> Z -> Z
}.

(** The constructor: null operators are left out. *)
Definition Create (operators : list (option Op))
    (evaluator : Z -> Z -> Z) : t :=
  let ops := omap id operators in
  Build 0 (length ops) ops (seq 0 (length ops)) evaluator.

(** [Solver::ConcatenateOperators(ops, restart)] *)
Definition ConcatenateOperators (ops : list (option Op)) (restart : bool)
    : t :=
  if restart then Create ops CompoundOperatorRestart
  else Create ops (CompoundOperatorNoRestart (Z.of_nat (length ops))).

Definition CompoundStart (assignment : Assignment.t) (c : t) : option t :=
  if (0 <? size_ c)%nat then
    ops ← mapM (Start assignment) (operators_ c);
    let active := default 0%nat (operator_indices_ c !! index_ c) in
    Some (Build 0 (size_ c) ops
            (std_sort (OperatorComparator (evaluator_ c) active)
               (operator_indices_ c))
            (evaluator_ c))
  else Some c.

(** The [do ... while (index_ != 0)] loop; every round but the last
    increments [index_], so [size_] rounds are enough. *)
Fixpoint CompoundMakeNextNeighbor_loop (fuel : nat) (c : t)
    (delta deltadelta : Assignment.t)
    : option (bool * t * Assignment.t * Assignment.t) :=
  match fuel with
  | O => None
  | S fuel =>
      let which := default 0%nat (operator_indices_ c !! index_ c) in
      match operators_ c !! which with
      | None => None
      | Some op =>
          let '(found, op, delta, deltadelta) :=
            MakeNextNeighbor op delta deltadelta in
          let c := Build (index_ c) (size_ c)
                     (<[which:=op]> (operators_ c))
                     (operator_indices_ c) (evaluator_ c) in
          if found then Some (true, c, delta, deltadelta)
          else
            let index := S (index_ c) in
            let index := if (index =? size_ c)%nat then 0%nat else index in
            let c := Build index (size_ c) (operators_ c)
                       (operator_indices_ c) (evaluator_ c) in
            if negb (index =? 0)%nat
            then CompoundMakeNextNeighbor_loop fuel c delta deltadelta
            else Some (false, c, delta, deltadelta)
      end
  end.

Definition CompoundMakeNextNeighbor (c : t)
    (delta deltadelta : Assignment.t)
    : option (bool * t * Assignment.t * Assignment.t) :=
  if (0 <? size_ c)%nat
  then CompoundMakeNextNeighbor_loop (size_ c) c delta deltadelta
  else Some (false, c, delta, deltadelta).

(** The ranking holds every sub-operator once. *)
Definition ranked (c : t) : Prop :=
  size_ c = length (operators_ c)
  ∧ operator_indices_ c ≡ₚ seq 0 (size_ c).

(** The sub-operator of rank [k] is in the same state in [c] and in
    [c']. *)
Definition untouched (c c' : t) (k : nat) : Prop :=
  ∀ which, operator_indices_ c !! k = Some which →
           operators_ c' !! which = operators_ c !! which.
End Compound.
Arguments t Op : clear implicits.
End CompoundOperator.

(** A sub-operator that produces a fixed number of candidates per episode:
    candidate number [k] of operator [name_] is the delta
    [name_ := k]. *)
Module CountingOperator.
Record t : Type := Build { name_ : IntVar; limit_ : nat; produced_ : nat }.

Definition CountingStart (assignment : Assignment.t) (op : t) : option t :=
  Some (Build (name_ op) (limit_ op) 0).

Definition CountingMakeNextNeighbor (op : t)
    (delta deltadelta : Assignment.t)
    : bool * t * Assignment.t * Assignment.t :=
  if (produced_ op <? limit_ op)%nat then
    let op := Build (name_ op) (limit_ op) (S (produced_ op)) in
    (true, op,
     Assignment.FastAdd (name_ op)
       (IntVarElement.SetValue (Z.of_nat (produced_ op))) delta,
     deltadelta)
  else (false, op, delta, deltadelta).

#[global] Instance operator : LocalSearchOperator t := {
  Start := CountingStart;
  MakeNextNeighbor := CountingMakeNextNeighbor
}.

(** The candidate [name := k]. *)
Definition candidate (name : IntVar) (k : Z) : Assignment.t :=
  Assignment.Build [IntVarElement.Build name k true] None 0%Z 0%Z.
End CountingOperator.

(** ** The aggregation operations of the objective filter *)

Module LSOperation.
Local Open Scope Z_scope.

(** [SumOperation], [ProductOperation] and [MaxMinOperation] with their
    fields; [values_set_] is a [std::set<int64>]. *)
Inductive t : Type :=
| SumOperation (value_ : Z)
| ProductOperation (value_ : Z)
| MaxMinOperation (max_ : bool) (values_set_ : gset Z).

Definition Init (op : t) : t :=
  match op with
  | SumOperation _ => SumOperation 0
  | ProductOperation _ => ProductOperation 1
  | MaxMinOperation max _ => MaxMinOperation max ∅
  end.

Definition Update (update : Z) (op : t) : t :=
  match op with
  | SumOperation value => SumOperation (Int64.wrap (value + update))
  | ProductOperation value => ProductOperation (Int64.wrap (value * update))
  | MaxMinOperation max values_set =>
      MaxMinOperation max ({[update]} ∪ values_set)
  end.

Definition Remove (remove : Z) (op : t) : t :=
  match op with
  | SumOperation value => SumOperation (Int64.wrap (value - remove))
  | ProductOperation value =>
      if negb (remove =? 0)
      then ProductOperation (Int64.wrap (Z.quot value remove))
      else op
  | MaxMinOperation max values_set =>
      MaxMinOperation max (values_set ∖ {[remove]})
  end.

(** [*values_set_.rbegin()] and [*values_set_.begin()] of a set that is
    not empty. *)
Definition greatest (x : Z) (l : list Z) : Z := foldr Z.max x l.
Definition least (x : Z) (l : list Z) : Z := foldr Z.min x l.

Definition value (op : t) : Z :=
  match op with
  | SumOperation value => value
  | ProductOperation value => value
  | MaxMinOperation max values_set =>
      match elements values_set with
      | [] => 0
      | x :: l => if max then greatest x l else least x l
      end
  end.

Definition set_value (new_value : Z) (op : t) : t :=
  match op with
  | SumOperation _ => SumOperation new_value
  | ProductOperation _ => ProductOperation new_value
  | MaxMinOperation _ _ => op
  end.

(** A run of [Update] and [Remove] calls. *)
Inductive Step : Type :=
| DoUpdate (update : Z)
| DoRemove (remove : Z).

Definition step (op : t) (s : Step) : t :=
  match s with
  | DoUpdate update => Update update op
  | DoRemove remove => Remove remove op
  end.

Definition run (steps : list Step) (op : t) : t := foldl step op steps.

Inductive LocalSearchOperation : Type := SUM | PROD | MAX | MIN.

(** [OperationFromEnum]; the value fields start uninitialised, every user
    calls [Init] first. *)
Definition OperationFromEnum (op_enum : LocalSearchOperation) (garbage : Z)
    : t :=
  match op_enum with
  | SUM => SumOperation garbage
  | PROD => ProductOperation garbage
  | MAX => MaxMinOperation true ∅
  | MIN => MaxMinOperation false ∅
  end.
End LSOperation.

(** ** The host solver's view of a variable *)

(** Modelled from the spec: [IntVar::Min], [IntVar::Max] and
    [IntVar::Bound] belong to the propagation engine; a variable handle
    supports [min()], [max()] and [bound()], and it is bound when its two
    bounds meet. *)
Record Domains : Type := { Min : IntVar -> Z; Max : IntVar -> Z }.

Definition Bound (solver : Domains) (var : IntVar) : bool :=
  (Min solver var =? Max solver var)%Z.

(** ** IntVarLocalSearchFilter *)

Module IntVarLocalSearchFilter.
Record t : Type := Build {
  vars_ : list IntVar;
  values_ : list Z;
  size_ : nat;
  var_to_index_ : gmap IntVar nat
}.

Definition AddVars (vars : list IntVar) (f : t) : t :=
  let size := length vars in
  if (0 <? size)%nat then
    let var_to_index :=
      foldl (fun m i => <[default 0%nat (vars !! i) := (i + size_ f)%nat]> m)
            (var_to_index_ f) (seq 0 size) in
    let new_size := (size_ f + size)%nat in
    Build (take (size_ f) (vars_ f) ++ vars) (replicate new_size 0%Z)
          new_size var_to_index
  else f.

Definition Create (vars : list IntVar) : t := AddVars vars (Build [] [] 0 ∅).

Definition Size (f : t) : nat := size_ f.
Definition Value (f : t) (index : nat) : Z :=
  default 0%Z (values_ f !! index).
Definition FindIndex (f : t) (var : IntVar) : option nat :=
  var_to_index_ f !! var.

Definition with_values (v : list Z) (f : t) : t :=
  Build (vars_ f) v (size_ f) (var_to_index_ f).

(** The loop of [Synchronize]; the call of [OnSynchronize] is left to the
    subclass. *)
Definition Synchronize_body (f : t) (ie : nat * IntVarElement.t) : t :=
  let '(i, element) := ie in
  let var := IntVarElement.Var element in
  if (i <? size_ f)%nat && bool_decide (vars_ f !! i = Some var)
  then with_values (<[i:=IntVarElement.Value element]> (values_ f)) f
  else
    match FindIndex f var with
    | Some index =>
        with_values (<[index:=IntVarElement.Value element]> (values_ f)) f
    | None => f
    end.

Definition Synchronize (assignment : Assignment.t) (f : t) : t :=
  foldl Synchronize_body f (imap pair (Assignment.IntVarContainer assignment)).

(** The filter tracks distinct variables, and [var_to_index_] is the
    inverse of [vars_]. *)
Definition indexed (f : t) : Prop :=
  size_ f = length (vars_ f)
  ∧ length (values_ f) = size_ f
  ∧ NoDup (vars_ f)
  ∧ ∀ var i, var_to_index_ f !! var = Some i ↔ vars_ f !! i = Some var.
End IntVarLocalSearchFilter.

(** ** ObjectiveFilter *)

Module ObjectiveFilter.
Local Open Scope Z_scope.

Inductive LocalSearchFilterBound : Type := GE | LE | EQ.

(** The array [Evaluate] reads the outgoing contributions from: it is
    handed a pointer to [cache_] or to [delta_cache_], and it writes
    [delta_cache_] while it reads. *)
Inductive OutValues : Type := Cache | DeltaCache.

Record t (X : Type) : Type := Build {
  base_ : IntVarLocalSearchFilter.t;
  primary_vars_size_ : nat;
  cache_ : list Z;
  delta_cache_ : list Z;
  objective_ : IntVar;
  filter_enum_ : LocalSearchFilterBound;
  op_ : LSOperation.t;
  old_value_ : Z;
  old_delta_value_ : Z;
  incremental_ : bool;
  derived_ : X
}.
Arguments Build {X}.
Arguments base_ {X}.
Arguments primary_vars_size_ {X}.
Arguments cache_ {X}.
Arguments delta_cache_ {X}.
Arguments objective_ {X}.
Arguments filter_enum_ {X}.
Arguments op_ {X}.
Arguments old_value_ {X}.
Arguments old_delta_value_ {X}.
Arguments incremental_ {X}.
Arguments derived_ {X}.

(** The pure virtual methods.  [EvaluateElementValue] answers whether a
    contribution was computed, the contribution, and the container index
    it leaves behind. *)
Class Virtual (X : Type) : Type := {
  SynchronizedElementValue : t X -> nat -> Z;
  EvaluateElementValue :
    Domains -> t X -> list IntVarElement.t -> nat -> nat -> bool * Z * nat
}.

Section Filter.
Context {X : Type} {V : Virtual X}.
Variable solver : Domains.

Definition with_base (b : IntVarLocalSearchFilter.t) (f : t X) : t X :=
  Build b (primary_vars_size_ f) (cache_ f) (delta_cache_ f)
        (objective_ f) (filter_enum_ f) (op_ f) (old_value_ f)
        (old_delta_value_ f) (incremental_ f) (derived_ f).
Definition with_cache (c : list Z) (f : t X) : t X :=
  Build (base_ f) (primary_vars_size_ f) c (delta_cache_ f)
        (objective_ f) (filter_enum_ f) (op_ f) (old_value_ f)
        (old_delta_value_ f) (incremental_ f) (derived_ f).
Definition with_delta_cache (c : list Z) (f : t X) : t X :=
  Build (base_ f) (primary_vars_size_ f) (cache_ f) c
        (objective_ f) (filter_enum_ f) (op_ f) (old_value_ f)
        (old_delta_value_ f) (incremental_ f) (derived_ f).
Definition with_op (o : LSOperation.t) (f : t X) : t X :=
  Build (base_ f) (primary_vars_size_ f) (cache_ f) (delta_cache_ f)
        (objective_ f) (filter_enum_ f) o (old_value_ f)
        (old_delta_value_ f) (incremental_ f) (derived_ f).
Definition with_old_value (v : Z) (f : t X) : t X :=
  Build (base_ f) (primary_vars_size_ f) (cache_ f) (delta_cache_ f)
        (objective_ f) (filter_enum_ f) (op_ f) v
        (old_delta_value_ f) (incremental_ f) (derived_ f).
Definition with_old_delta_value (v : Z) (f : t X) : t X :=
  Build (base_ f) (primary_vars_size_ f) (cache_ f) (delta_cache_ f)
        (objective_ f) (filter_enum_ f) (op_ f) (old_value_ f)
        v (incremental_ f) (derived_ f).
Definition with_incremental (b : bool) (f : t X) : t X :=
  Build (base_ f) (primary_vars_size_ f) (cache_ f) (delta_cache_ f)
        (objective_ f) (filter_enum_ f) (op_ f) (old_value_ f)
        (old_delta_value_ f) b (derived_ f).

(** The part of a filter that [Synchronize] sets and the evaluation of
    a delta reads. *)
Definition synchronized_part (f : t X)
    : IntVarLocalSearchFilter.t * nat * list Z * IntVar
      * LocalSearchFilterBound * Z * X :=
  (base_ f, primary_vars_size_ f, cache_ f, objective_ f, filter_enum_ f,
   old_value_ f, derived_ f).

Definition Create (vars : list IntVar) (objective : IntVar)
    (filter_enum : LocalSearchFilterBound) (op : LSOperation.t) (d : X)
    : t X :=
  let var_size := length vars in
  let op := LSOperation.Init op in
  Build (IntVarLocalSearchFilter.Create vars) var_size
        (replicate var_size 0) (replicate var_size 0)
        objective filter_enum op (LSOperation.value op) 0 false d.

Definition out_value (f : t X) (out_values : OutValues) (index : nat)
    : Z :=
  match out_values with
  | Cache => default 0 (cache_ f !! index)
  | DeltaCache => default 0 (delta_cache_ f !! index)
  end.

(** The [for] loop of [Evaluate]; the element evaluation may move the
    loop index forward, hence the fuel. *)
Fixpoint Evaluate_loop (fuel : nat) (container : list IntVarElement.t)
    (out_values : OutValues) (cache_delta_values : bool) (i : nat)
    (f : t X) : option (t X) :=
  match container !! i with
  | None => Some f
  | Some new_element =>
      match fuel with
      | O => None
      | S fuel =>
          let var := IntVarElement.Var new_element in
          match IntVarLocalSearchFilter.FindIndex (base_ f) var with
          | Some index =>
              if (index <? primary_vars_size_ f)%nat then
                let f :=
                  with_op (LSOperation.Remove
                             (out_value f out_values index) (op_ f)) f in
                let '(evaluated, obj_value, i) :=
                  EvaluateElementValue solver f container index i in
                let f :=
                  if evaluated then
                    let f :=
                      with_op (LSOperation.Update obj_value (op_ f)) f in
                    if cache_delta_values
                    then with_delta_cache
                           (<[index:=obj_value]> (delta_cache_ f)) f
                    else f
                  else f in
                Evaluate_loop fuel container out_values
                  cache_delta_values (S i) f
              else Evaluate_loop fuel container out_values
                     cache_delta_values (S i) f
          | None => Evaluate_loop fuel container out_values
                      cache_delta_values (S i) f
          end
      end
  end.

Definition Evaluate (delta : Assignment.t) (current_value : Z)
    (out_values : OutValues) (cache_delta_values : bool) (f : t X)
    : option (Z * t X) :=
  if current_value =? Int64.kint64max then Some (current_value, f)
  else
    let f := with_op (LSOperation.set_value current_value (op_ f)) f in
    let container := Assignment.IntVarContainer delta in
    f ← Evaluate_loop (length container) container out_values
          cache_delta_values 0 f;
    Some (LSOperation.value (op_ f), f).

(** [Accept]; a null [delta] is [None]. *)
Definition Accept (delta : option Assignment.t)
    (deltadelta : Assignment.t) (f : t X) : option (bool * t X) :=
  match delta with
  | None => Some (false, f)
  | Some delta =>
      r ← (if negb (Assignment.Empty deltadelta) then
             r ← (if negb (incremental_ f)
                  then Evaluate delta (old_value_ f) Cache true f
                  else Evaluate deltadelta (old_delta_value_ f)
                         DeltaCache true f);
             Some (r.1, with_incremental true r.2)
           else
             let f :=
               if incremental_ f then
                 let f :=
                   with_delta_cache
                     (take (primary_vars_size_ f) (cache_ f)
                      ++ drop (primary_vars_size_ f) (delta_cache_ f)) f in
                 with_old_delta_value (old_value_ f) f
               else f in
             let f := with_incremental false f in
             Evaluate delta (old_value_ f) Cache false f);
      let '(value, f) := r in
      let f := with_old_delta_value value f in
      let var_min := Min solver (objective_ f) in
      let var_max := Max solver (objective_ f) in
      let '(var_min, var_max) :=
        if decide (Assignment.Objective delta = Some (objective_ f))
        then (Z.max var_min (Assignment.ObjectiveMin delta),
              Z.min var_max (Assignment.ObjectiveMax delta))
        else (var_min, var_max) in
      Some (match filter_enum_ f with
            | LE => value <=? var_max
            | GE => var_min <=? value
            | EQ => (value <=? var_max) && (var_min <=? value)
            end, f)
  end.

Definition OnSynchronize_body (f : t X) (i : nat) : t X :=
  let obj_value := SynchronizedElementValue f i in
  let f := with_cache (<[i:=obj_value]> (cache_ f)) f in
  let f := with_delta_cache (<[i:=obj_value]> (delta_cache_ f)) f in
  with_op (LSOperation.Update obj_value (op_ f)) f.

Definition OnSynchronize (f : t X) : t X :=
  let f := with_op (LSOperation.Init (op_ f)) f in
  let f := foldl OnSynchronize_body f (seq 0 (primary_vars_size_ f)) in
  let f := with_old_value (LSOperation.value (op_ f)) f in
  let f := with_old_delta_value (old_value_ f) f in
  with_incremental false f.

(** [IntVarLocalSearchFilter::Synchronize], which ends in the virtual
    [OnSynchronize]. *)
Definition Synchronize (assignment : Assignment.t) (f : t X) : t X :=
  OnSynchronize
    (with_base (IntVarLocalSearchFilter.Synchronize assignment (base_ f))
       f).
End Filter.
End ObjectiveFilter.

Module BinaryObjectiveFilter.
Import ObjectiveFilter.

Record fields : Type := Fields { value_evaluator_ : Z -> Z -> Z }.

Definition SynchronizedElementValue (f : t fields) (index : nat) : Z :=
  value_evaluator_ (derived_ f) (Z.of_nat index)
    (IntVarLocalSearchFilter.Value (base_ f) index).

Definition EvaluateElementValue (solver : Domains) (f : t fields)
    (container : list IntVarElement.t) (index container_index : nat)
    : bool * Z * nat :=
  match container !! container_index with
  | None => (false, 0%Z, container_index)
  | Some element =>
      if IntVarElement.Activated element
      then (true,
            value_evaluator_ (derived_ f) (Z.of_nat index)
              (IntVarElement.Value element),
            container_index)
      else
        let var := IntVarElement.Var element in
        if Bound solver var
        then (true,
              value_evaluator_ (derived_ f) (Z.of_nat index)
                (Min solver var),
              container_index)
        else (false, 0%Z, container_index)
  end.

#[global] Instance virtual : Virtual fields := {
  ObjectiveFilter.SynchronizedElementValue := SynchronizedElementValue;
  ObjectiveFilter.EvaluateElementValue := EvaluateElementValue
}.

(** What an element of a delta contributes once it is evaluated: the
    evaluator on its value when it is activated, on the value of its
    variable when that one is bound, nothing otherwise. *)
Definition new_contribution (solver : Domains) (f : t fields) (index : nat)
    (e : IntVarElement.t) : Z :=
  if IntVarElement.Activated e
  then value_evaluator_ (derived_ f) (Z.of_nat index) (IntVarElement.Value e)
  else if Bound solver (IntVarElement.Var e)
       then value_evaluator_ (derived_ f) (Z.of_nat index)
              (Min solver (IntVarElement.Var e))
       else 0%Z.

(** The change an element of a delta makes to the running sum: its new
    contribution less the cached one of its variable, and nothing for a
    variable that is not a primary variable of the filter. *)
Definition contribution_change (solver : Domains) (f : t fields)
    (e : IntVarElement.t) : Z :=
  match IntVarLocalSearchFilter.FindIndex (base_ f) (IntVarElement.Var e)
  with
  | Some index =>
      if (index <? primary_vars_size_ f)%nat
      then (new_contribution solver f index e
            - default 0%Z (cache_ f !! index))%Z
      else 0%Z
  | None => 0%Z
  end.

(** The contributions of the tracked values. *)
Definition contributions (f : t fields) : list Z :=
  (fun i => SynchronizedElementValue f i) <$> seq 0 (primary_vars_size_ f).

(** The sum of a list of contributions. *)
Definition total (l : list Z) : Z := foldr Z.add 0%Z l.

(** The test [Accept] ends with, for a delta that does not bound the
    objective itself. *)
Definition within_bound (solver : Domains) (f : t fields) (value : Z)
    : bool :=
  match filter_enum_ f with
  | LE => (value <=? Max solver (objective_ f))%Z
  | GE => (Min solver (objective_ f) <=? value)%Z
  | EQ => (value <=? Max solver (objective_ f))%Z
          && (Min solver (objective_ f) <=? value)%Z
  end.

(** [Solver::MakeLocalSearchObjectiveFilter] for an [IndexEvaluator2]. *)
Definition MakeLocalSearchObjectiveFilter (vars : list IntVar)
    (values : Z -> Z -> Z) (objective : IntVar)
    (filter_enum : LocalSearchFilterBound)
    (op_enum : LSOperation.LocalSearchOperation) (garbage : Z) : t fields :=
  Create vars objective filter_enum
    (LSOperation.OperationFromEnum op_enum garbage) (Fields values).
End BinaryObjectiveFilter.

(** ** FindOneNeighbor *)

Module FindOneNeighbor.
Local Open Scope Z_scope.

(** The statistics of the solver that the driver updates. *)
Record Counters : Type := Build {
  neighbors_ : Z;
  filtered_neighbors_ : Z;
  accepted_neighbors_ : Z
}.

(** A local filter as the driver sees it in one round: whether it is
    incremental, and what its [Accept] answers on the candidate. *)
Record FilterAnswer : Type := Answer {
  IsIncremental : bool;
  Accept : bool
}.

(** What the collaborators answer in one round of the loop of [Next]:
    the solution pool, the limit, the operator, the search monitors, the
    local filters and the nested solve. *)
Record Round : Type := {
  SyncNeeded : bool;
  limit_Check : bool;
  MakeNextNeighbor : bool;
  AcceptDelta : bool;
  filters_ : list FilterAnswer;
  SolveAndCommit : bool
}.

Record t : Type := State {
  counter : Z;
  neighbor_found_ : bool;
  solver : Counters
}.

Inductive Outcome : Type :=
| Continue      (* next round of the loop *)
| ReturnNull    (* a neighbor was committed *)
| Break.        (* the loop is left and the solver fails *)

(** [FilterAccept]: an incremental filter is called even after a
    rejection, another one only while [ok] holds.  The second component
    lists the filters that were called. *)
Definition FilterAccept_body (acc : bool * list FilterAnswer)
    (filter : FilterAnswer) : bool * list FilterAnswer :=
  let '(ok, called) := acc in
  if IsIncremental filter then (Accept filter && ok, called ++ [filter])
  else if ok then (Accept filter, called ++ [filter])
  else (false, called).

Definition FilterAccept (filters : list FilterAnswer)
    : bool * list FilterAnswer :=
  foldl FilterAccept_body (true, []) filters.

Definition incr (z : Z) : Z := Int64.wrap (z + 1).

(** One round of the [while (true)] loop of [Next]. *)
Definition Next_round (cp_local_search_sync_frequency : Z) (r : Round)
    (s : t) : t * Outcome :=
  let counter := counter s + 1 in
  let '(counter, neighbor_found) :=
    if (cp_local_search_sync_frequency <=? counter) && SyncNeeded r
    then (0, false)   (* SynchronizeAll *)
    else (counter, neighbor_found_ s) in
  if negb (limit_Check r) && MakeNextNeighbor r then
    let c := solver s in
    let c := Build (incr (neighbors_ c)) (filtered_neighbors_ c)
               (accepted_neighbors_ c) in
    let mh_filter := AcceptDelta r in
    let move_filter := (FilterAccept (filters_ r)).1 in
    if mh_filter && move_filter then
      let c := Build (neighbors_ c) (incr (filtered_neighbors_ c))
                 (accepted_neighbors_ c) in
      if SolveAndCommit r then
        let c := Build (neighbors_ c) (filtered_neighbors_ c)
                   (incr (accepted_neighbors_ c)) in
        (State counter true c, ReturnNull)
      else (State counter neighbor_found c, Continue)
    else (State counter neighbor_found c, Continue)
  else
    if neighbor_found
    then (State counter false (solver s), Continue)   (* SynchronizeAll *)
    else (State counter neighbor_found (solver s), Break).

(** The loop, driven by the answers of the collaborators round after
    round; it stops at the first round that leaves it. *)
Fixpoint Next_loop (frequency : Z) (rounds : list Round) (s : t)
    : t * Outcome :=
  match rounds with
  | [] => (s, Continue)
  | r :: rounds =>
      let '(s, outcome) := Next_round frequency r s in
      match outcome with
      | Continue => Next_loop frequency rounds s
      | _ => (s, outcome)
      end
  end.

(** The candidate of the round was produced, passed the filters, was
    committed. *)
Definition produced (r : Round) : bool :=
  negb (limit_Check r) && MakeNextNeighbor r.
Definition all_accept (r : Round) : bool :=
  AcceptDelta r && forallb Accept (filters_ r).
Definition committed (r : Round) : bool := SolveAndCommit r.

Definition ordered (c : Counters) : Prop :=
  0 <= accepted_neighbors_ c
  ∧ accepted_neighbors_ c <= filtered_neighbors_ c
  ∧ filtered_neighbors_ c <= neighbors_ c.
End FindOneNeighbor.

(** ** BaseLNS and SimpleLNS *)

Module BaseLNS.
Import IntVarLocalSearchOperator.

Section LNS.
Context {X : Type}.

(** The pure virtual [NextFragment]: it answers whether there is a
    fragment, and what it pushed on the vector it was handed. *)
Variable NextFragment : t X -> bool * list Z * t X.

(** [MakeOneNeighbor]: the variables of the fragment are deactivated, in
    the order of the fragment. *)
Definition MakeOneNeighbor (op : t X) : bool * t X :=
  let '(more, fragment, op) := NextFragment op in
  if more
  then (true, foldl (fun op i => Deactivate (Z.to_nat i) op) op fragment)
  else (false, op).
End LNS.
End BaseLNS.

Module SimpleLNS.
Import IntVarLocalSearchOperator.
Local Open Scope Z_scope.

Record fields : Type := Fields {
  index_ : Z;
  number_of_variables_ : Z
}.

Definition with_index (i : Z) (op : t fields) : t fields :=
  with_derived (Fields i (number_of_variables_ (derived_ op))) op.

(** The constructor, with its CHECK_GT on the number of variables. *)
Definition Create (vars : list IntVar) (uninit uninit_old : list Z)
    (number_of_variables : Z) : option (t fields) :=
  if 0 <? number_of_variables
  then Some (IntVarLocalSearchOperator.Create vars uninit uninit_old
               (Fields 0 number_of_variables))
  else None.

Definition InitFragments (op : t fields) : t fields := with_index 0 op.

(** [NextFragment]: the window of [number_of_variables_] indices that
    starts at [index_], taken modulo the number of variables. *)
Definition NextFragment (op : t fields) : bool * list Z * t fields :=
  let size := Z.of_nat (Size op) in
  if index_ (derived_ op) <? size then
    (true,
     (fun i => Z.rem i size)
       <$> seqZ (index_ (derived_ op)) (number_of_variables_ (derived_ op)),
     with_index (index_ (derived_ op) + 1) op)
  else (false, [], op).

(** [IsIncremental] and [SkipUnchanged] keep the defaults of
    constraint_solveri.h; [OnStart] is [InitFragments]. *)
#[global] Instance incremental : Incremental fields := false.

#[global] Instance virtual : Virtual fields := {
  SkipUnchanged := fun _ _ => false;
  IntVarLocalSearchOperator.MakeOneNeighbor := fun _ op =>
    Some (BaseLNS.MakeOneNeighbor NextFragment op);
  IntVarLocalSearchOperator.OnStart := fun op => Some (InitFragments op)
}.

(** The indices of the fragment that starts at [index_], each once, in
    the order of the fragment: the fragment wraps around when it is
    longer than the array. *)
Definition window (op : t fields) : list nat :=
  (fun j => (Z.to_nat (index_ (derived_ op)) + j) mod Size op)%nat
    <$> seq 0 (Nat.min (Z.to_nat (number_of_variables_ (derived_ op)))
                 (Size op)).

(** The elements that free the variables of the window. *)
Definition freed (op : t fields) : list IntVarElement.t :=
  (fun i => IntVarElement.Build (Var op i) 0 false) <$> window op.
End SimpleLNS.

(** ** ChangeValue, IncrementValue and DecrementValue *)

Module ChangeValue.
Import IntVarLocalSearchOperator.
Local Open Scope Z_scope.

(** [index_], and the pure virtual [ModifyValue] as the subclass
    provides it. *)
Record fields : Type := Fields {
  index_ : Z;
  ModifyValue : Z -> Z -> Z
}.

Definition with_index (i : Z) (op : t fields) : t fields :=
  with_derived (Fields i (ModifyValue (derived_ op))) op.

Definition Create (vars : list IntVar) (uninit uninit_old : list Z)
    (modify : Z -> Z -> Z) : t fields :=
  IntVarLocalSearchOperator.Create vars uninit uninit_old
    (Fields 0 modify).

(** [MakeOneNeighbor]: the body of its [while] returns in the first
    round. *)
Definition MakeOneNeighbor (op : t fields) : bool * t fields :=
  let size := Z.of_nat (Size op) in
  if index_ (derived_ op) <? size then
    let index := Z.to_nat (index_ (derived_ op)) in
    let value :=
      ModifyValue (derived_ op) (index_ (derived_ op)) (Value op index) in
    let op := SetValue index value op in
    (true, with_index (index_ (derived_ op) + 1) op)
  else (false, op).

Definition OnStart (op : t fields) : option (t fields) :=
  Some (with_index 0 op).

#[global] Instance incremental : Incremental fields := false.

#[global] Instance virtual : Virtual fields := {
  SkipUnchanged := fun _ _ => false;
  IntVarLocalSearchOperator.MakeOneNeighbor := fun _ op =>
    Some (MakeOneNeighbor op);
  IntVarLocalSearchOperator.OnStart := OnStart
}.

Definition IncrementValue (vars : list IntVar) (uninit uninit_old : list Z)
    : t fields :=
  Create vars uninit uninit_old (fun _ value => Int64.wrap (value + 1)).

Definition DecrementValue (vars : list IntVar) (uninit uninit_old : list Z)
    : t fields :=
  Create vars uninit uninit_old (fun _ value => Int64.wrap (value - 1)).

(** The element the operator emits for index [k]: the modified
    reference value, or a deactivation when the variable is deactivated
    in the reference. *)
Definition changed_element (op : t fields) (k : nat) : IntVarElement.t :=
  if Bitmap.Get (was_activated_ op) k
  then IntVarElement.Build (Var op k)
         (ModifyValue (derived_ op) (Z.of_nat k) (OldValue op k)) true
  else IntVarElement.Build (Var op k) 0 false.
End ChangeValue.

(** ** NeighborhoodLimit *)

Module NeighborhoodLimit.
Local Open Scope Z_scope.

Section Limit.
Context {Op : Type} {I : LocalSearchOperator Op}.

Record t : Type := Build {
  operator_ : Op;
  limit_ : Z;
  next_neighborhood_calls_ : Z
}.

(** The constructor, with its CHECK_NOTNULL and CHECK_GT. *)
Definition Create (op : option Op) (limit : Z) : option t :=
  match op with
  | None => None
  | Some op => if 0 <? limit then Some (Build op limit 0) else None
  end.

Definition LimitStart (assignment : Assignment.t) (l : t) : option t :=
  match Start assignment (operator_ l) with
  | None => None
  | Some op => Some (Build op (limit_ l) 0)
  end.

Definition LimitMakeNextNeighbor (l : t) (delta deltadelta : Assignment.t)
    : bool * t * Assignment.t * Assignment.t :=
  if limit_ l <=? next_neighborhood_calls_ l
  then (false, l, delta, deltadelta)
  else
    let calls := Int64.wrap (next_neighborhood_calls_ l + 1) in
    let '(found, op, delta, deltadelta) :=
      MakeNextNeighbor (operator_ l) delta deltadelta in
    (found, Build op (limit_ l) calls, delta, deltadelta).
End Limit.
Arguments t Op : clear implicits.
End NeighborhoodLimit.

(** ** The factories of the solver *)

Module Solver.
(** [MakeMoveTowardTargetOperator(target)]: the variables and the target
    values are read off the elements of the assignment, in their
    order. *)
Definition MakeMoveTowardTargetOperator (target : Assignment.t)
    (uninit uninit_old : list Z) (garbage : Z)
    : option (IntVarLocalSearchOperator.t MoveTowardTargetLS.fields) :=
  let elements := Assignment.IntVarContainer target in
  MoveTowardTargetLS.Create (IntVarElement.Var <$> elements)
    (IntVarElement.Value <$> elements) uninit uninit_old garbage.
End Solver.

(** ** Operators and scenarios the theorems are tried on *)

(** An incremental operator in the manner of [TwoOpt]: it stages its one
    candidate on top of what is staged, and is exhausted once something is
    staged. *)
Module ExtendingOperator.
Import IntVarLocalSearchOperator.

Inductive fields : Type := Fields.

#[global] Instance incremental : Incremental fields := true.

Definition MakeOneNeighbor (op : t fields) : bool * t fields :=
  match changes_ op with
  | [] => (true, SetValue 0 (OldValue op 0 + 1)%Z op)
  | _ => (false, op)
  end.

#[global] Instance virtual : Virtual fields := {
  SkipUnchanged := fun _ _ => false;
  IntVarLocalSearchOperator.MakeOneNeighbor := λ _ op,
    Some (MakeOneNeighbor op);
  OnStart := Some
}.

Definition Create (vars : list IntVar) : t fields :=
  IntVarLocalSearchOperator.Create vars [] [] Fields.
End ExtendingOperator.

Module Scenario.
Local Open Scope Z_scope.

(** The assignment in which variable [i] has the [i]-th value of
    [values]. *)
Definition assignment_of (values : list Z) : Assignment.t :=
  Assignment.Build
    (imap (fun i v => IntVarElement.Build i v true) values) None 0 0.

(** The delta with the single change [var := v]. *)
Definition change (var : IntVar) (v : Z) : Assignment.t :=
  Assignment.Build [IntVarElement.Build var v true] None 0 0.

(** Four variables, and the variable of the objective. *)
Definition variables : list IntVar := [0; 1; 2; 3]%nat.
Definition objective : IntVar := 4%nat.

(** MoveTowardTargetLS on [0,0,0,0] with target [1,0,1,0]. *)
Definition current : Assignment.t := assignment_of [0; 0; 0; 0].
Definition target : list Z := [1; 0; 1; 0].

(** The objective filter SUM, LE with [eval(i, v) = v], synchronised on
    [10,20,30,40]. *)
Definition eval (i v : Z) : Z := v.
Definition bound_values : Assignment.t := assignment_of [10; 20; 30; 40].
Definition sum_le_filter (garbage : Z)
    : ObjectiveFilter.t BinaryObjectiveFilter.fields :=
  BinaryObjectiveFilter.MakeLocalSearchObjectiveFilter variables eval
    objective ObjectiveFilter.LE LSOperation.SUM garbage.

(** The objective filter MAX, GE on two variables. *)
Definition max_ge_filter
    : ObjectiveFilter.t BinaryObjectiveFilter.fields :=
  BinaryObjectiveFilter.MakeLocalSearchObjectiveFilter [0; 1]%nat eval
    objective ObjectiveFilter.GE LSOperation.MAX 0.

(** The route 0 -> 1 -> 2 -> 3 -> 4 -> 5 over five next variables, where
    5 is the end of the path, and a path operator staged on it. *)
Definition route_assignment : Assignment.t := assignment_of [1; 2; 3; 4; 5].
Definition route : IntVarLocalSearchOperator.t (PathOperator.fields unit) :=
  IntVarLocalSearchOperator.Build [0; 1; 2; 3; 4]%nat
    [1; 2; 3; 4; 5] [1; 2; 3; 4; 5]
    [true; true; true; true; true] [true; true; true; true; true]
    [false; false; false; false; false]
    [false; false; false; false; false] [] true
    (PathOperator.Fields 5 true [] [] [] [] [] false true tt).

(** [TwoOpt] on the next variables of the route, without path
    variables. *)
Definition two_opt
    : IntVarLocalSearchOperator.t (PathOperator.fields TwoOpt.fields) :=
  TwoOpt.Create [0; 1; 2; 3; 4]%nat None [] [].

(** [n] calls of [MakeNextNeighbor] on empty deltas that all produce a
    neighbor. *)
Fixpoint after_neighbors (n : nat)
    (op : IntVarLocalSearchOperator.t (PathOperator.fields TwoOpt.fields))
    : option (IntVarLocalSearchOperator.t
                (PathOperator.fields TwoOpt.fields)) :=
  match n with
  | O => Some op
  | S n =>
      op ← after_neighbors n op;
      match IntVarLocalSearchOperator.MakeNextNeighbor 50 op
              Assignment.empty Assignment.empty with
      | Some (true, op, _, _) => Some op
      | _ => None
      end
  end.

(** The compound operator over A, B, C, which produce 1, 2 and 1
    candidates, with the round-robin evaluator. *)
Definition A : CountingOperator.t := CountingOperator.Build 0%nat 1%nat 0%nat.
Definition B : CountingOperator.t := CountingOperator.Build 1%nat 2%nat 0%nat.
Definition C : CountingOperator.t := CountingOperator.Build 2%nat 1%nat 0%nat.
Definition compound : CompoundOperator.t CountingOperator.t :=
  CompoundOperator.ConcatenateOperators [Some A; Some B; Some C] false.
End Scenario.

(** States the properties of the other operators are tried on. *)
Module Sample.
Import IntVarLocalSearchOperator.
Local Open Scope Z_scope.

(** Three variables valued 5, 6, 7 in the reference, with the staged
    change [var1 := 9]. *)
Definition arrays {X : Type} (derived : X) : t X :=
  Build [0; 1; 2]%nat [5; 9; 7] [5; 6; 7]
    [true; true; true] [true; true; true]
    [false; true; false] [false; true; false] [1%nat] false derived.

Definition counter : t ExtendingOperator.fields :=
  arrays ExtendingOperator.Fields.

(** The same variables in their reference state. *)
Definition reference {X : Type} (derived : X) : t X :=
  Build [0; 1; 2]%nat [5; 6; 7] [5; 6; 7]
    [true; true; true] [true; true; true]
    [false; false; false] [false; false; false] [] true derived.

(** [IncrementValue] with its cursor on the second variable. *)
Definition increment : t ChangeValue.fields :=
  reference (ChangeValue.Fields 1 (fun _ value => Int64.wrap (value + 1))).

(** [SimpleLNS] with fragments of two variables, its cursor on the last
    variable. *)
Definition lns : t SimpleLNS.fields := reference (SimpleLNS.Fields 2 2).

(** [MoveTowardTargetLS] toward 5, 8, 7, with its cursor on the last
    variable and no round done. *)
Definition toward : t MoveTowardTargetLS.fields :=
  reference (MoveTowardTargetLS.Fields [5; 8; 7] 2 0).

(** A limit of two calls on the operator B of the scenario, one call
    done. *)
Definition limited : NeighborhoodLimit.t CountingOperator.t :=
  NeighborhoodLimit.Build Scenario.B 2 1.

(** The compound operator of the scenario with its cursor on B, and the
    one that restarts. *)
Definition compound_on_B : CompoundOperator.t CountingOperator.t :=
  CompoundOperator.Build 1 3 [Scenario.A; Scenario.B; Scenario.C]
    [0; 1; 2]%nat (CompoundOperator.CompoundOperatorNoRestart 3).
Definition compound_restart : CompoundOperator.t CountingOperator.t :=
  CompoundOperator.Build 1 3 [Scenario.A; Scenario.B; Scenario.C]
    [1; 2; 0]%nat CompoundOperator.CompoundOperatorRestart.

(** The route 0 -> 1 -> 2 -> 3 -> 4 -> 5 with the base nodes 0 and 2. *)
Definition path {Y : Type} (y : Y) : t (PathOperator.fields Y) :=
  Build [0; 1; 2; 3; 4]%nat
    [1; 2; 3; 4; 5] [1; 2; 3; 4; 5]
    [true; true; true; true; true] [true; true; true; true; true]
    [false; false; false; false; false]
    [false; false; false; false; false] [] true
    (PathOperator.Fields 5 true [0; 2] [0; 0] [0; 0]%nat [0] [] false false
       y).

Definition two_opt : t (PathOperator.fields TwoOpt.fields) :=
  path (TwoOpt.Fields (-1) (-1)).
Definition relocate : t (PathOperator.fields Relocate.fields) :=
  path (Relocate.Fields 1 false).
Definition exchange : t (PathOperator.fields unit) := path tt.

(** The route 0 -> 1 -> 2 -> 3 -> 4 -> 6 with node 5 inactive, and
    [SwapActiveOperator] on it with its base node on 0. *)
Definition swap_active : t (PathOperator.fields SwapActiveOperator.fields) :=
  Build [0; 1; 2; 3; 4; 5]%nat
    [1; 2; 3; 4; 6; 5] [1; 2; 3; 4; 6; 5]
    [true; true; true; true; true; true]
    [true; true; true; true; true; true]
    [false; false; false; false; false; false]
    [false; false; false; false; false; false] [] true
    (PathOperator.Fields 6 true [0] [0] [0%nat] [0]
       [false; false; false; false; false; true] false false
       (SwapActiveOperator.Fields 5)).
End Sample.

(** * Theorems *)

(** ** The delta protocol *)

Section DeltaProtocol.
Import IntVarLocalSearchOperator DeltaContract.
Context {X : Type} {Inc : Incremental X} {V : Virtual X}.

Lemma append_nil (a : Assignment.t) : append [] a = a.
Proof. destruct a; unfold append, Assignment.with_container; simpl.
       by rewrite app_nil_r. Qed.

Lemma append_append (l1 l2 : list IntVarElement.t) (a : Assignment.t) :
  append l2 (append l1 a) = append (l1 ++ l2) a.
Proof. unfold append, Assignment.with_container; simpl.
       by rewrite app_assoc. Qed.

Lemma ApplyChanges_body_contract (op : t X) (d dd : Assignment.t) (i : nat) :
  ApplyChanges_body op (d, dd) i
  = (append (option_list (delta_element op i)) d,
     append (option_list (deltadelta_element op i)) dd).
Proof.
  unfold ApplyChanges_body, deltadelta_element, delta_element, mirrored,
    Activated.
  destruct (Bitmap.Get (activated_ op) i); simpl.
  - destruct (decide _) as [H|H]; simpl.
    + replace (negb (Value op i =? OldValue op i)%Z
               || negb (SkipUnchanged op i)) with true.
      2:{ destruct H as [H|H]; [|by rewrite H, orb_true_r].
          apply Z.eqb_neq in H. by rewrite H. }
      destruct IsIncremental, (cleared_ op),
        (Bitmap.Get (has_delta_changed_ op) i); simpl;
        rewrite ?append_nil; reflexivity.
    + replace (negb (Value op i =? OldValue op i)%Z
               || negb (SkipUnchanged op i)) with false.
      2:{ symmetry. apply orb_false_iff. split.
          - apply negb_false_iff, Z.eqb_eq.
            destruct (decide (Value op i = OldValue op i)); [done|tauto].
          - destruct (SkipUnchanged op i); [done|tauto]. }
      rewrite !append_nil.
      destruct IsIncremental, (cleared_ op),
        (Bitmap.Get (has_delta_changed_ op) i); simpl;
        rewrite ?append_nil; reflexivity.
  - destruct IsIncremental, (cleared_ op),
      (Bitmap.Get (has_delta_changed_ op) i); simpl;
      rewrite ?append_nil; reflexivity.
Qed.

Lemma ApplyChanges_fold (op : t X) (l : list nat) (d dd : Assignment.t) :
  foldl (ApplyChanges_body op) (d, dd) l
  = (append (omap (delta_element op) l) d,
     append (omap (deltadelta_element op) l) dd).
Proof.
  revert d dd. induction l as [|i l IH]; intros d dd; cbn [foldl omap].
  - by rewrite !append_nil.
  - rewrite ApplyChanges_body_contract, IH, !append_append.
    f_equal; f_equal;
      [destruct (delta_element op i) eqn:E
      |destruct (deltadelta_element op i) eqn:E]; simpl; by rewrite E.
Qed.

(** C1. [ApplyChanges] returns true and appends to [delta], for the
    indices of the change list in order, a [Deactivate(var[i])] element
    when [activated[i]] is false and otherwise a
    [SetValue(var[i], value[i])] element when the value differs from
    [old_value[i]] or [SkipUnchanged(i)] is false; it appends the same
    element to [deltadelta] exactly when the operator is incremental,
    [cleared] is false and [has_delta_changed[i]] is true; nothing else
    is added to either assignment.  It holds in every operator state,
    hence in those reached after a successful [MakeOneNeighbor]. *)
Theorem ApplyChanges_contract (op : t X) (delta deltadelta : Assignment.t) :
  ApplyChanges op delta deltadelta
  = (true, append (delta_elements op) delta,
           append (deltadelta_elements op) deltadelta).
Proof.
  unfold ApplyChanges. by rewrite ApplyChanges_fold.
Qed.

End DeltaProtocol.

(** ** Reverting the staged changes *)

Section Revert.
Import IntVarLocalSearchOperator DeltaContract.
Context {X : Type} {Inc : Incremental X}.

Ltac fields :=
  unfold RevertChanges_body, with_values, with_old_values, with_activated,
    with_was_activated, with_has_changed, with_has_delta_changed,
    with_changes, with_cleared, with_derived, Value, OldValue, Activated,
    Size, Bitmap.SetBit, Bitmap.Get in *;
  simpl in *.

Lemma RevertChanges_fold_frame (l : list nat) (op : t X) :
  vars_ (foldl RevertChanges_body op l) = vars_ op
  ∧ old_values_ (foldl RevertChanges_body op l) = old_values_ op
  ∧ was_activated_ (foldl RevertChanges_body op l) = was_activated_ op
  ∧ length (values_ (foldl RevertChanges_body op l)) = length (values_ op)
  ∧ length (activated_ (foldl RevertChanges_body op l))
    = length (activated_ op)
  ∧ cleared_ (foldl RevertChanges_body op l) = cleared_ op
  ∧ derived_ (foldl RevertChanges_body op l) = derived_ op.
Proof.
  revert op. induction l as [|j l IH]; intros op; [done|].
  cbn [foldl].
  destruct (IH (RevertChanges_body op j))
    as (-> & -> & -> & -> & -> & -> & ->).
  fields. by rewrite !length_insert.
Qed.

Lemma RevertChanges_fold_Value (l : list nat) (op : t X) (i : nat) :
  (∀ j, j ∈ l → (j < length (values_ op))%nat) →
  Value (foldl RevertChanges_body op l) i
  = if decide (i ∈ l) then OldValue op i else Value op i.
Proof.
  revert op. induction l as [|j l IH]; intros op Hl; [done|].
  cbn [foldl]. rewrite IH.
  2:{ intros k Hk. fields. rewrite length_insert.
      apply Hl. by right. }
  assert (Hj : (j < length (values_ op))%nat) by (apply Hl; by left).
  destruct (decide (i ∈ l)) as [Hi|Hi].
  - rewrite decide_True by (by right). by fields.
  - destruct (decide (i = j)) as [->|Hne].
    + rewrite decide_True by (by left). fields.
      by rewrite list_lookup_insert_eq.
    + rewrite decide_False.
      2:{ intros [->|?]%elem_of_cons; done. }
      fields. by rewrite list_lookup_insert_ne.
Qed.

Lemma RevertChanges_fold_Activated (l : list nat) (op : t X) (i : nat) :
  (∀ j, j ∈ l → (j < length (activated_ op))%nat) →
  Activated (foldl RevertChanges_body op l) i
  = if decide (i ∈ l) then Bitmap.Get (was_activated_ op) i
    else Activated op i.
Proof.
  revert op. induction l as [|j l IH]; intros op Hl; [done|].
  cbn [foldl]. rewrite IH.
  2:{ intros k Hk. fields. rewrite length_insert.
      apply Hl. by right. }
  assert (Hj : (j < length (activated_ op))%nat) by (apply Hl; by left).
  destruct (decide (i ∈ l)) as [Hi|Hi].
  - rewrite decide_True by (by right). by fields.
  - destruct (decide (i = j)) as [->|Hne].
    + rewrite decide_True by (by left). fields.
      by rewrite list_lookup_insert_eq.
    + rewrite decide_False.
      2:{ intros [->|?]%elem_of_cons; done. }
      fields. by rewrite list_lookup_insert_ne.
Qed.

(** A revert that is not cut short by the incremental guard restores the
    reference state and sets [cleared]. *)
Lemma RevertChanges_reference `{V : !Virtual X}
    (incremental : bool) (op : t X) :
  incremental && IsIncremental = false →
  staged op →
  reference_state (RevertChanges incremental op)
  ∧ cleared_ (RevertChanges incremental op) = true.
Proof.
  intros Hguard Hst. unfold RevertChanges. rewrite Hguard.
  set (op0 := with_cleared true _).
  assert (Hv : ∀ j, j ∈ changes_ op0 → (j < length (values_ op0))%nat).
  { intros j Hj. subst op0. fields.
    rewrite (staged_values _ Hst). by apply (staged_in_range _ Hst). }
  assert (Ha : ∀ j, j ∈ changes_ op0 → (j < length (activated_ op0))%nat).
  { intros j Hj. subst op0. fields.
    rewrite (staged_activated _ Hst). by apply (staged_in_range _ Hst). }
  destruct (RevertChanges_fold_frame (changes_ op0) op0)
    as (Hvars & Hold & Hwas & _ & _ & Hcl & _).
  split; [split|]; [|done|exact Hcl].
  - intros i Hi.
    pose proof (RevertChanges_fold_Value (changes_ op0) op0 i Hv) as HV.
    pose proof (RevertChanges_fold_Activated (changes_ op0) op0 i Ha) as HA.
    change (Value (foldl RevertChanges_body op0 (changes_ op0)) i
            = default 0%Z
                (old_values_ (foldl RevertChanges_body op0 (changes_ op0))
                 !! i)
            ∧ Activated (foldl RevertChanges_body op0 (changes_ op0)) i
              = Bitmap.Get
                  (was_activated_
                     (foldl RevertChanges_body op0 (changes_ op0))) i).
    rewrite HV, HA, Hold, Hwas.
    destruct (decide (i ∈ changes_ op0)) as [Hin|Hin]; [done|].
    apply (staged_unchanged _ Hst i Hin).
Qed.
Lemma RevertChanges_derived (incremental : bool) (op : t X) :
  derived_ (RevertChanges incremental op) = derived_ op.
Proof.
  unfold RevertChanges.
  destruct (incremental && IsIncremental); [reflexivity|].
  cbn [derived_ with_changes].
  match goal with
  | |- derived_ (foldl _ ?o ?l) = _ =>
      destruct (RevertChanges_fold_frame l o) as (_ & _ & _ & _ & _ & _ & ->)
  end.
  reflexivity.
Qed.

Lemma RevertChanges_false_cleared (op : t X) :
  cleared_ (RevertChanges false op) = true.
Proof.
  unfold RevertChanges. cbn [andb cleared_ with_changes].
  match goal with
  | |- cleared_ (foldl _ ?o ?l) = _ =>
      destruct (RevertChanges_fold_frame l o) as (_ & _ & _ & _ & _ & -> & _)
  end.
  reflexivity.
Qed.
End Revert.


(** ** The invariant of the staging arrays *)

Section StagingInvariant.
Import IntVarLocalSearchOperator DeltaContract.
Context {X : Type}.

(** What [MarkChange] does to the arrays of the invariant. *)
Lemma MarkChange_arrays (i : nat) (op : t X) :
  vars_ (MarkChange i op) = vars_ op
  ∧ values_ (MarkChange i op) = values_ op
  ∧ old_values_ (MarkChange i op) = old_values_ op
  ∧ activated_ (MarkChange i op) = activated_ op
  ∧ was_activated_ (MarkChange i op) = was_activated_ op
  ∧ has_changed_ (MarkChange i op)
    = (if Bitmap.Get (has_changed_ op) i then has_changed_ op
       else <[i:=true]> (has_changed_ op))
  ∧ changes_ (MarkChange i op)
    = (if Bitmap.Get (has_changed_ op) i then changes_ op
       else changes_ op ++ [i]).
Proof.
  unfold MarkChange.
  destruct (negb (Bitmap.Get (has_delta_changed_ op) i)); cbn;
    destruct (Bitmap.Get (has_changed_ op) i); cbn; done.
Qed.

(** Marking an index keeps the invariant, whatever is staged at that
    index. *)
Lemma staged_MarkChange (op op' : t X) (i : nat) :
  staged op → (i < Size op)%nat →
  vars_ op' = vars_ op →
  old_values_ op' = old_values_ op →
  was_activated_ op' = was_activated_ op →
  has_changed_ op' = has_changed_ op →
  changes_ op' = changes_ op →
  length (values_ op') = Size op →
  length (activated_ op') = Size op →
  (∀ j, j ≠ i → values_ op' !! j = values_ op !! j
                ∧ activated_ op' !! j = activated_ op !! j) →
  staged (MarkChange i op').
Proof.
  intros [Sv So Sa Sw Sh Sm Sr Su] Hi Hvars Hold Hwas Hhc Hch Hlv Hla Hother.
  destruct (MarkChange_arrays i op') as (F1 & F2 & F3 & F4 & F5 & F6 & F7).
  rewrite Hhc in F6, F7. rewrite Hch in F7.
  assert (Hin : i ∈ changes_ (MarkChange i op')).
  { rewrite F7. destruct (Bitmap.Get (has_changed_ op) i) eqn:E.
    - by apply Sm.
    - apply elem_of_app. right. by apply list_elem_of_singleton. }
  assert (Hsub : ∀ j, j ∈ changes_ op → j ∈ changes_ (MarkChange i op')).
  { intros j Hj. rewrite F7. destruct (Bitmap.Get (has_changed_ op) i);
      [done|]. apply elem_of_app. by left. }
  split; unfold Size, Value, OldValue, Activated, Bitmap.Get in *;
    rewrite ?F1, ?F2, ?F3, ?F4, ?F5, ?Hvars, ?Hold, ?Hwas; try done.
  - rewrite F6. destruct (default false (has_changed_ op !! i)); [done|].
    by rewrite length_insert.
  - intros j. rewrite F6, F7.
    destruct (default false (has_changed_ op !! i)) eqn:E; [apply Sm|].
    rewrite elem_of_app, list_elem_of_singleton.
    destruct (decide (j = i)) as [->|Hne].
    + rewrite list_lookup_insert_eq by lia. cbn. tauto.
    + rewrite list_lookup_insert_ne by done. specialize (Sm j). tauto.
  - intros j. rewrite F7.
    destruct (default false (has_changed_ op !! i)); [apply Sr|].
    intros [Hj| ->%list_elem_of_singleton]%elem_of_app; [by apply Sr|done].
  - intros j Hj.
    assert (Hne : j ≠ i) by (by intros ->).
    destruct (Hother j Hne) as [-> ->]. apply Su.
    intros Hc. by apply Hj, Hsub.
Qed.

Lemma staged_SetValue (op : t X) (index : nat) (value : Z) :
  staged op → (index < Size op)%nat → staged (SetValue index value op).
Proof.
  intros Hst Hi. unfold SetValue.
  apply (staged_MarkChange op); try done; cbn.
  - rewrite length_insert. apply (staged_values _ Hst).
  - apply (staged_activated _ Hst).
  - intros j Hj. by rewrite list_lookup_insert_ne.
Qed.

Lemma staged_Activate (op : t X) (index : nat) :
  staged op → (index < Size op)%nat → staged (Activate index op).
Proof.
  intros Hst Hi. unfold Activate.
  apply (staged_MarkChange op); try done; cbn.
  - apply (staged_values _ Hst).
  - unfold Bitmap.SetBit. rewrite length_insert.
    apply (staged_activated _ Hst).
  - intros j Hj. unfold Bitmap.SetBit. by rewrite list_lookup_insert_ne.
Qed.

Lemma staged_Deactivate (op : t X) (index : nat) :
  staged op → (index < Size op)%nat → staged (Deactivate index op).
Proof.
  intros Hst Hi. unfold Deactivate.
  apply (staged_MarkChange op); try done; cbn.
  - apply (staged_values _ Hst).
  - unfold Bitmap.SetBit. rewrite length_insert.
    apply (staged_activated _ Hst).
  - intros j Hj. unfold Bitmap.SetBit. by rewrite list_lookup_insert_ne.
Qed.

Lemma RevertChanges_fold_has_changed (l : list nat) (op : t X) (j : nat) :
  (∀ k, k ∈ l → (k < length (has_changed_ op))%nat) →
  length (has_changed_ (foldl RevertChanges_body op l))
  = length (has_changed_ op)
  ∧ Bitmap.Get (has_changed_ (foldl RevertChanges_body op l)) j
    = (if decide (j ∈ l) then false else Bitmap.Get (has_changed_ op) j).
Proof.
  revert op. induction l as [|k l IH]; intros op Hl; [done|].
  cbn [foldl]. destruct (IH (RevertChanges_body op k)) as [-> ->].
  { intros k' Hk'. cbn. unfold Bitmap.SetBit. rewrite length_insert.
    apply Hl. by right. }
  assert (Hk : (k < length (has_changed_ op))%nat) by (apply Hl; by left).
  cbn. unfold Bitmap.SetBit, Bitmap.Get. rewrite length_insert.
  split; [done|].
  destruct (decide (j ∈ l)) as [Hj|Hj].
  - rewrite decide_True by (by right). done.
  - destruct (decide (j = k)) as [->|Hne].
    + rewrite decide_True by (by left).
      by rewrite list_lookup_insert_eq.
    + rewrite decide_False by (intros [->|?]%elem_of_cons; done).
      by rewrite list_lookup_insert_ne.
Qed.

(** [RevertChanges] keeps the invariant, whether it stops at its guard
    or not. *)
Lemma staged_RevertChanges {Inc : Incremental X} {V : Virtual X}
    (incremental : bool) (op : t X) :
  staged op → staged (RevertChanges incremental op).
Proof.
  intros Hst.
  destruct (incremental && IsIncremental) eqn:Eg.
  - unfold RevertChanges. rewrite Eg. by destruct Hst.
  - destruct (RevertChanges_reference incremental op Eg Hst)
      as [[Href Hnil] _].
    revert Href Hnil. unfold RevertChanges. rewrite Eg.
    set (op0 := with_cleared true _). intros Href Hnil.
    destruct (RevertChanges_fold_frame (changes_ op0) op0)
      as (Hvars & Hold & Hwas & Hlv & Hla & _ & _).
    assert (Hh : ∀ j,
              length (has_changed_
                        (foldl RevertChanges_body op0 (changes_ op0)))
              = length (has_changed_ op0)
              ∧ Bitmap.Get
                  (has_changed_
                     (foldl RevertChanges_body op0 (changes_ op0))) j
                = (if decide (j ∈ changes_ op0) then false
                   else Bitmap.Get (has_changed_ op0) j)).
    { intros j. apply RevertChanges_fold_has_changed. intros k Hk.
      change (has_changed_ op0) with (has_changed_ op).
      rewrite (staged_has_changed _ Hst). by apply (staged_in_range _ Hst). }
    destruct Hst as [Sv So Sa Sw Sh Sm Sr Su].
    split; cbn; unfold Size in *; cbn in *;
      rewrite ?Hvars, ?Hold, ?Hwas, ?Hlv, ?Hla; try done.
    + rewrite (proj1 (Hh 0%nat)). exact Sh.
    + intros j. rewrite (proj2 (Hh j)). split; [|by intros ?%elem_of_nil].
      destruct (decide (j ∈ changes_ op)) as [|Hn]; [done|].
      intros Hj. exfalso. apply Hn. by apply Sm.
    + intros j Hj. by apply elem_of_nil in Hj.
    + intros j _. rewrite Hvars, Hwas in Href.
      destruct (decide (j < length (vars_ op))%nat) as [Hj|Hj];
        [by apply Href|].
      unfold Value, OldValue, Activated, Bitmap.Get. cbn. rewrite Hold.
      rewrite !lookup_ge_None_2; [done|lia|lia|lia|lia].
Qed.

(** The loop of [Start] over the first [n] indices: [vars_], the marks
    and the change list are kept, the arrays keep their lengths, and the
    indices below [n] are at their reference. *)
Lemma Start_loop_arrays (a : Assignment.t) (n : nat) (op op' : t X) :
  (n <= length (values_ op))%nat → (n <= length (old_values_ op))%nat →
  (n <= length (activated_ op))%nat →
  (n <= length (was_activated_ op))%nat →
  foldl (Start_body a) (Some op) (seq 0 n) = Some op' →
  (vars_ op' = vars_ op ∧ has_changed_ op' = has_changed_ op
   ∧ changes_ op' = changes_ op)
  ∧ (length (values_ op') = length (values_ op)
     ∧ length (old_values_ op') = length (old_values_ op)
     ∧ length (activated_ op') = length (activated_ op)
     ∧ length (was_activated_ op') = length (was_activated_ op))
  ∧ ∀ j, (j < n)%nat →
         Value op' j = OldValue op' j
         ∧ Activated op' j = Bitmap.Get (was_activated_ op') j.
Proof.
  revert op'. induction n as [|n IH]; intros op' Hv Ho Ha Hw.
  - intros [= <-]. split; [done|]. split; [done|]. intros j Hj. lia.
  - rewrite seq_S, foldl_app. cbn [foldl].
    destruct (foldl (Start_body a) (Some op) (seq 0 n)) as [op1|] eqn:E;
      [|done].
    destruct (IH op1) as ((Hvars & Hhc & Hch) & (Lv & Lo & La & Lw) & Hbelow);
      [lia..|done|].
    unfold Start_body. cbn [mbind option_bind plus].
    destruct (Assignment.Element a n) as [e|]; cbn [mbind option_bind];
      [|done].
    set (found := if decide _ then _ else _).
    destruct found as [e'|]; cbn [mbind option_bind]; [|done].
    intros [= <-].
    unfold Value, OldValue, Activated, Bitmap.Get, Bitmap.SetBit in *. cbn.
    rewrite !length_insert. split; [done|]. split; [done|].
    intros j Hj. destruct (decide (j = n)) as [->|Hne].
    + rewrite !list_lookup_insert_eq by lia. done.
    + rewrite !list_lookup_insert_ne by done. apply Hbelow. lia.
Qed.

(** [Start] brings an operator whose arrays and marks are in shape to
    the invariant: the candidate it stages is the reference, whatever the
    change list still holds. *)
Lemma staged_Start_loop (a : Assignment.t) (op op' : t X) :
  length (values_ op) = Size op → length (old_values_ op) = Size op →
  length (activated_ op) = Size op → length (was_activated_ op) = Size op →
  length (has_changed_ op) = Size op →
  (∀ i, Bitmap.Get (has_changed_ op) i = true ↔ i ∈ changes_ op) →
  (∀ i, i ∈ changes_ op → (i < Size op)%nat) →
  foldl (Start_body a) (Some op) (seq 0 (Size op)) = Some op' →
  staged op'.
Proof.
  intros Hv Ho Ha Hw Hh Hm Hr Hloop.
  destruct (Start_loop_arrays a (Size op) op op')
    as ((Hvars & Hhc & Hch) & (Lv & Lo & La & Lw) & Hbelow); [lia..|done|].
  split; unfold Size in *; rewrite ?Hvars, ?Hhc, ?Hch; try lia; try done.
  intros j _. destruct (decide (j < length (vars_ op))%nat) as [Hj|Hj];
    [by apply Hbelow|].
  unfold Value, OldValue, Activated, Bitmap.Get.
  rewrite !lookup_ge_None_2; [done|lia..].
Qed.

(** A freshly built operator is in shape for [Start]. *)
Lemma staged_Create_Start (a : Assignment.t) (vars : list IntVar)
    (uninit uninit_old : list Z) (d : X) (op' : t X) :
  foldl (Start_body a) (Some (Create vars uninit uninit_old d))
        (seq 0 (length vars)) = Some op' →
  staged op'.
Proof.
  intros Hloop.
  apply (staged_Start_loop a (Create vars uninit uninit_old d));
    unfold Size; cbn; rewrite ?length_replicate; try done.
  - rewrite length_take, length_app, length_replicate. lia.
  - rewrite length_take, length_app, length_replicate. lia.
  - intros i. unfold Bitmap.Get. split; [|by intros ?%elem_of_nil].
    destruct (replicate (length vars) false !! i) as [b|] eqn:E; [|done].
    apply lookup_replicate in E as [-> _]. done.
  - intros i Hi. by apply elem_of_nil in Hi.
Qed.
End StagingInvariant.

(** ** MakeNextNeighbor *)

Section NextNeighbor.
Import IntVarLocalSearchOperator DeltaContract.
Context {X : Type} {Inc : Incremental X} {V : Virtual X}.

(** One round of the loop is all it takes: [ApplyChanges] never answers
    false. *)
Lemma MakeNextNeighbor_unfold (fuel : nat) (op : t X)
    (delta deltadelta : Assignment.t) :
  MakeNextNeighbor (S fuel) op delta deltadelta
  = match MakeOneNeighbor fuel (RevertChanges true op) with
    | Some (true, op') =>
        Some (true, op', append (delta_elements op') delta,
              append (deltadelta_elements op') deltadelta)
    | Some (false, op') => Some (false, op', delta, deltadelta)
    | None => None
    end.
Proof.
  cbn [MakeNextNeighbor].
  destruct (MakeOneNeighbor fuel (RevertChanges true op)) as [[[] op']|];
    simpl.
  - by rewrite ApplyChanges_contract.
  - reflexivity.
  - reflexivity.
Qed.

Lemma reference_state_same_staging (op1 op2 : t X) :
  same_staging op1 op2 → reference_state op1 → reference_state op2.
Proof.
  intros (Hv & Hvals & Hold & Hact & Hwas & Hch) [Href Hnil].
  unfold reference_state, Size, Value, OldValue, Activated in *.
  rewrite <- Hv, <- Hvals, <- Hold, <- Hact, <- Hwas, <- Hch. by split.
Qed.

Lemma staged_revert_incremental (op : t X) :
  IsIncremental = false → staged op →
  reference_state (RevertChanges true op).
Proof.
  intros Hinc Hst.
  apply (RevertChanges_reference true op); [by rewrite Hinc|done].
Qed.

(** The steps of a subclass keep the staging arrays consistent. *)
Lemma staged_staging_step (op op' : t X) :
  staged op → staging_step op op' → staged op'.
Proof.
  intros Hst [m Hm|incremental|d].
  - destruct m as [i v|i|i]; cbn [mutate mutation_index] in *.
    + by apply staged_SetValue.
    + by apply staged_Activate.
    + by apply staged_Deactivate.
  - by apply staged_RevertChanges.
  - destruct Hst. by split.
Qed.

Lemma staged_staging_run (op op' : t X) :
  staged op → rtc staging_step op op' → staged op'.
Proof.
  intros Hst Hrun. induction Hrun as [|o1 o2 o3 Hstep _ IH]; [done|].
  apply IH. by apply (staged_staging_step o1).
Qed.

(** On consistent staging arrays the elements of [ApplyChanges]
    describe the staged candidate. *)
Lemma staged_describes_candidate (op : t X) :
  staged op → describes_candidate op (delta_elements op).
Proof.
  intros Hst. split.
  - intros e He. unfold delta_elements in He.
    apply list_elem_of_omap in He as (i & Hi & He). exists i.
    split; [by apply (staged_in_range _ Hst)|]. split; [done|].
    unfold delta_element, candidate_element in *.
    destruct (Activated op i); cbn [negb] in He.
    + destruct (decide _); by inversion He.
    + by inversion He.
  - intros i Hi Hoff Hskip.
    assert (Hin : i ∈ changes_ op).
    { destruct (decide (i ∈ changes_ op)) as [|Hout]; [done|].
      destruct (staged_unchanged _ Hst i Hout) as [Hv Ha].
      destruct Hoff; done. }
    unfold delta_elements. apply list_elem_of_omap. exists i.
    split; [done|]. unfold delta_element, candidate_element.
    destruct (Activated op i) eqn:Ea; cbn [negb]; [|done].
    destruct (decide _) as [|Hn]; [done|]. exfalso. apply Hn.
    destruct (decide (Value op i = OldValue op i)) as [Hv|Hv];
      [right; by apply Hskip|by left].
Qed.

(** C2, as the code has it.  [MakeNextNeighbor] returns, after one
    round of its loop, whenever [MakeOneNeighbor] does.  When it returns
    false, [delta] and [deltadelta] are as they were passed in and the
    operator is in the state in which the failing [MakeOneNeighbor] left
    it after [RevertChanges(true)]: this is the reference state (value
    equals old_value and activated equals was_activated at every tracked
    index, empty change list) when the operator is not incremental and the
    failing [MakeOneNeighbor] staged nothing.  When it returns true,
    [delta] has been extended by the elements of the change list; when
    the staging arrays were consistent at the call and [MakeOneNeighbor]
    went through the mutators at tracked indices, [RevertChanges] and its
    own fields only, these elements describe the staged candidate: each
    of them says what the candidate holds at a changed index, and every
    tracked index at which the candidate is not the reference has its
    element, but for a variable activated at its reference value that
    [SkipUnchanged] lets out. *)
Theorem MakeNextNeighbor_guarantees (fuel : nat) (op : t X)
    (delta deltadelta : Assignment.t) :
  (is_Some (MakeOneNeighbor fuel (RevertChanges true op)) →
   is_Some (MakeNextNeighbor (S fuel) op delta deltadelta))
  ∧ ∀ found op' delta' deltadelta',
      MakeNextNeighbor (S fuel) op delta deltadelta
      = Some (found, op', delta', deltadelta') →
      MakeOneNeighbor fuel (RevertChanges true op) = Some (found, op')
      ∧ (found = false →
           delta' = delta ∧ deltadelta' = deltadelta
           ∧ (IsIncremental = false → staged op →
              same_staging (RevertChanges true op) op' →
              reference_state op'))
      ∧ (found = true →
           delta' = append (delta_elements op') delta
           ∧ deltadelta' = append (deltadelta_elements op') deltadelta
           ∧ (staged op →
              rtc staging_step (RevertChanges true op) op' →
              staged op'
              ∧ describes_candidate op' (delta_elements op')
              ∧ ∀ i, (i < Size op')%nat → i ∉ changes_ op' →
                     ¬ off_reference op' i)).
Proof.
  rewrite MakeNextNeighbor_unfold.
  destruct (MakeOneNeighbor fuel (RevertChanges true op)) as [[[] op1]|]
    eqn:E; simpl.
  - split; [done|]. intros found op' d' dd' [= <- <- <- <-].
    split; [done|]. split; [done|]. intros _.
    do 2 (split; [done|]). intros Hst Hrun.
    assert (Hst1 : staged op1).
    { apply (staged_staging_run (RevertChanges true op)); [|done].
      by apply staged_RevertChanges. }
    split; [done|]. split; [by apply staged_describes_candidate|].
    intros i Hi Hout [Hv|Ha];
      destruct (staged_unchanged _ Hst1 i Hout); done.
  - split; [done|]. intros found op' d' dd' [= <- <- <- <-].
    split; [done|]. split; [|done].
    intros _. do 2 (split; [done|]). intros Hinc Hst Hsame.
    eapply reference_state_same_staging; [exact Hsame|].
    by apply staged_revert_incremental.
  - split; [by intros [? ?]|]. done.
Qed.

(** The elements mirrored into the delta of deltas are elements of the
    delta. *)
Lemma deltadelta_elements_subseteq (op : t X) :
  deltadelta_elements op ⊆ delta_elements op.
Proof.
  intros e. unfold deltadelta_elements, delta_elements.
  rewrite !list_elem_of_omap. intros (i & Hi & He). exists i. split; [done|].
  unfold deltadelta_element in He. by destruct (mirrored op i).
Qed.

Lemma deltadelta_elements_cleared (op : t X) :
  cleared_ op = true ∨ IsIncremental = false →
  deltadelta_elements op = [].
Proof.
  intros H. unfold deltadelta_elements.
  induction (changes_ op) as [|i l IH]; [done|].
  change (omap ?f (i :: l))
    with (match f i with Some y => y :: omap f l | None => omap f l end).
  rewrite IH. unfold deltadelta_element, mirrored.
  destruct H as [-> | ->]; [|done]. by rewrite andb_false_r.
Qed.

Lemma MarkChange_cleared (index : nat) (op : t X) :
  cleared_ (MarkChange index op) = cleared_ op.
Proof.
  unfold MarkChange.
  destruct (negb (Bitmap.Get (has_delta_changed_ op) index)),
    (negb (Bitmap.Get (has_changed_ _) index)); reflexivity.
Qed.

Lemma stage_cleared (ms : list Mutation) (op : t X) :
  cleared_ (stage ms op) = cleared_ op.
Proof.
  revert op. induction ms as [|m ms IH]; intros op; [done|].
  unfold stage in *. cbn [foldl]. rewrite IH.
  destruct m; cbn [mutate]; unfold SetValue, Activate, Deactivate;
    by rewrite MarkChange_cleared.
Qed.

(** C3, as the code has it.  Whatever a successful [MakeNextNeighbor]
    adds to [deltadelta] it also adds to [delta], so that [deltadelta]
    stays a subset of [delta] (both are empty when the driver calls).
    Nothing is added to [deltadelta] when the operator is not
    incremental, and nothing when [cleared] is set at emission: this is
    the case whenever [MakeOneNeighbor] went back to the reference in
    full ([RevertChanges(false)]) before staging the candidate, as
    [TwoOpt] does on its first call after [Start]. *)
Theorem deltadelta_subset_delta (fuel : nat) (op op' : t X)
    (delta deltadelta delta' deltadelta' : Assignment.t) :
  MakeNextNeighbor (S fuel) op delta deltadelta
  = Some (true, op', delta', deltadelta') →
  (Assignment.IntVarContainer deltadelta
     ⊆ Assignment.IntVarContainer delta →
   Assignment.IntVarContainer deltadelta'
     ⊆ Assignment.IntVarContainer delta')
  ∧ (IsIncremental = false → deltadelta' = deltadelta)
  ∧ (cleared_ op' = true → deltadelta' = deltadelta)
  ∧ (∀ ms op1, op' = stage ms (RevertChanges false op1) →
               deltadelta' = deltadelta).
Proof.
  rewrite MakeNextNeighbor_unfold.
  destruct (MakeOneNeighbor fuel (RevertChanges true op)) as [[[] op2]|];
    simpl; [|done|done].
  intros [= <- <- <-].
  assert (Hcl : cleared_ op2 = true → append (deltadelta_elements op2)
                                        deltadelta = deltadelta).
  { intros Hc. rewrite deltadelta_elements_cleared by (by left).
    apply append_nil. }
  split; [|split; [|split]].
  - intros Hsub e. simpl. rewrite !elem_of_app. intros [He|He].
    + left. by apply Hsub.
    + right. by apply deltadelta_elements_subseteq.
  - intros Hinc. rewrite deltadelta_elements_cleared by (by right).
    apply append_nil.
  - exact Hcl.
  - intros ms op1 ->. apply Hcl. rewrite stage_cleared.
    apply RevertChanges_false_cleared.
Qed.
End NextNeighbor.

(** ** TwoOpt, the incremental operator of the library *)

Section TwoOptFirstCall.
Import IntVarLocalSearchOperator DeltaContract PathOperator.
Local Open Scope Z_scope.

Lemma MarkChange_derived {X : Type} (index : nat) (op : t X) :
  derived_ (MarkChange index op) = derived_ op.
Proof.
  unfold MarkChange.
  destruct (negb (Bitmap.Get (has_delta_changed_ op) index)),
    (negb (Bitmap.Get (has_changed_ _) index)); reflexivity.
Qed.

Lemma SetNext_frame {Y : Type} (from to path : Z) (op : t (fields Y)) :
  cleared_ (SetNext from to path op) = cleared_ op
  ∧ derived_ (SetNext from to path op) = derived_ op.
Proof.
  unfold SetNext, SetValue.
  destruct (negb (ignore_path_vars _));
    rewrite ?MarkChange_cleared, ?MarkChange_derived; cbn;
    rewrite ?MarkChange_cleared, ?MarkChange_derived; done.
Qed.

Lemma ReverseChain_loop_frame {Y : Type} (fuel : nat) (op op' : t (fields Y))
    (after_chain path current current_next last : Z) :
  ReverseChain_loop fuel op after_chain path current current_next
  = Some (op', last) →
  cleared_ op' = cleared_ op ∧ derived_ op' = derived_ op.
Proof.
  revert op current current_next.
  induction fuel as [|fuel IH]; intros op current current_next;
    cbn [ReverseChain_loop];
    destruct (current_next =? after_chain); try done.
  - by intros [= <- <-].
  - by intros [= <- <-].
  - intros H. apply IH in H as [-> ->]. apply SetNext_frame.
Qed.

Lemma ReverseChain_frame {Y : Type} (op op' : t (fields Y))
    (before_chain after_chain : Z) (r : bool) (last : option Z) :
  ReverseChain op before_chain after_chain = Some (r, op', last) →
  cleared_ op' = cleared_ op ∧ derived_ op' = derived_ op.
Proof.
  unfold ReverseChain.
  destruct (CheckChainValidity _ _ _ _ _) as [[]|]; [| |done].
  - destruct (Next op before_chain =? after_chain); [by intros [= <- <- <-]|].
    destruct (ReverseChain_loop _ _ _ _ _ _) as [[op1 c]|] eqn:E; [|done].
    cbn. intros [= <- <- <-].
    apply ReverseChain_loop_frame in E as [E1 E2].
    destruct (SetNext_frame before_chain c (Path op before_chain) op1)
      as [-> ->].
    rewrite E1, E2. apply SetNext_frame.
  - by intros [= <- <- <-].
Qed.

(** While [last_] is -1, [TwoOpt::MakeNeighbor] goes back to the
    reference in full before it stages anything; when it fails, [last_] is
    -1 again. *)
Lemma TwoOpt_MakeNeighbor_fresh (op op' : t (fields TwoOpt.fields))
    (found : bool) :
  TwoOpt.last_ (sub_ (derived_ op)) = -1 →
  TwoOpt.MakeNeighbor op = Some (found, op') →
  if found then cleared_ op' = true
  else TwoOpt.last_ (sub_ (derived_ op')) = -1.
Proof.
  intros Hlast. unfold TwoOpt.MakeNeighbor. rewrite Hlast.
  rewrite Z.eqb_refl, orb_true_r.
  set (op0 := RevertChanges false op).
  assert (Hc : cleared_ op0 = true) by apply RevertChanges_false_cleared.
  destruct (IsPathEnd op0 (BaseNode op0 0)); [by intros [= <- <-]|].
  destruct (ReverseChain _ _ _) as [[[[] op1] cl]|] eqn:E; [| |done].
  - intros [= <- <-]. apply ReverseChain_frame in E as [-> _]. exact Hc.
  - by intros [= <- <-].
Qed.

Lemma set_base_node_sub {Y : Type} (i : nat) (node : Z) (op : t (fields Y)) :
  sub_ (derived_ (set_base_node i node op)) = sub_ (derived_ op).
Proof. reflexivity. Qed.

Lemma IncrementPosition_advance_sub {Y : Type} (i last_restarted : nat)
    (op : t (fields Y)) :
  sub_ (derived_ (IncrementPosition_advance i last_restarted op).1)
  = sub_ (derived_ op).
Proof.
  revert last_restarted op. induction i as [|i IH]; intros lr op;
    cbn [IncrementPosition_advance]; [done|].
  destruct (BaseNode op i <? number_of_nexts op); [done|].
  by rewrite IH.
Qed.

Lemma IncrementPosition_paths_sub {Y : Type} {PV : PathVirtual Y} (i : nat)
    (op : t (fields Y)) :
  sub_ (derived_ (IncrementPosition_paths i op).2) = sub_ (derived_ op).
Proof.
  revert op. induction i as [|i IH]; intros op;
    cbn [IncrementPosition_paths]; [done|].
  destruct (_ <? _)%nat.
  - destruct (_ || _); [done|]. by rewrite IH.
  - by rewrite IH.
Qed.

Lemma IncrementPosition_sub {Y : Type} {PV : PathVirtual Y}
    (op : t (fields Y)) :
  sub_ (derived_ (IncrementPosition op).2) = sub_ (derived_ op).
Proof.
  unfold IncrementPosition.
  destruct (negb (just_started_ (derived_ op))); [|done].
  pose proof (IncrementPosition_advance_sub
                (length (base_nodes_ (derived_ op)))
                (length (base_nodes_ (derived_ op))) op) as Ha.
  destruct (IncrementPosition_advance _ _ op) as [op1 lr]. cbn [fst] in Ha.
  set (l := seq lr _).
  assert (Hf : ∀ o : t (fields Y),
            sub_ (derived_
                    (foldl (λ op i,
                              set_base_node i
                                (GetBaseNodeRestartPosition op i) op) o l))
            = sub_ (derived_ o)).
  { induction l as [|j l IH]; intros o; [done|]. cbn [foldl].
    by rewrite IH. }
  destruct (0 <? lr)%nat; cbn [snd]; [by rewrite Hf|].
  pose proof (IncrementPosition_paths_sub
                (length (base_nodes_ (derived_ op)))
                (foldl (λ op i,
                          set_base_node i (GetBaseNodeRestartPosition op i)
                            op) op1 l)) as Hp.
  destruct (IncrementPosition_paths _ _) as [[b|] op2]; cbn [snd] in *;
    by rewrite Hp, Hf.
Qed.

(** While [last_] is -1, a neighbor that [MakeOneNeighbor] finds is staged
    on a state that was reverted in full. *)
Lemma TwoOpt_MakeOneNeighbor_fresh (fuel : nat)
    (op op' : t (fields TwoOpt.fields)) :
  TwoOpt.last_ (sub_ (derived_ op)) = -1 →
  MakeOneNeighbor fuel op = Some (true, op') →
  cleared_ op' = true.
Proof.
  revert op. induction fuel as [|fuel IH]; intros op Hlast; [done|].
  cbn [MakeOneNeighbor].
  pose proof (IncrementPosition_sub op) as Hs.
  destruct (IncrementPosition op) as [[] op1]; cbn [snd] in Hs; [|done].
  destruct (PathOperator.MakeNeighbor (RevertChanges true op1))
    as [[[] op2]|] eqn:E; [| |done].
  - intros [= <-].
    refine (TwoOpt_MakeNeighbor_fresh _ _ true _ E).
    by rewrite RevertChanges_derived, Hs.
  - apply IH.
    refine (TwoOpt_MakeNeighbor_fresh _ _ false _ E).
    by rewrite RevertChanges_derived, Hs.
Qed.

Lemma TwoOpt_OnStart_last (op op1 : t (fields TwoOpt.fields)) :
  PathOperator.OnStart op = Some op1 →
  TwoOpt.last_ (sub_ (derived_ op1)) = -1.
Proof.
  unfold PathOperator.OnStart.
  destruct (InitializeBaseNodes op) as [op2|]; cbn [mbind option_bind];
    [|done].
  by intros [= <-].
Qed.

Lemma TwoOpt_Start_last (a : Assignment.t)
    (op op1 : t (fields TwoOpt.fields)) :
  Start a op = Some op1 → TwoOpt.last_ (sub_ (derived_ op1)) = -1.
Proof.
  unfold Start. destruct (decide _); [|done].
  destruct (foldl _ _ _) as [op0|]; [|done].
  exact (TwoOpt_OnStart_last op0 op1).
Qed.

(** [TwoOpt], the incremental operator of the library: the first
    [MakeNextNeighbor] after a [Start] adds nothing to [deltadelta]. *)
Lemma TwoOpt_first_deltadelta_empty (a : Assignment.t) (fuel : nat)
    (op op1 op2 : t (fields TwoOpt.fields))
    (delta deltadelta delta' deltadelta' : Assignment.t) :
  Start a op = Some op1 →
  MakeNextNeighbor (S fuel) op1 delta deltadelta
  = Some (true, op2, delta', deltadelta') →
  deltadelta' = deltadelta.
Proof.
  intros Hstart. rewrite MakeNextNeighbor_unfold.
  destruct (IntVarLocalSearchOperator.MakeOneNeighbor fuel
              (RevertChanges true op1)) as [[[] op']|] eqn:E; [|done|done].
  intros [= <- <- <-].
  rewrite deltadelta_elements_cleared; [apply append_nil|]. left.
  apply (TwoOpt_MakeOneNeighbor_fresh fuel (RevertChanges true op1)); [|done].
  rewrite RevertChanges_derived. by apply (TwoOpt_Start_last a op).
Qed.
End TwoOptFirstCall.

(** ** The guarantees of MakeNextNeighbor on concrete operators *)

Section NextNeighborExamples.
Import IntVarLocalSearchOperator DeltaContract.

Lemma staged_on_range_staged {X : Type} (op : t X) :
  staged_on_range op → staged op.
Proof.
  intros ((Hv & Ho & Ha & Hw & Hh) & Hin & Hall).
  rewrite Forall_forall in Hin. rewrite Forall_forall in Hall.
  assert (Hout : ∀ i, ¬ (i < Size op)%nat → i ∉ changes_ op).
  { intros i Hi Hc. apply Hi. by apply Hin. }
  split; try done.
  - intros i. destruct (decide (i < Size op)%nat) as [Hi|Hi].
    + apply Hall, elem_of_seq. lia.
    + split; [|by intros ?%Hout].
      unfold Bitmap.Get. rewrite lookup_ge_None_2 by lia. done.
  - intros i Hc. destruct (decide (i < Size op)%nat) as [Hi|Hi].
    + apply Hall; [apply elem_of_seq; lia|done].
    + unfold Value, OldValue, Activated, Bitmap.Get.
      rewrite !lookup_ge_None_2 by lia. done.
Qed.

(** Discharges [staged] on a state given by its arrays. *)
Ltac staged_by_computation :=
  apply staged_on_range_staged;
  apply (bool_decide_unpack _); vm_compute; reflexivity.

(** C2 fails as stated, on [TwoOpt].  On the route 0 -> 1 -> 2 -> 3 -> 4
    -> 5 the third neighbor is 0 -> 3 -> 2 -> 1 -> 4 -> 5, found with the
    cursors on nodes 0 and 4.  Once it is committed the driver starts the
    operator again on it, and the cursors stay where they are.  The sweep
    that follows yields ten neighbors, the last one staged on top of the
    one before; the next call finds the cursors back where they started
    and returns false, [RevertChanges(true)] having stopped at its
    incremental guard: the last neighbor is still staged. *)
Lemma TwoOpt_exhausted_off_reference :
  ∃ op1 op2 op3 op4 op5,
    Start Scenario.route_assignment Scenario.two_opt = Some op1
    ∧ Scenario.after_neighbors 3 op1 = Some op2
    ∧ values_ op2 = [3; 4; 1; 2; 5]%Z
    ∧ Start (Scenario.assignment_of [3; 4; 1; 2; 5]%Z) op2 = Some op3
    ∧ Scenario.after_neighbors 10 op3 = Some op4
    ∧ MakeNextNeighbor 50 op4 Assignment.empty Assignment.empty
      = Some (false, op5, Assignment.empty, Assignment.empty)
    ∧ values_ op5 = [2; 4; 3; 1; 5]%Z
    ∧ old_values_ op5 = [3; 4; 1; 2; 5]%Z
    ∧ changes_ op5 = [3; 0; 2]%nat
    ∧ ¬ reference_state op5.
Proof.
  eexists _, _, _, _, _.
  do 9 (split; [vm_compute; reflexivity|]).
  intros [_ Hnil]. discriminate Hnil.
Qed.

(** [MoveTowardTargetLS] on [0,0,0,0] with target [1,0,1,0].  The
    first call returns true: it writes its two counters and stages
    [var0 := 1], and the one element of its delta describes that
    candidate.  The third call returns false and leaves the operator in
    the reference state. *)
Lemma MakeNextNeighbor_guarantees_witness :
  ∃ op0 op1 op2 op3 op4,
    MoveTowardTargetLS.Create Scenario.variables Scenario.target [] [] 0
    = Some op0
    ∧ Start Scenario.current op0 = Some op1
    ∧ staged op1
    ∧ MakeNextNeighbor 5 op1 Assignment.empty Assignment.empty
      = Some (true, op2, Scenario.change 0%nat 1, Assignment.empty)
    ∧ rtc staging_step (RevertChanges true op1) op2
    ∧ describes_candidate op2
        (Assignment.IntVarContainer (Scenario.change 0%nat 1))
    ∧ MakeNextNeighbor 5 op2 Assignment.empty Assignment.empty
      = Some (true, op3, Scenario.change 2%nat 1, Assignment.empty)
    ∧ MakeNextNeighbor 5 op3 Assignment.empty Assignment.empty
      = Some (false, op4, Assignment.empty, Assignment.empty)
    ∧ reference_state op4.
Proof.
  eexists _, _, _, _, _.
  split; [vm_compute; reflexivity|].
  split; [vm_compute; reflexivity|].
  match goal with
  | |- staged ?op1 ∧ ?call = Some ?r ∧ _ =>
      assert (Hst : staged op1) by staged_by_computation;
      assert (Hcall : call = Some r) by (vm_compute; reflexivity);
      destruct (MakeNextNeighbor_guarantees 4 op1 Assignment.empty
                  Assignment.empty) as [_ Hg];
      destruct (Hg _ _ _ _ Hcall) as (_ & _ & Htrue);
      destruct (Htrue eq_refl) as (_ & _ & Hdesc)
  end.
  split; [exact Hst|]. split; [exact Hcall|].
  match goal with
  | |- rtc staging_step ?a ?b ∧ _ =>
      assert (Hrun : rtc staging_step a b)
  end.
  { eapply rtc_l;
      [apply (step_fields _ (MoveTowardTargetLS.Fields Scenario.target 3 1))|].
    eapply rtc_l;
      [apply (step_fields _ (MoveTowardTargetLS.Fields Scenario.target 0 1))|].
    eapply rtc_l;
      [apply (step_mutate _ (DoSetValue 0 1)); vm_compute; lia|].
    vm_compute. apply rtc_refl. }
  split; [exact Hrun|].
  destruct (Hdesc Hst Hrun) as (_ & Hd & _).
  split; [exact Hd|].
  split; [vm_compute; reflexivity|].
  match goal with
  | |- MakeNextNeighbor 5 ?op3 _ _ = Some ?r ∧ _ =>
      assert (Hcall3 : MakeNextNeighbor 5 op3 Assignment.empty
                         Assignment.empty = Some r)
        by (vm_compute; reflexivity);
      destruct (MakeNextNeighbor_guarantees 4 op3 Assignment.empty
                  Assignment.empty) as [_ Hg3];
      destruct (Hg3 _ _ _ _ Hcall3) as (_ & Hfalse & _)
  end.
  split; [exact Hcall3|].
  destruct (Hfalse eq_refl) as (_ & _ & Href).
  apply Href.
  - reflexivity.
  - staged_by_computation.
  - vm_compute. repeat split.
Defined.

(** C3 fails as stated: nothing in [Start] or in [MakeNextNeighbor] sets
    [cleared] for an incremental operator, so the first call after
    [Start] mirrors what it stages.  The incremental operator below
    stages [x0 := 1] on its first call and emits it in [deltadelta]
    too. *)
Lemma first_deltadelta_not_empty :
  ∃ op1 op2 d dd,
    Start (Scenario.assignment_of [0%Z]) (ExtendingOperator.Create [0%nat])
    = Some op1
    ∧ MakeNextNeighbor 1 op1 Assignment.empty Assignment.empty
      = Some (true, op2, d, dd)
    ∧ IsIncremental (X := ExtendingOperator.fields) = true
    ∧ Assignment.IntVarContainer dd = [IntVarElement.Build 0 1 true]
    ∧ dd ≠ Assignment.empty.
Proof.
  eexists _, _, _, _.
  split; [vm_compute; reflexivity|].
  split; [vm_compute; reflexivity|].
  split; [reflexivity|]. split; [reflexivity|]. discriminate.
Qed.

(** [TwoOpt] started again on the third neighbor of the route: the
    first call stages a reversal of four arcs after a full revert, and
    adds nothing to [deltadelta]; the second call extends it, and mirrors
    three of its five elements. *)
Lemma deltadelta_subset_delta_witness :
  ∃ op1 op2 op3 op4 op5 d1 d2 dd2,
    Start Scenario.route_assignment Scenario.two_opt = Some op1
    ∧ Scenario.after_neighbors 3 op1 = Some op2
    ∧ Start (Scenario.assignment_of [3; 4; 1; 2; 5]%Z) op2 = Some op3
    ∧ MakeNextNeighbor 50 op3 Assignment.empty Assignment.empty
      = Some (true, op4, d1, Assignment.empty)
    ∧ length (Assignment.IntVarContainer d1) = 4%nat
    ∧ MakeNextNeighbor 50 op4 Assignment.empty Assignment.empty
      = Some (true, op5, d2, dd2)
    ∧ Assignment.IntVarContainer dd2 ⊆ Assignment.IntVarContainer d2
    ∧ length (Assignment.IntVarContainer d2) = 5%nat
    ∧ length (Assignment.IntVarContainer dd2) = 3%nat.
Proof.
  eexists _, _, _, _, _, _, _, _.
  do 5 (split; [vm_compute; reflexivity|]).
  match goal with
  | |- ?call = Some ?r ∧ _ =>
      assert (Hcall : call = Some r) by (vm_compute; reflexivity)
  end.
  split; [exact Hcall|].
  split; [|split; reflexivity].
  by apply (proj1 (deltadelta_subset_delta _ _ _ _ _ _ _ Hcall)).
Defined.
End NextNeighborExamples.

(** ** Start *)

Section StartChecks.
Import IntVarLocalSearchOperator.
Context {X : Type} {Inc : Incremental X} {V : Virtual X}.

Lemma Start_fold_None (assignment : Assignment.t) (l : list nat) :
  foldl (Start_body assignment) None l = None (A := t X).
Proof. induction l as [|i l IH]; [done|]. exact IH. Qed.

Lemma Contains_Element (a : Assignment.t) (i : nat) (e : IntVarElement.t) :
  Assignment.Element a i = Some e →
  Assignment.Contains a (IntVarElement.Var e) = true.
Proof.
  intros He. unfold Assignment.Contains. apply existsb_exists.
  exists e. split; [|apply Nat.eqb_refl].
  apply list_elem_of_In, list_elem_of_lookup. by exists i.
Qed.

Lemma Contains_ElementOf (a : Assignment.t) (var : IntVar) :
  Assignment.Contains a var = true →
  ∃ e, Assignment.ElementOf a var = Some e ∧ IntVarElement.Var e = var.
Proof.
  unfold Assignment.Contains, Assignment.ElementOf.
  induction (Assignment.IntVarContainer a) as [|e l IH]; simpl; [done|].
  destruct (Nat.eqb (IntVarElement.Var e) var) eqn:E; simpl.
  - intros _. exists e. split; [done|]. by apply Nat.eqb_eq.
  - exact IH.
Qed.

(** A round of the loop keeps the variables and the subclass fields. *)
Lemma Start_body_Some (a : Assignment.t) (op op' : t X) (i : nat) :
  Start_body a (Some op) i = Some op' →
  vars_ op' = vars_ op ∧ derived_ op' = derived_ op.
Proof.
  unfold Start_body. simpl.
  destruct (Assignment.Element a i) as [e|]; simpl; [|done].
  destruct (decide _); simpl.
  - by intros [= <-].
  - destruct (Assignment.Contains a (Var op i)); [|done].
    destruct (Assignment.ElementOf a (Var op i)); simpl; [|done].
    by intros [= <-].
Qed.

Lemma Start_body_missing (a : Assignment.t) (op : t X) (i : nat) :
  Assignment.Contains a (Var op i) = false →
  Start_body a (Some op) i = None.
Proof.
  intros Hc. unfold Start_body. simpl.
  destruct (Assignment.Element a i) as [e|] eqn:He; simpl; [|done].
  destruct (decide _) as [Heq|]; simpl.
  - apply Contains_Element in He. congruence.
  - by rewrite Hc.
Qed.

Lemma Start_body_found (a : Assignment.t) (op : t X) (i : nat) :
  (i < Assignment.Size a)%nat →
  Assignment.Contains a (Var op i) = true →
  is_Some (Start_body a (Some op) i).
Proof.
  intros Hi Hc. unfold Start_body. simpl.
  destruct (Assignment.Element a i) as [e|] eqn:He; simpl.
  2:{ apply lookup_ge_None in He. unfold Assignment.Size in Hi. lia. }
  destruct (decide _); simpl; [done|]. rewrite Hc.
  destruct (Contains_ElementOf a _ Hc) as (e' & -> & _). done.
Qed.

Lemma Start_fold_missing (a : Assignment.t) (l : list nat) (op : t X)
    (i : nat) :
  i ∈ l → Assignment.Contains a (Var op i) = false →
  foldl (Start_body a) (Some op) l = None.
Proof.
  revert op. induction l as [|j l IH]; intros op Hi Hc; [by inversion Hi|].
  cbn [foldl].
  destruct (Start_body a (Some op) j) as [op'|] eqn:E;
    [|apply Start_fold_None].
  apply elem_of_cons in Hi as [->|Hi].
  - by rewrite Start_body_missing in E.
  - apply IH; [done|].
    apply Start_body_Some in E as [Hv _]. unfold Var in *. by rewrite Hv.
Qed.

Lemma Start_fold_found (a : Assignment.t) (l : list nat) (op : t X) :
  (∀ i, i ∈ l → (i < Assignment.Size a)%nat
                ∧ Assignment.Contains a (Var op i) = true) →
  ∃ op', foldl (Start_body a) (Some op) l = Some op'
         ∧ vars_ op' = vars_ op ∧ derived_ op' = derived_ op.
Proof.
  revert op. induction l as [|j l IH]; intros op Hl; [by exists op|].
  cbn [foldl].
  destruct (Hl j) as [Hj Hc]; [by left|].
  destruct (Start_body_found a op j Hj Hc) as [op1 E]. rewrite E.
  apply Start_body_Some in E as [Hv Hd].
  destruct (IH op1) as (op' & -> & Hv' & Hd').
  { intros i Hi. unfold Var. rewrite Hv. apply Hl. by right. }
  exists op'. split; [done|]. split; congruence.
Qed.

(** C4, as the code has it.  [Start] fails when the assignment holds
    fewer variables than the operator, and when a variable of the
    operator is missing from the assignment altogether.  A different
    variable at an indexed slot is not an error: the element of the
    operator's variable is then looked up by variable, and [Start] goes
    through to [OnStart] whenever every variable of the operator is
    somewhere in the assignment. *)
Theorem Start_fatal_checks (assignment : Assignment.t) (op : t X) :
  ((Assignment.Size assignment < Size op)%nat →
   Start assignment op = None)
  ∧ (∀ i, (i < Size op)%nat →
          Assignment.Contains assignment (Var op i) = false →
          Start assignment op = None)
  ∧ ((Size op <= Assignment.Size assignment)%nat →
     (∀ i, (i < Size op)%nat →
           Assignment.Contains assignment (Var op i) = true) →
     ∃ op', vars_ op' = vars_ op ∧ derived_ op' = derived_ op
            ∧ Start assignment op = OnStart op').
Proof.
  unfold Start. split; [|split].
  - intros Hlt. rewrite decide_False by lia. done.
  - intros i Hi Hc. destruct (decide _); [|done].
    rewrite (Start_fold_missing assignment _ op i); [done| |done].
    apply elem_of_seq. lia.
  - intros Hle Hall. rewrite decide_True by done.
    destruct (Start_fold_found assignment (seq 0 (Size op)) op)
      as (op' & -> & Hv & Hd).
    { intros i Hi%elem_of_seq. split; [lia|]. apply Hall. lia. }
    by exists op'.
Qed.
End StartChecks.

Section StartExamples.
Import IntVarLocalSearchOperator.

(** The operator holds [x0, x1]; the assignment holds [x1 = 5] in slot 0
    and [x0 = 7] in slot 1. *)

(** C4 fails as stated: every slot of the assignment holds a different
    variable than the operator does, and [Start] succeeds, with the
    values looked up by variable. *)
Lemma Start_tolerates_other_variable_at_slot :
  ∃ op',
    Start (Assignment.Build [IntVarElement.Build 1 5 true;
                             IntVarElement.Build 0 7 true] None 0 0)
          (ExtendingOperator.Create [0; 1]%nat)
    = Some op'
    ∧ values_ op' = [7; 5]%Z.
Proof. eexists. split; vm_compute; reflexivity. Qed.

Lemma Start_fatal_checks_witness :
  (∃ op',
     Start (Assignment.Build [IntVarElement.Build 1 5 true;
                              IntVarElement.Build 0 7 true] None 0 0)
           (ExtendingOperator.Create [0; 1]%nat)
     = Some op')
  ∧ Start (Assignment.Build [IntVarElement.Build 0 7 true] None 0 0)
          (ExtendingOperator.Create [0; 1]%nat) = None
  ∧ Start (Assignment.Build [IntVarElement.Build 0 7 true;
                             IntVarElement.Build 2 5 true] None 0 0)
          (ExtendingOperator.Create [0; 1]%nat) = None.
Proof.
  split; [|split].
  - destruct (Start_fatal_checks
                (Assignment.Build [IntVarElement.Build 1 5 true;
                                   IntVarElement.Build 0 7 true] None 0 0)
                (ExtendingOperator.Create [0; 1]%nat))
      as (_ & _ & Hok).
    destruct Hok as (op' & _ & _ & ->).
    + vm_compute. lia.
    + intros i Hi. vm_compute in Hi.
      destruct i as [|[|i]]; [reflexivity|reflexivity|lia].
    + by exists op'.
  - apply Start_fatal_checks. vm_compute. lia.
  - apply (proj1 (proj2 (Start_fatal_checks _ _)) 1%nat).
    + vm_compute. lia.
    + reflexivity.
Defined.
End StartExamples.

(** ** CheckChainValidity *)

Section ChainValidity.
Import IntVarLocalSearchOperator PathOperator.
Local Open Scope Z_scope.
Context {Y : Type}.

Lemma walk_S (op : t (fields Y)) (b : Z) (k : nat) :
  walk op b (S k) = Next op (walk op b k).
Proof. reflexivity. Qed.

Lemma walk_add (op : t (fields Y)) (b : Z) (i t : nat) :
  walk op b (t + i) = walk op (walk op b i) t.
Proof. unfold walk. apply Nat.iter_add. Qed.

(** Along a walk that stays off the path ends, the nodes are node
    numbers below [n_next]. *)
Lemma walk_in_range (op : t (fields Y)) (b : Z) (m : nat) :
  next_vector op → 0 <= b →
  (∀ j, (j < m)%nat → IsPathEnd op (walk op b j) = false) →
  ∀ j, (j < m)%nat → 0 <= walk op b j < number_of_nexts op.
Proof.
  intros [Hn Hnext] Hb Hends j. induction j as [|j IH]; intros Hj.
  - pose proof (Hends 0%nat Hj) as H0. unfold IsPathEnd in H0.
    simpl in *. lia.
  - pose proof (Hends (S j) Hj) as HS. unfold IsPathEnd in HS.
    rewrite walk_S in *. split; [|lia].
    apply Hnext. apply IH. lia.
Qed.

(** A walk that meets [chain_end] for the first time after [m] steps
    does not come twice through a node before. *)
Lemma walk_injective (op : t (fields Y)) (b e : Z) (m i j : nat) :
  walk op b m = e → under_way op b e m →
  (i < j)%nat → (j <= m)%nat → walk op b i ≠ walk op b j.
Proof.
  intros Hm Hway Hij Hjm Heq.
  apply (Hway (m - j + i)%nat); [lia|].
  rewrite walk_add, Heq, <- walk_add.
  replace (m - j + j)%nat with m by lia. done.
Qed.

(** The watchdog is never too short for a chain: a chain that reaches
    [chain_end] clear of the path ends has at most [n_next] steps. *)
Lemma chain_length_bound (op : t (fields Y)) (b e : Z) (m : nat) :
  next_vector op → 0 <= b →
  walk op b m = e → under_way op b e m →
  (∀ j, (j < m)%nat → IsPathEnd op (walk op b j) = false) →
  (m <= Z.to_nat (number_of_nexts op))%nat.
Proof.
  intros Hnv Hb Hm Hway Hends.
  pose proof (walk_in_range op b m Hnv Hb Hends) as Hrange.
  set (l := (λ j, Z.to_nat (walk op b j)) <$> seq 0 m).
  assert (Hnd : NoDup l).
  { apply NoDup_fmap_2_strong; [|apply NoDup_seq].
    intros i j Hi%elem_of_seq Hj%elem_of_seq Heq.
    assert (Hw : walk op b i = walk op b j).
    { pose proof (Hrange i) as Ri. pose proof (Hrange j) as Rj. lia. }
    destruct (Nat.lt_trichotomy i j) as [Hlt|[->|Hlt]]; [|done|].
    - exfalso. apply (walk_injective op b e m i j); auto with lia.
    - exfalso. apply (walk_injective op b e m j i); auto with lia. }
  assert (Hincl : l ⊆ seq 0 (Z.to_nat (number_of_nexts op))).
  { intros x (j & -> & Hj%elem_of_seq)%list_elem_of_fmap.
    apply elem_of_seq. pose proof (Hrange j). lia. }
  pose proof (submseteq_length _ _ (NoDup_submseteq _ _ Hnd
                (λ x Hx, Hincl x Hx))) as Hlen.
  subst l. rewrite length_fmap, !length_seq in Hlen. done.
Qed.

(** The loop, entered after [k] steps of a walk that met neither
    [chain_end], nor [exclude], nor a path end so far. *)
Lemma CheckChainValidity_loop_spec (op : t (fields Y)) (b e x : Z)
    (fuel k : nat) :
  0 <= number_of_nexts op →
  under_way op b e k →
  (∀ j, (1 <= j <= k)%nat → walk op b j ≠ x) →
  (∀ j, (j < k)%nat → IsPathEnd op (walk op b j) = false) →
  (k <= Z.to_nat (number_of_nexts op) + 1)%nat →
  (Z.to_nat (number_of_nexts op) + 2 <= fuel + k)%nat →
  ∃ r, CheckChainValidity_loop fuel op e x (walk op b k) (Z.of_nat k)
       = Some r
       ∧ (r = false → touches_exclude op b e x
                      ∨ meets_path_end op b e
                      ∨ exceeds_watchdog op b e)
       ∧ (r = true → ∃ m, (k <= m)%nat
            ∧ walk op b m = e
            ∧ under_way op b e m
            ∧ (∀ j, (1 <= j <= m)%nat → walk op b j ≠ x)
            ∧ (∀ j, (j < m)%nat →
                    IsPathEnd op (walk op b j) = false)).
Proof.
  intros Hn. revert k.
  induction fuel as [|fuel IH]; intros k Hway Hx Hends Hk Hfuel.
  - lia.
  - cbn [CheckChainValidity_loop].
    destruct (walk op b k =? e) eqn:Ee.
    { apply Z.eqb_eq in Ee. exists true. split; [done|]. split; [done|].
      intros _. exists k. auto. }
    apply Z.eqb_neq in Ee.
    assert (Hway' : under_way op b e (S k)).
    { intros j Hj. destruct (decide (j = k)) as [->|]; [done|].
      apply Hway. lia. }
    destruct (number_of_nexts op <? Z.of_nat k) eqn:En.
    { apply Z.ltb_lt in En. exists false. split; [done|]. split; [|done].
      intros _. right. right. unfold exceeds_watchdog.
      replace (S (Z.to_nat (number_of_nexts op))) with k by lia. done. }
    apply Z.ltb_ge in En.
    destruct (IsPathEnd op (walk op b k)) eqn:Ep.
    { exists false. split; [done|]. split; [|done].
      intros _. right. left. exists k. done. }
    rewrite <- walk_S.
    destruct (walk op b (S k) =? x) eqn:Ex.
    { apply Z.eqb_eq in Ex. exists false. split; [done|]. split; [|done].
      intros _. left. right. exists (S k). split; [lia|]. done. }
    apply Z.eqb_neq in Ex.
    replace (Z.of_nat k + 1) with (Z.of_nat (S k)) by lia.
    destruct (IH (S k)) as (r & Hr & Hfalse & Htrue); auto with lia.
    + intros j Hj. destruct (decide (j = S k)) as [->|]; [done|].
      apply Hx. lia.
    + intros j Hj. destruct (decide (j = k)) as [->|]; [done|].
      apply Hends. lia.
    + exists r. split; [done|]. split; [done|].
      intros Hrt. destruct (Htrue Hrt) as (m & Hm & H). exists m.
      split; [lia|done].
Qed.

Lemma valid_chain_not_rejected (op : t (fields Y)) (b e x : Z) :
  next_vector op → 0 <= b →
  valid_chain op b e x → ¬ rejected op b e x.
Proof.
  intros Hnv Hb (Hbx & m & Hm1 & Hm & Hway & Hx & Hends) Hrej.
  pose proof (chain_length_bound op b e m Hnv Hb Hm Hway Hends) as Hlen.
  destruct Hrej as [Hempty|[[Htouch|(k & Hk1 & Hkway & Hkx)]
                           |[(k & Hkway & Hkend)|Hwatch]]].
  - apply (Hway 0%nat); [lia|]. exact Hempty.
  - done.
  - destruct (decide (k <= m)%nat).
    + apply (Hx k); [lia|done].
    + apply (Hkway m); [lia|done].
  - destruct (decide (k < m)%nat).
    + rewrite Hends in Hkend by done. done.
    + apply (Hkway m); [lia|done].
  - apply (Hwatch m); [lia|done].
Qed.

(** C5, as the code has it.  On a next-vector and from a node number,
    the chain check returns, within [n_next + 2] rounds of its loop; it
    returns false when the chain is empty, when [before_chain] is
    [exclude] or the walk along [Next] comes to [exclude] on its way to
    [chain_end] ([chain_end] itself included), when the walk comes to a
    path end before [chain_end], and when it does not come to
    [chain_end] within [n_next] steps; in all other cases it returns
    true, and the chain is then a valid one. *)
Theorem CheckChainValidity_rejects (op : t (fields Y)) (fuel : nat)
    (before_chain chain_end exclude : Z) :
  next_vector op → 0 <= before_chain →
  (Z.to_nat (number_of_nexts op) + 2 <= fuel)%nat →
  ∃ r, CheckChainValidity fuel op before_chain chain_end exclude
       = Some r
       ∧ (r = false ↔ rejected op before_chain chain_end exclude)
       ∧ (r = true ↔ valid_chain op before_chain chain_end exclude).
Proof.
  intros Hnv Hb Hfuel. unfold CheckChainValidity.
  assert (Hiff : ∀ r : bool,
            (r = false → rejected op before_chain chain_end exclude) →
            (r = true →
             valid_chain op before_chain chain_end exclude) →
            (r = false ↔ rejected op before_chain chain_end exclude)
            ∧ (r = true
               ↔ valid_chain op before_chain chain_end exclude)).
  { intros r Hf Ht. split; split; auto.
    - intros Hrej. destruct r; [|done]. exfalso.
      exact (valid_chain_not_rejected op _ _ _ Hnv Hb (Ht eq_refl) Hrej).
    - intros Hval. destruct r; [done|]. exfalso.
      exact (valid_chain_not_rejected op _ _ _ Hnv Hb Hval (Hf eq_refl)). }
  destruct (before_chain =? chain_end) eqn:Ee; simpl.
  { apply Z.eqb_eq in Ee. exists false. split; [done|].
    apply Hiff; [|done]. intros _. by left. }
  destruct (before_chain =? exclude) eqn:Ex; simpl.
  { apply Z.eqb_eq in Ex. exists false. split; [done|].
    apply Hiff; [|done]. intros _. right. left. by left. }
  apply Z.eqb_neq in Ee. apply Z.eqb_neq in Ex.
  destruct (CheckChainValidity_loop_spec op before_chain chain_end exclude
              fuel 0) as (r & Hr & Hfalse & Htrue).
  - apply Hnv.
  - intros j Hj. lia.
  - intros j Hj. lia.
  - intros j Hj. lia.
  - lia.
  - lia.
  - exists r. split; [exact Hr|]. apply Hiff.
    + intros Hrf. right. by apply Hfalse.
    + intros Hrt. destruct (Htrue Hrt) as (m & _ & Hm & Hway & Hx & Hends).
      split; [done|]. exists m. split; [|done].
      destruct m; [|lia]. simpl in Hm. done.
Qed.
End ChainValidity.

Section ChainValidityExamples.
Import IntVarLocalSearchOperator PathOperator.
Local Open Scope Z_scope.

Lemma route_next_vector : next_vector Scenario.route.
Proof.
  split; [vm_compute; discriminate|].
  intros i Hi. change (number_of_nexts Scenario.route) with 5 in Hi.
  assert (Hcases : i = 0 ∨ i = 1 ∨ i = 2 ∨ i = 3 ∨ i = 4) by lia.
  destruct Hcases as [->|[->|[->|[->| ->]]]]; vm_compute; discriminate.
Qed.

(** C5 fails as stated when [exclude] is [chain_end] itself.  On the
    route 0 -> 1 -> 2 -> 3 -> 4 -> 5 the chain from 0 to 2 is not empty,
    node 0 is not the excluded node 2, the walk 0, 1, 2 reaches node 2
    only when it has come to [chain_end], no path end is met and the
    watchdog is not exceeded; the loop tests the node it steps on against
    [exclude] before the next round tests it against [chain_end], and
    returns false. *)
Lemma chain_end_excluded_rejected :
  CheckChainValidity 7 Scenario.route 0 2 2 = Some false
  ∧ ¬ rejected_before_end Scenario.route 0 2 2.
Proof.
  split; [vm_compute; reflexivity|].
  assert (Hmet : ∀ k, (2 <= k)%nat → ¬ under_way Scenario.route 0 2 (S k)).
  { intros k Hk Hway. apply (Hway 2%nat); [lia|reflexivity]. }
  intros [He|[[Hx|(k & Hk & Hway & Hwalk)]|[(k & Hway & Hend)|Hw]]].
  - discriminate He.
  - discriminate Hx.
  - destruct k as [|[|k]]; [lia|discriminate Hwalk|].
    apply (Hmet (S (S k))); [lia|done].
  - destruct k as [|[|k]]; [discriminate Hend|discriminate Hend|].
    apply (Hmet (S (S k))); [lia|done].
  - apply (Hmet 5%nat); [lia|exact Hw].
Qed.

(** On the route 0 -> 1 -> 2 -> 3 -> 4 -> 5: the chain from 0 to 3 is
    valid, it is rejected once node 2 is to be excluded, and so is the
    chain from 0 to 2. *)
Lemma CheckChainValidity_rejects_witness :
  (CheckChainValidity 7 Scenario.route 0 3 (-1) = Some true
   ∧ valid_chain Scenario.route 0 3 (-1))
  ∧ (CheckChainValidity 7 Scenario.route 0 3 2 = Some false
     ∧ rejected Scenario.route 0 3 2)
  ∧ (CheckChainValidity 7 Scenario.route 0 2 2 = Some false
     ∧ rejected Scenario.route 0 2 2).
Proof.
  split; [|split].
  - destruct (CheckChainValidity_rejects Scenario.route 7 0 3 (-1))
      as (r & Hr & _ & Ht).
    + exact route_next_vector.
    + lia.
    + vm_compute. lia.
    + vm_compute in Hr. injection Hr as <-. split; [reflexivity|].
      by apply Ht.
  - destruct (CheckChainValidity_rejects Scenario.route 7 0 3 2)
      as (r & Hr & Hf & _).
    + exact route_next_vector.
    + lia.
    + vm_compute. lia.
    + vm_compute in Hr. injection Hr as <-. split; [reflexivity|].
      by apply Hf.
  - destruct (CheckChainValidity_rejects Scenario.route 7 0 2 2)
      as (r & Hr & Hf & _).
    + exact route_next_vector.
    + lia.
    + vm_compute. lia.
    + vm_compute in Hr. injection Hr as <-. split; [reflexivity|].
      by apply Hf.
Defined.
End ChainValidityExamples.

(** ** The aggregation operations *)

Section Aggregation.
Import LSOperation.
Local Open Scope Z_scope.

(** [values_set_] is a set: a value that was inserted twice is gone
    after one [Remove]. *)
Lemma MaxMinOperation_Remove_Update_Update (max : bool) (s : gset Z)
    (x : Z) :
  Remove x (Update x (Update x (MaxMinOperation max s)))
  = MaxMinOperation max (s ∖ {[x]}).
Proof.
  cbn [Remove Update]. f_equal. apply set_eq. intros y.
  rewrite !elem_of_difference, !elem_of_union, !elem_of_singleton. tauto.
Qed.

(** The sum keeps the second copy. *)
Lemma SumOperation_Remove_Update_Update (v x : Z) :
  Int64.kint64min <= v → v + 2 * x <= Int64.kint64max →
  0 <= x →
  value (Remove x (Update x (Update x (SumOperation v)))) = v + x.
Proof.
  unfold Int64.kint64min, Int64.kint64max. intros Hv Hx H0.
  cbn [value Remove Update]. unfold Int64.wrap.
  rewrite (Z.mod_small (v + x + 2 ^ 63)) by lia.
  replace (v + x + 2 ^ 63 - 2 ^ 63 + x) with (v + 2 * x) by lia.
  rewrite (Z.mod_small (v + 2 * x + 2 ^ 63)) by lia.
  replace (v + 2 * x + 2 ^ 63 - 2 ^ 63 - x) with (v + x) by lia.
  rewrite Z.mod_small by lia. lia.
Qed.

(** C6 on the code: for MAX and for MIN, after [Update(5)] twice and
    [Remove(5)] once on the initialised operation the set is empty and
    [value()] is 0, the value of an operation without contributions;
    next to a contribution 3, [value()] is 3.  No copy of 5 remains. *)
Theorem MaxMinOperation_duplicate_lost (max : bool) :
  value (Remove 5 (Update 5 (Update 5 (Init (MaxMinOperation max ∅))))) = 0
  ∧ value (Remove 5 (Update 5 (Update 5
             (Update 3 (Init (MaxMinOperation max ∅)))))) = 3
  ∧ ∀ (s : gset Z) (x : Z),
      Remove x (Update x (Update x (MaxMinOperation max s)))
      = Remove x (MaxMinOperation max s).
Proof.
  split; [|split].
  - destruct max; vm_compute; reflexivity.
  - destruct max; vm_compute; reflexivity.
  - intros s x. by rewrite MaxMinOperation_Remove_Update_Update.
Qed.

(** What the lost copy does to the filter: the MAX filter with the
    bound GE 5, synchronised on two contributions 5 and 5, rejects the
    neighbor that lowers the first one to 3, although the maximum of
    the neighbor is still 5. *)
Lemma max_filter_loses_contribution (solver : Domains) :
  Min solver Scenario.objective = 5 →
  let f := ObjectiveFilter.Synchronize
             (Scenario.assignment_of [5; 5]) Scenario.max_ge_filter in
  value (ObjectiveFilter.op_ f) = 5
  ∧ fst <$> ObjectiveFilter.Accept solver (Some (Scenario.change 0%nat 3))
              Assignment.empty f = Some false
  ∧ (λ r, ObjectiveFilter.old_delta_value_ r.2)
      <$> ObjectiveFilter.Accept solver (Some (Scenario.change 0%nat 3))
            Assignment.empty f = Some 3.
Proof.
  destruct solver as [mn mx]. unfold Scenario.objective. cbn [Min].
  intros Hmin. split; [vm_compute; reflexivity|]. split.
  - vm_compute. rewrite Hmin. reflexivity.
  - vm_compute. reflexivity.
Qed.
End Aggregation.

(** ** The objective filter *)

Section ObjectiveFilterScenario.
Import ObjectiveFilter.
Local Open Scope Z_scope.

(** C7.  The binary objective filter with SUM and LE, on an objective
    variable of maximum 100 and with [eval(i, v) = v], synchronised on
    four bound variables valued 10, 20, 30, 40, holds the running sum
    100; with an empty [deltadelta] it rejects the delta [var2 := 31],
    whose sum is 101, and accepts the delta [var2 := 29], whose sum is
    99, be it sent first or after the rejected one. *)
Theorem sum_le_filter_scenario (solver : Domains) (garbage : Z) :
  Max solver Scenario.objective = 100 →
  let f := Synchronize Scenario.bound_values
             (Scenario.sum_le_filter garbage) in
  LSOperation.value (op_ f) = 100
  ∧ fst <$> Accept solver (Some (Scenario.change 2%nat 31)) Assignment.empty f
    = Some false
  ∧ (λ r, old_delta_value_ r.2)
      <$> Accept solver (Some (Scenario.change 2%nat 31)) Assignment.empty f
    = Some 101
  ∧ fst <$> Accept solver (Some (Scenario.change 2%nat 29)) Assignment.empty f
    = Some true
  ∧ (λ r, old_delta_value_ r.2)
      <$> Accept solver (Some (Scenario.change 2%nat 29)) Assignment.empty f
    = Some 99
  ∧ (r ← Accept solver (Some (Scenario.change 2%nat 31)) Assignment.empty f;
     fst <$> Accept solver (Some (Scenario.change 2%nat 29)) Assignment.empty
               r.2)
    = Some true.
Proof.
  destruct solver as [mn mx]. unfold Scenario.objective. cbn [Max].
  intros Hmax.
  split; [vm_compute; reflexivity|].
  split; [vm_compute; rewrite Hmax; reflexivity|].
  split; [vm_compute; reflexivity|].
  split; [vm_compute; rewrite Hmax; reflexivity|].
  split; [vm_compute; reflexivity|].
  vm_compute; rewrite Hmax; reflexivity.
Qed.

Lemma sum_le_filter_scenario_witness :
  let solver := {| Min := λ _, 0; Max := λ _, 100 |} in
  let f := Synchronize Scenario.bound_values (Scenario.sum_le_filter 0) in
  fst <$> Accept solver (Some (Scenario.change 2%nat 31)) Assignment.empty f
  = Some false
  ∧ fst <$> Accept solver (Some (Scenario.change 2%nat 29)) Assignment.empty f
    = Some true.
Proof.
  intros solver f.
  destruct (sum_le_filter_scenario solver 0 eq_refl)
    as (_ & H31 & _ & H29 & _).
  split; [exact H31|exact H29].
Defined.
End ObjectiveFilterScenario.

(** ** The compound operator *)

Section CompoundScenario.
Import CompoundOperator.

Local Notation "'nothing'" := Assignment.empty.

(** C8 fails as stated in its last part: the sweep that ends in false
    has wrapped [index_] back to 0, so that a re-[Start] after it ranks
    the operators from the one in front, A, and the next sweep is again
    A, B, C. *)
Lemma restart_after_exhausted_sweep :
  ∃ c0 c1 c2 c3 c4 c5 c6 c7,
    CompoundStart Scenario.current Scenario.compound = Some c0
    ∧ CompoundMakeNextNeighbor c0 nothing nothing
      = Some (true, c1, CountingOperator.candidate 0 1, nothing)
    ∧ CompoundMakeNextNeighbor c1 nothing nothing
      = Some (true, c2, CountingOperator.candidate 1 1, nothing)
    ∧ CompoundMakeNextNeighbor c2 nothing nothing
      = Some (true, c3, CountingOperator.candidate 1 2, nothing)
    ∧ CompoundMakeNextNeighbor c3 nothing nothing
      = Some (true, c4, CountingOperator.candidate 2 1, nothing)
    ∧ CompoundMakeNextNeighbor c4 nothing nothing
      = Some (false, c5, nothing, nothing)
    ∧ index_ c5 = 0%nat
    ∧ CompoundStart Scenario.current c5 = Some c6
    ∧ operator_indices_ c6 = [0; 1; 2]%nat
    ∧ operator_indices_ c6 ≠ [2; 0; 1]%nat
    ∧ CompoundMakeNextNeighbor c6 nothing nothing
      = Some (true, c7, CountingOperator.candidate 0 1, nothing).
Proof.
  eexists _, _, _, _, _, _, _, _.
  repeat (split; [vm_compute; reflexivity|]).
  split; [discriminate|]. vm_compute; reflexivity.
Qed.

(** C8, as the code has it.  After [Start], the sweep over A, B, C with
    the round-robin evaluator yields A1, B1, B2, C1 and then false.  A
    re-[Start] that comes right after C1, while [index_] still points at
    C, ranks the operators C, A, B, and the sweep that follows yields
    C1, A1, B1, B2 and then false. *)
Theorem compound_round_robin_scenario :
  ∃ c0 c1 c2 c3 c4 c5 r0 r1 r2 r3 r4 r5,
    CompoundStart Scenario.current Scenario.compound = Some c0
    ∧ operator_indices_ c0 = [0; 1; 2]%nat
    ∧ CompoundMakeNextNeighbor c0 nothing nothing
      = Some (true, c1, CountingOperator.candidate 0 1, nothing)
    ∧ CompoundMakeNextNeighbor c1 nothing nothing
      = Some (true, c2, CountingOperator.candidate 1 1, nothing)
    ∧ CompoundMakeNextNeighbor c2 nothing nothing
      = Some (true, c3, CountingOperator.candidate 1 2, nothing)
    ∧ CompoundMakeNextNeighbor c3 nothing nothing
      = Some (true, c4, CountingOperator.candidate 2 1, nothing)
    ∧ CompoundMakeNextNeighbor c4 nothing nothing
      = Some (false, c5, nothing, nothing)
    ∧ index_ c4 = 2%nat
    ∧ CompoundStart Scenario.current c4 = Some r0
    ∧ operator_indices_ r0 = [2; 0; 1]%nat
    ∧ CompoundMakeNextNeighbor r0 nothing nothing
      = Some (true, r1, CountingOperator.candidate 2 1, nothing)
    ∧ CompoundMakeNextNeighbor r1 nothing nothing
      = Some (true, r2, CountingOperator.candidate 0 1, nothing)
    ∧ CompoundMakeNextNeighbor r2 nothing nothing
      = Some (true, r3, CountingOperator.candidate 1 1, nothing)
    ∧ CompoundMakeNextNeighbor r3 nothing nothing
      = Some (true, r4, CountingOperator.candidate 1 2, nothing)
    ∧ CompoundMakeNextNeighbor r4 nothing nothing
      = Some (false, r5, nothing, nothing).
Proof.
  eexists _, _, _, _, _, _, _, _, _, _, _, _.
  repeat (split; [vm_compute; reflexivity|]).
  vm_compute; reflexivity.
Qed.
End CompoundScenario.

(** ** MoveTowardTargetLS *)

Section MoveTowardTargetScenario.
Import IntVarLocalSearchOperator.
Local Open Scope Z_scope.

Local Notation "'nothing'" := Assignment.empty.

(** The loop of [MakeOneNeighbor] ends within the rounds that are left
    of the episode. *)
Lemma MoveTowardTarget_MakeOneNeighbor_returns (fuel : nat)
    (op : t MoveTowardTargetLS.fields) :
  Z.of_nat (Size op)
  - MoveTowardTargetLS.num_var_since_last_start_ (derived_ op)
  <= Z.of_nat fuel →
  is_Some (MoveTowardTargetLS.MakeOneNeighbor fuel op).
Proof.
  revert op. induction fuel as [|fuel IH]; intros op Hfuel;
    cbn [MoveTowardTargetLS.MakeOneNeighbor].
  - destruct (_ <? _) eqn:E; [|done]. apply Z.ltb_lt in E. lia.
  - destruct (_ <? _) eqn:E; [|done].
    destruct (negb _); [done|]. apply IH.
    unfold MoveTowardTargetLS.with_variable_index,
      MoveTowardTargetLS.with_num_var, with_derived, Size in *.
    cbn. lia.
Qed.

(** [Start] overwrites whatever the value arrays held. *)
Lemma MoveTowardTarget_started (uninit uninit_old : list Z) (garbage : Z) :
  MoveTowardTargetLS.Create Scenario.variables Scenario.target
    uninit uninit_old garbage ≫= Start Scenario.current
  = Some (Build [0; 1; 2; 3]%nat [0; 0; 0; 0] [0; 0; 0; 0]
            [true; true; true; true] [true; true; true; true]
            [false; false; false; false] [false; false; false; false]
            [] true (MoveTowardTargetLS.Fields [1; 0; 1; 0] 3 0)).
Proof.
  destruct uninit as [|a0 [|a1 [|a2 [|a3 ?]]]];
    destruct uninit_old as [|b0 [|b1 [|b2 [|b3 ?]]]]; reflexivity.
Qed.

(** C9.  MoveTowardTargetLS over four variables, reference [0,0,0,0],
    target [1,0,1,0]: after [Start] the first [MakeNextNeighbor] emits
    the single change [var0 := 1], the second the single change
    [var2 := 1], and the third returns false.  The cursor
    [variable_index_] starts at 3, stands at 0 after the first call, at 2
    after the second and at 3 after the third: no call resets it, each
    one scans on from where the one before stopped. *)
Theorem MoveTowardTarget_scenario (uninit uninit_old : list Z)
    (garbage : Z) :
  ∃ op0 op1 op2 op3 op4,
    MoveTowardTargetLS.Create Scenario.variables Scenario.target
      uninit uninit_old garbage = Some op0
    ∧ Start Scenario.current op0 = Some op1
    ∧ MakeNextNeighbor 5 op1 nothing nothing
      = Some (true, op2, Scenario.change 0%nat 1, nothing)
    ∧ MakeNextNeighbor 5 op2 nothing nothing
      = Some (true, op3, Scenario.change 2%nat 1, nothing)
    ∧ MakeNextNeighbor 5 op3 nothing nothing
      = Some (false, op4, nothing, nothing)
    ∧ MoveTowardTargetLS.variable_index_ (derived_ op1) = 3
    ∧ MoveTowardTargetLS.variable_index_ (derived_ op2) = 0
    ∧ MoveTowardTargetLS.variable_index_ (derived_ op3) = 2
    ∧ MoveTowardTargetLS.variable_index_ (derived_ op4) = 3
    ∧ ∀ op : t MoveTowardTargetLS.fields,
        MoveTowardTargetLS.variable_index_
          (derived_ (RevertChanges true op))
        = MoveTowardTargetLS.variable_index_ (derived_ op).
Proof.
  pose proof (MoveTowardTarget_started uninit uninit_old garbage) as H.
  destruct (MoveTowardTargetLS.Create _ _ _ _ _) as [op0|]; [|done].
  cbn [mbind option_bind] in H.
  eexists op0, _, _, _, _.
  split; [reflexivity|]. split; [exact H|].
  repeat (split; [vm_compute; reflexivity|]).
  intros op. by rewrite RevertChanges_derived.
Qed.
End MoveTowardTargetScenario.

(** ** The counters of FindOneNeighbor *)

Section DriverCounters.
Import FindOneNeighbor.
Local Open Scope Z_scope.

Lemma incr_small (z : Z) : 0 <= z < Int64.kint64max → incr z = z + 1.
Proof.
  unfold incr, Int64.wrap, Int64.kint64max. intros Hz.
  rewrite Z.mod_small by lia. lia.
Qed.

Lemma FilterAccept_fold (filters called : list FilterAnswer) (ok : bool) :
  (foldl FilterAccept_body (ok, called) filters).1
  = ok && forallb Accept filters.
Proof.
  revert ok called. induction filters as [|f filters IH];
    intros ok called; cbn [foldl forallb].
  - by rewrite andb_true_r.
  - unfold FilterAccept_body at 2.
    destruct (IsIncremental f); [|destruct ok]; rewrite IH.
    + by destruct (Accept f), ok, (forallb Accept filters).
    + reflexivity.
    + reflexivity.
Qed.

(** The local filters answer true together exactly when each of them
    accepts. *)
Lemma FilterAccept_all (filters : list FilterAnswer) :
  (FilterAccept filters).1 = forallb Accept filters.
Proof. unfold FilterAccept. by rewrite FilterAccept_fold. Qed.

(** What one round does to the counters. *)
Lemma Next_round_counters (frequency : Z) (r : Round) (s : t) :
  ordered (solver s) → neighbors_ (solver s) < Int64.kint64max →
  let c := solver s in
  let c' := solver (Next_round frequency r s).1 in
  neighbors_ c' = neighbors_ c + (if produced r then 1 else 0)
  ∧ filtered_neighbors_ c'
    = filtered_neighbors_ c
      + (if produced r && all_accept r then 1 else 0)
  ∧ accepted_neighbors_ c'
    = accepted_neighbors_ c
      + (if produced r && all_accept r && committed r then 1 else 0).
Proof.
  intros (Ha & Haf & Hfn) Hmax. cbv zeta.
  unfold Next_round, produced, all_accept, committed.
  rewrite FilterAccept_all.
  destruct ((frequency <=? counter s + 1) && SyncNeeded r);
    destruct (negb (limit_Check r) && MakeNextNeighbor r);
    cbn [andb solver neighbors_ filtered_neighbors_ accepted_neighbors_ fst];
    try (destruct (neighbor_found_ s); cbn; lia).
  all: destruct (AcceptDelta r && forallb Accept (filters_ r));
    [destruct (SolveAndCommit r)|];
    cbn [andb solver neighbors_ filtered_neighbors_ accepted_neighbors_ fst];
    rewrite ?incr_small by lia; lia.
Qed.

Lemma Next_round_ordered (frequency : Z) (r : Round) (s : t) :
  ordered (solver s) → neighbors_ (solver s) < Int64.kint64max →
  ordered (solver (Next_round frequency r s).1)
  ∧ neighbors_ (solver (Next_round frequency r s).1)
    <= neighbors_ (solver s) + 1.
Proof.
  intros Hord Hmax.
  destruct (Next_round_counters frequency r s Hord Hmax) as (Hn & Hf & Ha).
  destruct Hord as (H0 & Haf & Hfn). unfold ordered.
  rewrite Hn, Hf, Ha.
  destruct (produced r), (all_accept r), (committed r); simpl; lia.
Qed.

Lemma Next_loop_ordered (frequency : Z) (rounds : list Round) (s : t) :
  ordered (solver s) →
  neighbors_ (solver s) + Z.of_nat (length rounds) <= Int64.kint64max →
  ordered (solver (Next_loop frequency rounds s).1).
Proof.
  revert s. induction rounds as [|r rounds IH]; intros s Hord Hmax;
    [done|].
  cbn [Next_loop length] in *.
  destruct (Next_round_ordered frequency r s Hord) as [Hord' Hn']; [lia|].
  destruct (Next_round frequency r s) as [s' []]; cbn [fst] in *;
    [|done|done].
  apply IH; [done|lia].
Qed.

(** C10.  In a round of the loop of [Next], the driver adds one to
    [neighbors] exactly when the operator produced a candidate (the
    limit was not reached and [MakeNextNeighbor] answered true), one to
    [filtered_neighbors] exactly when moreover the search monitors and
    every local filter accepted it, and one to [accepted_neighbors]
    exactly when moreover the nested solve committed it.  Hence
    [accepted_neighbors <= filtered_neighbors <= neighbors] holds after
    every round, whatever the collaborators answer, as long as the
    counters do not overflow. *)
Theorem FindOneNeighbor_counters (frequency : Z) :
  (∀ (r : Round) (s : t),
     ordered (solver s) → neighbors_ (solver s) < Int64.kint64max →
     let c := solver s in
     let c' := solver (Next_round frequency r s).1 in
     neighbors_ c' = neighbors_ c + (if produced r then 1 else 0)
     ∧ filtered_neighbors_ c'
       = filtered_neighbors_ c
         + (if produced r && all_accept r then 1 else 0)
     ∧ accepted_neighbors_ c'
       = accepted_neighbors_ c
         + (if produced r && all_accept r && committed r then 1 else 0)
     ∧ ordered c')
  ∧ (∀ (rounds : list Round) (s : t),
       ordered (solver s) →
       neighbors_ (solver s) + Z.of_nat (length rounds)
         <= Int64.kint64max →
       ordered (solver (Next_loop frequency rounds s).1)).
Proof.
  split.
  - intros r s Hord Hmax.
    destruct (Next_round_counters frequency r s Hord Hmax) as (Hn & Hf & Ha).
    destruct (Next_round_ordered frequency r s Hord Hmax) as [Hord' _].
    cbv zeta. auto.
  - intros rounds s. apply Next_loop_ordered.
Qed.

(** Three rounds from fresh counters: a candidate that a filter
    rejects, a candidate that passes and is committed. *)
Lemma FindOneNeighbor_counters_witness :
  let rejected_round :=
    {| SyncNeeded := false; limit_Check := false; MakeNextNeighbor := true;
       AcceptDelta := true;
       filters_ := [Answer true true; Answer false false];
       SolveAndCommit := true |} in
  let committed_round :=
    {| SyncNeeded := false; limit_Check := false; MakeNextNeighbor := true;
       AcceptDelta := true; filters_ := [Answer true true];
       SolveAndCommit := true |} in
  let s := State 0 false (Build 0 0 0) in
  solver (Next_loop 16 [rejected_round; committed_round] s).1
  = Build 2 1 1
  ∧ ordered (solver (Next_loop 16 [rejected_round; committed_round] s).1).
Proof.
  intros rejected_round committed_round s.
  split; [vm_compute; reflexivity|].
  apply (proj2 (FindOneNeighbor_counters 16)).
  - vm_compute. repeat split; discriminate.
  - vm_compute. discriminate.
Defined.
End DriverCounters.

(** ** The base operator: reverting, staging, loading, emitting *)

Section BaseOperator.
Import IntVarLocalSearchOperator DeltaContract.
Context {X : Type} {Inc : Incremental X} {V : Virtual X}.

Lemma SetAll_false_Get (b : list bool) (i : nat) :
  Bitmap.Get (Bitmap.SetAll b false) i = false.
Proof.
  unfold Bitmap.Get, Bitmap.SetAll.
  destruct (replicate (length b) false !! i) as [x|] eqn:E; [|done].
  by apply lookup_replicate in E as [-> _].
Qed.

Lemma RevertChanges_has_delta_changed (incremental : bool) (op : t X)
    (i : nat) :
  Bitmap.Get (has_delta_changed_ (RevertChanges incremental op)) i = false.
Proof.
  unfold RevertChanges.
  destruct (incremental && IsIncremental).
  - apply SetAll_false_Get.
  - cbn [has_delta_changed_ with_changes].
    set (op0 := with_cleared true _).
    assert (H : ∀ l (o : t X),
              has_delta_changed_ (foldl RevertChanges_body o l)
              = has_delta_changed_ o).
    { induction l as [|j l IH]; intros o; [done|]. cbn [foldl].
      by rewrite IH. }
    rewrite H. apply SetAll_false_Get.
Qed.

Lemma RevertChanges_keeps_reference (incremental : bool) (op : t X) :
  vars_ (RevertChanges incremental op) = vars_ op
  ∧ old_values_ (RevertChanges incremental op) = old_values_ op
  ∧ was_activated_ (RevertChanges incremental op) = was_activated_ op.
Proof.
  unfold RevertChanges.
  destruct (incremental && IsIncremental); [done|].
  cbn [vars_ old_values_ was_activated_ with_changes].
  set (op0 := with_cleared true _).
  destruct (RevertChanges_fold_frame (changes_ op0) op0)
    as (-> & -> & -> & _). done.
Qed.

(** X1.  [RevertChanges(incremental)] on an operator whose staging arrays
    are consistent.  Unless it stops at the guard of the incremental
    operators, it brings every tracked index back to its reference value
    and activation, empties the change list and sets [cleared]; at the
    guard it leaves the staged candidate as it is and resets [cleared].
    Either way no index is left marked in [has_delta_changed], the
    reference arrays are not touched, and the arrays stay consistent. *)
Theorem RevertChanges_restores (incremental : bool) (op : t X) :
  staged op →
  (incremental && IsIncremental = false →
   reference_state (RevertChanges incremental op)
   ∧ cleared_ (RevertChanges incremental op) = true)
  ∧ (incremental && IsIncremental = true →
     same_staging op (RevertChanges incremental op)
     ∧ cleared_ (RevertChanges incremental op) = false)
  ∧ (∀ i, Bitmap.Get (has_delta_changed_ (RevertChanges incremental op)) i
          = false)
  ∧ old_values_ (RevertChanges incremental op) = old_values_ op
  ∧ was_activated_ (RevertChanges incremental op) = was_activated_ op
  ∧ staged (RevertChanges incremental op).
Proof.
  intros Hst. split; [|split; [|split; [|split; [|split]]]].
  - intros Hg. by apply RevertChanges_reference.
  - intros Hg. unfold RevertChanges. rewrite Hg. by repeat split.
  - apply RevertChanges_has_delta_changed.
  - apply RevertChanges_keeps_reference.
  - apply RevertChanges_keeps_reference.
  - by apply staged_RevertChanges.
Qed.

(** What one mutator does to the change list of a consistent
    operator. *)
Lemma mutate_changes (op : t X) (m : Mutation) :
  staged op → (mutation_index m < Size op)%nat →
  staged (mutate op m)
  ∧ changes_ (mutate op m)
    = (if decide (mutation_index m ∈ changes_ op) then changes_ op
       else changes_ op ++ [mutation_index m])
  ∧ old_values_ (mutate op m) = old_values_ op
  ∧ was_activated_ (mutate op m) = was_activated_ op
  ∧ vars_ (mutate op m) = vars_ op.
Proof.
  intros Hst Hi.
  assert (Hmark : ∀ op' : t X,
            has_changed_ op' = has_changed_ op →
            changes_ op' = changes_ op →
            changes_ (MarkChange (mutation_index m) op')
            = (if decide (mutation_index m ∈ changes_ op) then changes_ op
               else changes_ op ++ [mutation_index m])).
  { intros op' Hh Hc.
    destruct (MarkChange_arrays (mutation_index m) op')
      as (_ & _ & _ & _ & _ & _ & ->).
    rewrite Hh, Hc.
    pose proof (staged_marked _ Hst (mutation_index m)) as Hm.
    destruct (Bitmap.Get (has_changed_ op) (mutation_index m)).
    - rewrite decide_True; [done|]. by apply Hm.
    - rewrite decide_False; [done|]. intros Hin. apply Hm in Hin. done. }
  destruct m as [i v|i|i]; cbn [mutate mutation_index] in *.
  - split; [by apply staged_SetValue|]. unfold SetValue.
    split; [by apply Hmark|].
    destruct (MarkChange_arrays i
                (with_values (<[i:=v]> (values_ op)) op))
      as (-> & _ & -> & _ & -> & _). done.
  - split; [by apply staged_Activate|]. unfold Activate.
    split; [by apply Hmark|].
    destruct (MarkChange_arrays i
                (with_activated (Bitmap.SetBit (activated_ op) i true) op))
      as (-> & _ & -> & _ & -> & _). done.
  - split; [by apply staged_Deactivate|]. unfold Deactivate.
    split; [by apply Hmark|].
    destruct (MarkChange_arrays i
                (with_activated (Bitmap.SetBit (activated_ op) i false) op))
      as (-> & _ & -> & _ & -> & _). done.
Qed.

(** X2.  Staging through [SetValue], [Activate] and [Deactivate] at
    tracked indices keeps the staging arrays consistent and never lists an
    index twice: the change list grows at its end, by the indices that
    were not in it, each once, and the reference arrays are not
    touched. *)
Theorem stage_change_list (ms : list Mutation) (op : t X) :
  staged op → NoDup (changes_ op) →
  Forall (λ m, (mutation_index m < Size op)%nat) ms →
  staged (stage ms op)
  ∧ NoDup (changes_ (stage ms op))
  ∧ changes_ op `prefix_of` changes_ (stage ms op)
  ∧ (∀ i, i ∈ changes_ (stage ms op)
          ↔ i ∈ changes_ op ∨ i ∈ mutation_index <$> ms)
  ∧ old_values_ (stage ms op) = old_values_ op
  ∧ was_activated_ (stage ms op) = was_activated_ op.
Proof.
  revert op. induction ms as [|m ms IH]; intros op Hst Hnd Hall.
  - cbn. do 3 (split; [done|]). split; [|done].
    intros i. split; [by left|].
    intros [Hi|Hi]; [done|]. by apply elem_of_nil in Hi.
  - apply Forall_cons in Hall as [Hm Hall].
    destruct (mutate_changes op m Hst Hm) as (Hst1 & Hch & Hold & Hwas & Hv).
    unfold stage. cbn [foldl]. fold (stage ms (mutate op m)).
    destruct (IH (mutate op m)) as (S1 & N1 & P1 & M1 & O1 & W1).
    + done.
    + rewrite Hch. destruct (decide _) as [|Hn]; [done|].
      apply NoDup_app. split; [done|]. split; [|apply NoDup_singleton].
      intros i Hi ->%list_elem_of_singleton. done.
    + unfold Size in *. by rewrite Hv.
    + split; [done|]. split; [done|]. split; [|split; [|split]].
      * etrans; [|exact P1]. rewrite Hch.
        destruct (decide _); [done|]. by apply prefix_app_r.
      * intros i. rewrite M1, Hch, fmap_cons, elem_of_cons.
        destruct (decide _) as [Hin|Hn].
        -- split; [tauto|]. intros [?|[->|?]]; tauto.
        -- rewrite elem_of_app, list_elem_of_singleton. tauto.
      * by rewrite O1.
      * by rewrite W1.
Qed.
End BaseOperator.

Section BaseOperatorStart.
Import IntVarLocalSearchOperator DeltaContract.
Context {X : Type} {Inc : Incremental X} {V : Virtual X}.

Lemma Start_loop_loads (a : Assignment.t) (n : nat) (op op' : t X) :
  (n <= length (values_ op))%nat → (n <= length (old_values_ op))%nat →
  (n <= length (activated_ op))%nat →
  (n <= length (was_activated_ op))%nat →
  foldl (Start_body a) (Some op) (seq 0 n) = Some op' →
  ∀ j, (j < n)%nat → ∃ e, loaded_from a op op' j e.
Proof.
  revert op'. induction n as [|n IH]; intros op' Hv Ho Ha Hw.
  - intros _ j Hj. lia.
  - rewrite seq_S, foldl_app. cbn [foldl].
    destruct (foldl (Start_body a) (Some op) (seq 0 n)) as [op1|] eqn:E;
      [|done].
    destruct (Start_loop_arrays a n op op1)
      as ((Hvars & _ & _) & (Lv & Lo & La & Lw) & _); [lia..|done|].
    specialize (IH op1 ltac:(lia) ltac:(lia) ltac:(lia) ltac:(lia) eq_refl).
    unfold Start_body. cbn [mbind option_bind plus].
    destruct (Assignment.Element a n) as [e0|] eqn:E0; cbn [mbind option_bind];
      [|done].
    assert (Hvar : Var op1 n = Var op n) by (unfold Var; by rewrite Hvars).
    rewrite Hvar.
    destruct (decide (IntVarElement.Var e0 = Var op n)) as [Heq|Hne];
      cbn [mbind option_bind].
    + intros [= <-] j Hj.
      destruct (decide (j = n)) as [->|Hjn].
      * exists e0. unfold loaded_from, Value, OldValue, Activated,
          Bitmap.Get, Bitmap.SetBit. cbn.
        rewrite !list_lookup_insert_eq by lia. cbn.
        split; [by eapply list_elem_of_lookup_2|]. split; [done|].
        split; [|done]. intros e1 He1 _. unfold Assignment.Element in *.
        congruence.
      * destruct (IH j ltac:(lia)) as (e & H1 & H2 & H3 & H4 & H5 & H6 & H7).
        exists e. unfold loaded_from, Value, OldValue, Activated,
          Bitmap.Get, Bitmap.SetBit in *. cbn.
        rewrite !list_lookup_insert_ne by done. done.
    + destruct (Assignment.Contains a (Var op n)); [|done].
      destruct (Assignment.ElementOf a (Var op n)) as [e'|] eqn:E';
        cbn [mbind option_bind]; [|done].
      apply find_some in E' as [Hin Hv'].
      apply Nat.eqb_eq in Hv'.
      intros [= <-] j Hj.
      destruct (decide (j = n)) as [->|Hjn].
      * exists e'. unfold loaded_from, Value, OldValue, Activated,
          Bitmap.Get, Bitmap.SetBit. cbn.
        rewrite !list_lookup_insert_eq by lia. cbn.
        split; [by apply list_elem_of_In|]. split; [done|].
        split; [|done]. intros e1 He1 Hv1. unfold Assignment.Element in *.
        congruence.
      * destruct (IH j ltac:(lia)) as (e & H1 & H2 & H3 & H4 & H5 & H6 & H7).
        exists e. unfold loaded_from, Value, OldValue, Activated,
          Bitmap.Get, Bitmap.SetBit in *. cbn.
        rewrite !list_lookup_insert_ne by done. done.
Qed.

(** X3.  [Start] on an operator whose arrays have one entry per variable,
    with an assignment that is large enough and holds every variable of
    the operator: before [OnStart] runs, every tracked index has the
    value and the activation of an element of the assignment about its
    variable, as current and as reference (the element of the same slot
    when that one is about the variable); the variables, the subclass
    fields and the change list are as they were. *)
Theorem Start_loads_reference (a : Assignment.t) (op : t X) :
  in_shape op →
  (Size op <= Assignment.Size a)%nat →
  (∀ i, (i < Size op)%nat → Assignment.Contains a (Var op i) = true) →
  ∃ op1, Start a op = OnStart op1
    ∧ vars_ op1 = vars_ op ∧ derived_ op1 = derived_ op
    ∧ changes_ op1 = changes_ op
    ∧ in_shape op1
    ∧ ∀ i, (i < Size op)%nat → ∃ e, loaded_from a op op1 i e.
Proof.
  intros (Hv & Ho & Ha & Hw) Hsize Hall. unfold Start.
  rewrite decide_True by done.
  destruct (Start_fold_found a (seq 0 (Size op)) op)
    as (op1 & Hloop & Hvars & Hd).
  { intros i Hi%elem_of_seq. split; [lia|]. apply Hall. lia. }
  rewrite Hloop. exists op1. cbn [mbind option_bind].
  destruct (Start_loop_arrays a (Size op) op op1)
    as ((_ & _ & Hch) & (Lv & Lo & La & Lw) & _); [lia..|done|].
  do 4 (split; [done|]). split.
  - unfold in_shape, Size in *. rewrite Hvars. lia.
  - apply (Start_loop_loads a (Size op) op op1); [lia..|done].
Qed.

(** Every element of the delta is about the variable of a changed
    index. *)
Lemma delta_element_Var (op : t X) (i : nat) (e : IntVarElement.t) :
  delta_element op i = Some e → IntVarElement.Var e = Var op i.
Proof.
  unfold delta_element.
  destruct (negb (Activated op i)); [by intros [= <-]|].
  destruct (decide _); [by intros [= <-]|done].
Qed.

Lemma omap_Var_NoDup (f : nat → option IntVarElement.t) (g : nat → IntVar)
    (l : list nat) :
  (∀ i e, f i = Some e → IntVarElement.Var e = g i) →
  NoDup (g <$> l) →
  NoDup (IntVarElement.Var <$> omap f l)
  ∧ (∀ x, x ∈ IntVarElement.Var <$> omap f l → x ∈ g <$> l)
  ∧ (length (omap f l) <= length l)%nat.
Proof.
  intros Hf. induction l as [|i l IH]; intros Hnd.
  - cbn. split; [constructor|]. split; [done|lia].
  - rewrite fmap_cons in Hnd. apply NoDup_cons in Hnd as [Hi Hnd].
    destruct (IH Hnd) as (IH1 & IH2 & IH3).
    change (omap f (i :: l))
      with (match f i with Some y => y :: omap f l | None => omap f l end).
    destruct (f i) as [e|] eqn:E.
    + rewrite !fmap_cons, (Hf i e E). split; [|split].
      * apply NoDup_cons. split; [|done]. intros Hin. by apply Hi, IH2.
      * intros x [->|Hx]%elem_of_cons; [by left|]. right. by apply IH2.
      * cbn. lia.
    + split; [done|]. split.
      * intros x Hx. rewrite fmap_cons. right. by apply IH2.
      * cbn. lia.
Qed.

Lemma Var_NoDup (op : t X) (l : list nat) :
  NoDup (vars_ op) → NoDup l → (∀ i, i ∈ l → (i < Size op)%nat) →
  NoDup (Var op <$> l).
Proof.
  intros Hvars Hl Hin. apply NoDup_fmap_2_strong; [|done].
  intros i j Hi%Hin Hj%Hin. unfold Var, Size, IntVar in *.
  destruct (lookup_lt_is_Some_2 (vars_ op) i Hi) as [x Ex].
  destruct (lookup_lt_is_Some_2 (vars_ op) j Hj) as [y Ey].
  unfold IntVar in *. rewrite Ex, Ey. cbn. intros <-.
  exact (NoDup_lookup _ _ _ _ Hvars Ex Ey).
Qed.

(** X4.  [ApplyChanges] on empty assignments, for an operator over
    distinct variables whose change list holds tracked indices, each
    once: no variable gets two elements in [delta], nor in [deltadelta],
    every element is about the variable of a changed index, and [delta]
    has at most one element per changed index. *)
Theorem ApplyChanges_distinct_variables (op : t X)
    (delta deltadelta : Assignment.t) :
  NoDup (vars_ op) → NoDup (changes_ op) →
  (∀ i, i ∈ changes_ op → (i < Size op)%nat) →
  ApplyChanges op Assignment.empty Assignment.empty
  = (true, delta, deltadelta) →
  NoDup (IntVarElement.Var <$> Assignment.IntVarContainer delta)
  ∧ NoDup (IntVarElement.Var <$> Assignment.IntVarContainer deltadelta)
  ∧ (∀ e, e ∈ Assignment.IntVarContainer delta →
          ∃ i, i ∈ changes_ op ∧ IntVarElement.Var e = Var op i)
  ∧ Assignment.IntVarContainer deltadelta
    ⊆ Assignment.IntVarContainer delta
  ∧ (length (Assignment.IntVarContainer delta) <= length (changes_ op))%nat.
Proof.
  intros Hvars Hnd Hin. unfold ApplyChanges. rewrite ApplyChanges_fold.
  intros [= <- <-]. cbn.
  pose proof (Var_NoDup op (changes_ op) Hvars Hnd Hin) as Hv.
  destruct (omap_Var_NoDup (delta_element op) (Var op) (changes_ op))
    as (D1 & D2 & D3); [apply delta_element_Var|done|].
  destruct (omap_Var_NoDup (deltadelta_element op) (Var op) (changes_ op))
    as (E1 & _ & _); [|done|].
  { intros i e. unfold deltadelta_element.
    destruct (mirrored op i); [apply delta_element_Var|done]. }
  split; [done|]. split; [done|]. split; [|split; [|done]].
  - intros e (i & Hi & He)%list_elem_of_omap. exists i. split; [done|].
    by apply delta_element_Var.
  - intros e (i & Hi & He)%list_elem_of_omap. apply list_elem_of_omap.
    exists i. split; [done|]. unfold deltadelta_element in He.
    by destruct (mirrored op i).
Qed.
End BaseOperatorStart.

(** ** Operators that stage from the reference *)

Section FromReference.
Import IntVarLocalSearchOperator DeltaContract.
Context {X : Type}.

Lemma staged_with_derived (d : X) (op : t X) :
  staged op → staged (with_derived d op).
Proof. intros [? ? ? ? ? ? ? ?]. by split. Qed.

Lemma reference_state_with_derived (d : X) (op : t X) :
  reference_state op → reference_state (with_derived d op).
Proof. intros [? ?]. by split. Qed.

(** A single [SetValue] on an operator that stands at its reference. *)
Lemma SetValue_from_reference (r : t X) (k : nat) (v : Z) :
  staged r → reference_state r → (k < Size r)%nat →
  changes_ (SetValue k v r) = [k]
  ∧ Value (SetValue k v r) k = v
  ∧ OldValue (SetValue k v r) k = OldValue r k
  ∧ Activated (SetValue k v r) k = Bitmap.Get (was_activated_ r) k
  ∧ vars_ (SetValue k v r) = vars_ r
  ∧ old_values_ (SetValue k v r) = old_values_ r
  ∧ was_activated_ (SetValue k v r) = was_activated_ r
  ∧ derived_ (SetValue k v r) = derived_ r
  ∧ cleared_ (SetValue k v r) = cleared_ r.
Proof.
  intros Hst [Href Hnil] Hk.
  assert (Hh : Bitmap.Get (has_changed_ r) k = false).
  { destruct (Bitmap.Get (has_changed_ r) k) eqn:E; [|done].
    apply (staged_marked _ Hst) in E. rewrite Hnil in E.
    by apply elem_of_nil in E. }
  unfold SetValue.
  destruct (MarkChange_arrays k (with_values (<[k:=v]> (values_ r)) r))
    as (F1 & F2 & F3 & F4 & F5 & F6 & F7).
  cbn in F1, F2, F3, F4, F5, F6, F7. rewrite Hh, Hnil in F7.
  unfold Value, OldValue, Activated, Bitmap.Get.
  rewrite F1, F2, F3, F4, F5, F7.
  split; [done|]. split.
  { rewrite list_lookup_insert_eq; [done|].
    rewrite (staged_values _ Hst). done. }
  split; [done|]. split; [apply (Href k Hk)|].
  do 3 (split; [done|]).
  unfold MarkChange.
  destruct (negb (Bitmap.Get (has_delta_changed_ _) k)),
    (negb (Bitmap.Get (has_changed_ _) k)); done.
Qed.
End FromReference.

Section ChangeValueNeighbors.
Import IntVarLocalSearchOperator DeltaContract.
Local Open Scope Z_scope.

Lemma delta_elements_single {X : Type} {Inc : Incremental X}
    {V : Virtual X} (op : t X) (k : nat) :
  changes_ op = [k] →
  delta_elements op = option_list (delta_element op k).
Proof.
  unfold delta_elements. intros ->.
  change (omap (delta_element op) [k])
    with (match delta_element op k with Some y => [y] | None => [] end).
  by destruct (delta_element op k).
Qed.

(** X5.  One call of [MakeNextNeighbor] on a [ChangeValue] operator whose
    staging arrays are consistent.  While [index_] is below the number of
    variables, the call goes back to the reference, stages
    [ModifyValue(index_, old value)] at that index and nothing else,
    appends the one element that says so to [delta], leaves [deltadelta]
    alone and moves [index_] on by one.  Once [index_] has reached the
    number of variables the call returns false, with both assignments
    untouched and the operator at its reference. *)
Theorem ChangeValue_neighbors (fuel : nat) (op : t ChangeValue.fields)
    (delta deltadelta : Assignment.t) :
  staged op → 0 <= ChangeValue.index_ (derived_ op) →
  let k := Z.to_nat (ChangeValue.index_ (derived_ op)) in
  ∃ op',
    MakeNextNeighbor (S fuel) op delta deltadelta
    = Some (if decide (k < Size op)%nat
            then (true, op', append [ChangeValue.changed_element op k] delta,
                  deltadelta)
            else (false, op', delta, deltadelta))
    ∧ staged op'
    ∧ vars_ op' = vars_ op ∧ old_values_ op' = old_values_ op
    ∧ was_activated_ op' = was_activated_ op
    ∧ ChangeValue.ModifyValue (derived_ op')
      = ChangeValue.ModifyValue (derived_ op)
    ∧ (if decide (k < Size op)%nat
       then ChangeValue.index_ (derived_ op')
            = ChangeValue.index_ (derived_ op) + 1
            ∧ changes_ op' = [k]
       else ChangeValue.index_ (derived_ op')
            = ChangeValue.index_ (derived_ op)
            ∧ reference_state op').
Proof.
  intros Hst Hk k. rewrite MakeNextNeighbor_unfold.
  destruct (RevertChanges_reference true op eq_refl Hst) as [Href Hcl].
  pose proof (staged_RevertChanges true op Hst) as Hstr.
  pose proof (RevertChanges_derived true op) as Hd.
  assert (Hfr : vars_ (RevertChanges true op) = vars_ op
                ∧ old_values_ (RevertChanges true op) = old_values_ op
                ∧ was_activated_ (RevertChanges true op)
                  = was_activated_ op).
  { unfold RevertChanges. cbn [andb IsIncremental ChangeValue.incremental].
    cbn [vars_ old_values_ was_activated_ with_changes].
    match goal with
    | |- context [foldl RevertChanges_body ?o ?l] =>
        destruct (RevertChanges_fold_frame l o) as (-> & -> & -> & _)
    end. done. }
  destruct Hfr as (Hv & Ho & Hw).
  set (r := RevertChanges true op) in *.
  assert (Hsize : Size r = Size op) by (unfold Size; by rewrite Hv).
  cbn [MakeOneNeighbor ChangeValue.virtual].
  unfold ChangeValue.MakeOneNeighbor. rewrite Hd, Hsize.
  destruct (decide (k < Size op)%nat) as [Hlt|Hge].
  - rewrite (proj2 (Z.ltb_lt _ _)) by lia. fold k.
    set (v := ChangeValue.ModifyValue _ _ _).
    destruct (SetValue_from_reference r k v Hstr Href)
      as (C1 & C2 & C3 & C4 & C5 & C6 & C7 & C8 & C9); [lia|].
    set (op' := ChangeValue.with_index _ _).
    exists op'.
    assert (Hdelta : delta_elements op' = [ChangeValue.changed_element op k]).
    { rewrite (delta_elements_single op' k C1).
      change (delta_element op' k) with (delta_element (SetValue k v r) k).
      unfold delta_element, ChangeValue.changed_element. rewrite C4, Hw.
      destruct (Bitmap.Get (was_activated_ op) k); cbn [negb option_list].
      - rewrite decide_True by (by right).
        unfold SetValueElement.
        rewrite C2. unfold Var at 1. rewrite C5, Hv. fold (Var op k).
        subst v.
        replace (Z.of_nat k) with (ChangeValue.index_ (derived_ op))
          by (unfold k; lia).
        assert (Hval : Value r k = OldValue op k).
        { destruct Href as [Href _].
          rewrite (proj1 (Href k ltac:(lia))).
          unfold OldValue. by rewrite Ho. }
        rewrite Hval. reflexivity.
      - unfold DeactivateElement.
        unfold Var at 1. rewrite C5, Hv. reflexivity. }
    assert (Hdd : deltadelta_elements op' = []).
    { apply deltadelta_elements_cleared. by right. }
    split; [by rewrite Hdelta, Hdd, append_nil|].
    split; [|split; [|split; [|split; [|split]]]].
    + apply staged_with_derived. apply staged_SetValue; [done|lia].
    + change (vars_ op') with (vars_ (SetValue k v r)). by rewrite C5.
    + change (old_values_ op') with (old_values_ (SetValue k v r)).
      by rewrite C6.
    + change (was_activated_ op') with (was_activated_ (SetValue k v r)).
      by rewrite C7.
    + change (ChangeValue.ModifyValue (derived_ op'))
        with (ChangeValue.ModifyValue (derived_ (SetValue k v r))).
      by rewrite C8, Hd.
    + split; [|exact C1].
      change (ChangeValue.index_ (derived_ op'))
        with (ChangeValue.index_ (derived_ (SetValue k v r)) + 1).
      by rewrite C8, Hd.
  - rewrite (proj2 (Z.ltb_ge _ _)) by lia.
    exists r. split; [done|]. split; [done|]. do 3 (split; [done|]).
    split; [by rewrite Hd|]. split; [by rewrite Hd|done].
Qed.
End ChangeValueNeighbors.

(** ** SimpleLNS *)

Section SimpleLNSNeighbors.
Import IntVarLocalSearchOperator DeltaContract.

(** The change list after a run of mutators, index by index. *)
Lemma stage_changes_fold {X : Type} (ms : list Mutation) (op : t X) :
  staged op → Forall (λ m, (mutation_index m < Size op)%nat) ms →
  staged (stage ms op)
  ∧ changes_ (stage ms op)
    = foldl add_change (changes_ op) (mutation_index <$> ms)
  ∧ vars_ (stage ms op) = vars_ op
  ∧ old_values_ (stage ms op) = old_values_ op
  ∧ was_activated_ (stage ms op) = was_activated_ op.
Proof.
  revert op. induction ms as [|m ms IH]; intros op Hst Hall; [done|].
  apply Forall_cons in Hall as [Hm Hall].
  destruct (mutate_changes op m Hst Hm) as (Hst1 & Hch & Hold & Hwas & Hv).
  unfold stage. cbn [foldl]. fold (stage ms (mutate op m)).
  destruct (IH (mutate op m) Hst1) as (S1 & C1 & V1 & O1 & W1).
  { unfold Size in *. by rewrite Hv. }
  split; [done|]. rewrite C1, V1, O1, W1, Hch, Hv, Hold, Hwas.
  rewrite fmap_cons. cbn [foldl]. done.
Qed.

(** The window of a fragment: taking the indices one by one from the
    start of the fragment, the new ones are the first [n] at most. *)
Lemma window_changes (k n m : nat) :
  (0 < n)%nat →
  foldl add_change [] ((λ j, (k + j) mod n)%nat <$> seq 0 m)
  = (λ j, (k + j) mod n)%nat <$> seq 0 (Nat.min m n).
Proof.
  intros Hn. induction m as [|m IH]; [done|].
  rewrite seq_S, fmap_app, foldl_app, IH. cbn [fmap list_fmap foldl plus].
  unfold add_change.
  destruct (decide (m < n)%nat) as [Hlt|Hge].
  - rewrite (Nat.min_l m n), (Nat.min_l (S m) n) by lia.
    rewrite decide_False.
    + by rewrite seq_S, fmap_app.
    + intros (j & Hj & Hin%elem_of_seq)%list_elem_of_fmap.
      pose proof (Nat.div_mod_eq (k + m) n) as E1.
      pose proof (Nat.div_mod_eq (k + j) n) as E2.
      assert (n * ((k + m) / n) = n * ((k + j) / n) + (m - j))%nat by lia.
      destruct (Nat.le_gt_cases ((k + m) / n) ((k + j) / n)) as [Hle|Hgt].
      * assert (n * ((k + m) / n) <= n * ((k + j) / n))%nat
          by (by apply Nat.mul_le_mono_l).
        lia.
      * assert (n * S ((k + j) / n) <= n * ((k + m) / n))%nat
          by (by apply Nat.mul_le_mono_l).
        lia.
  - rewrite (Nat.min_r m n), (Nat.min_r (S m) n) by lia.
    rewrite decide_True; [done|].
    apply list_elem_of_fmap. exists (m mod n)%nat. split.
    + by rewrite Nat.Div0.add_mod_idemp_r.
    + apply elem_of_seq. pose proof (Nat.mod_upper_bound m n). lia.
Qed.

Lemma Activated_Deactivate {X : Type} (op : t X) (i j : nat) :
  (j < length (activated_ op))%nat →
  Activated (Deactivate j op) i
  = if decide (i = j) then false else Activated op i.
Proof.
  intros Hj. unfold Deactivate.
  destruct (MarkChange_arrays j
              (with_activated (Bitmap.SetBit (activated_ op) j false) op))
    as (_ & _ & _ & F & _).
  unfold Activated, Bitmap.Get. rewrite F. cbn. unfold Bitmap.SetBit.
  destruct (decide (i = j)) as [->|Hne].
  - by rewrite list_lookup_insert_eq.
  - by rewrite list_lookup_insert_ne.
Qed.

Lemma stage_Deactivate_Activated {X : Type} (l : list nat) (op : t X)
    (i : nat) :
  staged op → Forall (λ j, (j < Size op)%nat) l →
  Activated (stage (DoDeactivate <$> l) op) i
  = if decide (i ∈ l) then false else Activated op i.
Proof.
  revert op. induction l as [|j l IH]; intros op Hst Hall.
  - cbn. rewrite decide_False; [done|]. apply not_elem_of_nil.
  - apply Forall_cons in Hall as [Hj Hall].
    rewrite fmap_cons. unfold stage. cbn [foldl mutate].
    fold (stage (DoDeactivate <$> l) (Deactivate j op)).
    rewrite IH.
    + rewrite Activated_Deactivate by (by rewrite (staged_activated _ Hst)).
      destruct (decide (i ∈ l)) as [Hi|Hi].
      * rewrite decide_True; [done|]. by right.
      * destruct (decide (i = j)) as [->|Hne].
        -- rewrite decide_True; [done|]. by left.
        -- rewrite decide_False; [done|].
           intros [?|?]%elem_of_cons; done.
    + by apply staged_Deactivate.
    + destruct (mutate_changes op (DoDeactivate j) Hst Hj)
        as (_ & _ & _ & _ & Hv).
      cbn [mutate] in Hv. unfold Size in *. by rewrite Hv.
Qed.

Lemma stage_Deactivate_frame {X : Type} (l : list nat) (op : t X) :
  derived_ (stage (DoDeactivate <$> l) op) = derived_ op
  ∧ cleared_ (stage (DoDeactivate <$> l) op) = cleared_ op.
Proof.
  revert op. induction l as [|j l IH]; intros op; [done|].
  rewrite fmap_cons. unfold stage. cbn [foldl mutate].
  fold (stage (DoDeactivate <$> l) (Deactivate j op)).
  destruct (IH (Deactivate j op)) as [-> ->].
  unfold Deactivate. rewrite MarkChange_cleared.
  unfold MarkChange.
  destruct (negb (Bitmap.Get (has_delta_changed_ _) j)),
    (negb (Bitmap.Get (has_changed_ _) j)); done.
Qed.

Lemma foldl_Deactivate_stage {X : Type} (fragment : list Z) (op : t X) :
  foldl (λ op i, Deactivate (Z.to_nat i) op) op fragment
  = stage (DoDeactivate <$> (Z.to_nat <$> fragment)) op.
Proof.
  revert op. induction fragment as [|i l IH]; intros op; [done|].
  cbn [foldl]. rewrite IH. reflexivity.
Qed.

Lemma fragment_indices (index nv : Z) (n : nat) :
  (0 <= index)%Z → (0 < n)%nat →
  Z.to_nat <$> ((λ i, Z.rem i (Z.of_nat n)) <$> seqZ index nv)
  = (λ j, (Z.to_nat index + j) mod n)%nat <$> seq 0 (Z.to_nat nv).
Proof.
  intros Hi Hn. unfold seqZ. rewrite <- !list_fmap_compose.
  apply list_fmap_ext. intros _ j _. cbn.
  rewrite Z.rem_mod_nonneg by lia.
  rewrite Z2Nat.inj_mod by lia.
  rewrite Nat2Z.id. f_equal. lia.
Qed.

(** When every changed index is deactivated, the delta is the list of
    their deactivations. *)
Lemma delta_elements_deactivated {X : Type} {Inc : Incremental X}
    {V : Virtual X} (op : t X) :
  (∀ i, i ∈ changes_ op → Activated op i = false) →
  delta_elements op = DeactivateElement op <$> changes_ op.
Proof.
  intros H. unfold delta_elements.
  induction (changes_ op) as [|i l IH]; [done|].
  change (omap (delta_element op) (i :: l))
    with (match delta_element op i with
          | Some y => y :: omap (delta_element op) l
          | None => omap (delta_element op) l
          end).
  unfold delta_element at 1. rewrite H by (by left). cbn [negb].
  rewrite fmap_cons, IH; [done|]. intros j Hj. apply H. by right.
Qed.

(** X6.  One call of [MakeNextNeighbor] on a [SimpleLNS] operator whose
    staging arrays are consistent.  While [index_] is below the number of
    variables, the call goes back to the reference and deactivates the
    variables of the window of [number_of_variables_] indices that starts
    at [index_] and wraps around the end of the array; [delta] gets one
    deactivation for each index of the window, in the order of the
    window, and no second one for an index that the window meets again;
    [deltadelta] is left alone and [index_] moves on by one.  Once
    [index_] has reached the number of variables the call returns false,
    with both assignments untouched and the operator at its
    reference. *)
Theorem SimpleLNS_neighbors (fuel : nat) (op : t SimpleLNS.fields)
    (delta deltadelta : Assignment.t) :
  staged op → (0 <= SimpleLNS.index_ (derived_ op))%Z →
  ∃ op',
    MakeNextNeighbor (S fuel) op delta deltadelta
    = Some (if decide (SimpleLNS.index_ (derived_ op)
                       < Z.of_nat (Size op))%Z
            then (true, op', append (SimpleLNS.freed op) delta, deltadelta)
            else (false, op', delta, deltadelta))
    ∧ staged op'
    ∧ vars_ op' = vars_ op ∧ old_values_ op' = old_values_ op
    ∧ was_activated_ op' = was_activated_ op
    ∧ SimpleLNS.number_of_variables_ (derived_ op')
      = SimpleLNS.number_of_variables_ (derived_ op)
    ∧ (if decide (SimpleLNS.index_ (derived_ op) < Z.of_nat (Size op))%Z
       then SimpleLNS.index_ (derived_ op')
            = (SimpleLNS.index_ (derived_ op) + 1)%Z
            ∧ changes_ op' = SimpleLNS.window op
       else SimpleLNS.index_ (derived_ op') = SimpleLNS.index_ (derived_ op)
            ∧ reference_state op').
Proof.
  intros Hst Hk. rewrite MakeNextNeighbor_unfold.
  destruct (RevertChanges_reference true op eq_refl Hst) as [Href Hcl].
  pose proof (staged_RevertChanges true op Hst) as Hstr.
  pose proof (RevertChanges_derived true op) as Hd.
  destruct (RevertChanges_keeps_reference true op) as (Hv & Ho & Hw).
  set (r := RevertChanges true op) in *.
  assert (Hsize : Size r = Size op) by (unfold Size; by rewrite Hv).
  cbn [MakeOneNeighbor SimpleLNS.virtual].
  unfold BaseLNS.MakeOneNeighbor, SimpleLNS.NextFragment.
  rewrite Hd, Hsize.
  destruct (decide (SimpleLNS.index_ (derived_ op) < Z.of_nat (Size op))%Z)
    as [Hlt|Hge].
  - rewrite (proj2 (Z.ltb_lt _ _)) by lia.
    rewrite foldl_Deactivate_stage, fragment_indices by lia.
    set (r1 := SimpleLNS.with_index _ r).
    assert (Hst1 : staged r1) by (by apply staged_with_derived).
    assert (Hsize1 : Size r1 = Size op) by done.
    set (l := (λ j, _) <$> seq 0 _).
    assert (Hl : Forall (λ j, (j < Size r1)%nat) l).
    { apply Forall_forall. intros x (j & -> & _)%list_elem_of_fmap.
      rewrite Hsize1. apply Nat.mod_upper_bound. lia. }
    destruct (stage_changes_fold (DoDeactivate <$> l) r1 Hst1)
      as (S1 & C1 & V1 & O1 & W1).
    { apply Forall_fmap. exact Hl. }
    rewrite <- list_fmap_compose in C1.
    assert (Hnil : changes_ r1 = []) by apply Href.
    rewrite Hnil in C1.
    assert (Hmi : mutation_index ∘ DoDeactivate = id :> (nat → nat))
      by done.
    rewrite Hmi, list_fmap_id in C1.
    subst l. rewrite window_changes in C1 by lia.
    fold (SimpleLNS.window op) in C1.
    set (l := (λ j, _) <$> seq 0 _) in *.
    set (op' := stage (DoDeactivate <$> l) r1) in *.
    exists op'.
    assert (Hact : ∀ i, i ∈ changes_ op' → Activated op' i = false).
    { intros i Hi. subst op'.
      rewrite stage_Deactivate_Activated by done.
      rewrite decide_True; [done|]. rewrite C1 in Hi.
      unfold SimpleLNS.window in Hi.
      apply list_elem_of_fmap in Hi as (j & -> & Hj%elem_of_seq).
      apply list_elem_of_fmap. exists j. split; [done|].
      apply elem_of_seq. lia. }
    assert (Hdelta : delta_elements op' = SimpleLNS.freed op).
    { rewrite (delta_elements_deactivated op' Hact), C1.
      unfold SimpleLNS.freed. apply list_fmap_ext. intros _ i _.
      unfold DeactivateElement, Var. rewrite V1.
      change (vars_ r1) with (vars_ r). by rewrite Hv. }
    assert (Hdd : deltadelta_elements op' = []).
    { apply deltadelta_elements_cleared. by right. }
    split; [by rewrite Hdelta, Hdd, append_nil|].
    split; [done|].
    split; [rewrite V1; exact Hv|]. split; [rewrite O1; exact Ho|].
    split; [rewrite W1; exact Hw|].
    destruct (stage_Deactivate_frame l r1) as [Hdr _].
    fold op' in Hdr. rewrite Hdr.
    split.
    { change (SimpleLNS.number_of_variables_ (derived_ r1))
        with (SimpleLNS.number_of_variables_ (derived_ r)).
      by rewrite Hd. }
    split; [reflexivity|done].
  - rewrite (proj2 (Z.ltb_ge _ _)) by lia.
    exists r. split; [done|]. split; [done|]. do 3 (split; [done|]).
    split; [by rewrite Hd|]. split; [by rewrite Hd|done].
Qed.
End SimpleLNSNeighbors.

(** ** NeighborhoodLimit *)

Section LimitedNeighborhood.
Import NeighborhoodLimit.
Local Open Scope Z_scope.
Context {Op : Type} {I : LocalSearchOperator Op}.

Lemma call_all_refused (inputs : list (Assignment.t * Assignment.t))
    (l : t Op) :
  limit_ l <= next_neighborhood_calls_ l →
  call_all LimitMakeNextNeighbor inputs l
  = (l, (λ '(delta, deltadelta), (false, delta, deltadelta)) <$> inputs).
Proof.
  intros Hl. induction inputs as [|[d dd] inputs IH]; [done|].
  cbn [call_all]. unfold LimitMakeNextNeighbor at 1.
  rewrite (proj2 (Z.leb_le _ _)) by done. by rewrite IH.
Qed.

(** X7.  A run of [MakeNextNeighbor] calls on a limited operator that has
    forwarded [next_neighborhood_calls_] calls since its last [Start].
    The calls that the limit still allows are answered by the wrapped
    operator, as if it were called directly; every later call returns
    false, hands the two assignments back untouched and does not reach
    the wrapped operator.  The counter ends at the limit, or at the number
    of calls made if that is less. *)
Theorem NeighborhoodLimit_forwards_until_limit
    (inputs : list (Assignment.t * Assignment.t)) (l : t Op) :
  0 <= next_neighborhood_calls_ l <= limit_ l →
  limit_ l <= Int64.kint64max →
  let allowed := Z.to_nat (limit_ l - next_neighborhood_calls_ l) in
  let '(op, answers) :=
    call_all MakeNextNeighbor (take allowed inputs) (operator_ l) in
  call_all LimitMakeNextNeighbor inputs l
  = (Build op (limit_ l)
       (Z.min (limit_ l)
          (next_neighborhood_calls_ l + Z.of_nat (length inputs))),
     answers
     ++ ((λ '(delta, deltadelta), (false, delta, deltadelta))
           <$> drop allowed inputs)).
Proof.
  revert l. induction inputs as [|[d dd] inputs IH]; intros l Hc Hmax.
  - cbn. rewrite take_nil. cbn. destruct l as [o li c]. cbn in *.
    rewrite drop_nil. f_equal. f_equal. lia.
  - cbn zeta.
    destruct (decide (next_neighborhood_calls_ l < limit_ l)) as [Hlt|Hge].
    + replace (Z.to_nat (limit_ l - next_neighborhood_calls_ l))
        with (S (Z.to_nat (limit_ l - (next_neighborhood_calls_ l + 1))))
        by lia.
      cbn [take drop call_all]. unfold LimitMakeNextNeighbor at 1.
      rewrite (proj2 (Z.leb_gt _ _)) by lia.
      destruct (MakeNextNeighbor (operator_ l) d dd)
        as [[[found op1] d1] dd1].
      assert (Hw : Int64.wrap (next_neighborhood_calls_ l + 1)
                   = next_neighborhood_calls_ l + 1).
      { unfold Int64.wrap, Int64.kint64max in *.
        rewrite Z.mod_small by lia. lia. }
      rewrite Hw.
      specialize (IH (Build op1 (limit_ l)
                        (next_neighborhood_calls_ l + 1))).
      cbn [operator_ limit_ next_neighborhood_calls_] in IH.
      specialize (IH ltac:(lia) Hmax).
      destruct (call_all MakeNextNeighbor
                  (take (Z.to_nat (limit_ l
                                   - (next_neighborhood_calls_ l + 1)))
                     inputs) op1) as [op2 answers].
      rewrite IH. cbn [length app]. f_equal. f_equal. lia.
    + replace (Z.to_nat (limit_ l - next_neighborhood_calls_ l))
        with 0%nat by lia.
      rewrite call_all_refused by lia.
      cbn [take drop call_all app].
      destruct l as [o li c]. cbn in *. f_equal. f_equal.
      lia.
Qed.
End LimitedNeighborhood.

(** ** The order of the sub-operators of a compound operator *)

Section CompoundOrder.
Import CompoundOperator.
Local Open Scope Z_scope.

Lemma ranked_before_spec (evaluator : Z → Z → Z) (active lhs rhs : nat) :
  ranked_before evaluator active lhs rhs
  ↔ evaluator (Z.of_nat active) (Z.of_nat lhs)
    < evaluator (Z.of_nat active) (Z.of_nat rhs)
    ∨ (evaluator (Z.of_nat active) (Z.of_nat lhs)
       = evaluator (Z.of_nat active) (Z.of_nat rhs)
       ∧ (lhs < rhs)%nat).
Proof.
  unfold ranked_before, OperatorComparator.
  rewrite orb_true_iff, andb_true_iff, Z.ltb_lt, Z.eqb_eq, Nat.ltb_lt.
  tauto.
Qed.

Lemma sort_insert_Permutation {A : Type} (less : A → A → bool) (x : A)
    (l : list A) :
  sort_insert less x l ≡ₚ x :: l.
Proof.
  induction l as [|y l IH]; [done|]. cbn.
  destruct (less x y); [done|]. rewrite IH. apply Permutation_swap.
Qed.

Lemma std_sort_Permutation {A : Type} (less : A → A → bool) (l : list A) :
  std_sort less l ≡ₚ l.
Proof.
  induction l as [|x l IH]; [done|]. unfold std_sort in *. cbn [foldr].
  by rewrite sort_insert_Permutation, IH.
Qed.

Lemma std_sort_ext {A : Type} (less less' : A → A → bool) (l : list A) :
  (∀ x y, less x y = less' x y) → std_sort less l = std_sort less' l.
Proof.
  intros H. unfold std_sort. induction l as [|x l IH]; [done|].
  cbn [foldr]. rewrite IH. generalize (foldr (sort_insert less') [] l).
  intros l'. induction l' as [|y l' IH']; [done|]. cbn.
  by rewrite H, IH'.
Qed.

Lemma sort_insert_sorted (evaluator : Z → Z → Z) (active x : nat)
    (l : list nat) :
  x ∉ l →
  StronglySorted (ranked_before evaluator active) l →
  StronglySorted (ranked_before evaluator active)
    (sort_insert (OperatorComparator evaluator active) x l).
Proof.
  intros Hx Hl. induction Hl as [|y l Hl IH Hy]; cbn.
  - repeat constructor.
  - apply not_elem_of_cons in Hx as [Hxy Hx].
    destruct (OperatorComparator evaluator active x y) eqn:E.
    + constructor; [by constructor|]. constructor; [done|].
      eapply Forall_impl; [exact Hy|]. intros z Hz.
      apply ranked_before_spec. apply ranked_before_spec in Hz.
      change (ranked_before evaluator active x y) in E.
      apply ranked_before_spec in E. lia.
    + constructor; [by apply IH|].
      assert (Hyx : ranked_before evaluator active y x).
      { apply ranked_before_spec.
        assert (Hn : ¬ ranked_before evaluator active x y)
          by (unfold ranked_before; by rewrite E).
        rewrite ranked_before_spec in Hn. lia. }
      apply Forall_forall. intros z Hz.
      rewrite sort_insert_Permutation in Hz.
      apply elem_of_cons in Hz as [->|Hz]; [done|].
      rewrite Forall_forall in Hy. by apply Hy.
Qed.

Lemma std_sort_sorted (evaluator : Z → Z → Z) (active : nat)
    (l : list nat) :
  NoDup l →
  StronglySorted (ranked_before evaluator active)
    (std_sort (OperatorComparator evaluator active) l).
Proof.
  induction 1 as [|x l Hx Hnd IH]; [constructor|].
  unfold std_sort in *. cbn [foldr]. apply sort_insert_sorted; [|done].
  fold (std_sort (OperatorComparator evaluator active) l).
  by rewrite std_sort_Permutation.
Qed.

(** Whatever sorts the indices under the comparator ends with the same
    arrangement: the comparator orders distinct indices strictly. *)
Lemma std_sort_unique (evaluator : Z → Z → Z) (active : nat)
    (l sorted : list nat) :
  NoDup l → sorted ≡ₚ l →
  StronglySorted (ranked_before evaluator active) sorted →
  std_sort (OperatorComparator evaluator active) l = sorted.
Proof.
  intros Hnd Hperm Hsorted.
  apply (StronglySorted_unique_strong (ranked_before evaluator active)).
  - intros x y _ _ Hxy Hyx. apply ranked_before_spec in Hxy, Hyx. lia.
  - by apply std_sort_sorted.
  - done.
  - by rewrite std_sort_Permutation.
Qed.

Lemma seq_sorted (R : relation nat) (s len : nat) :
  (∀ x y, (s <= x < y)%nat → (y < s + len)%nat → R x y) →
  StronglySorted R (seq s len).
Proof.
  revert s. induction len as [|len IH]; intros s HR; [constructor|].
  cbn [seq]. constructor.
  - apply IH. intros x y Hxy Hy. apply HR; lia.
  - apply Forall_forall. intros y Hy%elem_of_seq. apply HR; lia.
Qed.

Lemma rotation_Permutation (n a : nat) :
  (a <= n)%nat → seq a (n - a) ++ seq 0 a ≡ₚ seq 0 n.
Proof.
  intros Ha. rewrite Permutation_app_comm.
  replace n with (a + (n - a))%nat at 2 by lia.
  by rewrite seq_app.
Qed.

(** The round-robin order: from the active operator to the last one, then
    from the first one to the one before the active operator. *)
Lemma round_robin_order (size : Z) (n active : nat) (l : list nat) :
  Z.of_nat n <= size → (active < n)%nat → l ≡ₚ seq 0 n →
  std_sort (OperatorComparator (CompoundOperatorNoRestart size) active) l
  = seq active (n - active) ++ seq 0 active.
Proof.
  intros Hsize Ha Hl. apply std_sort_unique.
  - rewrite Hl. apply NoDup_seq.
  - rewrite Hl. apply rotation_Permutation. lia.
  - apply StronglySorted_app_2.
    + intros x y Hx%elem_of_seq Hy%elem_of_seq.
      apply ranked_before_spec. unfold CompoundOperatorNoRestart.
      rewrite (proj2 (Z.ltb_ge _ _)) by lia.
      rewrite (proj2 (Z.ltb_lt _ _)) by lia. lia.
    + apply seq_sorted. intros x y Hxy Hy.
      apply ranked_before_spec. unfold CompoundOperatorNoRestart.
      rewrite !(proj2 (Z.ltb_ge _ _)) by lia. lia.
    + apply seq_sorted. intros x y Hxy Hy.
      apply ranked_before_spec. unfold CompoundOperatorNoRestart.
      rewrite !(proj2 (Z.ltb_lt _ _)) by lia. lia.
Qed.

Lemma restart_order (n active : nat) (l : list nat) :
  l ≡ₚ seq 0 n →
  std_sort (OperatorComparator CompoundOperatorRestart active) l = seq 0 n.
Proof.
  intros Hl. apply std_sort_unique.
  - rewrite Hl. apply NoDup_seq.
  - done.
  - apply seq_sorted. intros x y Hxy Hy. apply ranked_before_spec.
    unfold CompoundOperatorRestart. lia.
Qed.

Context {Op : Type} {I : LocalSearchOperator Op}.

Lemma CompoundStart_fields (assignment : Assignment.t) (c c' : t Op) :
  (0 < size_ c)%nat →
  CompoundStart assignment c = Some c' →
  index_ c' = 0%nat ∧ size_ c' = size_ c ∧ evaluator_ c' = evaluator_ c
  ∧ mapM (Start assignment) (operators_ c) = Some (operators_ c')
  ∧ operator_indices_ c'
    = std_sort (OperatorComparator (evaluator_ c)
                  (default 0%nat (operator_indices_ c !! index_ c)))
        (operator_indices_ c).
Proof.
  intros Hsize. unfold CompoundStart.
  rewrite (proj2 (Nat.ltb_lt _ _)) by done.
  destruct (mapM (Start assignment) (operators_ c)) as [ops|]; [|done].
  cbn. by intros [= <-].
Qed.

(** X8.  [Start] of a compound operator with the round-robin evaluator
    ([CompoundOperatorNoRestart] for a size that is at least the number of
    sub-operators), whose ranking holds every sub-operator once: the new
    ranking starts at the sub-operator that [index_] pointed at, goes up
    to the last sub-operator and wraps around to the first one; [index_]
    is back at 0 and every sub-operator was started. *)
Theorem CompoundStart_round_robin (assignment : Assignment.t) (size : Z)
    (c c' : t Op) :
  (∀ a b, evaluator_ c a b = CompoundOperatorNoRestart size a b) →
  Z.of_nat (size_ c) <= size →
  operator_indices_ c ≡ₚ seq 0 (size_ c) →
  (index_ c < size_ c)%nat →
  CompoundStart assignment c = Some c' →
  let active := default 0%nat (operator_indices_ c !! index_ c) in
  operator_indices_ c'
  = seq active (size_ c - active) ++ seq 0 active
  ∧ operator_indices_ c' ≡ₚ seq 0 (size_ c')
  ∧ index_ c' = 0%nat
  ∧ mapM (Start assignment) (operators_ c) = Some (operators_ c').
Proof.
  intros Hev Hsize Hperm Hidx Hstart active.
  destruct (CompoundStart_fields assignment c c' ltac:(lia) Hstart)
    as (Hi & Hs & He & Hops & Hind).
  assert (Hactive : (active < size_ c)%nat).
  { subst active.
    destruct (operator_indices_ c !! index_ c) as [w|] eqn:E.
    - apply list_elem_of_lookup_2 in E. rewrite Hperm in E.
      apply elem_of_seq in E. cbn. lia.
    - cbn. lia. }
  rewrite Hind. fold active.
  rewrite (std_sort_ext _
             (OperatorComparator (CompoundOperatorNoRestart size) active)).
  2:{ intros lhs rhs. unfold OperatorComparator. by rewrite !Hev. }
  rewrite (round_robin_order size (size_ c) active) by done.
  split; [done|]. rewrite Hs. split; [|done].
  apply rotation_Permutation. lia.
Qed.

(** X9.  [Start] of a compound operator with the restart evaluator
    ([CompoundOperatorRestart]), whose ranking holds every sub-operator
    once: the new ranking is the order in which the sub-operators were
    given, whichever of them was active. *)
Theorem CompoundStart_restart (assignment : Assignment.t) (c c' : t Op) :
  (∀ a b, evaluator_ c a b = CompoundOperatorRestart a b) →
  operator_indices_ c ≡ₚ seq 0 (size_ c) →
  (0 < size_ c)%nat →
  CompoundStart assignment c = Some c' →
  operator_indices_ c' = seq 0 (size_ c)
  ∧ index_ c' = 0%nat
  ∧ mapM (Start assignment) (operators_ c) = Some (operators_ c').
Proof.
  intros Hev Hperm Hsize Hstart.
  destruct (CompoundStart_fields assignment c c' Hsize Hstart)
    as (Hi & Hs & He & Hops & Hind).
  rewrite Hind.
  rewrite (std_sort_ext _
             (OperatorComparator CompoundOperatorRestart
                (default 0%nat (operator_indices_ c !! index_ c)))).
  2:{ intros lhs rhs. unfold OperatorComparator. by rewrite !Hev. }
  by rewrite (restart_order (size_ c)).
Qed.

Lemma ranked_lookup (c : t Op) (k : nat) :
  ranked c → (k < size_ c)%nat →
  ∃ which op, operator_indices_ c !! k = Some which
              ∧ operators_ c !! which = Some op.
Proof.
  intros [Hlen Hperm] Hk.
  destruct (lookup_lt_is_Some_2 (operator_indices_ c) k) as [w Hw].
  { rewrite Hperm, length_seq. done. }
  assert (Hin : w ∈ seq 0 (size_ c)).
  { rewrite <- Hperm. by eapply list_elem_of_lookup_2. }
  apply elem_of_seq in Hin.
  destruct (lookup_lt_is_Some_2 (operators_ c) w) as [op Hop]; [lia|].
  by exists w, op.
Qed.

Lemma CompoundMakeNextNeighbor_loop_sweep (fuel : nat) (c : t Op)
    (delta deltadelta : Assignment.t) :
  ranked c → (index_ c < size_ c)%nat →
  (size_ c <= index_ c + fuel)%nat →
  ∃ found c' delta' deltadelta',
    CompoundMakeNextNeighbor_loop fuel c delta deltadelta
    = Some (found, c', delta', deltadelta')
    ∧ ranked c'
    ∧ operator_indices_ c' = operator_indices_ c
    ∧ size_ c' = size_ c
    ∧ (if found then (index_ c <= index_ c' < size_ c)%nat
       else index_ c' = 0%nat)
    ∧ ∀ k, (k < index_ c)%nat ∨ (found = true ∧ (index_ c' < k)%nat) →
           untouched c c' k.
Proof.
  revert c delta deltadelta.
  induction fuel as [|fuel IH]; intros c d dd Hr Hidx Hfuel; [lia|].
  cbn [CompoundMakeNextNeighbor_loop].
  destruct (ranked_lookup c (index_ c) Hr Hidx) as (w & op & Hw & Hop).
  rewrite Hw. cbn [default from_option id]. rewrite Hop.
  destruct (MakeNextNeighbor op d dd) as [[[found op1] d1] dd1].
  set (c1 := Build (index_ c) (size_ c) (<[w:=op1]> (operators_ c))
               (operator_indices_ c) (evaluator_ c)).
  assert (Hr1 : ranked c1).
  { destruct Hr as [Hlen Hperm]. split; [|done]. cbn.
    by rewrite length_insert. }
  assert (Hother : ∀ k, k ≠ index_ c → untouched c c1 k).
  { intros k Hk w' Hw'. cbn.
    rewrite list_lookup_insert_ne; [done|]. intros <-.
    apply Hk. destruct Hr as [_ Hperm].
    assert (Hnd : NoDup (operator_indices_ c))
      by (rewrite Hperm; apply NoDup_seq).
    by eapply NoDup_lookup. }
  destruct found.
  - exists true, c1, d1, dd1. split; [reflexivity|]. split; [done|].
    do 2 (split; [reflexivity|]). split; [cbn; lia|].
    intros k Hk. apply Hother. cbn in Hk. lia.
  - cbn [negb index_ size_ operators_ operator_indices_ evaluator_].
    change (index_ c1) with (index_ c). change (size_ c1) with (size_ c).
    destruct (decide (S (index_ c) = size_ c)) as [Heq|Hne].
    + rewrite (proj2 (Nat.eqb_eq (S (index_ c)) (size_ c))) by done.
      cbn [Nat.eqb negb].
      eexists false, _, d1, dd1. split; [reflexivity|].
      split; [exact Hr1|]. do 3 (split; [reflexivity|]).
      intros k [Hk|[? _]]; [|done]. apply Hother. lia.
    + rewrite (proj2 (Nat.eqb_neq (S (index_ c)) (size_ c))) by done.
      rewrite (proj2 (Nat.eqb_neq (S (index_ c)) 0)) by lia. cbn [negb].
      set (c2 := Build (S (index_ c)) _ _ _ _).
      destruct (IH c2 d1 dd1)
        as (f & c' & d' & dd' & E & R' & I' & S' & X' & U');
        [exact Hr1|cbn; lia|cbn; lia|].
      exists f, c', d', dd'. split; [exact E|]. split; [done|].
      do 2 (split; [done|]). split.
      { destruct f; cbn in X'; [lia|done]. }
      intros k Hk w' Hw'.
      assert (Hk2 : (k < index_ c2)%nat ∨ f = true ∧ (index_ c' < k)%nat).
      { cbn. destruct Hk as [?|?]; [left; lia|by right]. }
      rewrite (U' k Hk2 w' Hw').
      apply (Hother k); [|done].
      destruct Hk as [?|[-> ?]]; [lia|]. cbn in X'. lia.
Qed.

(** X10.  [MakeNextNeighbor] of a compound operator whose ranking holds
    every sub-operator once, with [index_] on a rank: the call returns,
    within the rounds that are left up to the last rank.  When it returns
    true [index_] stands on a rank that is not before the one it started
    from, and the sub-operators of all other ranks before the start and
    after the end are in the state they were in; when it returns false
    [index_] is back at 0 and the sub-operators ranked before the start
    were not called.  The ranking itself is not changed. *)
Theorem CompoundMakeNextNeighbor_sweep (c : t Op)
    (delta deltadelta : Assignment.t) :
  ranked c → (index_ c < size_ c)%nat →
  ∃ found c' delta' deltadelta',
    CompoundMakeNextNeighbor c delta deltadelta
    = Some (found, c', delta', deltadelta')
    ∧ ranked c'
    ∧ operator_indices_ c' = operator_indices_ c
    ∧ (if found then (index_ c <= index_ c' < size_ c)%nat
       else index_ c' = 0%nat)
    ∧ ∀ k, (k < index_ c)%nat ∨ (found = true ∧ (index_ c' < k)%nat) →
           untouched c c' k.
Proof.
  intros Hr Hidx. unfold CompoundMakeNextNeighbor.
  rewrite (proj2 (Nat.ltb_lt _ _)) by lia.
  destruct (CompoundMakeNextNeighbor_loop_sweep (size_ c) c delta deltadelta)
    as (f & c' & d' & dd' & E & R' & I' & S' & X' & U'); [done|done|lia|].
  exists f, c', d', dd'. done.
Qed.
End CompoundOrder.

(** ** The aggregation operations, one by one *)

Section Operations.
Import LSOperation.
Local Open Scope Z_scope.

Lemma wrap_small (z : Z) :
  Int64.kint64min <= z <= Int64.kint64max → Int64.wrap z = z.
Proof.
  unfold Int64.wrap, Int64.kint64min, Int64.kint64max. intros Hz.
  rewrite Z.mod_small by lia. lia.
Qed.

Lemma wrap_add_l (a b : Z) : Int64.wrap (Int64.wrap a + b) = Int64.wrap (a + b).
Proof.
  unfold Int64.wrap. f_equal.
  replace ((a + 2 ^ 63) mod 2 ^ 64 - 2 ^ 63 + b + 2 ^ 63)
    with ((a + 2 ^ 63) mod 2 ^ 64 + b) by lia.
  rewrite Z.add_mod_idemp_l by lia. f_equal. lia.
Qed.

(** X11.  For the sum, [Remove(x)] undoes [Update(x)] and [Update(x)]
    undoes [Remove(x)], also when the addition or the subtraction in
    between wraps around: the running value is exact modulo 2^64. *)
Theorem SumOperation_Remove_undoes_Update (v x : Z) :
  Int64.kint64min <= v <= Int64.kint64max →
  Remove x (Update x (SumOperation v)) = SumOperation v
  ∧ Update x (Remove x (SumOperation v)) = SumOperation v.
Proof.
  intros Hv. cbn [Remove Update]. split; f_equal.
  - replace (Int64.wrap (v + x) - x) with (Int64.wrap (v + x) + - x) by lia.
    rewrite wrap_add_l. replace (v + x + - x) with v by lia.
    by apply wrap_small.
  - replace (v - x) with (v + - x) by lia.
    rewrite wrap_add_l. replace (v + - x + x) with v by lia.
    by apply wrap_small.
Qed.

Lemma wrap_0 : Int64.wrap 0 = 0.
Proof. vm_compute. reflexivity. Qed.

Lemma ProductOperation_zero_step (s : Step) :
  step (ProductOperation 0) s = ProductOperation 0.
Proof.
  destruct s as [x|x]; cbn [step Update Remove].
  - by rewrite Z.mul_0_l, wrap_0.
  - destruct (x =? 0) eqn:E; [done|]. apply Z.eqb_neq in E. cbn [negb].
    by rewrite Z.quot_0_l, wrap_0.
Qed.

(** X12.  For the product, a contribution 0 is never taken back:
    [Update(0)] brings the running value to 0, [Remove(0)] leaves it
    alone, and no run of [Update] and [Remove] calls moves it away from
    0 afterwards. *)
Theorem ProductOperation_zero_absorbs (v : Z) (steps : list Step) :
  value (Update 0 (ProductOperation v)) = 0
  ∧ Remove 0 (ProductOperation v) = ProductOperation v
  ∧ value (run steps (Update 0 (ProductOperation v))) = 0.
Proof.
  cbn [Update Remove value]. rewrite Z.mul_0_r. cbn [Z.eqb negb].
  rewrite wrap_0. split; [done|]. split; [done|].
  induction steps as [|s steps IH]; [done|].
  unfold run in *. cbn [foldl]. by rewrite ProductOperation_zero_step.
Qed.

Lemma greatest_spec (x : Z) (l : list Z) :
  greatest x l ∈ x :: l ∧ ∀ y, y ∈ x :: l → y <= greatest x l.
Proof.
  unfold greatest. induction l as [|z l [IHin IHle]]; cbn [foldr].
  - split; [by left|]. intros y ->%list_elem_of_singleton. lia.
  - split.
    + destruct (Z.max_spec z (foldr Z.max x l)) as [[_ ->]|[_ ->]].
      * apply elem_of_cons in IHin as [->|Hin]; [by left|].
        right. by right.
      * right. by left.
    + intros y [->|[->|Hy]%elem_of_cons]%elem_of_cons.
      * specialize (IHle x ltac:(by left)). lia.
      * lia.
      * specialize (IHle y ltac:(by right)). lia.
Qed.

Lemma least_spec (x : Z) (l : list Z) :
  least x l ∈ x :: l ∧ ∀ y, y ∈ x :: l → least x l <= y.
Proof.
  unfold least. induction l as [|z l [IHin IHle]]; cbn [foldr].
  - split; [by left|]. intros y ->%list_elem_of_singleton. lia.
  - split.
    + destruct (Z.min_spec z (foldr Z.min x l)) as [[_ ->]|[_ ->]].
      * right. by left.
      * apply elem_of_cons in IHin as [->|Hin]; [by left|].
        right. by right.
    + intros y [->|[->|Hy]%elem_of_cons]%elem_of_cons.
      * specialize (IHle x ltac:(by left)). lia.
      * lia.
      * specialize (IHle y ltac:(by right)). lia.
Qed.

(** X13.  [value()] of the MAX and MIN operations: 0 when no contribution
    is held; otherwise one of the contributions held, which no other one
    exceeds for MAX, and which exceeds no other one for MIN. *)
Theorem MaxMinOperation_value (max : bool) (values_set : gset Z) :
  (values_set = ∅ → value (MaxMinOperation max values_set) = 0)
  ∧ (values_set ≠ ∅ →
     value (MaxMinOperation max values_set) ∈ values_set
     ∧ ∀ y, y ∈ values_set →
            if max then y <= value (MaxMinOperation max values_set)
            else value (MaxMinOperation max values_set) <= y).
Proof.
  cbn [value]. split.
  - intros ->. by rewrite elements_empty.
  - intros Hne.
    destruct (elements values_set) as [|x l] eqn:E.
    { apply elements_empty_inv in E. by apply leibniz_equiv in E. }
    assert (Hel : ∀ y, y ∈ values_set ↔ y ∈ x :: l).
    { intros y. by rewrite <- E, elem_of_elements. }
    destruct max.
    + destruct (greatest_spec x l) as [Hin Hle].
      split; [by apply Hel|]. intros y Hy%Hel. by apply Hle.
    + destruct (least_spec x l) as [Hin Hle].
      split; [by apply Hel|]. intros y Hy%Hel. by apply Hle.
Qed.
End Operations.

(** ** The variables of a filter *)

Section FilterVariables.
Import IntVarLocalSearchFilter.

Lemma AddVars_index_fold (vars : list IntVar) (n : nat) (var : IntVar)
    (i : nat) :
  (n <= length vars)%nat →
  foldl (λ (m : gmap IntVar nat) k,
           <[default 0%nat (vars !! k) := (k + 0)%nat]> m)
        ∅ (seq 0 n) !! var = Some i
  ↔ (i < n)%nat ∧ vars !! i = Some var
    ∧ ∀ j, (j < n)%nat → vars !! j = Some var → (j <= i)%nat.
Proof.
  unfold IntVar in *. induction n as [|n IH]; intros Hn.
  - cbn. rewrite lookup_empty. split; [done|]. intros [? _]. lia.
  - rewrite seq_S, foldl_app. cbn [foldl plus].
    destruct (lookup_lt_is_Some_2 vars n ltac:(lia)) as [v Hv].
    rewrite Hv. cbn [default from_option id]. rewrite Nat.add_0_r.
    destruct (decide (v = var)) as [->|Hne].
    + rewrite lookup_insert_eq. split.
      * intros [= <-]. split; [lia|]. split; [done|]. intros j Hj _. lia.
      * intros (Hi & Hvi & Hlast). f_equal.
        specialize (Hlast n ltac:(lia) Hv). lia.
    + rewrite lookup_insert_ne by done. rewrite IH by lia. split.
      * intros (Hi & Hvi & Hlast). split; [lia|]. split; [done|].
        intros j Hj Hvj. destruct (decide (j = n)) as [->|?].
        -- congruence.
        -- apply Hlast; [lia|done].
      * intros (Hi & Hvi & Hlast). split.
        -- destruct (decide (i = n)) as [->|?]; [congruence|lia].
        -- split; [done|]. intros j Hj. apply Hlast. lia.
Qed.

Lemma FindIndex_Create_spec (vars : list IntVar) (var : IntVar) :
  (∀ i, FindIndex (Create vars) var = Some i
        ↔ vars !! i = Some var ∧ ∀ j, vars !! j = Some var → (j <= i)%nat)
  ∧ (FindIndex (Create vars) var = None ↔ var ∉ vars)
  ∧ Size (Create vars) = length vars
  ∧ vars_ (Create vars) = vars.
Proof.
  unfold Create, AddVars, FindIndex, Size, IntVar in *.
  destruct vars as [|v0 vars'] eqn:Ev.
  { cbn. split; [|split; [|done]].
    - intros i. rewrite lookup_empty. split; [done|]. by intros [? _].
    - split; [intros _; apply not_elem_of_nil|done]. }
  rewrite <- Ev. assert (Hpos : (0 <? length vars)%nat = true).
  { rewrite Ev. done. }
  rewrite Hpos. cbn [var_to_index_ size_ vars_ take app plus].
  assert (Hiff : ∀ i,
            foldl (λ (m : gmap IntVar nat) k,
                     <[default 0%nat (vars !! k) := (k + 0)%nat]> m)
                  ∅ (seq 0 (length vars)) !! var = Some i
            ↔ vars !! i = Some var
              ∧ ∀ j, vars !! j = Some var → (j <= i)%nat).
  { intros i. rewrite AddVars_index_fold by done. split.
    - intros (_ & Hvi & Hlast). split; [done|]. intros j Hvj.
      apply Hlast; [|done]. by eapply lookup_lt_Some.
    - intros (Hvi & Hlast). split; [by eapply lookup_lt_Some|].
      split; [done|]. intros j _. apply Hlast. }
  unfold IntVar in *. split; [exact Hiff|]. split; [|done].
  split.
  - intros Hnone Hin.
    assert (Hex : ∃ i, vars !! i = Some var
                       ∧ ∀ j, vars !! j = Some var → (j <= i)%nat).
    { clear Hiff Hnone Hpos Ev.
      induction vars as [|x l IH] using rev_ind;
        [by apply elem_of_nil in Hin|].
      destruct (decide (x = var)) as [->|Hne].
      - exists (length l). split.
        + by rewrite lookup_app_r, Nat.sub_diag by lia.
        + intros j Hj. apply lookup_lt_Some in Hj.
          rewrite length_app in Hj. cbn in Hj. lia.
      - apply elem_of_app in Hin as [Hin|Hin%list_elem_of_singleton];
          [|done].
        destruct (IH Hin) as (i & Hi & Hlast). exists i. split.
        + rewrite lookup_app_l; [done|]. by eapply lookup_lt_Some.
        + intros j Hj. destruct (decide (j < length l)%nat).
          * rewrite lookup_app_l in Hj by done. by apply Hlast.
          * rewrite lookup_app_r in Hj by lia.
            destruct (j - length l)%nat; simplify_eq/=. }
    destruct Hex as (i & Hi). apply Hiff in Hi. congruence.
  - intros Hnot. apply eq_None_not_Some. intros [i Hi].
    apply Hiff in Hi as [Hi _]. apply Hnot.
    by eapply list_elem_of_lookup_2.
Qed.

(** X14.  The index of a variable in a freshly built filter: [FindIndex]
    answers the position of the variable in the array the filter was
    built on, the last one if the variable is there more than once, and
    it finds nothing for a variable that is not in the array. *)
Theorem FindIndex_Create (vars : list IntVar) (var : IntVar) :
  (∀ i, FindIndex (Create vars) var = Some i
        ↔ vars !! i = Some var ∧ ∀ j, vars !! j = Some var → (j <= i)%nat)
  ∧ (FindIndex (Create vars) var = None ↔ var ∉ vars)
  ∧ Size (Create vars) = length vars
  ∧ vars_ (Create vars) = vars.
Proof. exact (FindIndex_Create_spec vars var). Qed.

(** What [Synchronize] does with one element, for a filter whose index
    is the inverse of its array: the slot test and the index agree. *)
Lemma Synchronize_body_indexed (f : t) (p : nat) (e : IntVarElement.t) :
  indexed f →
  Synchronize_body f (p, e)
  = match var_to_index_ f !! IntVarElement.Var e with
    | Some k =>
        with_values (<[k:=IntVarElement.Value e]> (values_ f)) f
    | None => f
    end.
Proof.
  intros (Hsize & Hlen & Hnd & Hidx). unfold Synchronize_body, FindIndex.
  destruct ((p <? size_ f)%nat
            && bool_decide (vars_ f !! p = Some (IntVarElement.Var e)))
    eqn:E; [|done].
  apply andb_true_iff in E as [_ E]. apply bool_decide_eq_true in E.
  apply Hidx in E. by rewrite E.
Qed.

Lemma indexed_with_values (f : t) (k : nat) (v : Z) :
  indexed f → indexed (with_values (<[k:=v]> (values_ f)) f).
Proof.
  intros (Hsize & Hlen & Hnd & Hidx). unfold indexed. cbn.
  by rewrite length_insert.
Qed.

Lemma Synchronize_fold_frame (l : list (nat * IntVarElement.t)) (f : t) :
  indexed f →
  indexed (foldl Synchronize_body f l)
  ∧ vars_ (foldl Synchronize_body f l) = vars_ f
  ∧ var_to_index_ (foldl Synchronize_body f l) = var_to_index_ f
  ∧ size_ (foldl Synchronize_body f l) = size_ f.
Proof.
  revert f. induction l as [|[p e] l IH]; intros f Hf; [done|].
  cbn [foldl]. rewrite (Synchronize_body_indexed f p e Hf).
  destruct (var_to_index_ f !! IntVarElement.Var e) as [k|]; [|by apply IH].
  destruct (IH _ (indexed_with_values f k (IntVarElement.Value e) Hf))
    as (H1 & H2 & H3 & H4).
  done.
Qed.

Lemma Synchronize_fold_other (l : list (nat * IntVarElement.t)) (f : t)
    (i : nat) (var : IntVar) :
  indexed f → vars_ f !! i = Some var →
  (∀ pe, pe ∈ l → IntVarElement.Var pe.2 ≠ var) →
  Value (foldl Synchronize_body f l) i = Value f i.
Proof.
  revert f. induction l as [|[p e] l IH]; intros f Hf Hi Hl; [done|].
  cbn [foldl]. rewrite (Synchronize_body_indexed f p e Hf).
  assert (Hl' : ∀ pe, pe ∈ l → IntVarElement.Var pe.2 ≠ var).
  { intros pe Hpe. apply Hl. by right. }
  destruct (var_to_index_ f !! IntVarElement.Var e) as [k|] eqn:Ek;
    [|by apply IH].
  rewrite IH; [|by apply indexed_with_values|done|done].
  unfold Value. cbn. rewrite list_lookup_insert_ne; [done|].
  intros ->. destruct Hf as (_ & _ & _ & Hidx). apply Hidx in Ek.
  apply (Hl (p, e)); [by left|]. cbn. congruence.
Qed.

(** X15.  [Synchronize] on a filter that tracks distinct variables, as far
    as the tracked values go (before [OnSynchronize] runs): a variable
    that the assignment does not mention keeps the value the filter had
    for it, and a variable that it mentions gets the value of the last
    element about it, whatever slot that element is in.  The variables
    and their index are as they were. *)
Theorem Synchronize_loads_last (assignment : Assignment.t) (f : t)
    (i : nat) (var : IntVar) :
  indexed f → vars_ f !! i = Some var →
  indexed (Synchronize assignment f)
  ∧ vars_ (Synchronize assignment f) = vars_ f
  ∧ ((∀ e, e ∈ Assignment.IntVarContainer assignment →
           IntVarElement.Var e ≠ var) →
     Value (Synchronize assignment f) i = Value f i)
  ∧ (∀ before e after,
       Assignment.IntVarContainer assignment = before ++ e :: after →
       IntVarElement.Var e = var →
       (∀ e', e' ∈ after → IntVarElement.Var e' ≠ var) →
       Value (Synchronize assignment f) i = IntVarElement.Value e).
Proof.
  intros Hf Hi. unfold Synchronize.
  destruct (Synchronize_fold_frame
              (imap pair (Assignment.IntVarContainer assignment)) f Hf)
    as (H1 & H2 & _ & _).
  split; [done|]. split; [done|]. split.
  - intros Hno. apply (Synchronize_fold_other _ f i var Hf Hi).
    intros [p e] Hpe. cbn.
    apply list_elem_of_lookup in Hpe as [k Hk].
    rewrite list_lookup_imap in Hk.
    destruct (Assignment.IntVarContainer assignment !! k) as [e0|] eqn:E0;
      [|done].
    cbn in Hk. injection Hk as <- <-. apply Hno.
    by eapply list_elem_of_lookup_2.
  - intros before e after Hl He Hafter. rewrite Hl.
    rewrite imap_app, foldl_app. cbn [imap foldl].
    set (f1 := foldl Synchronize_body f (imap pair before)).
    destruct (Synchronize_fold_frame (imap pair before) f Hf)
      as (Hf1 & Hv1 & Hx1 & Hs1). fold f1 in Hf1, Hv1, Hx1, Hs1.
    rewrite (Synchronize_body_indexed f1 _ e Hf1).
    assert (Hk : var_to_index_ f1 !! IntVarElement.Var e = Some i).
    { destruct Hf1 as (_ & _ & _ & Hidx). apply Hidx.
      rewrite Hv1, He. done. }
    rewrite Hk.
    rewrite (Synchronize_fold_other _ _ i var).
    + unfold Value. cbn. rewrite list_lookup_insert_eq; [done|].
      destruct Hf1 as (Hsz & Hlen & _ & _). rewrite Hlen, Hsz, Hv1.
      by eapply lookup_lt_Some.
    + by apply indexed_with_values.
    + cbn. by rewrite Hv1.
    + intros [p e'] Hpe. cbn.
      apply list_elem_of_lookup in Hpe as [k Hk'].
      rewrite list_lookup_imap in Hk'.
      destruct (after !! k) as [e0|] eqn:E0; [|done].
      cbn in Hk'. injection Hk' as <- <-. apply Hafter.
      by eapply list_elem_of_lookup_2.
Qed.

(** A freshly built filter over distinct variables is indexed. *)
Lemma indexed_Create (vars : list IntVar) :
  NoDup vars → indexed (Create vars).
Proof.
  intros Hnd. unfold indexed.
  destruct (FindIndex_Create_spec vars 0%nat) as (_ & _ & Hs & Hv).
  unfold Size in Hs. rewrite Hs, Hv.
  split; [done|]. split.
  { unfold Create, AddVars. destruct (0 <? length vars)%nat eqn:E; cbn.
    - by rewrite length_replicate.
    - apply Nat.ltb_ge in E. lia. }
  split; [done|]. intros var i.
  destruct (FindIndex_Create_spec vars var) as (Hiff & _).
  unfold FindIndex in Hiff. rewrite Hiff. split; [by intros [? _]|].
  intros Hi. split; [done|]. intros j Hj.
  by rewrite (NoDup_lookup _ _ _ _ Hnd Hi Hj).
Qed.
End FilterVariables.

(** ** The objective filter *)

Section ObjectiveFilterFrames.
Import ObjectiveFilter.
Local Open Scope Z_scope.
Context {X : Type} {V : Virtual X}.
Variable solver : Domains.

Lemma Evaluate_loop_synchronized (fuel : nat)
    (container : list IntVarElement.t) (out_values : OutValues)
    (cache_delta_values : bool) (i : nat) (f f' : t X) :
  Evaluate_loop solver fuel container out_values cache_delta_values i f
  = Some f' →
  synchronized_part f' = synchronized_part f
  ∧ incremental_ f' = incremental_ f
  ∧ old_delta_value_ f' = old_delta_value_ f
  ∧ length (delta_cache_ f') = length (delta_cache_ f).
Proof.
  revert i f. induction fuel as [|fuel IH]; intros i f;
    cbn [Evaluate_loop].
  - destruct (container !! i); [done|]. by intros [= <-].
  - destruct (container !! i) as [e|]; [|by intros [= <-]].
    destruct (IntVarLocalSearchFilter.FindIndex (base_ f) _) as [index|];
      [|apply IH].
    destruct (index <? primary_vars_size_ f)%nat; [|apply IH].
    destruct (EvaluateElementValue solver _ container index i)
      as [[evaluated obj_value] i'].
    destruct evaluated; [destruct cache_delta_values|];
      intros (H1 & H2 & H3 & H4)%IH; cbn in H4;
      rewrite ?length_insert in H4; done.
Qed.

(** X16.  [Accept] does not touch what [Synchronize] set: the tracked
    values, the cache of the contributions, [old_value_], the bound mode
    and the objective variable are the same after the call, whatever the
    delta, the delta of deltas and the answer; the call moves only the
    delta cache, [old_delta_value_], [incremental_] and the running value
    of the operation. *)
Theorem Accept_keeps_synchronized (delta : option Assignment.t)
    (deltadelta : Assignment.t) (f f' : t X) (accepted : bool) :
  Accept solver delta deltadelta f = Some (accepted, f') →
  synchronized_part f' = synchronized_part f.
Proof.
  unfold Accept. destruct delta as [delta|]; [|by intros [= _ <-]].
  assert (HE : ∀ d cv ov cdv (g : t X) r,
            Evaluate solver d cv ov cdv g = Some r →
            synchronized_part r.2 = synchronized_part g).
  { intros d cv ov cdv g r. unfold Evaluate.
    destruct (cv =? Int64.kint64max); [by intros [= <-]|].
    destruct (Evaluate_loop _ _ _ _ _ _ _) as [g'|] eqn:E; [|done].
    cbn. intros [= <-]. cbn.
    by destruct (Evaluate_loop_synchronized _ _ _ _ _ _ _ E)
      as (H1 & _). }
  destruct (negb (Assignment.Empty deltadelta)).
  - destruct (negb (incremental_ f)).
    + destruct (Evaluate solver delta _ _ _ f) as [r|] eqn:E; [|done].
      cbn. pose proof (HE _ _ _ _ _ _ E) as H1.
      destruct r as [value g]. cbn in *.
      destruct (decide (Assignment.Objective delta = _));
        by intros [= _ <-].
    + destruct (Evaluate solver deltadelta _ _ _ f) as [r|] eqn:E; [|done].
      cbn. pose proof (HE _ _ _ _ _ _ E) as H1.
      destruct r as [value g]. cbn in *.
      destruct (decide (Assignment.Objective delta = _));
        by intros [= _ <-].
  - match goal with
    | |- context [Evaluate solver delta ?cv ?ov ?cdv ?g] =>
        destruct (Evaluate solver delta cv ov cdv g) as [r|] eqn:E; [|done]
    end.
    cbn [mbind option_bind]. pose proof (HE _ _ _ _ _ _ E) as H1.
    destruct r as [value g]. cbn [snd] in H1.
    assert (H2 : synchronized_part g = synchronized_part f).
    { rewrite H1. by destruct (incremental_ f). }
    destruct (decide (Assignment.Objective delta = _));
      intros [= _ <-]; exact H2.
Qed.
End ObjectiveFilterFrames.

Section SumFilter.
Import ObjectiveFilter BinaryObjectiveFilter.
Local Open Scope Z_scope.
Variable solver : Domains.

Lemma wrap_range (z : Z) :
  Int64.kint64min <= Int64.wrap z <= Int64.kint64max.
Proof.
  unfold Int64.wrap, Int64.kint64min, Int64.kint64max.
  pose proof (Z.mod_pos_bound (z + 2 ^ 63) (2 ^ 64) ltac:(lia)). lia.
Qed.

Lemma with_op_op (f : t fields) : with_op (op_ f) f = f.
Proof. by destruct f. Qed.

Lemma with_op_with_op (o o' : LSOperation.t) (f : t fields) :
  with_op o (with_op o' f) = with_op o f.
Proof. reflexivity. Qed.

(** The loop of [Evaluate] on a sum, read from the cache and without the
    delta cache: the running value moves by the changes of the elements
    that are left, and nothing else moves. *)
Lemma Evaluate_loop_sum (fuel : nat) (container : list IntVarElement.t)
    (i : nat) (f : t fields) (s : Z) :
  Int64.kint64min <= s <= Int64.kint64max →
  (length container <= i + fuel)%nat →
  Evaluate_loop solver fuel container Cache false i
    (with_op (LSOperation.SumOperation s) f)
  = Some (with_op
            (LSOperation.SumOperation
               (Int64.wrap
                  (s + total (contribution_change solver f
                                <$> drop i container))))
            f).
Proof.
  revert i s. induction fuel as [|fuel IH]; intros i s Hs Hfuel;
    cbn [Evaluate_loop].
  - rewrite lookup_ge_None_2 by lia. rewrite drop_ge by lia.
    cbn [fmap list_fmap total foldr]. rewrite Z.add_0_r.
    by rewrite wrap_small.
  - destruct (container !! i) as [e|] eqn:Ee.
    2:{ apply lookup_ge_None in Ee. rewrite drop_ge by lia.
        cbn [fmap list_fmap total foldr]. rewrite Z.add_0_r.
        by rewrite wrap_small. }
    rewrite (drop_S _ _ _ Ee), fmap_cons. cbn [total foldr].
    fold (total (contribution_change solver f <$> drop (S i) container)).
    set (rest := total _).
    unfold contribution_change at 1.
    change (base_ (with_op ?o f)) with (base_ f).
    change (primary_vars_size_ (with_op ?o f)) with (primary_vars_size_ f).
    destruct (IntVarLocalSearchFilter.FindIndex (base_ f)
                (IntVarElement.Var e)) as [index|].
    2:{ rewrite IH by (done || lia). fold rest. by rewrite Z.add_0_l. }
    destruct (index <? primary_vars_size_ f)%nat.
    2:{ rewrite IH by (done || lia). fold rest. by rewrite Z.add_0_l. }
    change (op_ (with_op ?o f)) with o.
    change (out_value (with_op ?o f) Cache index)
      with (default 0 (cache_ f !! index)).
    set (c := default 0 (cache_ f !! index)).
    cbn [LSOperation.Remove]. rewrite with_op_with_op.
    cbn [ObjectiveFilter.EvaluateElementValue BinaryObjectiveFilter.virtual].
    unfold BinaryObjectiveFilter.EvaluateElementValue.
    rewrite Ee. unfold new_contribution.
    change (derived_ (with_op ?o f)) with (derived_ f).
    destruct (IntVarElement.Activated e).
    + change (op_ (with_op ?o f)) with o. cbn [LSOperation.Update].
      rewrite with_op_with_op, IH by (apply wrap_range || lia).
      fold rest. do 3 f_equal.
      replace (s - c) with (s + - c) by lia.
      rewrite wrap_add_l, <- Z.add_assoc, wrap_add_l. f_equal. lia.
    + destruct (Bound solver (IntVarElement.Var e)).
      * change (op_ (with_op ?o f)) with o. cbn [LSOperation.Update].
        rewrite with_op_with_op, IH by (apply wrap_range || lia).
        fold rest. do 3 f_equal.
        replace (s - c) with (s + - c) by lia.
        rewrite wrap_add_l, <- Z.add_assoc, wrap_add_l. f_equal. lia.
      * rewrite IH by (apply wrap_range || lia).
        fold rest. do 3 f_equal.
        replace (s - c) with (s + - c) by lia.
        rewrite wrap_add_l. f_equal. lia.
Qed.

(** X17.  [Accept] of a binary objective filter over a sum, on a delta
    that comes with an empty delta of deltas and does not bound the
    objective itself, when [old_value_] is an int64 other than
    [kint64max]: the value that is tested against the bounds of the
    objective variable is [old_value_] plus, for every element of the
    delta about a primary variable, its new contribution less the cached
    one, modulo 2^64; it is left in [old_delta_value_]. *)
Theorem Accept_sum_value (delta : Assignment.t) (f : t fields) (s0 : Z) :
  op_ f = LSOperation.SumOperation s0 →
  Int64.kint64min <= old_value_ f < Int64.kint64max →
  Assignment.Objective delta ≠ Some (objective_ f) →
  let value :=
    Int64.wrap (old_value_ f
                + total (contribution_change solver f
                           <$> Assignment.IntVarContainer delta)) in
  ∃ f', Accept solver (Some delta) Assignment.empty f
        = Some (within_bound solver f value, f')
        ∧ old_delta_value_ f' = value
        ∧ incremental_ f' = false.
Proof.
  intros Hop Hold Hobj value. unfold Accept.
  cbn [Assignment.Empty Assignment.IntVarContainer Assignment.empty negb].
  set (f1 := if incremental_ f then _ else f).
  set (f2 := with_incremental false f1).
  assert (Hsame : old_value_ f2 = old_value_ f
                  ∧ op_ f2 = op_ f ∧ objective_ f2 = objective_ f
                  ∧ filter_enum_ f2 = filter_enum_ f
                  ∧ contribution_change solver f2
                    = contribution_change solver f).
  { subst f2 f1. by destruct (incremental_ f). }
  destruct Hsame as (Ho & Hop2 & Hobj2 & Hfe & Hcc).
  unfold Evaluate. rewrite Ho.
  rewrite (proj2 (Z.eqb_neq _ _)) by lia.
  rewrite Hop2, Hop. cbn [LSOperation.set_value].
  rewrite Evaluate_loop_sum by lia.
  rewrite drop_0, Hcc. fold value. cbn [mbind option_bind].
  cbn [op_ with_op LSOperation.value objective_ with_old_delta_value
       filter_enum_].
  rewrite Hobj2, Hfe. rewrite decide_False by done.
  eexists. split; [reflexivity|]. split; reflexivity.
Qed.

Lemma total_snoc (l : list Z) (c : Z) : total (l ++ [c]) = total l + c.
Proof.
  unfold total. induction l as [|x l IH]; cbn [app foldr]; [lia|].
  rewrite IH. lia.
Qed.

Lemma OnSynchronize_fold_sum (n : nat) (f : t fields) (s : Z) :
  op_ f = LSOperation.SumOperation s →
  let f' := foldl OnSynchronize_body f (seq 0 n) in
  base_ f' = base_ f ∧ derived_ f' = derived_ f
  ∧ primary_vars_size_ f' = primary_vars_size_ f
  ∧ length (cache_ f') = length (cache_ f)
  ∧ length (delta_cache_ f') = length (delta_cache_ f)
  ∧ op_ f'
    = LSOperation.SumOperation
        (if decide (n = 0)%nat then s
         else Int64.wrap
                (s + total ((λ i, SynchronizedElementValue f i)
                              <$> seq 0 n)))
  ∧ (∀ i, (i < n)%nat → (i < length (cache_ f))%nat →
          cache_ f' !! i = Some (SynchronizedElementValue f i))
  ∧ (∀ i, (i < n)%nat → (i < length (delta_cache_ f))%nat →
          delta_cache_ f' !! i = Some (SynchronizedElementValue f i)).
Proof.
  intros Hop. induction n as [|n IH]; cbn zeta.
  - cbn. do 5 (split; [done|]). split; [done|]. split; intros; lia.
  - rewrite seq_S, foldl_app. cbn [foldl plus].
    cbn zeta in IH.
    set (g := foldl OnSynchronize_body f (seq 0 n)) in *.
    destruct IH as (Hb & Hd & Hp & Hlc & Hld & Hopg & Hc & Hdc).
    unfold OnSynchronize_body.
    assert (Hv : SynchronizedElementValue g n = SynchronizedElementValue f n).
    { unfold SynchronizedElementValue. by rewrite Hb, Hd. }
    cbn [ObjectiveFilter.SynchronizedElementValue
           BinaryObjectiveFilter.virtual].
    rewrite Hv. set (c := SynchronizedElementValue f n).
    cbn [base_ derived_ primary_vars_size_ cache_ delta_cache_ op_ with_op
         with_cache with_delta_cache].
    rewrite !length_insert.
    do 5 (split; [done|]). split; [|split].
    + rewrite Hopg. cbn [LSOperation.Update]. f_equal.
      rewrite (decide_False (P := (S n = 0)%nat)) by lia.
      rewrite fmap_app. 
      change ((λ i, SynchronizedElementValue f i) <$> [n]) with [c].
      rewrite total_snoc.
      destruct (decide (n = 0)%nat) as [->|Hn].
      * cbn [seq fmap list_fmap total foldr]. done.
      * rewrite wrap_add_l. f_equal. lia.
    + intros i Hi Hl. destruct (decide (i = n)) as [->|Hne].
      * rewrite list_lookup_insert_eq by lia. done.
      * rewrite list_lookup_insert_ne by done. apply Hc; lia.
    + intros i Hi Hl. destruct (decide (i = n)) as [->|Hne].
      * rewrite list_lookup_insert_eq by lia. done.
      * rewrite list_lookup_insert_ne by done. apply Hdc; lia.
Qed.

(** X18.  [Synchronize] of a binary objective filter over a sum, whose
    caches have one entry per primary variable: the cache and the delta
    cache hold the contribution of every primary variable at its
    synchronised value, [old_value_] and [old_delta_value_] hold their sum
    modulo 2^64, which is also the running value of the operation, and the
    filter is out of its incremental mode. *)
Theorem Synchronize_sum (assignment : Assignment.t) (f : t fields)
    (s0 : Z) :
  op_ f = LSOperation.SumOperation s0 →
  length (cache_ f) = primary_vars_size_ f →
  length (delta_cache_ f) = primary_vars_size_ f →
  let f' := Synchronize assignment f in
  cache_ f' = contributions f'
  ∧ delta_cache_ f' = contributions f'
  ∧ old_value_ f' = Int64.wrap (total (contributions f'))
  ∧ old_delta_value_ f' = old_value_ f'
  ∧ op_ f' = LSOperation.SumOperation (old_value_ f')
  ∧ incremental_ f' = false
  ∧ base_ f'
    = IntVarLocalSearchFilter.Synchronize assignment (base_ f).
Proof.
  intros Hop Hlc Hld. cbn zeta. unfold Synchronize, OnSynchronize.
  set (f0 := with_op _ (with_base _ f)).
  assert (Hop0 : op_ f0 = LSOperation.SumOperation 0).
  { subst f0. cbn. by rewrite Hop. }
  destruct (OnSynchronize_fold_sum (primary_vars_size_ f0) f0 0 Hop0)
    as (Hb & Hd & Hp & Hlc' & Hld' & Hopg & Hc & Hdc).
  set (g := foldl OnSynchronize_body f0 (seq 0 (primary_vars_size_ f0)))
    in *.
  set (f' := with_incremental false _).
  assert (Hf' : cache_ f' = cache_ g ∧ delta_cache_ f' = delta_cache_ g
                ∧ old_value_ f' = LSOperation.value (op_ g)
                ∧ old_delta_value_ f' = LSOperation.value (op_ g)
                ∧ op_ f' = op_ g ∧ incremental_ f' = false
                ∧ base_ f' = base_ g ∧ derived_ f' = derived_ g
                ∧ primary_vars_size_ f' = primary_vars_size_ g)
    by done.
  destruct Hf' as (F1 & F2 & F3 & F4 & F5 & F6 & F7 & F8 & F9).
  assert (Hcontrib : contributions f'
                     = (λ i, SynchronizedElementValue f0 i)
                         <$> seq 0 (primary_vars_size_ f0)).
  { unfold contributions. rewrite F9, Hp.
    apply list_fmap_ext. intros _ i _.
    unfold SynchronizedElementValue. by rewrite F7, F8, Hb, Hd. }
  rewrite Hcontrib, F1, F2, F3, F4, F5, F6, F7.
  assert (Hval : LSOperation.value (op_ g)
                 = Int64.wrap
                     (total ((λ i, SynchronizedElementValue f0 i)
                               <$> seq 0 (primary_vars_size_ f0)))).
  { rewrite Hopg. cbn [LSOperation.value].
    destruct (decide (primary_vars_size_ f0 = 0)%nat) as [->|_]; [done|].
    by rewrite Z.add_0_l. }
  assert (Hp0 : primary_vars_size_ f0 = primary_vars_size_ f) by done.
  assert (Hlc0 : length (cache_ f0) = primary_vars_size_ f0) by done.
  assert (Hld0 : length (delta_cache_ f0) = primary_vars_size_ f0) by done.
  split; [|split; [|split; [|split; [|split; [|split]]]]].
  - apply list_eq. intros i.
    destruct (decide (i < primary_vars_size_ f0)%nat) as [Hi|Hi].
    + rewrite Hc by lia.
      rewrite list_lookup_fmap, lookup_seq_lt by done. done.
    + rewrite !lookup_ge_None_2; [done| |].
      * rewrite length_fmap, length_seq. lia.
      * lia.
  - apply list_eq. intros i.
    destruct (decide (i < primary_vars_size_ f0)%nat) as [Hi|Hi].
    + rewrite Hdc by lia.
      rewrite list_lookup_fmap, lookup_seq_lt by done. done.
    + rewrite !lookup_ge_None_2; [done| |].
      * rewrite length_fmap, length_seq. lia.
      * lia.
  - exact Hval.
  - reflexivity.
  - rewrite Hopg. reflexivity.
  - reflexivity.
  - rewrite Hb. reflexivity.
Qed.
End SumFilter.

(** ** Which local filters the driver calls *)

Section FilterCalls.
Import FindOneNeighbor.

Lemma FilterAccept_fold_accepting (filters called : list FilterAnswer) :
  forallb Accept filters = true →
  foldl FilterAccept_body (true, called) filters = (true, called ++ filters).
Proof.
  revert called. induction filters as [|f filters IH]; intros called Hall.
  - by rewrite app_nil_r.
  - cbn [forallb] in Hall. apply andb_true_iff in Hall as [Hf Hall].
    cbn [foldl]. unfold FilterAccept_body at 2. rewrite Hf.
    destruct (IsIncremental f); cbn [andb]; rewrite IH by done;
      by rewrite <- app_assoc.
Qed.

Lemma FilterAccept_fold_rejected (filters called : list FilterAnswer) :
  foldl FilterAccept_body (false, called) filters
  = (false, called ++ filter (λ f, IsIncremental f = true) filters).
Proof.
  revert called. induction filters as [|f filters IH]; intros called.
  - by rewrite app_nil_r.
  - cbn [foldl]. unfold FilterAccept_body at 2.
    destruct (IsIncremental f) eqn:E.
    + rewrite andb_false_r, IH, filter_cons_True by done.
      by rewrite <- app_assoc.
    + rewrite IH, filter_cons_False; [done|]. by rewrite E.
Qed.

(** X19.  [FilterAccept] answers true exactly when every local filter
    accepts.  As long as no filter has rejected the candidate all filters
    are called, in their order; after the first rejection the incremental
    filters that follow are still called, and the others are not. *)
Theorem FilterAccept_calls (filters : list FilterAnswer) :
  (FilterAccept filters).1 = forallb Accept filters
  ∧ (forallb Accept filters = true → (FilterAccept filters).2 = filters)
  ∧ ∀ before f after,
      filters = before ++ f :: after →
      forallb Accept before = true → Accept f = false →
      (FilterAccept filters).2
      = before ++ f :: filter (λ f, IsIncremental f = true) after.
Proof.
  split; [apply FilterAccept_all|]. split.
  - intros Hall. unfold FilterAccept.
    by rewrite FilterAccept_fold_accepting.
  - intros before f after -> Hbefore Hf. unfold FilterAccept.
    rewrite foldl_app, FilterAccept_fold_accepting by done.
    cbn [foldl app]. unfold FilterAccept_body at 2. rewrite Hf.
    destruct (IsIncremental f); cbn [andb];
      rewrite FilterAccept_fold_rejected; cbn [snd];
      by rewrite <- app_assoc.
Qed.
End FilterCalls.

(** ** The scan of MoveTowardTargetLS *)

Section MoveTowardTargetScan.
Import IntVarLocalSearchOperator DeltaContract.
Import MoveTowardTargetLS.
Local Open Scope Z_scope.

Lemma MakeOneNeighbor_scan (fuel : nat) (op : t fields) :
  0 <= variable_index_ (derived_ op) < Z.of_nat (Size op) →
  0 <= num_var_since_last_start_ (derived_ op) →
  rounds_left op <= Z.of_nat fuel →
  ∃ found op',
    MoveTowardTargetLS.MakeOneNeighbor fuel op = Some (found, op')
    ∧ if found
      then ∃ j, 1 <= j <= rounds_left op
             ∧ (∀ j', 1 <= j' < j → at_target op (scan op j'))
             ∧ ¬ at_target op (scan op j)
             ∧ op' = SetValue (scan op j)
                       (default 0 (target_ (derived_ op) !! scan op j))
                       (with_variable_index (Z.of_nat (scan op j))
                          (with_num_var
                             (num_var_since_last_start_ (derived_ op) + j)
                             op))
      else (∀ j, 1 <= j <= rounds_left op → at_target op (scan op j))
           ∧ ∃ index, op' = with_variable_index index
                              (with_num_var
                                 (Z.max (Z.of_nat (Size op))
                                    (num_var_since_last_start_ (derived_ op)))
                                 op).
Proof.
  revert op. induction fuel as [|fuel IH]; intros op Hc Hs Hfuel;
    unfold rounds_left in *; cbn [MoveTowardTargetLS.MakeOneNeighbor].
  - rewrite (proj2 (Z.ltb_ge _ _)) by lia.
    exists false, op. split; [done|]. split; [intros j Hj; lia|].
    exists (variable_index_ (derived_ op)).
    rewrite Z.max_r by lia. destruct op as [? ? ? ? ? ? ? ? ? [? ? ?]].
    cbn in *. unfold with_variable_index, with_num_var, with_derived. cbn.
    repeat (f_equal; try lia).
  - destruct (num_var_since_last_start_ (derived_ op) <? Z.of_nat (Size op))
      eqn:E.
    2:{ apply Z.ltb_ge in E.
        exists false, op. split; [done|]. split; [intros j Hj; lia|].
        exists (variable_index_ (derived_ op)).
        rewrite Z.max_r by lia. destruct op as [? ? ? ? ? ? ? ? ? [? ? ?]].
        cbn in *. unfold with_variable_index, with_num_var, with_derived.
        cbn. repeat (f_equal; try lia). }
    apply Z.ltb_lt in E.
    set (op1 := with_variable_index _ (with_num_var _ op)).
    assert (Hn : Size op1 = Size op) by done.
    assert (Hidx : variable_index_ (derived_ op1)
                   = (variable_index_ (derived_ op) + 1)
                     mod Z.of_nat (Size op)).
    { change (variable_index_ (derived_ op1))
        with (Z.rem (variable_index_ (derived_ op) + 1)
                (Z.of_nat (Size op))).
      by rewrite Z.rem_mod_nonneg by lia. }
    assert (Hnum : num_var_since_last_start_ (derived_ op1)
                   = num_var_since_last_start_ (derived_ op) + 1) by done.
    assert (Htar : target_ (derived_ op1) = target_ (derived_ op)) by done.
    assert (Hold : ∀ i, OldValue op1 i = OldValue op i) by done.
    assert (Hscan : ∀ j, 0 <= j → scan op1 j = scan op (j + 1)).
    { intros j Hj. unfold scan. rewrite Hn, Hidx. f_equal.
      rewrite Z.add_mod_idemp_l by lia. f_equal. lia. }
    assert (Hscan1 : Z.to_nat (variable_index_ (derived_ op1))
                     = scan op 1).
    { unfold scan. by rewrite Hidx. }
    rewrite Hscan1, Htar, Hold.
    destruct (OldValue op (scan op 1)
              =? default 0 (target_ (derived_ op) !! scan op 1)) eqn:Ev;
      cbn [negb].
    + apply Z.eqb_eq in Ev.
      destruct (IH op1) as (found & op' & Hr & Hspec).
      { rewrite Hn, Hidx. apply Z.mod_pos_bound. lia. }
      { lia. }
      { rewrite Hn, Hnum. lia. }
      exists found, op'. split; [exact Hr|].
      rewrite Hn, Hnum in Hspec.
      destruct found.
      * destruct Hspec as (j & Hj & Hbefore & Hat & ->).
        exists (j + 1). split; [lia|]. split; [|split].
        -- intros j' Hj'. destruct (decide (j' = 1)) as [->|Hne].
           ++ exact Ev.
           ++ replace j' with ((j' - 1) + 1) by lia.
              rewrite <- Hscan by lia.
              specialize (Hbefore (j' - 1) ltac:(lia)).
              unfold at_target in *. by rewrite Htar, Hold in Hbefore.
        -- rewrite <- Hscan by lia. unfold at_target in *.
           by rewrite Htar, Hold in Hat.
        -- rewrite Hscan, Htar by lia. f_equal.
           subst op1. unfold with_variable_index, with_num_var, with_derived.
           cbn. repeat (f_equal; try lia).
      * destruct Hspec as (Hall & index & ->). split.
        -- intros j Hj. destruct (decide (j = 1)) as [->|Hne];
             [exact Ev|].
           replace j with ((j - 1) + 1) by lia.
           rewrite <- Hscan by lia.
           specialize (Hall (j - 1) ltac:(lia)).
           unfold at_target in *. by rewrite Htar, Hold in Hall.
        -- exists index. subst op1.
           unfold with_variable_index, with_num_var, with_derived.
           cbn. repeat (f_equal; try lia).
    + apply Z.eqb_neq in Ev.
      eexists true, _. split; [reflexivity|].
      exists 1. split; [lia|]. split; [intros j' Hj'; lia|].
      split; [exact Ev|]. f_equal.
      assert (Hz : Z.of_nat (scan op 1) = variable_index_ (derived_ op1)).
      { unfold scan. rewrite Hidx, Z2Nat.id; [done|].
        apply Z.mod_pos_bound. lia. }
      rewrite Hz. reflexivity.
Qed.

(** X20.  [MakeOneNeighbor] of MoveTowardTargetLS, with the cursor on an
    index and enough fuel for the rounds that are left in the episode: it
    returns.  It looks at the indices after the cursor one by one, around
    the end of the array, for as many rounds as the episode has left; it
    returns true at the first one whose reference value is not the target
    value, having staged the target value there and nothing else, with the
    cursor on that index and the rounds counted; it returns false when
    there is none, having staged nothing. *)
Theorem MoveTowardTarget_scan (fuel : nat) (op : t fields) :
  0 <= variable_index_ (derived_ op) < Z.of_nat (Size op) →
  0 <= num_var_since_last_start_ (derived_ op) →
  rounds_left op <= Z.of_nat fuel →
  ∃ found op',
    MoveTowardTargetLS.MakeOneNeighbor fuel op = Some (found, op')
    ∧ if found
      then ∃ j, 1 <= j <= rounds_left op
             ∧ (∀ j', 1 <= j' < j → at_target op (scan op j'))
             ∧ ¬ at_target op (scan op j)
             ∧ op' = SetValue (scan op j)
                       (default 0 (target_ (derived_ op) !! scan op j))
                       (with_variable_index (Z.of_nat (scan op j))
                          (with_num_var
                             (num_var_since_last_start_ (derived_ op) + j)
                             op))
      else (∀ j, 1 <= j <= rounds_left op → at_target op (scan op j))
           ∧ ∃ index, op' = with_variable_index index
                              (with_num_var
                                 (Z.max (Z.of_nat (Size op))
                                    (num_var_since_last_start_ (derived_ op)))
                                 op).
Proof. apply MakeOneNeighbor_scan. Qed.

Lemma Create_Some (vars : list IntVar) (targets : list Z)
    (uninit uninit_old : list Z) (garbage : Z) :
  length targets = length vars →
  MoveTowardTargetLS.Create vars targets uninit uninit_old garbage
  = Some (IntVarLocalSearchOperator.Create vars uninit uninit_old
            (Fields targets (Z.of_nat (length vars) - 1) garbage)).
Proof. intros H. unfold MoveTowardTargetLS.Create. by rewrite decide_True. Qed.

(** X21.  The operator that [MakeMoveTowardTargetOperator] builds from a
    target assignment: the constructor's check on the sizes cannot fail.
    Built from an assignment without variables it fails in every [Start],
    at the check that the cursor is not negative.  Otherwise, started on
    the target assignment itself, it has no neighbor: the first
    [MakeNextNeighbor] returns false and leaves the two assignments as
    they were. *)
Theorem MoveTowardTarget_own_target (target : Assignment.t)
    (uninit uninit_old : list Z) (garbage : Z) :
  ∃ op0,
    Solver.MakeMoveTowardTargetOperator target uninit uninit_old garbage
    = Some op0
    ∧ (Assignment.IntVarContainer target = [] →
       ∀ assignment, Start assignment op0 = None)
    ∧ (Assignment.IntVarContainer target ≠ [] →
       ∃ op1, Start target op0 = Some op1
         ∧ ∀ fuel delta deltadelta,
             (Assignment.Size target <= fuel)%nat →
             ∃ op2, MakeNextNeighbor (S fuel) op1 delta deltadelta
                    = Some (false, op2, delta, deltadelta)).
Proof.
  unfold Solver.MakeMoveTowardTargetOperator.
  set (l := Assignment.IntVarContainer target).
  rewrite Create_Some by (by rewrite !length_fmap).
  set (op0 := IntVarLocalSearchOperator.Create _ _ _ _).
  exists op0. split; [done|].
  assert (Hsize : Size op0 = length l).
  { unfold Size. subst op0. cbn. by rewrite length_fmap. }
  split.
  - intros Hnil assignment. unfold Start.
    rewrite Hsize, Hnil. cbn [length]. rewrite decide_True by lia.
    cbn [seq foldl mbind option_bind IntVarLocalSearchOperator.OnStart
         MoveTowardTargetLS.virtual].
    unfold MoveTowardTargetLS.OnStart. rewrite decide_False; [done|].
    subst op0. cbn. rewrite length_fmap, Hnil. cbn. lia.
  - intros Hne.
    assert (Hpos : (0 < length l)%nat).
    { destruct l; [done|cbn; lia]. }
    assert (Hvar : ∀ i e, l !! i = Some e →
                          Var op0 i = IntVarElement.Var e).
    { intros i e He. unfold Var. subst op0. cbn.
      unfold IntVar in *. by rewrite list_lookup_fmap, He. }
    destruct (Start_fold_found target (seq 0 (Size op0)) op0)
      as (op' & Hloop & Hvars & Hd).
    { intros i Hi%elem_of_seq. unfold Assignment.Size. fold l.
      split; [lia|].
      destruct (lookup_lt_is_Some_2 l i ltac:(lia)) as [e He].
      rewrite (Hvar i e He).
      apply (Contains_Element target i e). exact He. }
    assert (Hst : staged op').
    { pose proof Hloop as Hl2. rewrite Hsize in Hl2. unfold op0 in Hl2.
      rewrite <- (length_fmap IntVarElement.Var l) in Hl2.
      eapply staged_Create_Start. exact Hl2. }
    assert (Hsize' : Size op' = length l).
    { unfold Size in *. by rewrite Hvars. }
    assert (Hat : ∀ i, (i < length l)%nat →
                       OldValue op' i
                       = default 0 (target_ (derived_ op') !! i)).
    { intros i Hi.
      destruct (Start_loop_loads target (Size op0) op0 op')
        with (j := i) as (e & _ & _ & Hslot & _ & Hold & _).
      - subst op0. unfold Size. cbn.
        rewrite length_take, length_app, length_replicate. lia.
      - subst op0. unfold Size. cbn.
        rewrite length_take, length_app, length_replicate. lia.
      - subst op0. unfold Size. cbn. by rewrite length_replicate.
      - subst op0. unfold Size. cbn. by rewrite length_replicate.
      - exact Hloop.
      - lia.
      - destruct (lookup_lt_is_Some_2 l i Hi) as [e0 He0].
        rewrite (Hslot e0 He0) in Hold by (by rewrite (Hvar i e0 He0)).
        rewrite Hold, Hd. subst op0. cbn.
        by rewrite list_lookup_fmap, He0. }
    unfold Start.
    rewrite decide_True by (unfold Assignment.Size; fold l; lia).
    rewrite Hloop.
    cbn [mbind option_bind IntVarLocalSearchOperator.OnStart
         MoveTowardTargetLS.virtual].
    unfold MoveTowardTargetLS.OnStart.
    assert (Hidx : variable_index_ (derived_ op')
                   = Z.of_nat (length l) - 1).
    { rewrite Hd. subst op0. cbn. by rewrite length_fmap. }
    rewrite decide_True by (rewrite Hidx, Hsize'; lia).
    eexists. split; [reflexivity|].
    intros fuel delta deltadelta Hfuel.
    rewrite MakeNextNeighbor_unfold.
    set (op1 := with_num_var 0 op').
    assert (Hst1 : staged op1) by (by apply staged_with_derived).
    pose proof (RevertChanges_derived true op1) as Hdr.
    destruct (RevertChanges_keeps_reference true op1) as (Hv & Ho & Hw).
    set (r := RevertChanges true op1) in *.
    assert (Hsr : Size r = length l).
    { unfold Size. rewrite Hv. exact Hsize'. }
    destruct (MakeOneNeighbor_scan fuel r) as (found & op2 & Hr & Hspec).
    { rewrite Hdr, Hsr. subst op1. cbn. rewrite Hidx. lia. }
    { rewrite Hdr. subst op1. cbn. lia. }
    { unfold rounds_left. rewrite Hdr, Hsr. subst op1. cbn.
      unfold Assignment.Size in Hfuel. fold l in Hfuel. lia. }
    cbn [IntVarLocalSearchOperator.MakeOneNeighbor
         MoveTowardTargetLS.virtual]. rewrite Hr.
    destruct found.
    + exfalso. destruct Hspec as (j & Hj & _ & Hnot & _). apply Hnot.
      unfold at_target. unfold OldValue at 1. rewrite Ho.
      change (old_values_ op1) with (old_values_ op').
      fold (OldValue op' (scan r j)). rewrite Hdr.
      change (target_ (derived_ op1)) with (target_ (derived_ op')).
      apply Hat. unfold scan. rewrite Hsr.
      pose proof (Z.mod_pos_bound (variable_index_ (derived_ r) + j)
                    (Z.of_nat (length l)) ltac:(lia)). lia.
    + by exists op2.
Qed.
End MoveTowardTargetScan.

(** ** The edits of a path *)

Section PathEdits.
Import IntVarLocalSearchOperator PathOperator.
Local Open Scope Z_scope.
Context {Y : Type}.

Lemma Value_SetValue {X : Type} (i k : nat) (v : Z) (op : t X) :
  Value (SetValue i v op) k
  = if decide (k = i ∧ (i < length (values_ op))%nat) then v
    else Value op k.
Proof.
  unfold SetValue.
  destruct (MarkChange_arrays i (with_values (<[i:=v]> (values_ op)) op))
    as (_ & F & _).
  unfold Value. rewrite F. cbn.
  destruct (decide (k = i ∧ (i < length (values_ op))%nat)) as [[-> Hi]|Hn].
  - by rewrite list_lookup_insert_eq.
  - destruct (decide (k = i)) as [->|Hne].
    + rewrite list_insert_ge; [done|]. lia.
    + by rewrite list_lookup_insert_ne.
Qed.

Lemma length_values_SetValue {X : Type} (i : nat) (v : Z) (op : t X) :
  length (values_ (SetValue i v op)) = length (values_ op).
Proof.
  unfold SetValue.
  destruct (MarkChange_arrays i (with_values (<[i:=v]> (values_ op)) op))
    as (_ & F & _).
  rewrite F. cbn. by rewrite length_insert.
Qed.

Lemma SetNext_shape (from to path : Z) (op : t (fields Y)) :
  number_of_nexts (SetNext from to path op) = number_of_nexts op
  ∧ ignore_path_vars (SetNext from to path op) = ignore_path_vars op
  ∧ length (values_ (SetNext from to path op)) = length (values_ op).
Proof.
  destruct (SetNext_frame from to path op) as [_ Hd].
  unfold number_of_nexts, ignore_path_vars. rewrite Hd.
  split; [done|]. split; [done|].
  unfold SetNext.
  destruct (negb (PathOperator.ignore_path_vars _));
    by rewrite ?length_values_SetValue.
Qed.

Lemma IsPathEnd_SetNext (from to path : Z) (op : t (fields Y)) (i : Z) :
  IsPathEnd (SetNext from to path op) i = IsPathEnd op i.
Proof.
  unfold IsPathEnd.
  by destruct (SetNext_shape from to path op) as (-> & _).
Qed.

(** [SetNext] on a node of the next-vector: the successor of the node is
    set, and the successor of no other node moves. *)
Lemma Next_SetNext (from to path : Z) (op : t (fields Y)) (j : Z) :
  0 <= from < number_of_nexts op →
  holds_nexts op →
  0 <= j < number_of_nexts op →
  Next (SetNext from to path op) j
  = if decide (j = from) then to else Next op j.
Proof.
  intros Hf Hlen Hj. unfold holds_nexts in Hlen. unfold SetNext, Next.
  assert (H1 : Value (SetValue (Z.to_nat from) to op) (Z.to_nat j)
               = if decide (j = from) then to else Value op (Z.to_nat j)).
  { rewrite Value_SetValue.
    destruct (decide (j = from)) as [->|Hne].
    - rewrite decide_True; [done|]. split; [done|lia].
    - rewrite decide_False; [done|]. intros [? _]. lia. }
  destruct (negb (ignore_path_vars _)); [|exact H1].
  rewrite Value_SetValue, decide_False; [exact H1|].
  intros [Heq _].
  change (number_of_nexts (SetValue (Z.to_nat from) to op))
    with (PathOperator.number_of_nexts_
            (derived_ (SetValue (Z.to_nat from) to op))) in Heq.
  unfold SetValue in Heq. rewrite MarkChange_derived in Heq.
  cbn in Heq. unfold number_of_nexts in *. lia.
Qed.

Lemma chain_nodes (op : t (fields Y)) (b e : Z) (m : nat) :
  next_vector op → 0 <= b → chain op b e m →
  (∀ j, (j < m)%nat → 0 <= walk op b j < number_of_nexts op)
  ∧ (∀ i j, (i < j)%nat → (j <= m)%nat → walk op b i ≠ walk op b j)
  ∧ (m <= Z.to_nat (number_of_nexts op))%nat
  ∧ 0 <= e.
Proof.
  intros Hnv Hb (Hm & Hway & Hends).
  pose proof (walk_in_range op b m Hnv Hb Hends) as Hrange.
  split; [exact Hrange|]. split.
  { intros i j Hij Hjm. by apply (walk_injective op b e m). }
  split; [by apply (chain_length_bound op b e m)|].
  destruct m as [|m]; [cbn in Hm; lia|].
  rewrite walk_S in Hm. rewrite <- Hm. apply Hnv. apply Hrange. lia.
Qed.

Lemma chain_valid (op : t (fields Y)) (b e x : Z) (m : nat) :
  chain op b e m → (1 <= m)%nat → b ≠ x →
  (∀ j, (1 <= j <= m)%nat → walk op b j ≠ x) →
  valid_chain op b e x.
Proof.
  intros (Hm & Hway & Hends) H1 Hbx Hx. split; [done|].
  exists m. done.
Qed.

(** The chain check accepts the valid chains. *)
Lemma CheckChainValidity_valid (op : t (fields Y)) (fuel : nat)
    (b e x : Z) :
  next_vector op → 0 <= b →
  (Z.to_nat (number_of_nexts op) + 2 <= fuel)%nat →
  valid_chain op b e x →
  CheckChainValidity fuel op b e x = Some true.
Proof.
  intros Hnv Hb Hfuel Hval. unfold CheckChainValidity.
  pose proof Hval as (Hbx & m & Hm1 & Hm & Hway & Hx & Hends).
  assert (Hbe : b ≠ e).
  { intros ->. apply (Hway 0%nat); [lia|done]. }
  rewrite (proj2 (Z.eqb_neq _ _) Hbe), (proj2 (Z.eqb_neq _ _) Hbx).
  cbn [orb].
  destruct (CheckChainValidity_loop_spec op b e x fuel 0)
    as (r & Hr & Hfalse & _);
    [apply Hnv|intros j Hj; lia|intros j Hj; lia|intros j Hj; lia|lia|lia|].
  change (walk op b 0) with b in Hr. change (Z.of_nat 0) with 0 in Hr.
  rewrite Hr. destruct r; [done|]. exfalso.
  apply (valid_chain_not_rejected op b e x Hnv Hb Hval).
  right. by apply Hfalse.
Qed.

Lemma same_nexts_but_SetNext (skip : Z → Prop) (op0 o : t (fields Y))
    (from to path : Z) :
  holds_nexts op0 → same_nexts_but skip op0 o →
  0 <= from < number_of_nexts op0 →
  holds_nexts (SetNext from to path o)
  ∧ Next (SetNext from to path o) from = to
  ∧ (∀ i, 0 <= i < number_of_nexts op0 → i ≠ from →
          Next (SetNext from to path o) i = Next o i)
  ∧ same_nexts_but (λ i, skip i ∨ i = from) op0 (SetNext from to path o).
Proof.
  intros Hlen (Hn & Hl & Hsame) Hf.
  destruct (SetNext_shape from to path o) as (Sn & _ & Sl).
  assert (Hlo : holds_nexts o).
  { unfold holds_nexts in *. rewrite Hn, Hl. exact Hlen. }
  assert (Hset : ∀ i, 0 <= i < number_of_nexts op0 →
                      Next (SetNext from to path o) i
                      = if decide (i = from) then to else Next o i).
  { intros i Hi. apply Next_SetNext; [by rewrite Hn|done|by rewrite Hn]. }
  split. { unfold holds_nexts in *. rewrite Sn, Sl. exact Hlo. }
  split. { rewrite Hset by done. by rewrite decide_True. }
  split. { intros i Hi Hne. rewrite Hset by done. by rewrite decide_False. }
  split; [by rewrite Sn|]. split; [by rewrite Sl|].
  intros i Hi Hskip. rewrite Hset by done.
  rewrite decide_False by tauto. apply Hsame; [done|cbv beta; tauto].
Qed.

Lemma same_nexts_but_weaken (skip skip' : Z → Prop) (op0 o : t (fields Y)) :
  (∀ i, skip i → skip' i) →
  same_nexts_but skip op0 o → same_nexts_but skip' op0 o.
Proof.
  intros Hsub (Hn & Hl & Hsame). split; [done|]. split; [done|].
  intros i Hi Hskip. apply Hsame; [done|]. intros H. apply Hskip.
  by apply Hsub.
Qed.

Lemma same_nexts_but_refl (op : t (fields Y)) :
  same_nexts_but (λ _, False) op op.
Proof. split; [done|]. split; [done|]. done. Qed.

Lemma ReverseChain_loop_reverses (op0 : t (fields Y)) (b a path : Z)
    (m d : nat) :
  next_vector op0 → 0 <= b → holds_nexts op0 → chain op0 b a m →
  ∀ (fuel k : nat) (o : t (fields Y)),
    (1 <= k)%nat → (k + d + 1 = m)%nat → (d <= fuel)%nat →
    reversed_up_to op0 o b a k →
    ∃ o', ReverseChain_loop fuel o a path (walk op0 b k)
            (walk op0 b (S k))
          = Some (o', walk op0 b (m - 1))
          ∧ reversed_up_to op0 o' b a (m - 1).
Proof.
  intros Hnv Hb Hlen Hch.
  destruct (chain_nodes op0 b a m Hnv Hb Hch) as (Hrange & Hinj & Hmn & Ha).
  destruct Hch as (Hm & Hway & Hends).
  induction d as [|d IH]; intros fuel k o Hk Hkd Hfuel Hinv.
  - assert (Hlast : walk op0 b (S k) = a).
    { replace (S k) with m by lia. exact Hm. }
    exists o. replace (m - 1)%nat with k by lia. split; [|done].
    destruct fuel; cbn [ReverseChain_loop]; by rewrite Hlast, Z.eqb_refl.
  - destruct fuel as [|fuel]; [lia|]. cbn [ReverseChain_loop].
    assert (Hne : walk op0 b (S k) ≠ a) by (apply Hway; lia).
    rewrite (proj2 (Z.eqb_neq _ _) Hne).
    destruct Hinv as (Hsame & H1 & Hback).
    assert (Hnext : Next o (walk op0 b (S k)) = walk op0 b (S (S k))).
    { destruct Hsame as (_ & _ & Hother).
      rewrite Hother; [by rewrite walk_S|apply Hrange; lia|].
      intros (j & Hj & Heq). revert Heq. apply not_eq_sym.
      apply Hinj; lia. }
    rewrite Hnext.
    apply (IH fuel (S k)); [lia|lia|lia|].
    destruct (same_nexts_but_SetNext _ op0 o (walk op0 b (S k))
                (walk op0 b k) path Hlen Hsame)
      as (_ & Hat & Hoff & Hsame'); [apply Hrange; lia|].
    split; [|split].
    + eapply same_nexts_but_weaken; [|exact Hsame'].
      intros i [(j & Hj & ->)| ->]; [exists j|exists (S k)];
        (split; [lia|done]).
    + rewrite Hoff; [done|apply Hrange; lia|]. apply Hinj; lia.
    + intros j Hj. destruct (decide (j = S k)) as [->|Hjk].
      * rewrite Hat. f_equal. lia.
      * rewrite Hoff; [apply Hback; lia|apply Hrange; lia|].
        apply Hinj; lia.
Qed.

(** [ReverseChain] on a chain of [m] steps from the node before the chain
    to the node after it. *)
Lemma ReverseChain_reverses_spec (op : t (fields Y)) (b a : Z) (m : nat) :
  next_vector op → 0 <= b → holds_nexts op → chain op b a m →
  (1 <= m)%nat →
  if decide (m = 1)%nat
  then ReverseChain op b a = Some (false, op, None)
  else ∃ op',
      ReverseChain op b a = Some (true, op', Some (walk op b (m - 1)))
      ∧ (∀ j, (1 <= j < m)%nat → walk op' b j = walk op b (m - j))
      ∧ walk op' b m = a
      ∧ same_nexts_but (λ i, ∃ j, (j < m)%nat ∧ i = walk op b j) op op'.
Proof.
  intros Hnv Hb Hlen Hch Hm1.
  destruct (chain_nodes op b a m Hnv Hb Hch) as (Hrange & Hinj & Hmn & Ha).
  pose proof Hch as (Hm & Hway & Hends).
  assert (Hvalid : valid_chain op b a (-1)).
  { apply (chain_valid op b a (-1) m Hch Hm1); [lia|].
    intros j Hj. destruct (decide (j = m)) as [->|Hne]; [lia|].
    pose proof (Hrange j ltac:(lia)). lia. }
  unfold ReverseChain.
  rewrite (CheckChainValidity_valid op (chain_fuel op) b a (-1));
    [|done|done|unfold chain_fuel; lia|done].
  change (Next op b) with (walk op b 1).
  destruct (decide (m = 1)%nat) as [->|Hm2].
  { by rewrite Hm, Z.eqb_refl. }
  assert (H1a : walk op b 1 ≠ a) by (apply Hway; lia).
  rewrite (proj2 (Z.eqb_neq _ _) H1a).
  change (Next op (walk op b 1)) with (walk op b 2).
  set (path := Path op b).
  set (op1 := SetNext (walk op b 1) a path op).
  destruct (same_nexts_but_SetNext _ op op (walk op b 1) a path Hlen
              (same_nexts_but_refl op))
    as (_ & Hat1 & Hoff1 & Hsame1); [apply Hrange; lia|].
  fold op1 in Hat1, Hoff1, Hsame1.
  assert (Hinv1 : reversed_up_to op op1 b a 1).
  { split; [|split; [done|intros j Hj; lia]].
    eapply same_nexts_but_weaken; [|exact Hsame1].
    intros i [[]| ->]. exists 1%nat. split; [lia|done]. }
  destruct (ReverseChain_loop_reverses op b a path m (m - 2) Hnv Hb Hlen Hch
              (chain_fuel op1) 1 op1) as (o' & Hloop & Hinv);
    [lia|lia| |done|].
  { unfold chain_fuel. destruct Hsame1 as (-> & _). lia. }
  rewrite Hloop. cbn [mbind option_bind].
  destruct Hinv as (Hsame & Hfirst & Hback).
  set (op' := SetNext b (walk op b (m - 1)) path o').
  exists op'.
  destruct (same_nexts_but_SetNext _ op o' b (walk op b (m - 1)) path Hlen
              Hsame)
    as (_ & Hnb & Hoff & Hsame'); [apply (Hrange 0%nat); lia|].
  fold op' in Hnb, Hoff, Hsame'.
  assert (Hnc : ∀ j, (1 <= j < m)%nat →
                     Next op' (walk op b j)
                     = if decide (j = 1)%nat then a
                       else walk op b (j - 1)).
  { intros j Hj. rewrite Hoff; [|apply Hrange; lia|].
    2:{ apply not_eq_sym. apply (Hinj 0%nat j); lia. }
    destruct (decide (j = 1)%nat) as [->|Hj1]; [done|].
    apply Hback. lia. }
  assert (Hwalk : ∀ j, (1 <= j < m)%nat →
                       walk op' b j = walk op b (m - j)).
  { intros j. induction j as [|j IHj]; intros Hj; [lia|].
    rewrite walk_S. destruct (decide (j = 0)%nat) as [->|Hj0].
    - change (walk op' b 0) with b. rewrite Hnb. done.
    - rewrite IHj by lia. rewrite Hnc by lia.
      rewrite decide_False by lia. f_equal. lia. }
  split; [done|]. split; [exact Hwalk|]. split.
  - replace m with (S (m - 1)) at 1 by lia. rewrite walk_S.
    rewrite Hwalk by lia. replace (m - (m - 1))%nat with 1%nat by lia.
    rewrite Hnc by lia. by rewrite decide_True.
  - eapply same_nexts_but_weaken; [|exact Hsame'].
    intros i [(j & Hj & ->)| ->]; [exists j|exists 0%nat];
      (split; [lia|done]).
Qed.

(** X22.  [ReverseChain(before_chain, after_chain, chain_last)] on a chain of
    [m] steps from [before_chain] to [after_chain].  A chain of one step
    holds no node: the call answers false and stages nothing.  Otherwise
    it answers true, [chain_last] is the node that stood before
    [after_chain], the nodes between [before_chain] and [after_chain] are
    met in the opposite order, and the successor of no node outside of
    the chain has moved. *)
Theorem ReverseChain_reverses (op : t (fields Y)) (b a : Z) (m : nat) :
  next_vector op → 0 <= b → holds_nexts op → chain op b a m →
  (1 <= m)%nat →
  if decide (m = 1)%nat
  then ReverseChain op b a = Some (false, op, None)
  else ∃ op',
      ReverseChain op b a = Some (true, op', Some (walk op b (m - 1)))
      ∧ (∀ j, (1 <= j < m)%nat → walk op' b j = walk op b (m - j))
      ∧ walk op' b m = a
      ∧ same_nexts_but (λ i, ∃ j, (j < m)%nat ∧ i = walk op b j) op op'.
Proof. exact (ReverseChain_reverses_spec op b a m). Qed.

Lemma same_nexts_but_holds (skip : Z → Prop) (op0 o : t (fields Y)) :
  holds_nexts op0 → same_nexts_but skip op0 o → holds_nexts o.
Proof.
  intros Hlen (Hn & Hl & _). unfold holds_nexts in *.
  rewrite Hn, Hl. exact Hlen.
Qed.

Lemma same_nexts_but_trans (skip skip' : Z → Prop)
    (op0 o o' : t (fields Y)) :
  same_nexts_but skip op0 o → same_nexts_but skip' o o' →
  same_nexts_but (λ i, skip i ∨ skip' i) op0 o'.
Proof.
  intros (Hn & Hl & Hsame) (Hn' & Hl' & Hsame').
  split; [congruence|]. split; [congruence|].
  intros i Hi Hskip. rewrite Hsame'; [|by rewrite Hn|cbv beta; tauto].
  apply Hsame; [done|cbv beta; tauto].
Qed.

(** The loop of [MoveChain] stamps the path on the moved nodes and moves
    no successor: [c] numbers the nodes it goes through. *)
Lemma MoveChain_loop_restamps (o2 : t (fields Y)) (e dpath : Z)
    (c : nat → Z) (m : nat) :
  holds_nexts o2 →
  (∀ j, (1 <= j <= m)%nat → 0 <= c j < number_of_nexts o2) →
  c m = e → (∀ j, (1 <= j < m)%nat → c j ≠ e) →
  (∀ j, (1 <= j < m)%nat → Next o2 (c j) = c (S j)) →
  ∀ (d fuel k : nat) (o : t (fields Y)),
    (1 <= k)%nat → (k + d = m)%nat → (d <= fuel)%nat →
    same_nexts_but (λ _, False) o2 o →
    ∃ o', MoveChain_loop fuel o e dpath (c k) (Next o (c k)) = Some o'
          ∧ same_nexts_but (λ _, False) o2 o'.
Proof.
  intros Hlen Hrange Hm Hway Hnext.
  induction d as [|d IH]; intros fuel k o Hk Hkd Hfuel Hsame.
  - exists o. split; [|done]. replace k with m by lia.
    destruct fuel; cbn [MoveChain_loop]; by rewrite Hm, Z.eqb_refl.
  - destruct fuel as [|fuel]; [lia|]. cbn [MoveChain_loop].
    rewrite (proj2 (Z.eqb_neq _ _) (Hway k ltac:(lia))).
    assert (Hk1 : Next o (c k) = c (S k)).
    { destruct Hsame as (_ & _ & Hs).
      rewrite Hs; [|apply Hrange; lia|cbv beta; tauto].
      apply Hnext. lia. }
    rewrite Hk1. apply (IH fuel (S k)); [lia|lia|lia|].
    destruct (same_nexts_but_SetNext _ o2 o (c k) (c (S k)) dpath Hlen Hsame)
      as (_ & Hat & Hoff & (Sn & Sl & _)); [apply Hrange; lia|].
    split; [done|]. split; [done|]. intros i Hi _.
    destruct (decide (i = c k)) as [->|Hne].
    + rewrite Hat. symmetry. apply Hnext. lia.
    + rewrite Hoff by done. destruct Hsame as (_ & _ & Hs).
      apply Hs; [done|intros []].
Qed.

(** [MoveChain] on a chain whose end and destination are no path ends,
    the destination outside of the chain. *)
Lemma MoveChain_moves_spec (op : t (fields Y)) (b e d : Z) (m : nat) :
  next_vector op → 0 <= b → holds_nexts op → chain op b e m →
  (1 <= m)%nat →
  IsPathEnd op e = false → 0 <= d → IsPathEnd op d = false →
  (∀ j, (j <= m)%nat → walk op b j ≠ d) →
  ∃ op', MoveChain op b e d = Some (true, op')
         ∧ Next op' b = Next op e
         ∧ Next op' d = Next op b
         ∧ Next op' e = Next op d
         ∧ same_nexts_but (λ i, i = b ∨ i = e ∨ i = d) op op'.
Proof.
  intros Hnv Hb Hlen Hch Hm1 Hende Hd Hendd Hout.
  destruct (chain_nodes op b e m Hnv Hb Hch) as (Hrange & Hinj & Hmn & He).
  pose proof Hch as (Hm & Hway & Hends).
  assert (Hvalid : valid_chain op b e d).
  { apply (chain_valid op b e d m Hch Hm1).
    - apply (Hout 0%nat). lia.
    - intros j Hj. apply Hout. lia. }
  assert (Hbr : 0 <= b < number_of_nexts op) by (apply (Hrange 0%nat); lia).
  assert (Her : 0 <= e < number_of_nexts op).
  { unfold IsPathEnd in Hende. apply Z.leb_gt in Hende. lia. }
  assert (Hdr : 0 <= d < number_of_nexts op).
  { unfold IsPathEnd in Hendd. apply Z.leb_gt in Hendd. lia. }
  assert (Hbe : b ≠ e).
  { rewrite <- Hm. apply (Hinj 0%nat m); lia. }
  assert (Hbd : b ≠ d) by (apply (Hout 0%nat); lia).
  assert (Hed : e ≠ d) by (rewrite <- Hm; apply Hout; lia).
  unfold MoveChain.
  rewrite (CheckChainValidity_valid op (chain_fuel op) b e d);
    [|done|done|unfold chain_fuel; lia|done].
  cbn [mbind option_bind]. rewrite Hende, Hendd. cbn [negb andb].
  set (dpath := Path op d).
  set (op1 := SetNext e (Next op d) dpath op).
  destruct (same_nexts_but_SetNext _ op op e (Next op d) dpath Hlen
              (same_nexts_but_refl op) Her)
    as (Hlen1 & Hat1 & Hoff1 & Hsame1).
  fold op1 in Hlen1, Hat1, Hoff1, Hsame1.
  assert (Hb1 : Next op1 b = Next op b) by (by apply Hoff1).
  rewrite Hb1.
  set (o2 := SetNext d (Next op b) dpath op1).
  destruct (same_nexts_but_SetNext _ op op1 d (Next op b) dpath Hlen
              Hsame1 Hdr)
    as (Hlen2 & Hat2 & Hoff2 & Hsame2).
  fold o2 in Hlen2, Hat2, Hoff2, Hsame2.
  assert (Hloop : ∃ o',
    (if negb (ignore_path_vars op1)
     then MoveChain_loop (chain_fuel op1) op1 e dpath d (Next op b)
     else Some o2) = Some o'
    ∧ same_nexts_but (λ _, False) o2 o').
  { destruct (negb (ignore_path_vars op1)).
    2:{ exists o2. split; [done|]. apply same_nexts_but_refl. }
    unfold chain_fuel.
    replace (Z.to_nat (number_of_nexts op1) + 2)%nat
      with (S (Z.to_nat (number_of_nexts op1) + 1)) by lia.
    cbn [MoveChain_loop]. rewrite (proj2 (Z.eqb_neq _ _) (not_eq_sym Hed)).
    fold o2. change (Next op b) with (walk op b 1).
    destruct Hsame2 as (Hn2 & Hl2 & Hs2).
    apply (MoveChain_loop_restamps o2 e dpath (walk op b) m Hlen2)
      with (d := (m - 1)%nat); try lia.
    - intros j Hj. rewrite Hn2. destruct (decide (j = m)) as [->|Hne].
      + by rewrite Hm.
      + apply Hrange. lia.
    - intros j Hj. apply Hway. lia.
    - intros j Hj. rewrite Hs2; [by rewrite walk_S|apply Hrange; lia|].
      intros [[[]|Hje]|Hjd].
      + revert Hje. apply Hway. lia.
      + revert Hjd. apply Hout. lia.
    - destruct Hsame1 as (-> & _). lia.
    - apply same_nexts_but_refl. }
  destruct Hloop as (o' & -> & Hsame').
  pose proof (same_nexts_but_trans _ _ op o2 o' Hsame2 Hsame') as Hso.
  set (op' := SetNext b (Next op e) (Path o' b) o').
  exists op'.
  destruct (same_nexts_but_SetNext _ op o' b (Next op e) (Path o' b) Hlen
              Hso Hbr)
    as (_ & Hat & Hoff & Hsame).
  fold op' in Hat, Hoff, Hsame.
  destruct Hsame' as (_ & _ & Hs').
  destruct Hsame2 as (Hn2 & _ & _).
  split; [done|]. split; [done|]. split; [|split].
  - rewrite Hoff by done. rewrite Hs'; [done|by rewrite Hn2|cbv beta; tauto].
  - rewrite Hoff by done. rewrite Hs'; [|by rewrite Hn2|cbv beta; tauto].
    rewrite Hoff2 by done. done.
  - eapply same_nexts_but_weaken; [|exact Hsame]. intros i. cbv beta. tauto.
Qed.

(** The chain check answers, and it answers true on the valid chains
    only. *)
Lemma CheckChainValidity_decides (op : t (fields Y)) (fuel : nat)
    (b e x : Z) :
  next_vector op → 0 <= b →
  (Z.to_nat (number_of_nexts op) + 2 <= fuel)%nat →
  ∃ r, CheckChainValidity fuel op b e x = Some r
       ∧ (r = true ↔ valid_chain op b e x).
Proof.
  intros Hnv Hb Hfuel.
  destruct (CheckChainValidity fuel op b e x) as [[|]|] eqn:E.
  - exists true. split; [done|]. split; [intros _|done].
    unfold CheckChainValidity in E.
    destruct (b =? e) eqn:Ee; [done|].
    destruct (b =? x) eqn:Ex; [done|]. cbn [orb] in E.
    apply Z.eqb_neq in Ee, Ex.
    destruct (CheckChainValidity_loop_spec op b e x fuel 0)
      as (r & Hr & _ & Htrue);
      [apply Hnv|intros j Hj; lia|intros j Hj; lia|intros j Hj; lia|lia|lia|].
    change (walk op b 0) with b in Hr. change (Z.of_nat 0) with 0 in Hr.
    rewrite Hr in E. injection E as ->.
    destruct (Htrue eq_refl) as (m & _ & Hm & Hway & Hx & Hends).
    split; [done|]. exists m. split; [|done].
    destruct m; [|lia]. cbn in Hm. done.
  - exists false. split; [done|]. split; [done|]. intros Hv.
    by rewrite (CheckChainValidity_valid op fuel b e x) in E.
  - exfalso. unfold CheckChainValidity in E.
    destruct (b =? e); [done|]. destruct (b =? x); [done|]. cbn [orb] in E.
    destruct (CheckChainValidity_loop_spec op b e x fuel 0)
      as (r & Hr & _);
      [apply Hnv|intros j Hj; lia|intros j Hj; lia|intros j Hj; lia|lia|lia|].
    change (walk op b 0) with b in Hr. change (Z.of_nat 0) with 0 in Hr.
    by rewrite Hr in E.
Qed.

(** [MoveChain] when the chain check fails or when the chain end or the
    destination is a path end. *)
Lemma MoveChain_refuses_spec (op : t (fields Y)) (b e d : Z) :
  next_vector op → 0 <= b →
  ¬ valid_chain op b e d ∨ IsPathEnd op e = true ∨ IsPathEnd op d = true →
  MoveChain op b e d = Some (false, op).
Proof.
  intros Hnv Hb Hcase. unfold MoveChain.
  destruct (CheckChainValidity_decides op (chain_fuel op) b e d Hnv Hb)
    as (r & -> & Hr); [unfold chain_fuel; lia|].
  cbn [mbind option_bind].
  destruct Hcase as [Hc|[->| ->]].
  - destruct r; [|done]. exfalso. apply Hc. by apply Hr.
  - by destruct r.
  - destruct r; [|done]. by destruct (IsPathEnd op e).
Qed.

(** X23.  [MoveChain(before_chain, chain_end, destination)] answers false
    and stages nothing when the chain check fails or when the chain end or
    the destination is a path end.  On a chain whose end and destination
    are no path ends, the destination outside of the chain, it answers
    true: the chain stands between the destination and its former
    successor, the node before the chain is followed by the former
    successor of the chain end, and no other successor has moved. *)
Theorem MoveChain_contract (op : t (fields Y)) (b e d : Z) :
  next_vector op → 0 <= b → holds_nexts op →
  (¬ valid_chain op b e d ∨ IsPathEnd op e = true ∨ IsPathEnd op d = true →
   MoveChain op b e d = Some (false, op))
  ∧ ∀ m, chain op b e m → (1 <= m)%nat →
         IsPathEnd op e = false → 0 <= d → IsPathEnd op d = false →
         (∀ j, (j <= m)%nat → walk op b j ≠ d) →
         ∃ op', MoveChain op b e d = Some (true, op')
                ∧ Next op' b = Next op e
                ∧ Next op' d = Next op b
                ∧ Next op' e = Next op d
                ∧ same_nexts_but (λ i, i = b ∨ i = e ∨ i = d) op op'.
Proof.
  intros Hnv Hb Hlen. split.
  - by apply MoveChain_refuses_spec.
  - intros m. by apply MoveChain_moves_spec.
Qed.

Lemma MakeChainInactive_loop_frame (fuel : nat) (op op' : t (fields Y))
    (after_chain current : Z) :
  MakeChainInactive_loop fuel op after_chain current = Some op' →
  cleared_ op' = cleared_ op ∧ derived_ op' = derived_ op.
Proof.
  revert op current.
  induction fuel as [|fuel IH]; intros op current;
    cbn [MakeChainInactive_loop];
    destruct (current =? after_chain); try done.
  - by intros [= <-].
  - by intros [= <-].
  - intros H. apply IH in H as [-> ->]. apply SetNext_frame.
Qed.

Lemma MakeChainInactive_frame (op op' : t (fields Y))
    (before_chain chain_end : Z) (r : bool) :
  MakeChainInactive op before_chain chain_end = Some (r, op') →
  cleared_ op' = cleared_ op ∧ derived_ op' = derived_ op.
Proof.
  unfold MakeChainInactive.
  destruct (CheckChainValidity _ _ _ _ _) as [ok|]; [|done].
  destruct (ok && negb (IsPathEnd op chain_end)); [|by intros [= <- <-]].
  destruct (MakeChainInactive_loop _ _ _ _) as [op1|] eqn:E; [|done].
  intros [= <- <-].
  apply MakeChainInactive_loop_frame in E as [E1 E2].
  rewrite <- E1, <- E2. apply SetNext_frame.
Qed.

Lemma MakeChainInactive_loop_deactivates (op0 : t (fields Y)) (b a : Z)
    (m : nat) :
  next_vector op0 → 0 <= b → holds_nexts op0 → chain op0 b a (S m) →
  ∀ (d fuel k : nat) (o : t (fields Y)),
    (1 <= k)%nat → (k + d = S m)%nat → (d <= fuel)%nat →
    inactive_up_to op0 o b k →
    ∃ o', MakeChainInactive_loop fuel o a (walk op0 b k) = Some o'
          ∧ inactive_up_to op0 o' b (S m).
Proof.
  intros Hnv Hb Hlen Hch.
  destruct (chain_nodes op0 b a (S m) Hnv Hb Hch)
    as (Hrange & Hinj & Hmn & Ha).
  destruct Hch as (Hm & Hway & Hends).
  induction d as [|d IH]; intros fuel k o Hk Hkd Hfuel Hinv.
  - exists o. replace k with (S m) in * by lia. split; [|done].
    destruct fuel; cbn [MakeChainInactive_loop];
      by rewrite Hm, Z.eqb_refl.
  - destruct fuel as [|fuel]; [lia|]. cbn [MakeChainInactive_loop].
    rewrite (proj2 (Z.eqb_neq _ _) (Hway k ltac:(lia))).
    destruct Hinv as (Hsame & Hself).
    assert (Hnext : Next o (walk op0 b k) = walk op0 b (S k)).
    { destruct Hsame as (_ & _ & Hother).
      rewrite Hother; [by rewrite walk_S|apply Hrange; lia|].
      intros (j & Hj & Heq). revert Heq. apply not_eq_sym.
      apply Hinj; lia. }
    rewrite Hnext. apply (IH fuel (S k)); [lia|lia|lia|].
    destruct (same_nexts_but_SetNext _ op0 o (walk op0 b k)
                (walk op0 b k) (-1) Hlen Hsame)
      as (_ & Hat & Hoff & Hsame'); [apply Hrange; lia|].
    split.
    + eapply same_nexts_but_weaken; [|exact Hsame'].
      intros i [(j & Hj & ->)| ->]; [exists j|exists k];
        (split; [lia|done]).
    + intros j Hj. destruct (decide (j = k)) as [->|Hjk]; [done|].
      rewrite Hoff; [apply Hself; lia|apply Hrange; lia|].
      apply Hinj; lia.
Qed.

Lemma MakeChainInactive_spec (op : t (fields Y)) (b a : Z) (m : nat) :
  next_vector op → 0 <= b → holds_nexts op → chain op b a (S m) →
  (1 <= m)%nat →
  ∃ op', MakeChainInactive op b (walk op b m) = Some (true, op')
         ∧ Next op' b = a
         ∧ (∀ j, (1 <= j <= m)%nat → Next op' (walk op b j) = walk op b j)
         ∧ same_nexts_but (λ i, ∃ j, (j <= m)%nat ∧ i = walk op b j) op op'.
Proof.
  intros Hnv Hb Hlen Hch Hm1.
  destruct (chain_nodes op b a (S m) Hnv Hb Hch)
    as (Hrange & Hinj & Hmn & Ha).
  pose proof Hch as (Hm & Hway & Hends).
  assert (Hsub : chain op b (walk op b m) m).
  { split; [done|]. split.
    - intros j Hj. apply Hinj; lia.
    - intros j Hj. apply Hends. lia. }
  assert (Hvalid : valid_chain op b (walk op b m) (-1)).
  { apply (chain_valid op b _ (-1) m Hsub Hm1); [lia|].
    intros j Hj. pose proof (Hrange j ltac:(lia)). lia. }
  unfold MakeChainInactive.
  rewrite (CheckChainValidity_valid op (chain_fuel op) b _ (-1));
    [|done|done|unfold chain_fuel; lia|done].
  rewrite (Hends m) by lia. cbn [negb andb].
  change (Next op (walk op b m)) with (walk op b (S m)). rewrite Hm.
  change (Next op b) with (walk op b 1).
  destruct (MakeChainInactive_loop_deactivates op b a m Hnv Hb Hlen Hch
              m (chain_fuel op) 1 op) as (o' & -> & Hsame & Hself);
    [lia|lia|unfold chain_fuel; lia| |].
  { split; [|intros j Hj; lia].
    eapply same_nexts_but_weaken; [|apply same_nexts_but_refl].
    by intros i []. }
  set (op' := SetNext b a (Path o' b) o'). exists op'.
  destruct (same_nexts_but_SetNext _ op o' b a (Path o' b) Hlen Hsame)
    as (_ & Hat & Hoff & Hsame'); [apply (Hrange 0%nat); lia|].
  fold op' in Hat, Hoff, Hsame'.
  split; [done|]. split; [done|]. split.
  - intros j Hj. rewrite Hoff; [apply Hself; lia|apply Hrange; lia|].
    apply not_eq_sym. apply (Hinj 0%nat j); lia.
  - eapply same_nexts_but_weaken; [|exact Hsame'].
    intros i [(j & Hj & ->)| ->]; [exists j|exists 0%nat];
      (split; [lia|done]).
Qed.

Lemma MakeActive_spec (op : t (fields Y)) (node d : Z) :
  holds_nexts op → 0 <= node < number_of_nexts op → 0 <= d → node ≠ d →
  if IsPathEnd op d then MakeActive op node d = (false, op)
  else ∃ op', MakeActive op node d = (true, op')
              ∧ Next op' d = node
              ∧ Next op' node = Next op d
              ∧ same_nexts_but (λ i, i = node ∨ i = d) op op'.
Proof.
  intros Hlen Hnode Hd Hne. unfold MakeActive.
  destruct (IsPathEnd op d) eqn:Hend; [done|]. cbn [negb].
  assert (Hdr : 0 <= d < number_of_nexts op).
  { unfold IsPathEnd in Hend. apply Z.leb_gt in Hend. lia. }
  set (dpath := Path op d).
  set (op1 := SetNext node (Next op d) dpath op).
  destruct (same_nexts_but_SetNext _ op op node (Next op d) dpath Hlen
              (same_nexts_but_refl op) Hnode)
    as (_ & Hat1 & Hoff1 & Hsame1).
  fold op1 in Hat1, Hoff1, Hsame1.
  destruct (same_nexts_but_SetNext _ op op1 d node dpath Hlen Hsame1 Hdr)
    as (_ & Hat & Hoff & Hsame).
  eexists. split; [done|]. split; [done|]. split.
  - rewrite Hoff by done. done.
  - eapply same_nexts_but_weaken; [|exact Hsame]. intros i. cbv beta. tauto.
Qed.

(** X24.  [MakeChainInactive(before_chain, chain_end)] on a chain whose end
    is no path end and is followed by a node that the chain does not
    hold: the call answers true, every node of the chain is its own
    successor, the node before the chain is followed by the node after
    it, and no other successor has moved. *)
Theorem MakeChainInactive_deactivates (op : t (fields Y)) (b a : Z)
    (m : nat) :
  next_vector op → 0 <= b → holds_nexts op → chain op b a (S m) →
  (1 <= m)%nat →
  ∃ op', MakeChainInactive op b (walk op b m) = Some (true, op')
         ∧ Next op' b = a
         ∧ (∀ j, (1 <= j <= m)%nat → Next op' (walk op b j) = walk op b j)
         ∧ same_nexts_but (λ i, ∃ j, (j <= m)%nat ∧ i = walk op b j) op op'.
Proof. exact (MakeChainInactive_spec op b a m). Qed.

(** X25.  Taking a node out of its path with [MakeChainInactive] and putting
    it back after its former predecessor with [MakeActive] gives every
    node the successor it had. *)
Theorem MakeActive_undoes_MakeChainInactive (op : t (fields Y))
    (b a : Z) :
  next_vector op → 0 <= b → holds_nexts op → chain op b a 2 →
  ∃ op1 op2,
    MakeChainInactive op b (Next op b) = Some (true, op1)
    ∧ MakeActive op1 (Next op b) b = (true, op2)
    ∧ same_nexts_but (λ _, False) op op2.
Proof.
  intros Hnv Hb Hlen Hch.
  destruct (chain_nodes op b a 2 Hnv Hb Hch) as (Hrange & Hinj & _ & _).
  pose proof Hch as (Hm & _ & _).
  destruct (MakeChainInactive_spec op b a 1 Hnv Hb Hlen Hch)
    as (op1 & Hop1 & Hb1 & Hself & Hsame1); [lia|].
  change (walk op b 1) with (Next op b) in Hop1.
  pose proof (Hself 1%nat ltac:(lia)) as Hx1.
  change (walk op b 1) with (Next op b) in Hx1.
  pose proof (Hrange 0%nat ltac:(lia)) as Hbr.
  pose proof (Hrange 1%nat ltac:(lia)) as Hxr.
  change (walk op b 0) with b in Hbr.
  change (walk op b 1) with (Next op b) in Hxr.
  assert (Hxb : Next op b ≠ b).
  { apply not_eq_sym. apply (Hinj 0%nat 1%nat); lia. }
  pose proof Hsame1 as (Hn1 & Hl1 & Hs1).
  pose proof (MakeActive_spec op1 (Next op b) b
                (same_nexts_but_holds _ op op1 Hlen Hsame1)) as Hact.
  rewrite Hn1 in Hact. specialize (Hact Hxr Hb Hxb).
  replace (IsPathEnd op1 b) with false in Hact.
  2:{ symmetry. unfold IsPathEnd. rewrite Hn1. apply Z.leb_gt. lia. }
  destruct Hact as (op2 & Hop2 & Hb2 & Hx2 & (Hn2 & Hl2 & Hs2)).
  exists op1, op2. split; [done|]. split; [done|].
  split; [congruence|]. split; [congruence|].
  intros i Hi _.
  destruct (decide (i = b)) as [->|Hib]; [done|].
  destruct (decide (i = Next op b)) as [->|Hix].
  { rewrite Hx2, Hb1. rewrite <- Hm. done. }
  rewrite Hs2; [|by rewrite Hn1|cbv beta; tauto].
  apply Hs1; [done|]. intros (j & Hj & ->).
  destruct j as [|[|j]]; [done|done|lia].
Qed.
End PathEdits.

(** ** The two moves of TwoOpt *)

Section TwoOptMoves.
Import IntVarLocalSearchOperator PathOperator.
Local Open Scope Z_scope.

Lemma on_chain_dec {Y : Type} (op : t (fields Y)) (b i : Z) (m : nat) :
  (∃ j, (j < m)%nat ∧ i = walk op b j)
  ∨ ¬ (∃ j, (j < m)%nat ∧ i = walk op b j).
Proof.
  induction m as [|m IH].
  - right. intros (j & Hj & _). lia.
  - destruct IH as [(j & Hj & ->)|Hn].
    + left. exists j. split; [lia|done].
    + destruct (decide (i = walk op b m)) as [->|Hne].
      * left. exists m. split; [lia|done].
      * right. intros (j & Hj & ->).
        destruct (decide (j = m)) as [->|Hjm]; [done|].
        apply Hn. exists j. split; [lia|done].
Qed.

Lemma chain_prefix {Y : Type} (op : t (fields Y)) (b a : Z) (m : nat) :
  next_vector op → 0 <= b → chain op b a (S m) →
  chain op b (walk op b m) m.
Proof.
  intros Hnv Hb Hch.
  destruct (chain_nodes op b a (S m) Hnv Hb Hch) as (_ & Hinj & _).
  destruct Hch as (_ & _ & Hends).
  split; [done|]. split.
  - intros j Hj. apply Hinj; lia.
  - intros j Hj. apply Hends. lia.
Qed.

Lemma TwoOpt_MakeNeighbor_first (op : t (fields TwoOpt.fields)) :
  TwoOpt.last_ (sub_ (derived_ op)) = -1 →
  TwoOpt.MakeNeighbor op
  = let r := RevertChanges false op in
    let b := BaseNode r 0 in
    if IsPathEnd r b then Some (false, TwoOpt.with_last (-1) r)
    else
      match ReverseChain
              (TwoOpt.with_last (Next r b) (TwoOpt.with_last_base b r))
              b (BaseNode r 1)
      with
      | None => None
      | Some (true, op, _) => Some (true, op)
      | Some (false, op, _) => Some (false, TwoOpt.with_last (-1) op)
      end.
Proof.
  intros Hlast. unfold TwoOpt.MakeNeighbor.
  rewrite Hlast, Z.eqb_refl, orb_true_r. reflexivity.
Qed.

Lemma TwoOpt_MakeNeighbor_next (op : t (fields TwoOpt.fields)) :
  TwoOpt.last_base_ (sub_ (derived_ op)) = BaseNode op 0 →
  TwoOpt.last_ (sub_ (derived_ op)) ≠ -1 →
  TwoOpt.MakeNeighbor op
  = MoveChain op (TwoOpt.last_ (sub_ (derived_ op)))
      (Next op (TwoOpt.last_ (sub_ (derived_ op)))) (BaseNode op 0).
Proof.
  intros Hbase Hlast. unfold TwoOpt.MakeNeighbor.
  rewrite Hbase, Z.eqb_refl. cbn [negb orb].
  by rewrite (proj2 (Z.eqb_neq _ _) Hlast).
Qed.

(** X26.  [TwoOpt::MakeNeighbor] while [last_] is -1 goes back to the
    reference and reverses the chain between its two base nodes; the
    next call, made after [RevertChanges(true)] with the second base node
    one step further, moves one node only, and the path is the reference
    with the longer chain reversed. *)
Theorem TwoOpt_extends_reversal (op : t (fields TwoOpt.fields)) (a : Z)
    (m : nat) :
  let r := RevertChanges false op in
  let b := BaseNode op 0 in
  TwoOpt.last_ (sub_ (derived_ op)) = -1 →
  next_vector r → 0 <= b → holds_nexts r →
  chain r b a (S m) → (2 <= m)%nat →
  BaseNode op 1 = walk r b m →
  ∃ op1 op2,
    TwoOpt.MakeNeighbor op = Some (true, op1)
    ∧ (∀ j, (1 <= j < m)%nat → walk op1 b j = walk r b (m - j))
    ∧ walk op1 b m = walk r b m
    ∧ TwoOpt.MakeNeighbor (RevertChanges true (set_base_node 1 a op1))
      = Some (true, op2)
    ∧ (∀ j, (1 <= j <= m)%nat → walk op2 b j = walk r b (S m - j))
    ∧ walk op2 b (S m) = a
    ∧ same_nexts_but (λ i, ∃ j, (j <= m)%nat ∧ i = walk r b j) r op2.
Proof.
  intros r b Hlast Hnv Hb Hlen Hch Hm2 Hbase1.
  destruct (chain_nodes r b a (S m) Hnv Hb Hch) as (Hrange & Hinj & _ & Ha).
  pose proof (chain_prefix r b a m Hnv Hb Hch) as Hsub.
  pose proof Hch as (HSm & Hway & Hends).
  assert (Hd : derived_ r = derived_ op) by apply RevertChanges_derived.
  assert (Hb0 : BaseNode r 0 = b) by (unfold BaseNode; by rewrite Hd).
  assert (Hb1 : BaseNode r 1 = walk r b m).
  { rewrite <- Hbase1. unfold BaseNode. by rewrite Hd. }
  (* the first move *)
  set (r1 := TwoOpt.with_last (Next r b) (TwoOpt.with_last_base b r)).
  pose proof (ReverseChain_reverses_spec r1 b (walk r b m) m Hnv Hb Hlen Hsub
                ltac:(lia)) as Hrev.
  rewrite decide_False in Hrev by lia.
  destruct Hrev as (op1 & Hrev & Hw1 & Hw1m & Hsame1).
  assert (Hfirst : TwoOpt.MakeNeighbor op = Some (true, op1)).
  { rewrite TwoOpt_MakeNeighbor_first by done. cbv zeta. fold r.
    rewrite Hb0, Hb1.
    pose proof (Hends 0%nat ltac:(lia)) as H0.
    change (walk r b 0) with b in H0. rewrite H0. fold r1.
    by rewrite Hrev. }
  exists op1.
  (* the successors after the first move *)
  pose proof Hsame1 as (Hn1 & Hl1 & Hs1).
  change (number_of_nexts r1) with (number_of_nexts r) in Hn1, Hs1.
  change (length (values_ r1)) with (length (values_ r)) in Hl1.
  assert (Hlen1 : holds_nexts op1).
  { unfold holds_nexts in *. by rewrite Hn1, Hl1. }
  assert (N1b : Next op1 b = walk r b (m - 1)).
  { apply (Hw1 1%nat). lia. }
  assert (N1j : ∀ j, (1 <= j < m)%nat →
                     Next op1 (walk r b j)
                     = if decide (j = 1)%nat then walk r b m
                       else walk r b (j - 1)).
  { intros j Hj.
    change (walk r b j) with (walk r1 b j).
    replace j with (m - (m - j))%nat at 1 by lia.
    rewrite <- (Hw1 (m - j)%nat) by lia. rewrite <- walk_S.
    destruct (decide (j = 1)%nat) as [->|Hj1].
    - replace (S (m - 1)) with m by lia. exact Hw1m.
    - rewrite Hw1 by lia. change (walk r1 b) with (walk r b).
      f_equal; lia. }
  assert (N1m : Next op1 (walk r b m) = a).
  { rewrite Hs1; [by rewrite <- HSm|apply Hrange; lia|].
    intros (j & Hj & Heq). revert Heq. apply not_eq_sym.
    apply (Hinj j m); lia. }
  assert (Hnv1 : next_vector op1).
  { destruct Hnv as [Hn0 Hnext]. split; [by rewrite Hn1|].
    intros i Hi. rewrite Hn1 in Hi.
    destruct (on_chain_dec r b i m) as [(j & Hj & ->)|Hoff].
    - destruct j as [|j].
      + change (walk r b 0) with b. rewrite N1b.
        apply (Hrange (m - 1)%nat). lia.
      + rewrite N1j by lia.
        destruct (decide (S j = 1)%nat);
          [apply (Hrange m)|apply (Hrange (S j - 1)%nat)]; lia.
    - rewrite Hs1 by done. by apply Hnext. }
  (* the second move *)
  set (o := RevertChanges true (set_base_node 1 a op1)).
  destruct (ReverseChain_frame r1 op1 b (walk r b m) true _ Hrev)
    as [_ Hd1].
  assert (Hdo : derived_ o = derived_ (set_base_node 1 a r1)).
  { unfold o. rewrite RevertChanges_derived. unfold set_base_node.
    unfold with_base_nodes. cbn. by rewrite Hd1. }
  assert (Hbo : BaseNode o 0 = b).
  { unfold BaseNode. rewrite Hdo. unfold set_base_node, with_base_nodes.
    cbn [derived_ with_derived base_nodes_].
    rewrite list_lookup_insert_ne by done. exact Hb0. }
  assert (Hnext : TwoOpt.MakeNeighbor o
                  = MoveChain o (walk r b 1) (walk r b m) b).
  { rewrite TwoOpt_MakeNeighbor_next.
    - rewrite Hbo, Hdo.
      change (TwoOpt.last_ _) with (walk r b 1).
      change (Next o (walk r b 1)) with (Next op1 (walk r b 1)).
      rewrite N1j by lia. by rewrite decide_True.
    - rewrite Hbo, Hdo. done.
    - rewrite Hdo. change (TwoOpt.last_ _) with (walk r b 1).
      pose proof (Hrange 1%nat ltac:(lia)). lia. }
  assert (Hmove : ∃ op2,
    MoveChain o (walk r b 1) (walk r b m) b = Some (true, op2)
    ∧ Next op2 (walk r b 1) = Next op1 (walk r b m)
    ∧ Next op2 b = Next op1 (walk r b 1)
    ∧ Next op2 (walk r b m) = Next op1 b
    ∧ same_nexts_but
        (λ i, i = walk r b 1 ∨ i = walk r b m ∨ i = b) op1 op2).
  { apply (MoveChain_moves_spec o (walk r b 1) (walk r b m) b 1).
    - exact Hnv1.
    - apply (Hrange 1%nat). lia.
    - exact Hlen1.
    - split; [|split].
      + change (Next op1 (walk r b 1) = walk r b m).
        rewrite N1j by lia. by rewrite decide_True.
      + intros j Hj. replace j with 0%nat by lia.
        change (walk r b 1 ≠ walk r b m). apply Hinj; lia.
      + intros j Hj. replace j with 0%nat by lia.
        change (IsPathEnd op1 (walk r b 1) = false).
        unfold IsPathEnd. rewrite Hn1. apply Z.leb_gt.
        apply (Hrange 1%nat). lia.
    - lia.
    - change (IsPathEnd op1 (walk r b m) = false).
      unfold IsPathEnd. rewrite Hn1. apply Z.leb_gt.
      apply (Hrange m). lia.
    - exact Hb.
    - change (IsPathEnd op1 b = false).
      unfold IsPathEnd. rewrite Hn1. apply Z.leb_gt.
      apply (Hrange 0%nat). lia.
    - intros j Hj. destruct j as [|[|j]]; [| |lia].
      + change (walk r b 1 ≠ walk r b 0). apply not_eq_sym.
        apply Hinj; lia.
      + change (Next op1 (walk r b 1) ≠ walk r b 0).
        rewrite N1j by lia. rewrite decide_True by done.
        apply not_eq_sym. apply Hinj; lia. }
  destruct Hmove as (op2 & Hmove & N2x & N2b & N2m & Hsame2).
  exists op2. rewrite N1m in N2x. rewrite N1j, decide_True in N2b by lia.
  rewrite N1b in N2m. pose proof Hsame2 as (Hn2 & Hl2 & Hs2).
  assert (Hw2 : ∀ j, (1 <= j <= m)%nat →
                     walk op2 b j = walk r b (S m - j)).
  { intros j. induction j as [|j IHj]; intros Hj; [lia|].
    rewrite walk_S. destruct (decide (j = 0)%nat) as [->|Hj0].
    { change (walk op2 b 0) with b. rewrite N2b. f_equal; lia. }
    rewrite IHj by lia.
    destruct (decide (j = 1)%nat) as [->|Hj1].
    { replace (S m - 1)%nat with m by lia. rewrite N2m. f_equal; lia. }
    rewrite Hs2.
    - rewrite N1j by lia. rewrite decide_False by lia. f_equal; lia.
    - rewrite Hn1. apply Hrange. lia.
    - intros [H|[H|H]]; revert H.
      + apply not_eq_sym. apply Hinj; lia.
      + apply Hinj; lia.
      + apply not_eq_sym. apply (Hinj 0%nat); lia. }
  split; [done|]. split; [exact Hw1|]. split; [exact Hw1m|].
  split; [by rewrite Hnext|]. split; [exact Hw2|]. split.
  - rewrite walk_S, Hw2 by lia. replace (S m - m)%nat with 1%nat by lia.
    exact N2x.
  - split; [congruence|]. split; [congruence|].
    intros i Hi Hoff. rewrite Hs2.
    + apply Hs1; [done|]. intros (j & Hj & ->). apply Hoff.
      exists j. split; [lia|done].
    + by rewrite Hn1.
    + intros [->|[->| ->]]; apply Hoff;
        [exists 1%nat|exists m|exists 0%nat]; (split; [lia|done]).
Qed.
End TwoOptMoves.

(** ** The moves of Relocate, Exchange and SwapActiveOperator *)

Section PathMoves.
Import IntVarLocalSearchOperator PathOperator.
Local Open Scope Z_scope.

Lemma not_path_end_range {Y : Type} (op : t (fields Y)) (i : Z) :
  0 <= i → IsPathEnd op i = false → 0 <= i < number_of_nexts op.
Proof. intros Hi H. unfold IsPathEnd in H. apply Z.leb_gt in H. lia. Qed.

Lemma range_not_path_end {Y : Type} (op : t (fields Y)) (i : Z) :
  0 <= i < number_of_nexts op → IsPathEnd op i = false.
Proof. intros Hi. unfold IsPathEnd. apply Z.leb_gt. lia. Qed.

(** A chain of one step. *)
Lemma chain_one {Y : Type} (op : t (fields Y)) (b : Z) :
  IsPathEnd op b = false → Next op b ≠ b → chain op b (Next op b) 1.
Proof.
  intros Hend Hne. split; [done|]. split.
  - intros j Hj. replace j with 0%nat by lia. by apply not_eq_sym.
  - intros j Hj. by replace j with 0%nat by lia.
Qed.

(** The state after a move is a next-vector again. *)
Lemma moved_next_vector {Y : Type} (op op' : t (fields Y)) (b e d : Z) :
  next_vector op → holds_nexts op →
  0 <= b < number_of_nexts op → 0 <= e < number_of_nexts op →
  0 <= d < number_of_nexts op →
  Next op' b = Next op e → Next op' d = Next op b →
  Next op' e = Next op d →
  same_nexts_but (λ i, i = b ∨ i = e ∨ i = d) op op' →
  next_vector op' ∧ holds_nexts op'.
Proof.
  intros [Hn Hnext] Hlen Hb He Hd Nb Nd Ne Hsame.
  split; [|by eapply same_nexts_but_holds].
  destruct Hsame as (Hn' & _ & Hs). split; [by rewrite Hn'|].
  intros i Hi. rewrite Hn' in Hi.
  destruct (decide (i = b)) as [->|Hib]; [rewrite Nb; by apply Hnext|].
  destruct (decide (i = e)) as [->|Hie]; [rewrite Ne; by apply Hnext|].
  destruct (decide (i = d)) as [->|Hid]; [rewrite Nd; by apply Hnext|].
  rewrite Hs; [by apply Hnext|done|cbv beta; tauto].
Qed.

Lemma chain_end_after_walk (op : t (fields Relocate.fields)) (m : nat) :
  ∀ b, (∀ j, (j < m)%nat → IsPathEnd op (walk op b j) = false) →
       Relocate.chain_end_after m op b = Some (walk op b m).
Proof.
  induction m as [|m IH]; intros b Hends; [done|].
  cbn [Relocate.chain_end_after].
  pose proof (Hends 0%nat ltac:(lia)) as H0.
  change (walk op b 0) with b in H0. rewrite H0.
  change (Next op b) with (walk op b 1). rewrite IH.
  - rewrite <- walk_add. do 2 f_equal. lia.
  - intros j Hj. rewrite <- walk_add. apply Hends. lia.
Qed.

Lemma chain_end_after_path_end (op : t (fields Relocate.fields)) (m : nat) :
  ∀ b k, (k < m)%nat → IsPathEnd op (walk op b k) = true →
         Relocate.chain_end_after m op b = None.
Proof.
  induction m as [|m IH]; intros b k Hk Hend; [lia|].
  cbn [Relocate.chain_end_after].
  destruct (IsPathEnd op b) eqn:E; [done|].
  destruct k as [|k].
  - change (walk op b 0) with b in Hend. congruence.
  - apply (IH _ k); [lia|].
    change (Next op b) with (walk op b 1). rewrite <- walk_add.
    by replace (k + 1)%nat with (S k) by lia.
Qed.

(** X27.  [Relocate::MakeNeighbor] answers false and stages nothing when a
    path end is met within [chain_length_] steps from the first base
    node.  When the [chain_length_] nodes after the first base node make
    a chain that does not hold the second base node, it moves the chain
    after the second base node. *)
Theorem Relocate_moves_chain (op : t (fields Relocate.fields)) :
  let b := BaseNode op 0 in
  let d := BaseNode op 1 in
  let m := Z.to_nat (Relocate.chain_length_ (sub_ (derived_ op))) in
  Relocate.single_path_ (sub_ (derived_ op)) = false
  ∨ StartNode op 0 = StartNode op 1 →
  next_vector op → 0 <= b → holds_nexts op →
  ((∃ k, (k < m)%nat ∧ IsPathEnd op (walk op b k) = true) →
   Relocate.MakeNeighbor op = Some (false, op))
  ∧ (chain op b (walk op b m) m → (1 <= m)%nat →
     IsPathEnd op (walk op b m) = false →
     0 <= d → IsPathEnd op d = false →
     (∀ j, (j <= m)%nat → walk op b j ≠ d) →
     ∃ op', Relocate.MakeNeighbor op = Some (true, op')
            ∧ Next op' b = walk op b (S m)
            ∧ Next op' d = Next op b
            ∧ Next op' (walk op b m) = Next op d
            ∧ same_nexts_but (λ i, i = b ∨ i = walk op b m ∨ i = d)
                op op').
Proof.
  intros b d m Hcheck Hnv Hb Hlen.
  assert (Hguard : negb (Relocate.single_path_ (sub_ (derived_ op)))
                   || (StartNode op 0 =? StartNode op 1) = true).
  { destruct Hcheck as [->| ->]; [done|].
    rewrite Z.eqb_refl. apply orb_true_r. }
  unfold Relocate.MakeNeighbor. rewrite Hguard. fold b m d. split.
  - intros (k & Hk & Hend).
    by rewrite (chain_end_after_path_end op m b k Hk Hend).
  - intros Hch Hm He Hd Hde Hout.
    pose proof Hch as (_ & _ & Hends).
    rewrite (chain_end_after_walk op m b Hends).
    destruct (MoveChain_moves_spec op b (walk op b m) d m Hnv Hb Hlen Hch Hm
                He Hd Hde Hout) as (op' & -> & Nb & Nd & Ne & Hsame).
    exists op'. rewrite walk_S. done.
Qed.

(** X28.  [Exchange::MakeNeighbor] on two base nodes that are no path ends,
    with successors that are no path ends, the four nodes distinct: the
    two successors change places, and no other successor moves. *)
Theorem Exchange_swaps (op : t (fields unit)) :
  let p0 := BaseNode op 0 in
  let p1 := BaseNode op 1 in
  let n0 := Next op p0 in
  let n1 := Next op p1 in
  next_vector op → holds_nexts op → 0 <= p0 → 0 <= p1 →
  IsPathEnd op p0 = false → IsPathEnd op p1 = false →
  IsPathEnd op n0 = false → IsPathEnd op n1 = false →
  NoDup [p0; n0; p1; n1] →
  ∃ op', Exchange.MakeNeighbor op = Some (true, op')
         ∧ Next op' p0 = n1 ∧ Next op' n1 = Next op n0
         ∧ Next op' p1 = n0 ∧ Next op' n0 = Next op n1
         ∧ same_nexts_but (λ i, i ∈ [p0; n0; p1; n1]) op op'.
Proof.
  intros p0 p1 n0 n1 Hnv Hlen Hp0 Hp1 He0 He1 Hen0 Hen1 Hnd.
  assert (Hdist : p0 ≠ n0 ∧ p0 ≠ p1 ∧ p0 ≠ n1 ∧ n0 ≠ p1 ∧ n0 ≠ n1
                  ∧ p1 ≠ n1).
  { apply NoDup_cons in Hnd as [H1 Hnd]. apply NoDup_cons in Hnd as [H2 Hnd].
    apply NoDup_cons in Hnd as [H3 _].
    rewrite !elem_of_cons, elem_of_nil in H1.
    rewrite !elem_of_cons, elem_of_nil in H2.
    rewrite !elem_of_cons, elem_of_nil in H3. tauto. }
  destruct Hdist as (D1 & D2 & D3 & D4 & D5 & D6).
  pose proof Hnv as [Hn Hnext].
  pose proof (not_path_end_range op p0 Hp0 He0) as R0.
  pose proof (not_path_end_range op p1 Hp1 He1) as R1.
  assert (Rn0 : 0 <= n0 < number_of_nexts op).
  { apply not_path_end_range; [by apply Hnext|done]. }
  assert (Rn1 : 0 <= n1 < number_of_nexts op).
  { apply not_path_end_range; [by apply Hnext|done]. }
  unfold Exchange.MakeNeighbor. fold p0 p1. rewrite He0, He1. fold n0 n1.
  rewrite (proj2 (Z.eqb_neq _ _) D4).
  rewrite (proj2 (Z.eqb_neq _ _) (not_eq_sym D3)).
  (* the first move: [n0] goes after [p1] *)
  destruct (MoveChain_moves_spec op p0 n0 p1 1 Hnv Hp0 Hlen)
    as (op1 & -> & N1p0 & N1p1 & N1n0 & Hsame1);
    [apply chain_one; [done|by apply not_eq_sym]|lia|done|done|done| |].
  { intros j Hj. destruct j as [|[|j]]; [done|by apply not_eq_sym|lia]. }
  fold n0 in N1p1. fold n1 in N1n0.
  destruct (moved_next_vector op op1 p0 n0 p1 Hnv Hlen R0 Rn0 R1 N1p0 N1p1
              N1n0 Hsame1) as [Hnv1 Hlen1].
  pose proof Hsame1 as (Hn1 & _ & Hs1).
  rewrite N1n0.
  (* the second move: [n1] goes after [p0] *)
  destruct (MoveChain_moves_spec op1 n0 n1 p0 1 Hnv1 (proj1 Rn0) Hlen1)
    as (op2 & -> & N2n0 & N2p0 & N2n1 & Hsame2).
  { rewrite <- N1n0. apply chain_one; [|by rewrite N1n0; apply not_eq_sym].
    apply range_not_path_end. by rewrite Hn1. }
  { lia. }
  { apply range_not_path_end. by rewrite Hn1. }
  { done. }
  { apply range_not_path_end. by rewrite Hn1. }
  { intros j Hj. destruct j as [|[|j]]; [by apply not_eq_sym| |lia].
    change (Next op1 n0 ≠ p0). rewrite N1n0. by apply not_eq_sym. }
  exists op2. pose proof Hsame2 as (Hn2 & Hl2 & Hs2).
  split; [done|]. split; [by rewrite N2p0|]. split; [by rewrite N2n1|].
  split.
  { rewrite Hs2; [done|by rewrite Hn1|]. cbv beta.
    intros [?|[?|?]]; congruence. }
  split.
  { rewrite N2n0. apply Hs1; [done|]. cbv beta.
    intros [?|[?|?]]; congruence. }
  destruct Hsame1 as (_ & Hl1 & _).
  split; [congruence|]. split; [congruence|].
  intros i Hi Hoff. rewrite !elem_of_cons, elem_of_nil in Hoff.
  rewrite Hs2; [|by rewrite Hn1|cbv beta; tauto].
  apply Hs1; [done|cbv beta; tauto].
Qed.

(** X29.  [SwapActiveOperator::MakeNeighbor] on a base node followed by a
    node that is followed by a further node, with an inactive node that
    is a node other than the base node: the inactive node takes the place
    of the successor of the base node, which becomes its own successor,
    and no other successor moves. *)
Theorem SwapActive_swaps (op : t (fields SwapActiveOperator.fields))
    (a : Z) :
  let b := BaseNode op 0 in
  let x := Next op b in
  let y := SwapActiveOperator.GetInactiveNode op in
  next_vector op → 0 <= b → holds_nexts op → chain op b a 2 →
  0 <= y < number_of_nexts op → y ≠ b →
  ∃ op', SwapActiveOperator.MakeNeighbor op = Some (true, op')
         ∧ Next op' b = y ∧ Next op' y = a
         ∧ (y ≠ x → Next op' x = x)
         ∧ same_nexts_but (λ i, i = b ∨ i = x ∨ i = y) op op'.
Proof.
  intros b x y Hnv Hb Hlen Hch Hy Hyb.
  destruct (chain_nodes op b a 2 Hnv Hb Hch) as (Hrange & Hinj & _ & _).
  pose proof Hch as (Hm & _ & Hends).
  pose proof (Hrange 0%nat ltac:(lia)) as Hbr.
  pose proof (Hrange 1%nat ltac:(lia)) as Hxr.
  change (walk op b 0) with b in Hbr.
  change (walk op b 1) with x in Hxr.
  destruct (MakeChainInactive_spec op b a 1 Hnv Hb Hlen Hch)
    as (op1 & Hop1 & Hb1 & Hself & Hsame1); [lia|].
  change (walk op b 1) with x in Hop1.
  pose proof (Hself 1%nat ltac:(lia)) as Hx1.
  change (walk op b 1) with x in Hx1.
  pose proof Hsame1 as (Hn1 & Hl1 & Hs1).
  unfold SwapActiveOperator.MakeNeighbor. fold b.
  pose proof (Hends 0%nat ltac:(lia)) as H0.
  change (walk op b 0) with b in H0. rewrite H0. fold x. rewrite Hop1.
  assert (Hy1 : SwapActiveOperator.GetInactiveNode op1 = y).
  { unfold SwapActiveOperator.GetInactiveNode, y.
    destruct (MakeChainInactive_frame op op1 b x true Hop1) as [_ ->].
    done. }
  rewrite Hy1.
  pose proof (MakeActive_spec op1 y b
                (same_nexts_but_holds _ op op1 Hlen Hsame1)) as Hact.
  rewrite Hn1 in Hact. specialize (Hact Hy Hb Hyb).
  replace (IsPathEnd op1 b) with false in Hact.
  2:{ symmetry. apply range_not_path_end. by rewrite Hn1. }
  destruct Hact as (op2 & -> & Hb2 & Hy2 & (Hn2 & Hl2 & Hs2)).
  exists op2. split; [done|]. split; [done|].
  split; [by rewrite Hy2, Hb1|]. split.
  { intros Hyx. rewrite Hs2; [done|by rewrite Hn1|].
    cbv beta. intros [?|?]; [congruence|].
    apply (Hinj 0%nat 1%nat); [lia|lia|]. done. }
  split; [congruence|]. split; [congruence|].
  intros i Hi Hoff. rewrite Hs2; [|by rewrite Hn1|cbv beta; tauto].
  apply Hs1; [done|]. intros (j & Hj & ->). apply Hoff.
  destruct j as [|[|j]]; [by left|right; by left|lia].
Qed.
End PathMoves.

(** ** The path starts *)

Section PathStarts.
Import IntVarLocalSearchOperator PathOperator.
Local Open Scope Z_scope.
Context {Y : Type}.

Lemma Get_SetBit (b : list bool) (k i : nat) (v : bool) :
  (k < length b)%nat →
  Bitmap.Get (Bitmap.SetBit b k v) i
  = if decide (i = k) then v else Bitmap.Get b i.
Proof.
  intros Hk. unfold Bitmap.Get, Bitmap.SetBit.
  destruct (decide (i = k)) as [->|Hne].
  - by rewrite list_lookup_insert_eq.
  - by rewrite list_lookup_insert_ne.
Qed.

(** The first loop of [InitializePathStarts] marks the nodes that are the
    reference successor of a node. *)
Lemma has_prevs_fold (op : t (fields Y)) (l : list nat) :
  ∀ (init : list bool),
    (∀ j, j ∈ l → 0 <= OldNext op (Z.of_nat j)) →
    Z.to_nat (number_of_nexts op) = length init →
    ∀ has_prevs,
    has_prevs
    = foldl (λ has_prevs i,
               let next := OldNext op (Z.of_nat i) in
               if next <? number_of_nexts op
               then Bitmap.SetBit has_prevs (Z.to_nat next) true
               else has_prevs) init l →
    length has_prevs = length init
    ∧ ∀ i, Bitmap.Get has_prevs i = true
           ↔ Bitmap.Get init i = true
             ∨ ∃ j, j ∈ l ∧ OldNext op (Z.of_nat j) = Z.of_nat i
                    ∧ (i < length init)%nat.
Proof.
  induction l as [|k l IH]; intros init Hpos Hlen has_prevs ->; cbn [foldl].
  { split; [done|]. intros i. split; [by left|].
    intros [H|(j & Hj & _)]; [done|]. by apply elem_of_nil in Hj. }
  set (init' := let next := OldNext op (Z.of_nat k) in
                if next <? number_of_nexts op
                then Bitmap.SetBit init (Z.to_nat next) true else init).
  set (next := OldNext op (Z.of_nat k)) in *.
  assert (Hlen' : length init' = length init).
  { unfold init'. cbv zeta. destruct (next <? _); [|done].
    unfold Bitmap.SetBit. by rewrite length_insert. }
  destruct (IH init' (λ j Hj, Hpos j (list_elem_of_further _ _ _ Hj))
              ltac:(by rewrite Hlen') _ eq_refl) as [HL HG].
  cbv zeta in HL, HG.
  split; [by rewrite HL|]. intros i. rewrite HG, Hlen'.
  assert (Hk : 0 <= next) by (apply Hpos; by left).
  assert (Hinit : Bitmap.Get init' i = true
                  ↔ Bitmap.Get init i = true
                    ∨ (next = Z.of_nat i ∧ (i < length init)%nat)).
  { unfold init'. cbv zeta. destruct (next <? number_of_nexts op) eqn:E.
    - apply Z.ltb_lt in E. rewrite Get_SetBit by lia.
      destruct (decide (i = Z.to_nat next)) as [->|Hne].
      + split; [intros _; right; lia|done].
      + split; [by left|]. intros [H|[H _]]; [done|lia].
    - apply Z.ltb_ge in E. split; [by left|].
      intros [H|[H Hi]]; [done|lia]. }
  rewrite Hinit. split.
  - intros [[H|[H Hi]]|(j & Hj & Hnext & Hi)].
    + by left.
    + right. exists k. split; [by left|done].
    + right. exists j. split; [by right|done].
  - intros [H|(j & Hj & Hnext & Hi)]; [left; by left|].
    apply elem_of_cons in Hj as [->|Hj].
    + left. right. done.
    + right. exists j. done.
Qed.

Lemma filter_seq_sorted (P : nat → Prop) `{!∀ i, Decision (P i)}
    (a n : nat) :
  StronglySorted Z.lt (Z.of_nat <$> filter P (seq a n)).
Proof.
  revert a. induction n as [|n IH]; intros a; [constructor|].
  cbn [seq]. rewrite filter_cons.
  destruct (decide (P a)); [|apply IH].
  rewrite fmap_cons. constructor; [apply IH|].
  apply Forall_forall. intros y Hy.
  apply list_elem_of_fmap in Hy as (i & -> & Hi).
  apply list_elem_of_filter in Hi as [_ Hi].
  apply elem_of_seq in Hi. lia.
Qed.

(** X30.  [InitializePathStarts] lists, in increasing order, the nodes that
    are the reference successor of no node. *)
Theorem InitializePathStarts_no_predecessor (op : t (fields Y)) :
  (∀ j, 0 <= j < number_of_nexts op → 0 <= OldNext op j) →
  let starts := path_starts_ (derived_ (InitializePathStarts op)) in
  StronglySorted Z.lt starts
  ∧ ∀ x, x ∈ starts
         ↔ 0 <= x < number_of_nexts op
           ∧ ∀ j, 0 <= j < number_of_nexts op → OldNext op j ≠ x.
Proof.
  intros Hpos. unfold InitializePathStarts.
  set (n := Z.to_nat (number_of_nexts op)).
  set (has_prevs := foldl _ _ _).
  cbn [with_path_starts derived_ with_derived path_starts_].
  cbv zeta. split; [apply filter_seq_sorted|].
  destruct (has_prevs_fold op (seq 0 n) (replicate n false)) with has_prevs
    as [HL HG].
  { intros j Hj. apply elem_of_seq in Hj. apply Hpos. lia. }
  { by rewrite length_replicate. }
  { done. }
  rewrite length_replicate in HG.
  assert (Hinit : ∀ i, Bitmap.Get (replicate n false) i = false).
  { intros i. unfold Bitmap.Get.
    destruct (replicate n false !! i) as [v|] eqn:E; [|done].
    by apply lookup_replicate in E as [-> _]. }
  intros x. rewrite list_elem_of_fmap. split.
  - intros (i & -> & Hi). apply list_elem_of_filter in Hi as [Hget Hi].
    apply elem_of_seq in Hi. split; [lia|].
    intros j Hj Hnext.
    assert (Ht : Bitmap.Get has_prevs i = true); [|congruence].
    apply HG. right. exists (Z.to_nat j).
    split; [apply elem_of_seq; lia|]. rewrite Z2Nat.id by lia.
    split; [done|lia].
  - intros [Hx Hnone]. exists (Z.to_nat x). split; [lia|].
    apply list_elem_of_filter. split; [|apply elem_of_seq; lia].
    destruct (Bitmap.Get has_prevs (Z.to_nat x)) eqn:E; [|done].
    exfalso. apply HG in E as [E|(j & Hj & Hnext & _)].
    + by rewrite Hinit in E.
    + apply elem_of_seq in Hj. apply (Hnone (Z.of_nat j)); lia.
Qed.
End PathStarts.

(** ** The properties on sample states *)

Section BaseOperatorSamples.
Import IntVarLocalSearchOperator DeltaContract.
Local Open Scope Z_scope.

Lemma staged_arrays {X : Type} (derived : X) : staged (Sample.arrays derived).
Proof.
  apply staged_on_range_staged. apply (bool_decide_unpack _).
  vm_compute. reflexivity.
Qed.

Lemma staged_reference {X : Type} (derived : X) :
  staged (Sample.reference derived).
Proof.
  apply staged_on_range_staged. apply (bool_decide_unpack _).
  vm_compute. reflexivity.
Qed.

(** Reverting the staged change [var1 := 9] gives the reference values
    back. *)
Lemma RevertChanges_restores_witness :
  staged Sample.counter
  ∧ reference_state (RevertChanges false Sample.counter)
  ∧ staged (RevertChanges false Sample.counter).
Proof.
  pose proof (staged_arrays ExtendingOperator.Fields) as Hst.
  destruct (RevertChanges_restores false Sample.counter Hst)
    as (Href & _ & _ & _ & _ & Hst').
  split; [exact Hst|]. split; [|exact Hst'].
  apply Href. reflexivity.
Defined.

(** Three mutators on two indices, one of them already staged, list two
    indices. *)
Lemma stage_change_list_witness :
  let ms := [DoSetValue 0 8; DoDeactivate 1; DoSetValue 0 9] in
  staged Sample.counter
  ∧ NoDup (changes_ Sample.counter)
  ∧ Forall (λ m, (mutation_index m < Size Sample.counter)%nat) ms
  ∧ NoDup (changes_ (stage ms Sample.counter))
  ∧ changes_ Sample.counter `prefix_of` changes_ (stage ms Sample.counter).
Proof.
  intros ms.
  pose proof (staged_arrays ExtendingOperator.Fields) as Hst.
  assert (Hnd : NoDup (changes_ Sample.counter)) by apply NoDup_singleton.
  assert (Hall : Forall (λ m, (mutation_index m < Size Sample.counter)%nat)
                   ms).
  { repeat constructor. }
  destruct (stage_change_list ms Sample.counter Hst Hnd Hall)
    as (_ & Hnd' & Hpre & _).
  split; [exact Hst|]. split; [exact Hnd|]. split; [exact Hall|].
  split; [exact Hnd'|exact Hpre].
Defined.

(** [Start] on the assignment 10, 20, 30, 40 loads the three variables of
    the operator. *)
Lemma Start_loads_reference_witness :
  in_shape Sample.counter
  ∧ (Size Sample.counter <= Assignment.Size Scenario.bound_values)%nat
  ∧ ∃ op1, Start Scenario.bound_values Sample.counter = OnStart op1
           ∧ in_shape op1.
Proof.
  assert (Hshape : in_shape Sample.counter) by (by repeat split).
  assert (Hsize : (Size Sample.counter
                   <= Assignment.Size Scenario.bound_values)%nat).
  { vm_compute. lia. }
  destruct (Start_loads_reference Scenario.bound_values Sample.counter
              Hshape Hsize) as (op1 & Hstart & _ & _ & _ & Hshape1 & _).
  { intros i Hi. change (Size Sample.counter) with 3%nat in Hi.
    destruct i as [|[|[|i]]]; [reflexivity|reflexivity|reflexivity|lia]. }
  split; [exact Hshape|]. split; [exact Hsize|].
  exists op1. split; [exact Hstart|exact Hshape1].
Defined.

(** The delta of the staged change holds one element. *)
Lemma ApplyChanges_distinct_variables_witness :
  let r := ApplyChanges Sample.counter Assignment.empty Assignment.empty in
  NoDup (vars_ Sample.counter)
  ∧ NoDup (changes_ Sample.counter)
  ∧ NoDup (IntVarElement.Var <$> Assignment.IntVarContainer r.1.2)
  ∧ (length (Assignment.IntVarContainer r.1.2) <= 1)%nat.
Proof.
  intros r.
  assert (Hvars : NoDup (vars_ Sample.counter)).
  { apply (bool_decide_unpack _). vm_compute. reflexivity. }
  assert (Hnd : NoDup (changes_ Sample.counter)) by apply NoDup_singleton.
  destruct (ApplyChanges_distinct_variables Sample.counter r.1.2 r.2
              Hvars Hnd) as (Hd & _ & _ & _ & Hlen).
  { intros i Hi. apply list_elem_of_singleton in Hi as ->.
    vm_compute. lia. }
  { reflexivity. }
  split; [exact Hvars|]. split; [exact Hnd|]. split; [exact Hd|exact Hlen].
Defined.

(** [IncrementValue] on its second variable. *)
Lemma ChangeValue_neighbors_witness :
  staged Sample.increment
  ∧ 0 <= ChangeValue.index_ (derived_ Sample.increment)
  ∧ ∃ op',
      MakeNextNeighbor 1 Sample.increment Assignment.empty Assignment.empty
      = Some (true, op',
              append
                [ChangeValue.changed_element Sample.increment 1]
                Assignment.empty,
              Assignment.empty)
      ∧ changes_ op' = [1%nat].
Proof.
  pose proof (staged_reference
                (ChangeValue.Fields 1 (fun _ value => Int64.wrap (value + 1))))
    as Hst.
  assert (Hi : 0 <= ChangeValue.index_ (derived_ Sample.increment))
    by (cbn; lia).
  destruct (ChangeValue_neighbors 0 Sample.increment Assignment.empty
              Assignment.empty Hst Hi)
    as (op' & Hnext & _ & _ & _ & _ & _ & Hcase).
  split; [exact Hst|]. split; [exact Hi|]. exists op'.
  split; [exact Hnext|]. exact (proj2 Hcase).
Defined.

(** [SimpleLNS] with fragments of two variables on the last of three
    variables: the fragment wraps around. *)
Lemma SimpleLNS_neighbors_witness :
  staged Sample.lns
  ∧ 0 <= SimpleLNS.index_ (derived_ Sample.lns)
  ∧ ∃ op',
      MakeNextNeighbor 1 Sample.lns Assignment.empty Assignment.empty
      = Some (true, op',
              append (SimpleLNS.freed Sample.lns)
                Assignment.empty,
              Assignment.empty)
      ∧ changes_ op' = [2; 0]%nat.
Proof.
  pose proof (staged_reference (SimpleLNS.Fields 2 2)) as Hst.
  assert (Hi : 0 <= SimpleLNS.index_ (derived_ Sample.lns)) by (cbn; lia).
  destruct (SimpleLNS_neighbors 0 Sample.lns Assignment.empty
              Assignment.empty Hst Hi)
    as (op' & Hnext & _ & _ & _ & _ & _ & Hcase).
  split; [exact Hst|]. split; [exact Hi|]. exists op'.
  split; [exact Hnext|]. exact (proj2 Hcase).
Defined.
End BaseOperatorSamples.

Section CombinatorSamples.
Import CompoundOperator.
Local Open Scope Z_scope.

(** A limit of two calls with one call done: of two further calls the
    first one is forwarded, the second one refused. *)
Lemma NeighborhoodLimit_forwards_until_limit_witness :
  let inputs := [(Assignment.empty, Assignment.empty);
                 (Assignment.empty, Assignment.empty)] in
  0 <= NeighborhoodLimit.next_neighborhood_calls_ Sample.limited
    <= NeighborhoodLimit.limit_ Sample.limited
  ∧ (call_all NeighborhoodLimit.LimitMakeNextNeighbor inputs
       Sample.limited).2
    = [(true, CountingOperator.candidate 1%nat 1, Assignment.empty);
       (false, Assignment.empty, Assignment.empty)].
Proof.
  intros inputs.
  assert (Hcalls : 0 <= NeighborhoodLimit.next_neighborhood_calls_
                          Sample.limited
                   <= NeighborhoodLimit.limit_ Sample.limited)
    by (cbn; lia).
  assert (Hmax : NeighborhoodLimit.limit_ Sample.limited
                 <= Int64.kint64max) by (vm_compute; discriminate).
  pose proof (NeighborhoodLimit_forwards_until_limit inputs Sample.limited
                Hcalls Hmax) as H.
  split; [exact Hcalls|].
  exact (f_equal snd H).
Defined.

(** The compound operator with its cursor on B ranks B, C, A. *)
Lemma CompoundStart_round_robin_witness :
  (index_ Sample.compound_on_B < size_ Sample.compound_on_B)%nat
  ∧ ∃ c', CompoundStart Scenario.current Sample.compound_on_B = Some c'
          ∧ operator_indices_ c' = [1; 2; 0]%nat.
Proof.
  assert (Hi : (index_ Sample.compound_on_B
                < size_ Sample.compound_on_B)%nat) by (cbn; lia).
  split; [exact Hi|].
  destruct (CompoundStart Scenario.current Sample.compound_on_B)
    as [c'|] eqn:E; [|vm_compute in E; discriminate].
  exists c'. split; [reflexivity|].
  refine (proj1 (CompoundStart_round_robin Scenario.current 3
                   Sample.compound_on_B c' _ _ _ Hi E)).
  - intros a b. reflexivity.
  - cbn. lia.
  - reflexivity.
Defined.

(** The restarting compound operator ranks A, B, C again. *)
Lemma CompoundStart_restart_witness :
  (0 < size_ Sample.compound_restart)%nat
  ∧ ∃ c', CompoundStart Scenario.current Sample.compound_restart = Some c'
          ∧ operator_indices_ c' = [0; 1; 2]%nat.
Proof.
  assert (Hs : (0 < size_ Sample.compound_restart)%nat) by (cbn; lia).
  split; [exact Hs|].
  destruct (CompoundStart Scenario.current Sample.compound_restart)
    as [c'|] eqn:E; [|vm_compute in E; discriminate].
  exists c'. split; [reflexivity|].
  refine (proj1 (CompoundStart_restart Scenario.current
                   Sample.compound_restart c' _ _ Hs E)).
  - intros a b. reflexivity.
  - apply (bool_decide_unpack _). vm_compute. reflexivity.
Defined.

(** A sweep from B leaves A as it is. *)
Lemma CompoundMakeNextNeighbor_sweep_witness :
  ranked Sample.compound_on_B
  ∧ (index_ Sample.compound_on_B < size_ Sample.compound_on_B)%nat
  ∧ ∃ found c' delta' deltadelta',
      CompoundMakeNextNeighbor Sample.compound_on_B Assignment.empty
        Assignment.empty
      = Some (found, c', delta', deltadelta')
      ∧ untouched Sample.compound_on_B c' 0.
Proof.
  assert (Hr : ranked Sample.compound_on_B) by (split; reflexivity).
  assert (Hi : (index_ Sample.compound_on_B
                < size_ Sample.compound_on_B)%nat) by (cbn; lia).
  destruct (CompoundMakeNextNeighbor_sweep Sample.compound_on_B
              Assignment.empty Assignment.empty Hr Hi)
    as (found & c' & delta' & deltadelta' & Hnext & _ & _ & _ & Hun).
  split; [exact Hr|]. split; [exact Hi|].
  exists found, c', delta', deltadelta'. split; [exact Hnext|].
  apply Hun. left. cbn. lia.
Defined.
End CombinatorSamples.

Section FilterSamples.
Import ObjectiveFilter.
Local Open Scope Z_scope.

Lemma SumOperation_Remove_undoes_Update_witness :
  Int64.kint64min <= 5 <= Int64.kint64max
  ∧ LSOperation.Remove 3 (LSOperation.Update 3 (LSOperation.SumOperation 5))
    = LSOperation.SumOperation 5.
Proof.
  assert (H : Int64.kint64min <= 5 <= Int64.kint64max).
  { split; vm_compute; discriminate. }
  split; [exact H|].
  exact (proj1 (SumOperation_Remove_undoes_Update 5 3 H)).
Defined.

(** The filter over the four variables of the scenario, synchronised on
    10, 20, 30, 40, holds 30 for the third variable. *)
Lemma Synchronize_loads_last_witness :
  let f := IntVarLocalSearchFilter.Create Scenario.variables in
  IntVarLocalSearchFilter.indexed f
  ∧ IntVarLocalSearchFilter.vars_ f !! 2%nat = Some 2%nat
  ∧ IntVarLocalSearchFilter.Value
      (IntVarLocalSearchFilter.Synchronize Scenario.bound_values f) 2
    = 30.
Proof.
  intros f.
  assert (Hix : IntVarLocalSearchFilter.indexed f).
  { apply indexed_Create. apply (bool_decide_unpack _). vm_compute.
    reflexivity. }
  assert (Hv : IntVarLocalSearchFilter.vars_ f !! 2%nat = Some 2%nat)
    by reflexivity.
  destruct (Synchronize_loads_last Scenario.bound_values f 2 2%nat Hix Hv)
    as (_ & _ & _ & Hlast).
  split; [exact Hix|]. split; [exact Hv|].
  apply (Hlast [IntVarElement.Build 0%nat 10 true;
            IntVarElement.Build 1%nat 20 true]
           (IntVarElement.Build 2%nat 30 true)
           [IntVarElement.Build 3%nat 40 true]).
  - reflexivity.
  - reflexivity.
  - intros e' He'. apply list_elem_of_singleton in He' as ->. cbn. lia.
Defined.

(** A rejected delta leaves the synchronised part of the filter of the
    scenario as it is. *)
Lemma Accept_keeps_synchronized_witness :
  let solver := {| Min := λ _, 0; Max := λ _, 100 |} in
  let f := Synchronize Scenario.bound_values (Scenario.sum_le_filter 0) in
  ∃ f', Accept solver (Some (Scenario.change 2%nat 31)) Assignment.empty f
        = Some (false, f')
        ∧ synchronized_part f' = synchronized_part f.
Proof.
  intros solver f.
  destruct (Accept solver (Some (Scenario.change 2%nat 31))
              Assignment.empty f) as [[[] f']|] eqn:E;
    [vm_compute in E; discriminate| |vm_compute in E; discriminate].
  exists f'. split; [reflexivity|].
  exact (Accept_keeps_synchronized solver _ _ f f' false E).
Defined.

(** The delta [var2 := 31] on the filter of the scenario: the value is
    100 + (31 - 30). *)
Lemma Accept_sum_value_witness :
  let solver := {| Min := λ _, 0; Max := λ _, 100 |} in
  let f := Synchronize Scenario.bound_values (Scenario.sum_le_filter 0) in
  op_ f = LSOperation.SumOperation 100
  ∧ ∃ f', Accept solver (Some (Scenario.change 2%nat 31)) Assignment.empty f
          = Some (false, f')
          ∧ old_delta_value_ f' = 101.
Proof.
  intros solver f.
  assert (Hop : op_ f = LSOperation.SumOperation 100)
    by (vm_compute; reflexivity).
  destruct (Accept_sum_value solver (Scenario.change 2%nat 31) f 100 Hop)
    as (f' & Hacc & Hval & _).
  - split; vm_compute; [discriminate|reflexivity].
  - discriminate.
  - split; [exact Hop|]. exists f'. split; [exact Hacc|exact Hval].
Defined.

(** Synchronising the filter of the scenario on 10, 20, 30, 40. *)
Lemma Synchronize_sum_witness :
  let f := Scenario.sum_le_filter 7 in
  op_ f = LSOperation.SumOperation 0
  ∧ old_value_ (Synchronize Scenario.bound_values f) = 100.
Proof.
  intros f.
  assert (Hop : op_ f = LSOperation.SumOperation 0) by reflexivity.
  destruct (Synchronize_sum Scenario.bound_values f 0 Hop)
    as (_ & _ & Hold & _); [reflexivity|reflexivity|].
  split; [exact Hop|]. rewrite Hold. vm_compute. reflexivity.
Defined.
End FilterSamples.

Section MoveTowardTargetSamples.
Import IntVarLocalSearchOperator MoveTowardTargetLS.
Local Open Scope Z_scope.

(** With the cursor on the last of the variables 5, 6, 7 and the target
    5, 8, 7, the scan passes the first variable and stops on the
    second. *)
Lemma MoveTowardTarget_scan_witness :
  0 <= variable_index_ (derived_ Sample.toward)
    < Z.of_nat (Size Sample.toward)
  ∧ rounds_left Sample.toward <= 3
  ∧ ∃ op', MoveTowardTargetLS.MakeOneNeighbor 3 Sample.toward
           = Some (true, op').
Proof.
  assert (Hi : 0 <= variable_index_ (derived_ Sample.toward)
               < Z.of_nat (Size Sample.toward)) by (cbn; lia).
  assert (Hr : rounds_left Sample.toward <= 3) by (vm_compute; discriminate).
  destruct (MoveTowardTarget_scan 3 Sample.toward Hi)
    as (found & op' & Hnext & Hcase); [cbn; lia|exact Hr|].
  split; [exact Hi|]. split; [exact Hr|].
  destruct found.
  - exists op'. exact Hnext.
  - exfalso. destruct Hcase as [Hall _].
    pose proof (Hall 2 ltac:(vm_compute; split; discriminate)) as H.
    vm_compute in H. discriminate.
Defined.
End MoveTowardTargetSamples.

Section PathSamples.
Import IntVarLocalSearchOperator PathOperator.
Local Open Scope Z_scope.

(** Discharges a statement about a node below 6 of a sample path. *)
Ltac on_node i Hi :=
  let H := fresh in
  assert (H : i = 0 ∨ i = 1 ∨ i = 2 ∨ i = 3 ∨ i = 4 ∨ i = 5) by lia;
  destruct H as [->|[->|[->|[->|[->| ->]]]]];
  first [exfalso; lia
        |vm_compute; first [reflexivity|discriminate|congruence]].

(** Discharges a statement about a step below 4 of a walk. *)
Ltac on_step j Hj :=
  destruct j as [|[|[|[|j]]]]; try lia;
  vm_compute; first [reflexivity|discriminate|congruence].

Lemma path_next_vector {Y : Type} (y : Y) : next_vector (Sample.path y).
Proof.
  split; [vm_compute; discriminate|].
  intros i Hi. change (number_of_nexts (Sample.path y)) with 5 in Hi.
  on_node i Hi.
Qed.

Lemma path_holds_nexts {Y : Type} (y : Y) : holds_nexts (Sample.path y).
Proof. unfold holds_nexts. vm_compute. lia. Qed.

Lemma path_chain {Y : Type} (y : Y) (m : nat) :
  (m <= 3)%nat → chain (Sample.path y) 0 (Z.of_nat m) m.
Proof.
  intros Hm. split; [|split].
  - on_step m Hm.
  - intros j Hj.
    destruct m as [|[|[|[|m]]]]; try lia; on_step j Hj.
  - intros j Hj. assert (Hj' : (j < 4)%nat) by lia. on_step j Hj'.
Qed.

(** Reversing the chain from 0 to 3 on the route 0 -> 1 -> 2 -> 3 gives
    0 -> 2 -> 1 -> 3. *)
Lemma ReverseChain_reverses_witness :
  chain Sample.exchange 0 3 3
  ∧ ∃ op', ReverseChain Sample.exchange 0 3 = Some (true, op', Some 2)
           ∧ walk op' 0 1 = 2 ∧ walk op' 0 2 = 1 ∧ walk op' 0 3 = 3.
Proof.
  pose proof (path_chain tt 3 ltac:(lia)) as Hch.
  split; [exact Hch|].
  pose proof (ReverseChain_reverses Sample.exchange 0 3 3
                (path_next_vector tt) ltac:(lia) (path_holds_nexts tt) Hch
                ltac:(lia)) as H.
  rewrite decide_False in H by lia.
  destruct H as (op' & Hrev & Hw & Hlast & _).
  exists op'. split; [exact Hrev|].
  split; [exact (Hw 1%nat ltac:(lia))|].
  split; [exact (Hw 2%nat ltac:(lia))|exact Hlast].
Defined.

(** Moving the chain 1 -> 2 after node 3 gives 0 -> 3 -> 1 -> 2 -> 4. *)
Lemma MoveChain_contract_witness :
  next_vector Sample.exchange
  ∧ holds_nexts Sample.exchange
  ∧ ∃ op', MoveChain Sample.exchange 0 2 3 = Some (true, op')
           ∧ Next op' 0 = 3 ∧ Next op' 3 = 1 ∧ Next op' 2 = 4.
Proof.
  split; [exact (path_next_vector tt)|].
  split; [exact (path_holds_nexts tt)|].
  destruct (MoveChain_contract Sample.exchange 0 2 3 (path_next_vector tt)
              ltac:(lia) (path_holds_nexts tt)) as [_ Hmove].
  destruct (Hmove 2%nat (path_chain tt 2 ltac:(lia)))
    as (op' & Hop & Nb & Nd & Ne & _).
  - lia.
  - reflexivity.
  - lia.
  - reflexivity.
  - intros j Hj. on_step j Hj.
  - exists op'. split; [exact Hop|].
    split; [exact Nb|]. split; [exact Nd|exact Ne].
Defined.

(** Taking node 1 out of the route. *)
Lemma MakeChainInactive_deactivates_witness :
  chain Sample.exchange 0 2 2
  ∧ ∃ op', MakeChainInactive Sample.exchange 0 1 = Some (true, op')
           ∧ Next op' 0 = 2 ∧ Next op' 1 = 1.
Proof.
  pose proof (path_chain tt 2 ltac:(lia)) as Hch.
  split; [exact Hch|].
  destruct (MakeChainInactive_deactivates Sample.exchange 0 2 1
              (path_next_vector tt) ltac:(lia) (path_holds_nexts tt) Hch
              ltac:(lia)) as (op' & Hop & Nb & Hself & _).
  exists op'. split; [exact Hop|]. split; [exact Nb|].
  exact (Hself 1%nat ltac:(lia)).
Defined.

(** Taking node 1 out of the route and putting it back after node 0. *)
Lemma MakeActive_undoes_MakeChainInactive_witness :
  chain Sample.exchange 0 2 2
  ∧ ∃ op1 op2,
      MakeChainInactive Sample.exchange 0 1 = Some (true, op1)
      ∧ MakeActive op1 1 0 = (true, op2)
      ∧ same_nexts_but (λ _, False) Sample.exchange op2.
Proof.
  pose proof (path_chain tt 2 ltac:(lia)) as Hch.
  split; [exact Hch|].
  exact (MakeActive_undoes_MakeChainInactive Sample.exchange 0 2
           (path_next_vector tt) ltac:(lia) (path_holds_nexts tt) Hch).
Defined.

(** [TwoOpt] with its base nodes on 0 and 2: the first move reverses the
    chain of the single node 1, the second one, with the second base node
    on 3, gives 0 -> 2 -> 1 -> 3. *)
Lemma TwoOpt_extends_reversal_witness :
  chain (RevertChanges false Sample.two_opt) 0 3 3
  ∧ ∃ op1 op2,
      TwoOpt.MakeNeighbor Sample.two_opt = Some (true, op1)
      ∧ TwoOpt.MakeNeighbor (RevertChanges true (set_base_node 1 3 op1))
        = Some (true, op2)
      ∧ walk op2 0 1 = 2 ∧ walk op2 0 2 = 1 ∧ walk op2 0 3 = 3.
Proof.
  pose proof (path_chain (TwoOpt.Fields (-1) (-1)) 3 ltac:(lia)) as Hch.
  split; [exact Hch|].
  destruct (TwoOpt_extends_reversal Sample.two_opt 3 2)
    as (op1 & op2 & H1 & _ & _ & H2 & Hw & Hlast & _).
  - reflexivity.
  - exact (path_next_vector (TwoOpt.Fields (-1) (-1))).
  - vm_compute. discriminate.
  - exact (path_holds_nexts (TwoOpt.Fields (-1) (-1))).
  - exact Hch.
  - lia.
  - reflexivity.
  - exists op1, op2. split; [exact H1|]. split; [exact H2|].
    split; [exact (Hw 1%nat ltac:(lia))|].
    split; [exact (Hw 2%nat ltac:(lia))|exact Hlast].
Defined.

(** [Relocate] of chains of one node, with its base nodes on 0 and 2:
    node 1 goes after node 2. *)
Lemma Relocate_moves_chain_witness :
  chain Sample.relocate 0 1 1
  ∧ ∃ op', Relocate.MakeNeighbor Sample.relocate = Some (true, op')
           ∧ Next op' 0 = 2 ∧ Next op' 2 = 1 ∧ Next op' 1 = 3.
Proof.
  pose proof (path_chain (Relocate.Fields 1 false) 1 ltac:(lia)) as Hch.
  split; [exact Hch|].
  destruct (Relocate_moves_chain Sample.relocate) as [_ Hmove].
  - by left.
  - exact (path_next_vector (Relocate.Fields 1 false)).
  - vm_compute. discriminate.
  - exact (path_holds_nexts (Relocate.Fields 1 false)).
  - destruct (Hmove Hch) as (op' & Hop & Nb & Nd & Ne & _).
    + vm_compute. lia.
    + reflexivity.
    + vm_compute. discriminate.
    + reflexivity.
    + intros j Hj.
      change (Z.to_nat (Relocate.chain_length_
                          (sub_ (derived_ Sample.relocate))))
        with 1%nat in Hj.
      on_step j Hj.
    + exists op'. split; [exact Hop|].
      split; [exact Nb|]. split; [exact Nd|exact Ne].
Defined.

(** [Exchange] with its base nodes on 0 and 2: the nodes 1 and 3 change
    places. *)
Lemma Exchange_swaps_witness :
  NoDup [0; 1; 2; 3]
  ∧ ∃ op', Exchange.MakeNeighbor Sample.exchange = Some (true, op')
           ∧ Next op' 0 = 3 ∧ Next op' 3 = 2
           ∧ Next op' 2 = 1 ∧ Next op' 1 = 4.
Proof.
  assert (Hnd : NoDup [0; 1; 2; 3]).
  { apply (bool_decide_unpack _). vm_compute. reflexivity. }
  split; [exact Hnd|].
  destruct (Exchange_swaps Sample.exchange (path_next_vector tt)
              (path_holds_nexts tt))
    as (op' & Hop & N0 & N1 & N2 & N3 & _);
    [vm_compute; discriminate|vm_compute; discriminate
    |reflexivity|reflexivity|reflexivity|reflexivity|exact Hnd|].
  exists op'. split; [exact Hop|]. split; [exact N0|].
  split; [exact N1|]. split; [exact N2|exact N3].
Defined.

Lemma swap_active_next_vector : next_vector Sample.swap_active.
Proof.
  split; [vm_compute; discriminate|].
  intros i Hi. change (number_of_nexts Sample.swap_active) with 6 in Hi.
  on_node i Hi.
Qed.

Lemma swap_active_chain : chain Sample.swap_active 0 2 2.
Proof.
  split; [reflexivity|split]; intros j Hj; on_step j Hj.
Qed.

(** [SwapActiveOperator] with its base node on 0 and the inactive node
    5: node 5 takes the place of node 1. *)
Lemma SwapActive_swaps_witness :
  chain Sample.swap_active 0 2 2
  ∧ ∃ op', SwapActiveOperator.MakeNeighbor Sample.swap_active
           = Some (true, op')
           ∧ Next op' 0 = 5 ∧ Next op' 5 = 2 ∧ Next op' 1 = 1.
Proof.
  split; [exact swap_active_chain|].
  destruct (SwapActive_swaps Sample.swap_active 2 swap_active_next_vector)
    as (op' & Hop & Nb & Ny & Nx & _).
  - vm_compute. discriminate.
  - unfold holds_nexts. vm_compute. lia.
  - exact swap_active_chain.
  - vm_compute. split; [discriminate|reflexivity].
  - vm_compute. discriminate.
  - exists op'. split; [exact Hop|]. split; [exact Nb|].
    split; [exact Ny|]. apply Nx. vm_compute. discriminate.
Defined.

(** On the route 0 -> 1 -> 2 -> 3 -> 4 -> 5, node 0 is a path start. *)
Lemma InitializePathStarts_no_predecessor_witness :
  (∀ j, 0 <= j < number_of_nexts Sample.exchange →
        0 <= OldNext Sample.exchange j)
  ∧ 0 ∈ path_starts_ (derived_ (InitializePathStarts Sample.exchange)).
Proof.
  assert (Hpos : ∀ j, 0 <= j < number_of_nexts Sample.exchange →
                      0 <= OldNext Sample.exchange j).
  { intros j Hj. change (number_of_nexts Sample.exchange) with 5 in Hj.
    on_node j Hj. }
  split; [exact Hpos|].
  destruct (InitializePathStarts_no_predecessor Sample.exchange Hpos)
    as [_ Hin].
  apply Hin. split; [vm_compute; split; [discriminate|reflexivity]|].
  intros j Hj. change (number_of_nexts Sample.exchange) with 5 in Hj.
  on_node j Hj.
Defined.
End PathSamples.
